(** * graphile-crystal: the plan-graph compiler and its executor (aether.ts)

    A shallow embedding of the parts of [Aether] that own the plan table
    (adding plans, validation, deduplication, optimisation, tree shaking),
    of the common-ancestor assignment, and of the executor's per-plan
    bookkeeping, followed by the properties proved about them. *)

From stdpp Require Import gmap strings list fin_maps pretty.
From Stdlib Require Import ZArith.

Open Scope string_scope.
Open Scope list_scope.
Open Scope nat_scope.

#[global] Set Warnings "-clear-no-such-hyp,-register-all".

(** ** Values shared by the whole development *)

(** What a JavaScript [throw] carries.  [RangeError] is the engine's
    "Maximum call stack size exceeded". *)
Inductive Exception :=
| TypeError (what : string)
| AssertionError (message : string)
| Error (message : string)
| GraphileInternalError (uuid : string)
| RangeError.

Inductive Result (A : Type) :=
| Ok (a : A)
| Throw (e : Exception).
Arguments Ok {A} a.
Arguments Throw {A} e.

#[global] Instance Exception_eq_dec : EqDecision Exception.
Proof. solve_decision. Defined.

(** [type AetherPhase] *)
Inductive AetherPhase :=
| PhaseInit | PhasePlan | PhaseValidate | PhaseDeduplicate
| PhaseOptimize | PhaseFinalize | PhaseReady.

#[global] Instance AetherPhase_eq_dec : EqDecision AetherPhase.
Proof. solve_decision. Defined.

Definition phaseName (p : AetherPhase) : string :=
  match p with
  | PhaseInit => "init" | PhasePlan => "plan" | PhaseValidate => "validate"
  | PhaseDeduplicate => "deduplicate" | PhaseOptimize => "optimize"
  | PhaseFinalize => "finalize" | PhaseReady => "ready"
  end.

(** The classes a plan object can be an instance of, as far as the compiler
    tells them apart ([instanceof], [constructor]). *)
Inductive PlanClass :=
| __ValuePlan | __TrackedObjectPlan | __ItemPlan | __ListTransformPlan
| UserPlan (className : string).

#[global] Instance PlanClass_eq_dec : EqDecision PlanClass.
Proof. solve_decision. Defined.

(** The value of an enumerable property of a plan object: either another
    [ExecutablePlan] object (named by its id) or anything else. *)
Inductive PropertyValue :=
| PlanReference (planId : string)
| PlainValue.

(** Modelled from the spec: the [ExecutablePlan] class (plan.ts) is not among
    the sources.  Section 3 gives a plan a stable string id as its identity, an
    ordered list of dependency ids, [sync], [hasSideEffects],
    [parentPathIdentity] and [commonAncestorPathIdentity].  A plan object lives in the store [objects] of the
    aether under its own id (the constructor receives it from [_addPlan]), so
    the record carries every field but [id]; comparing two plan objects with
    [===] is comparing their ids. *)
Record ExecutablePlan := {
  constructor_ : PlanClass;
  dependencies : list string;
  hasSideEffects : bool;
  sync : bool;
  parentPathIdentity : string;
  commonAncestorPathIdentity : string;
  properties : list (string * PropertyValue);
}.

Record StreamOptions := { initialCount : nat }.
Record PlanOptions := { stream : option StreamOptions }.

(** The fields of [class Aether] that the modelled methods read or write.
    [plans] is the JavaScript object [{ [key: string]: ExecutablePlan }]: its
    keys in insertion order, each slot holding a plan object (by id) or
    [null]. *)
Record Aether := {
  phase : AetherPhase;
  planCount : nat;
  plans : list (string * option string);
  objects : gmap string ExecutablePlan;
  optimizedPlans : gset string;
  planOptionsByPlan : gmap string PlanOptions;
  subscriptionPlanId : option string;
  subscriptionItemPlanId : option string;
  planIdByPathIdentity : list (string * string);
  itemPlanIdByFieldPathIdentity : list (string * string);
  sideEffectPlanIdsByPathIdentity : list (string * list string);
  transformDependencyPlanIdByTransformPlanId : list (string * string);
}.

(** Calls into plan classes that the compiler makes, in the order made. *)
Inductive Event :=
| CallDeduplicate (plan : string) (peers : list string)
| CallOptimize (plan : string) (streamOptions : option StreamOptions)
| CallFinalizeArguments (plan : string)
| ConsoleError (message : string)
| ConsoleWarn (message : string).

(** ** JavaScript objects used as ordered maps *)

Fixpoint lookupKey {V : Type} (k : string) (o : list (string * V)) : option V :=
  match o with
  | [] => None
  | (k', v) :: o' => if String.eqb k' k then Some v else lookupKey k o'
  end.

(** [o[k] = v]: an existing key keeps its place, a new key goes last. *)
Fixpoint assignKey {V : Type} (k : string) (v : V) (o : list (string * V))
  : list (string * V) :=
  match o with
  | [] => [(k, v)]
  | (k', v') :: o' =>
      if String.eqb k' k then (k', v) :: o' else (k', v') :: assignKey k v o'
  end.

(** [this.plans[id]]; [undefined] and [null] are both falsy and both throw
    on property access, so the two are merged into [None]. *)
Definition planAt (table : list (string * option string)) (i : string)
  : option string :=
  match lookupKey i table with
  | Some (Some p) => Some p
  | _ => None
  end.

(** ** The monad of compiler methods: state, exceptions and a call log *)

Definition M (A : Type) : Type := Aether → Result A * Aether * list Event.

Definition ret {A} (a : A) : M A := λ s, (Ok a, s, []).

Definition throw {A} (e : Exception) : M A := λ s, (Throw e, s, []).

Definition bind {A B} (m : M A) (f : A → M B) : M B :=
  λ s, match m s with
       | (Ok a, s1, w1) => let '(r, s2, w2) := f a s1 in (r, s2, w1 ++ w2)
       | (Throw e, s1, w1) => (Throw e, s1, w1)
       end.

Notation "'let*' x ':=' m 'in' k" := (bind m (λ x, k))
  (at level 10, x pattern, m at level 200, k at level 200,
   format "'[v' 'let*'  x  ':='  m  'in' '/' k ']'").
Notation "m ;; k" := (bind m (λ _, k))
  (at level 100, k at level 200, right associativity).

Definition get : M Aether := λ s, (Ok s, s, []).
Definition gets {A} (f : Aether → A) : M A := λ s, (Ok (f s), s, []).
Definition emit (e : Event) : M unit := λ s, (Ok tt, s, [e]).

Definition setPhase (p : AetherPhase) : M unit := λ s,
  (Ok tt, {| phase := p; planCount := planCount s; plans := plans s;
             objects := objects s; optimizedPlans := optimizedPlans s;
             planOptionsByPlan := planOptionsByPlan s;
             subscriptionPlanId := subscriptionPlanId s;
             subscriptionItemPlanId := subscriptionItemPlanId s;
             planIdByPathIdentity := planIdByPathIdentity s;
             itemPlanIdByFieldPathIdentity := itemPlanIdByFieldPathIdentity s;
             sideEffectPlanIdsByPathIdentity := sideEffectPlanIdsByPathIdentity s;
             transformDependencyPlanIdByTransformPlanId :=
               transformDependencyPlanIdByTransformPlanId s |}, []).

Definition withPlans (f : list (string * option string) → list (string * option string))
  (s : Aether) : Aether :=
  {| phase := phase s; planCount := planCount s; plans := f (plans s);
     objects := objects s; optimizedPlans := optimizedPlans s;
     planOptionsByPlan := planOptionsByPlan s;
     subscriptionPlanId := subscriptionPlanId s;
     subscriptionItemPlanId := subscriptionItemPlanId s;
     planIdByPathIdentity := planIdByPathIdentity s;
     itemPlanIdByFieldPathIdentity := itemPlanIdByFieldPathIdentity s;
     sideEffectPlanIdsByPathIdentity := sideEffectPlanIdsByPathIdentity s;
     transformDependencyPlanIdByTransformPlanId :=
       transformDependencyPlanIdByTransformPlanId s |}.

Definition setPlans (t : list (string * option string)) : M unit :=
  λ s, (Ok tt, withPlans (λ _, t) s, []).

(** [new SomePlan()] followed by the registration its constructor performs:
    the object is stored and the counter advanced. *)
Definition registerPlan (planId : string) (plan : ExecutablePlan) (s : Aether)
  : Aether :=
  {| phase := phase s; planCount := S (planCount s);
     plans := assignKey planId (Some planId) (plans s);
     objects := <[planId := plan]> (objects s);
     optimizedPlans := optimizedPlans s;
     planOptionsByPlan := planOptionsByPlan s;
     subscriptionPlanId := subscriptionPlanId s;
     subscriptionItemPlanId := subscriptionItemPlanId s;
     planIdByPathIdentity := planIdByPathIdentity s;
     itemPlanIdByFieldPathIdentity := itemPlanIdByFieldPathIdentity s;
     sideEffectPlanIdsByPathIdentity := sideEffectPlanIdsByPathIdentity s;
     transformDependencyPlanIdByTransformPlanId :=
       transformDependencyPlanIdByTransformPlanId s |}.

Definition addOptimized (p : string) : M unit := λ s,
  (Ok tt, {| phase := phase s; planCount := planCount s; plans := plans s;
             objects := objects s; optimizedPlans := {[p]} ∪ optimizedPlans s;
             planOptionsByPlan := planOptionsByPlan s;
             subscriptionPlanId := subscriptionPlanId s;
             subscriptionItemPlanId := subscriptionItemPlanId s;
             planIdByPathIdentity := planIdByPathIdentity s;
             itemPlanIdByFieldPathIdentity := itemPlanIdByFieldPathIdentity s;
             sideEffectPlanIdsByPathIdentity := sideEffectPlanIdsByPathIdentity s;
             transformDependencyPlanIdByTransformPlanId :=
               transformDependencyPlanIdByTransformPlanId s |}, []).

(** [this.plans[i]] *)
Definition slot (i : string) : M (option string) :=
  gets (λ s, planAt (plans s) i).

(** Reading a field of the plan object [p]. *)
Definition object (p : string) : M ExecutablePlan := λ s,
  match objects s !! p with
  | Some o => (Ok o, s, [])
  | None => (Throw (TypeError "no such plan object"), s, [])
  end.

(** [for (const x of xs) body(x)] with the loop's variables threaded in [acc]. *)
Fixpoint forEach {A B} (xs : list A) (acc : B) (body : A → B → M B) : M B :=
  match xs with
  | [] => ret acc
  | x :: xs' => let* acc' := body x acc in forEach xs' acc' body
  end.

(** [private getPlanIds(offset = 0)] *)
Definition getPlanIds (offset : nat) : M (list string) :=
  gets (λ s, drop offset (map fst (plans s))).

(** ** [_addPlan] *)

(** [["plan", "validate", "deduplicate", "optimize"]] *)
Definition planCreationPhases : list AetherPhase :=
  [PhasePlan; PhaseValidate; PhaseDeduplicate; PhaseOptimize].


(** [public _addPlan(plan: ExecutablePlan): string] *)
Definition _addPlan (plan : ExecutablePlan) : M string := λ s,
  if bool_decide (phase s ∈ planCreationPhases)
  then
    let planId := "_" +:+ pretty (S (planCount s)) in
    (Ok planId, registerPlan planId plan s, [])
  else
    (Throw (Error ("Creating a plan during the '" +:+ phaseName (phase s)
                   +:+ "' phase is forbidden.")), s, []).

(** Helpers for writing down concrete aethers. *)
Definition emptyAether (ph : AetherPhase) : Aether :=
  {| phase := ph; planCount := 0; plans := []; objects := ∅;
     optimizedPlans := ∅; planOptionsByPlan := ∅;
     subscriptionPlanId := None; subscriptionItemPlanId := None;
     planIdByPathIdentity := [];
     itemPlanIdByFieldPathIdentity := [];
     sideEffectPlanIdsByPathIdentity := [];
     transformDependencyPlanIdByTransformPlanId := [] |}.

Definition leafPlan (cls : PlanClass) (deps : list string) : ExecutablePlan :=
  {| constructor_ := cls; dependencies := deps; hasSideEffects := false;
     sync := true; parentPathIdentity := ""; commonAncestorPathIdentity := "";
     properties := [] |}.


(** ** The field tree

    [interface TreeNode].  The functions modelled here climb from a node to
    its ancestors and never read [children], so a node value carries its
    chain of parents; [nodeId] stands for the identity of the object, and two
    values are the same object when they are equal. *)
Inductive TreeNode :=
| mkTreeNode (nodeId : nat) (fieldPathIdentity pathIdentity : string)
    (groupIds : list nat) (parent : option TreeNode).

Definition nodeId (n : TreeNode) : nat :=
  match n with mkTreeNode i _ _ _ _ => i end.
Definition fieldPathIdentity (n : TreeNode) : string :=
  match n with mkTreeNode _ f _ _ _ => f end.
Definition pathIdentity (n : TreeNode) : string :=
  match n with mkTreeNode _ _ p _ _ => p end.
Definition groupIds (n : TreeNode) : list nat :=
  match n with mkTreeNode _ _ _ g _ => g end.
Definition parent (n : TreeNode) : option TreeNode :=
  match n with mkTreeNode _ _ _ _ p => p end.

Fixpoint TreeNode_eqb (a b : TreeNode) : bool :=
  match a, b with
  | mkTreeNode i f p g pa, mkTreeNode i' f' p' g' pb =>
      Nat.eqb i i' && String.eqb f f' && String.eqb p p'
      && bool_decide (g = g')
      && match pa, pb with
         | Some x, Some y => TreeNode_eqb x y
         | None, None => true
         | _, _ => false
         end
  end.

(** ** What the compiler is handed from outside

    The methods of the concrete plan classes ([deduplicate], [optimize],
    [finalizeArguments], the item plan a list transform builds) are plug-in
    code: they run inside the aether, may create plans through [_addPlan] and
    may throw.  [assignGroupIds], which [validatePlans] ends with, is taken
    as given in the compiler passes; the method itself is modelled further
    down with the walk of the field tree.  [isDev] is [process.env.GRAPHILE_ENV === "development"] and
    [stack] the number of nested calls the engine affords before it throws
    a RangeError. *)

Definition Oracle (A : Type) : Type := Aether → Result A * Aether.

Class Host := {
  isDev : bool;
  stack : nat;
  deduplicate : string → list string → Oracle string;
  optimize : string → option StreamOptions → Oracle string;
  finalizeArguments : string → Oracle unit;
  listTransformItemPlan : string → string → Oracle string;
  assignGroupIds : nat → Oracle unit;
}.

Definition call {A} (o : Oracle A) : M A :=
  λ s, let '(r, s') := o s in (r, s', []).

Definition liftResult {A} (r : Result A) : M A := λ s, (r, s, []).

Definition ROOT_PATH : string := "~".

(** ** [validatePlans] *)

Definition newline : string :=
  String (Ascii.Ascii false true false true false false false false) "".

Definition illegalReference (plan key val : string) : Exception :=
  Error ("ERROR: ExecutablePlan " +:+ plan
         +:+ " has illegal reference via property '" +:+ key
         +:+ "' to plan " +:+ val
         +:+ ". You must not reference plans directly, instead use the plan id to reference the plan, and look the plan up in `this.aether.plans[planId]`. Failure to comply could result in subtle breakage during optimisation.").

(** The body of [for (const key in plan)]: one error per property whose
    value is an [ExecutablePlan]. *)
Definition referenceErrors (plan : string) (o : ExecutablePlan) : list Exception :=
  omap (λ kv, match kv.2 with
              | PlanReference val => Some (illegalReference plan kv.1 val)
              | PlainValue => None
              end) (properties o).

Definition exceptionMessage (e : Exception) : string :=
  match e with
  | TypeError m | AssertionError m | Error m | GraphileInternalError m => m
  | RangeError => "Maximum call stack size exceeded"
  end.

(** [private validatePlans(offset = 0): void] *)
Definition validatePlans `{Host} (offset : nat) : M unit :=
  let* ids := getPlanIds offset in
  let* errors :=
    forEach ids [] (λ id errors,
      let* plan := slot id in
      match plan with
      | Some p =>
          let* o := object p in
          let referencingPlanIsAllowed :=
            bool_decide (constructor_ o = __TrackedObjectPlan) in
          if referencingPlanIsAllowed then ret errors
          else ret (errors ++ referenceErrors p o)
      | None => ret errors
      end) in
  match errors with
  | e :: _ =>
      emit (ConsoleError (String.concat newline
                            (map exceptionMessage errors))) ;;
      throw e
  | [] => call (assignGroupIds offset)
  end.

(** ** [isPeer] and [deduplicatePlan] *)

(** Modelled from the spec: [arraysMatch] (utils.ts) is not among the
    sources; section 4.2 asks for "pairwise-identical dependency identity":
    equal lengths and the comparator true at every index. *)
Fixpoint arraysMatch {A} (a b : list A) (cmp : A → A → bool) : bool :=
  match a, b with
  | [], [] => true
  | x :: a', y :: b' => cmp x y && arraysMatch a' b' cmp
  | _, _ => false
  end.

(** [private isPeer(planA, planB): boolean] *)
Definition isPeer (s : Aether) (planA planB : ExecutablePlan) : bool :=
  if negb (bool_decide (constructor_ planA = constructor_ planB)) then false
  else if negb (String.eqb (parentPathIdentity planA) (parentPathIdentity planB))
  then false
  else if negb (arraysMatch (dependencies planA) (dependencies planB)
                  (λ depA depB,
                     bool_decide (lookupKey depA (plans s) = lookupKey depB (plans s))))
  then false
  else true.

(** The [filter] over [Object.entries(this.plans)] with its [seenIds]. *)
Fixpoint findPeers (s : Aether) (plan : ExecutablePlan)
  (entries : list (string * option string)) (seenIds : gset string)
  : Result (list string) :=
  match entries with
  | [] => Ok []
  | (id, None) :: rest => findPeers s plan rest seenIds
  | (id, Some potentialPeer) :: rest =>
      match objects s !! potentialPeer with
      | None => Throw (TypeError "no such plan object")
      | Some o =>
          if String.eqb potentialPeer id
             && negb (hasSideEffects o)
             && negb (bool_decide (potentialPeer ∈ seenIds))
             && isPeer s plan o
          then match findPeers s plan rest ({[potentialPeer]} ∪ seenIds) with
               | Ok peers => Ok (potentialPeer :: peers)
               | Throw e => Throw e
               end
          else findPeers s plan rest seenIds
      end
  end.

(** [!!planOptions?.stream] *)
Definition shouldStream (s : Aether) (plan : string) : bool :=
  match planOptionsByPlan s !! plan with
  | Some planOptions => bool_decide (is_Some (stream planOptions))
  | None => false
  end.

(** [private deduplicatePlan(plan: ExecutablePlan): ExecutablePlan] *)
Definition deduplicatePlan `{Host} (plan : string) : M string :=
  let* o := object plan in
  if hasSideEffects o then ret plan
  else
    let* streaming := gets (λ s, shouldStream s plan) in
    if streaming then ret plan
    else
      let* found := gets (λ s, findPeers s o (plans s) {[plan]}) in
      let* peers := liftResult found in
      match peers with
      | [] => ret plan
      | _ =>
          emit (CallDeduplicate plan peers) ;;
          let* replacementPlan := call (deduplicate plan peers) in
          if bool_decide (replacementPlan ≠ plan) then
            if bool_decide (replacementPlan ∈ peers) then ret replacementPlan
            else throw (Error ("deduplicatePlan error: Expected to replace plan " +:+ plan
                               +:+ " with one of its (identical) peers; instead found "
                               +:+ replacementPlan
                               +:+ ". This is currently forbidden because it could cause confusion during the optimization process, instead apply this change in 'optimize', or make sure that any child selections aren't applied until the optimize/finalize phase so that no mapping is required during deduplicate."))
          else ret replacementPlan
      end.

(** ** [optimizePlan] *)

(** [private optimizePlan(plan: ExecutablePlan): ExecutablePlan] *)
Definition optimizePlan `{Host} (plan : string) : M string :=
  let* optimized := gets optimizedPlans in
  if bool_decide (plan ∈ optimized) then throw (Error "Must not optimize plan twice")
  else
    let* options := gets (λ s, planOptionsByPlan s !! plan) in
    let streamOptions := match options with Some o => stream o | None => None end in
    emit (CallOptimize plan streamOptions) ;;
    let* replacementPlan := call (optimize plan streamOptions) in
    addOptimized plan ;;
    ret replacementPlan.

(** ** [markPlanActive] and [treeShakePlans] *)

(** What the engine throws when [dependencies] is read of a missing plan;
    [undefined] and [null] are one value here, and the message names the
    former. *)
Definition nullDereference : Exception :=
  TypeError "Cannot read properties of undefined (reading 'dependencies')".

(** [for (...) this.markPlanActive(this.plans[id], activePlans)] with the
    recursive call passed in. *)
Fixpoint markAll (mark : option string → gset string → Result (gset string))
  (table : list (string * option string)) (ids : list string)
  (activePlans : gset string) : Result (gset string) :=
  match ids with
  | [] => Ok activePlans
  | id :: ids' =>
      match mark (planAt table id) activePlans with
      | Ok activePlans' => markAll mark table ids' activePlans'
      | Throw e => Throw e
      end
  end.

(** [private markPlanActive(plan, activePlans): void]; [stackLeft] bounds
    the nesting of the recursion. *)
Fixpoint markPlanActive (stackLeft : nat) (s : Aether) (plan : option string)
  (activePlans : gset string) : Result (gset string) :=
  match plan with
  | None => Throw nullDereference
  | Some p =>
      if bool_decide (p ∈ activePlans) then Ok activePlans
      else
        match stackLeft with
        | 0 => Throw RangeError
        | S stackLeft' =>
            match objects s !! p with
            | None => Throw (TypeError "no such plan object")
            | Some o =>
                markAll (markPlanActive stackLeft' s) (plans s)
                  (dependencies o) ({[p]} ∪ activePlans)
            end
        end
  end.

(** One of the seed loops of [treeShakePlans]; [asserted] says whether the
    loop has [if (isDev) assert.ok(plan, ...)] before the call. *)
Fixpoint markSeeds `{Host} (asserted : bool) (s : Aether) (planIds : list string)
  (activePlans : gset string) : Result (gset string) :=
  match planIds with
  | [] => Ok activePlans
  | planId :: planIds' =>
      let plan := planAt (plans s) planId in
      if isDev && asserted && bool_decide (plan = None)
      then Throw (AssertionError ("Could not find plan for identifier '" +:+ planId +:+ "'"))
      else match markPlanActive stack s plan activePlans with
           | Ok activePlans' => markSeeds asserted s planIds' activePlans'
           | Throw e => Throw e
           end
  end.

(** The plan ids the four seed loops visit, in the order visited. *)
Definition subscriptionSeed (s : Aether) : list string :=
  match subscriptionItemPlanId s with
  | Some id => if String.eqb id "" then [] else [id]
  | None => []
  end.

Definition assertedSeeds (s : Aether) : list string :=
  map snd (itemPlanIdByFieldPathIdentity s)
  ++ concat (map snd (sideEffectPlanIdsByPathIdentity s))
  ++ map snd (transformDependencyPlanIdByTransformPlanId s).

(** The last loop of [treeShakePlans]: null every slot whose plan is not
    active. *)
Fixpoint sweep (activePlans : gset string) (ids : list string)
  (table : list (string * option string)) : list (string * option string) :=
  match ids with
  | [] => table
  | i :: ids' =>
      match planAt table i with
      | Some p =>
          if bool_decide (p ∈ activePlans) then sweep activePlans ids' table
          else sweep activePlans ids' (assignKey i None table)
      | None => sweep activePlans ids' table
      end
  end.

(** [private treeShakePlans(): void] *)
Definition treeShakePlans `{Host} : M unit :=
  let* s := get in
  let* a1 := liftResult (markSeeds false s (subscriptionSeed s) ∅) in
  let* a2 := liftResult (markSeeds true s (map snd (itemPlanIdByFieldPathIdentity s)) a1) in
  let* a3 := liftResult (markSeeds true s
                           (concat (map snd (sideEffectPlanIdsByPathIdentity s))) a2) in
  let* activePlans :=
    liftResult (markSeeds true s
                  (map snd (transformDependencyPlanIdByTransformPlanId s)) a3) in
  let* ids := getPlanIds 0 in
  setPlans (sweep activePlans ids (plans s)).

(** ** [finalizeArgumentsSince] *)

Definition setSideEffectPlanIds (v : list (string * list string)) : M unit := λ s,
  (Ok tt, {| phase := phase s; planCount := planCount s; plans := plans s;
             objects := objects s; optimizedPlans := optimizedPlans s;
             planOptionsByPlan := planOptionsByPlan s;
             subscriptionPlanId := subscriptionPlanId s;
             subscriptionItemPlanId := subscriptionItemPlanId s;
             planIdByPathIdentity := planIdByPathIdentity s;
             itemPlanIdByFieldPathIdentity := itemPlanIdByFieldPathIdentity s;
             sideEffectPlanIdsByPathIdentity := v;
             transformDependencyPlanIdByTransformPlanId :=
               transformDependencyPlanIdByTransformPlanId s |}, []).

Definition setPlanIdByPathIdentity (v : list (string * string)) : M unit := λ s,
  (Ok tt, {| phase := phase s; planCount := planCount s; plans := plans s;
             objects := objects s; optimizedPlans := optimizedPlans s;
             planOptionsByPlan := planOptionsByPlan s;
             subscriptionPlanId := subscriptionPlanId s;
             subscriptionItemPlanId := subscriptionItemPlanId s;
             planIdByPathIdentity := v;
             itemPlanIdByFieldPathIdentity := itemPlanIdByFieldPathIdentity s;
             sideEffectPlanIdsByPathIdentity := sideEffectPlanIdsByPathIdentity s;
             transformDependencyPlanIdByTransformPlanId :=
               transformDependencyPlanIdByTransformPlanId s |}, []).

Definition setTransformDependency (v : list (string * string)) : M unit := λ s,
  (Ok tt, {| phase := phase s; planCount := planCount s; plans := plans s;
             objects := objects s; optimizedPlans := optimizedPlans s;
             planOptionsByPlan := planOptionsByPlan s;
             subscriptionPlanId := subscriptionPlanId s;
             subscriptionItemPlanId := subscriptionItemPlanId s;
             planIdByPathIdentity := planIdByPathIdentity s;
             itemPlanIdByFieldPathIdentity := itemPlanIdByFieldPathIdentity s;
             sideEffectPlanIdsByPathIdentity := sideEffectPlanIdsByPathIdentity s;
             transformDependencyPlanIdByTransformPlanId := v |}, []).

(** [this.sideEffectPlanIdsByPathIdentity[pathIdentity].push(newPlan.id)] *)
Definition pushSideEffectPlanId (pathIdentity newPlan : string) : M unit :=
  let* byPath := gets sideEffectPlanIdsByPathIdentity in
  match lookupKey pathIdentity byPath with
  | Some ids => setSideEffectPlanIds (assignKey pathIdentity (ids ++ [newPlan]) byPath)
  | None => throw (TypeError "Cannot read properties of undefined (reading 'push')")
  end.

(** [private finalizeArgumentsSince(oldPlansLength, pathIdentity,
    allowSideEffects = false): void].  The construction of the item plan of a
    list transform and [newPlan.finalizeArguments()] followed by
    [assertArgumentsFinalized(newPlan)] are the host's. *)
Definition finalizeArgumentsSince `{Host} (oldPlansLength : nat)
  (pathIdentity : string) (allowSideEffects : bool) : M unit :=
  let* ids := getPlanIds oldPlansLength in
  forEach ids tt (λ i _,
    let* newPlan := slot i in
    match newPlan with
    | None => ret tt
    | Some np =>
        let* current := slot np in
        if bool_decide (current = Some np) then
          let* o := object np in
          if hasSideEffects o && negb allowSideEffects then
            throw (Error ("Side effects are not allowed here - attempted to execute side effects in "
                          +:+ np +:+ " @ " +:+ pathIdentity))
          else
            (if hasSideEffects o then pushSideEffectPlanId pathIdentity np else ret tt) ;;
            (if bool_decide (constructor_ o = __ListTransformPlan) then
               let nestedParentPathIdentity := pathIdentity +:+ "@" +:+ np +:+ "[]" in
               let* itemPlan := call (listTransformItemPlan np nestedParentPathIdentity) in
               let* byPath := gets planIdByPathIdentity in
               setPlanIdByPathIdentity (assignKey nestedParentPathIdentity itemPlan byPath) ;;
               let* deps := gets transformDependencyPlanIdByTransformPlanId in
               setTransformDependency (assignKey np itemPlan deps)
             else ret tt) ;;
            emit (CallFinalizeArguments np) ;;
            call (finalizeArguments np)
        else ret tt
    end).

(** ** [processPlans] *)

Inductive ProcessOrder := DependentsFirst | DependenciesFirst.

(** [first.add(id)] on a [Set<string>], which iterates in insertion order. *)
Definition setAdd (x : string) (l : list string) : list string :=
  if bool_decide (x ∈ l) then l else l ++ [x].

(** The ["dependents-first"] branch: every plan of the table one of whose
    dependencies resolves to [plan]. *)
Fixpoint dependentsOf (s : Aether) (plan : string)
  (values : list (string * option string)) (first : list string)
  : Result (list string) :=
  match values with
  | [] => Ok first
  | (_, None) :: rest => dependentsOf s plan rest first
  | (_, Some possibleDependent) :: rest =>
      match objects s !! possibleDependent with
      | None => Throw (TypeError "no such plan object")
      | Some o =>
          if existsb (λ depId, bool_decide (planAt (plans s) depId = Some plan))
               (dependencies o)
          then dependentsOf s plan rest (setAdd possibleDependent first)
          else dependentsOf s plan rest first
      end
  end.

(** The ["dependencies-first"] branch. *)
Fixpoint dependenciesOf (s : Aether) (deps : list string) (first : list string)
  : Result (list string) :=
  match deps with
  | [] => Ok first
  | depId :: rest =>
      match planAt (plans s) depId with
      | Some dependency => dependenciesOf s rest (setAdd dependency first)
      | None => Throw (TypeError "Cannot read properties of undefined (reading 'id')")
      end
  end.

Definition firstOf (order : ProcessOrder) (plan : string) : M (list string) :=
  let* s := get in
  match order with
  | DependentsFirst => liftResult (dependentsOf s plan (plans s) [])
  | DependenciesFirst =>
      let* o := object plan in
      liftResult (dependenciesOf s (dependencies o) [])
  end.

(** [for (const depId of first) { ... process(depPlan); if (shouldAbort())
    return; }]: the boolean says whether the loop returned from [process]. *)
Fixpoint processFirst {C} (rec : option string → gset string * C → M (gset string * C))
  (plan : string) (first : list string) (st : gset string * C)
  : M (bool * (gset string * C)) :=
  match first with
  | [] => ret (false, st)
  | depId :: rest =>
      let* depPlan := slot depId in
      match depPlan with
      | Some d =>
          if bool_decide (d ∈ st.1) then processFirst rec plan rest st
          else
            let* st' := rec (Some d) st in
            let* current := slot plan in
            match current with
            | None => ret (true, st')
            | Some _ => processFirst rec plan rest st'
            end
      | None => processFirst rec plan rest st
      end
  end.

(** Replace all references to [plan] with [replacementPlan]. *)
Definition replacePlan (plan replacementPlan : string) : M unit :=
  let* ids := getPlanIds 0 in
  forEach ids tt (λ j _,
    let* pj := slot j in
    if bool_decide (pj = Some plan) then
      let* table := gets plans in setPlans (assignKey j (Some replacementPlan) table)
    else ret tt).

(** The two values of the parameter [order]. *)
Definition orderName (order : ProcessOrder) : string :=
  match order with
  | DependentsFirst => "dependents-first"
  | DependenciesFirst => "dependencies-first"
  end.

(** [try { m } catch (e) { console.error(message); throw e; }] *)
Definition rethrowing {A} (message : string) (m : M A) : M A := λ s,
  match m s with
  | (Throw e, s', w) => (Throw e, s', w ++ [ConsoleError message])
  | other => other
  end.

(** The local function [process] of [processPlans].  The set [processed]
    and the variables the callback closes over ([C]) are threaded through. *)
Fixpoint process `{Host} {C} (order : ProcessOrder)
  (callback : string → C → M (string * C))
  (onPlanReplacement : option (string → string → M unit))
  (stackLeft : nat) (plan : option string) (st : gset string * C)
  : M (gset string * C) :=
  match plan with
  | None => ret st
  | Some p =>
      if bool_decide (p ∈ st.1) then ret st
      else
        match stackLeft with
        | 0 => throw RangeError
        | S stackLeft' =>
            let* first := firstOf order p in
            let* r := processFirst
                        (process order callback onPlanReplacement stackLeft')
                        p first st in
            if r.1 then ret r.2
            else
              let* oldPlansLength := gets planCount in
              let* cr :=
                rethrowing ("Error occurred whilst processing " +:+ p +:+ " in "
                            +:+ orderName order +:+ " mode")
                  (callback p r.2.2) in
              finalizeArgumentsSince oldPlansLength ROOT_PATH false ;;
              (if bool_decide (cr.1 ≠ p) then
                 replacePlan p cr.1 ;;
                 match onPlanReplacement with
                 | Some f => f p cr.1
                 | None => ret tt
                 end
               else ret tt) ;;
              ret ({[p]} ∪ r.2.1, cr.2)
        end
  end.

(** [private processPlans(actionDescription, order, callback,
    { onPlanReplacement, offset = 0 }): void] *)
Definition processPlans `{Host} {C} (actionDescription : string)
  (order : ProcessOrder) (callback : string → C → M (string * C))
  (onPlanReplacement : option (string → string → M unit)) (offset : nat)
  (closure : C) : M C :=
  let* oldPlanCount := gets planCount in
  let* ids := getPlanIds offset in
  let* r :=
    forEach ids ((∅, closure), 0, oldPlanCount) (λ i acc,
      let* plan := slot i in
      let* st := process order callback onPlanReplacement stack plan acc.1.1 in
      let* count := gets planCount in
      let plansAdded := acc.1.2 + (count - acc.2) in
      if isDev && (100000 <? N.of_nat plansAdded)%N then
        throw (Error ("Whilst processing plans as part of " +:+ actionDescription
                      +:+ "Plans, too many new plans have been created"))
      else ret (st, plansAdded, count)) in
  let* count := gets planCount in
  (if Nat.ltb oldPlanCount count then validatePlans oldPlanCount else ret tt) ;;
  ret r.1.1.2.

(** ** [deduplicatePlans] and [optimizePlans] *)

(** The callback of [deduplicatePlans]; it closes over [replacements]. *)
Definition deduplicateCallback `{Host} (plan : string) (replacements : nat)
  : M (string * nat) :=
  let* replacementPlan := deduplicatePlan plan in
  if bool_decide (replacementPlan ≠ plan) then ret (replacementPlan, S replacements)
  else ret (replacementPlan, replacements).

(** One turn of the [do ... while] loop: [replacements = 0] and the call of
    [processPlans]; the result is [replacements] afterwards. *)
Definition deduplicatePass `{Host} (offset : nat) : M nat :=
  processPlans "deduplicate" DependenciesFirst deduplicateCallback None offset 0.

(** The loop; [remaining] is how many turns are left before
    [loops > 10000]. *)
Fixpoint deduplicateLoop `{Host} (remaining : nat) (offset : nat) : M unit :=
  match remaining with
  | 0 => throw (Error "deduplicatePlans has looped 10001 times and is still substituting out plans")
  | S remaining' =>
      let* replacements := deduplicatePass offset in
      if Nat.ltb 0 replacements then deduplicateLoop remaining' offset else ret tt
  end.

(** [private deduplicatePlans(offset = 0): void] *)
Definition deduplicatePlans `{Host} (offset : nat) : M unit :=
  deduplicateLoop (N.to_nat 10001) offset.

(** [private optimizePlans(): void] *)
Definition optimizePlans `{Host} : M unit :=
  processPlans "optimize" DependentsFirst
    (λ plan (_ : unit), let* r := optimizePlan plan in ret (r, tt))
    (Some (λ _ _, treeShakePlans)) 0 tt.

(** ** Concrete hosts and aethers used to run the model *)

Definition pureOracle {A} (a : A) : Oracle A := λ s, (Ok a, s).

(** A host whose [deduplicate] picks the first peer and whose [optimize]
    replaces the plans listed in [rewrites]. *)
Definition tableHost (dev : bool) (rewrites : list (string * string)) : Host :=
  {| isDev := dev; stack := 64;
     deduplicate := λ plan peers, pureOracle (hd plan peers);
     optimize := λ plan _,
       pureOracle (match lookupKey plan rewrites with Some r => r | None => plan end);
     finalizeArguments := λ _, pureOracle tt;
     listTransformItemPlan := λ _ _, pureOracle "";
     assignGroupIds := λ _, pureOracle tt |}.

Definition aetherOf (ph : AetherPhase) (objs : list (string * ExecutablePlan))
  (options : list (string * PlanOptions)) (itemPlans : list (string * string))
  : Aether :=
  {| phase := ph; planCount := length objs;
     plans := map (λ kv, (kv.1, Some kv.1)) objs;
     objects := list_to_map objs; optimizedPlans := ∅;
     planOptionsByPlan := list_to_map options;
     subscriptionPlanId := None; subscriptionItemPlanId := None;
     planIdByPathIdentity := [];
     itemPlanIdByFieldPathIdentity := itemPlans;
     sideEffectPlanIdsByPathIdentity := [];
     transformDependencyPlanIdByTransformPlanId := [] |}.

(** Two identical plans of class [PgSelect] under one parent; [_2] is the
    plan of a field with [@stream] when [streamed] is set. *)
Definition twinsAether (streamed : bool) : Aether :=
  aetherOf PhaseDeduplicate
    [("_1", leafPlan (UserPlan "PgSelect") []);
     ("_2", leafPlan (UserPlan "PgSelect") [])]
    (if streamed then [("_2", {| stream := Some {| initialCount := 0 |} |})]
     else [("_2", {| stream := None |})])
    [("~>a", "_1"); ("~>b", "_2")].

(** A value plan and the tracked object plan that wraps it, holding it in
    its property [valuePlan]. *)
Definition trackedAether : Aether :=
  aetherOf PhaseValidate
    [("_1", leafPlan __ValuePlan []);
     ("_2", {| constructor_ := __TrackedObjectPlan; dependencies := ["_1"];
               hasSideEffects := false; sync := true; parentPathIdentity := "";
               commonAncestorPathIdentity := "";
               properties := [("value", PlainValue);
                              ("valuePlan", PlanReference "_1")] |})]
    [] [("~", "_2")].

(** The same shape with a user plan class in place of the tracked object. *)
Definition leakyAether : Aether :=
  aetherOf PhaseValidate
    [("_1", leafPlan __ValuePlan []);
     ("_2", {| constructor_ := UserPlan "Leaky"; dependencies := ["_1"];
               hasSideEffects := false; sync := true; parentPathIdentity := "";
               commonAncestorPathIdentity := "";
               properties := [("value", PlainValue);
                              ("valuePlan", PlanReference "_1")] |})]
    [] [("~", "_2")].

(** ** A host whose [deduplicate] method creates a plan *)

(** The method [deduplicate] of [_2] creates a plan of class [Helper] the
    first time it is called and keeps its own plan; once that helper exists
    it answers with its first peer.  Every other plan keeps itself. *)
Definition helperHost : Host :=
  {| isDev := true; stack := 64;
     deduplicate := λ plan peers s,
       if String.eqb plan "_2" then
         if bool_decide (is_Some (objects s !! "_3")) then (Ok (hd plan peers), s)
         else (Ok plan, (_addPlan (leafPlan (UserPlan "Helper") []) s).1.2)
       else (Ok plan, s);
     optimize := λ plan _, pureOracle plan;
     finalizeArguments := λ _, pureOracle tt;
     listTransformItemPlan := λ _ _, pureOracle "";
     assignGroupIds := λ _, pureOracle tt |}.

(** ** Vocabulary of the statements about validation *)

(** The plan object holds another plan in one of its properties. *)
Definition holdsPlanReference (o : ExecutablePlan) : Prop :=
  ∃ key val, (key, PlanReference val) ∈ properties o.

(** Some slot among [ids] holds a plan that is not a [__TrackedObjectPlan]
    and holds a direct reference to a plan. *)
Definition illegalReferenceIn (s : Aether) (ids : list string) : Prop :=
  ∃ id p o, id ∈ ids ∧ planAt (plans s) id = Some p ∧ objects s !! p = Some o
            ∧ constructor_ o ≠ __TrackedObjectPlan ∧ holdsPlanReference o.

(** Every plan in the slots [ids] is an object of the store. *)
Definition slotsAllocated (s : Aether) (ids : list string) : Prop :=
  ∀ id p, id ∈ ids → planAt (plans s) id = Some p → is_Some (objects s !! p).

(** What the scanning loop has collected after the slots [ids]. *)
Definition scannedErrors (s : Aether) (ids : list string) : list Exception :=
  flat_map (λ id,
    match planAt (plans s) id with
    | Some p =>
        match objects s !! p with
        | Some o => if bool_decide (constructor_ o = __TrackedObjectPlan) then []
                    else referenceErrors p o
        | None => []
        end
    | None => []
    end) ids.

(** ** Vocabulary of the statements about tree shaking *)

(** The plan ids [treeShakePlans] starts from: the subscription item plan,
    the item plan of every field path, the side-effect plans of every field
    path and the dependency of every list transform. *)
Definition seedIds (s : Aether) : list string :=
  subscriptionSeed s ++ assertedSeeds s.

(** A plan object is reachable when a seed id resolves to it, or when a
    dependency id of a reachable plan resolves to it. *)
Inductive reachable (s : Aether) : string → Prop :=
| reachable_seed planId p :
    planId ∈ seedIds s → planAt (plans s) planId = Some p → reachable s p
| reachable_dependency p o depId q :
    reachable s p → objects s !! p = Some o → depId ∈ dependencies o →
    planAt (plans s) depId = Some q → reachable s q.

(** Every seed id and every dependency id of a reachable plan resolves to
    a plan, and reachable plans are objects of the store. *)
Definition wellLinked (s : Aether) : Prop :=
  (∀ planId, planId ∈ seedIds s → is_Some (planAt (plans s) planId))
  ∧ (∀ p, reachable s p →
       ∃ o, objects s !! p = Some o
            ∧ ∀ depId, depId ∈ dependencies o → is_Some (planAt (plans s) depId)).

(** [x] has all its dependencies resolved into [A]. *)
Definition closedAt (s : Aether) (A : gset string) (x : string) : Prop :=
  ∃ o, objects s !! x = Some o
       ∧ ∀ depId, depId ∈ dependencies o →
           ∃ q, planAt (plans s) depId = Some q ∧ q ∈ A.

(** What one marking step may do to the set of active plans: it grows, and
    every plan it adds is reachable and has its dependencies in the result. *)
Definition marks (s : Aether) (A A' : gset string) : Prop :=
  A ⊆ A' ∧ ∀ x, x ∈ A' → x ∉ A → reachable s x ∧ closedAt s A' x.

(** The plan objects that sit in some slot of the table. *)
Definition slotPlans (table : list (string * option string)) : gset string :=
  list_to_set (omap snd table).

(** Three plans of which the field [~>f] needs [_2] and, through it, [_1];
    nothing needs [_3]. *)
Definition shakeAether : Aether :=
  aetherOf PhaseOptimize
    [("_1", leafPlan (UserPlan "A") []);
     ("_2", leafPlan (UserPlan "B") ["_1"]);
     ("_3", leafPlan (UserPlan "C") [])]
    [] [("~>f", "_2")].

(** The contract of a function that marks one plan. *)
Definition marker (s : Aether)
  (mark : option string → gset string → Result (gset string)) : Prop :=
  ∀ A q A', reachable s q → mark (Some q) A = Ok A' → marks s A A' ∧ q ∈ A'.

(** All four seed loops in a row. *)
Definition activeAfterSeeds `{Host} (s : Aether) : Result (gset string) :=
  match markSeeds false s (subscriptionSeed s) ∅ with
  | Ok a1 =>
      match markSeeds true s (map snd (itemPlanIdByFieldPathIdentity s)) a1 with
      | Ok a2 =>
          match markSeeds true s
                  (concat (map snd (sideEffectPlanIdsByPathIdentity s))) a2 with
          | Ok a3 =>
              markSeeds true s
                (map snd (transformDependencyPlanIdByTransformPlanId s)) a3
          | Throw e => Throw e
          end
      | Throw e => Throw e
      end
  | Throw e => Throw e
  end.

(** ** Vocabulary of the statements about the optimize pass *)

(** The plans whose [optimize] method a log records as called, in order. *)
Definition optimizedIn (w : list Event) : list string :=
  omap (λ e, match e with CallOptimize p _ => Some p | _ => None end) w.

(** How often [plan.optimize] was called according to the log. *)
Definition optimizeCalls (w : list Event) (plan : string) : nat :=
  length (filter (λ p, p = plan) (optimizedIn w)).

(** Plug-in code cannot reach the private set [optimizedPlans]. *)
Definition oracleKeepsOptimized {A} (o : Oracle A) : Prop :=
  ∀ s, optimizedPlans (o s).2 = optimizedPlans s.

Definition hostKeepsOptimized `{Host} : Prop :=
  (∀ plan peers, oracleKeepsOptimized (deduplicate plan peers))
  ∧ (∀ plan options, oracleKeepsOptimized (optimize plan options))
  ∧ (∀ plan, oracleKeepsOptimized (finalizeArguments plan))
  ∧ (∀ plan path, oracleKeepsOptimized (listTransformItemPlan plan path))
  ∧ (∀ offset, oracleKeepsOptimized (assignGroupIds offset)).

(** A computation that calls [optimize] only on plans not yet in
    [optimizedPlans], on each at most once, and that has recorded every such
    call in [optimizedPlans] when it returns. *)
Definition optimizesOnce {A} (m : M A) : Prop :=
  ∀ s, NoDup (optimizedIn (m s).2)
       ∧ (∀ p, p ∈ optimizedIn (m s).2 → p ∉ optimizedPlans s)
       ∧ (∀ a, (m s).1.1 = Ok a →
            optimizedPlans (m s).1.2
            = optimizedPlans s ∪ list_to_set (optimizedIn (m s).2)).

(** The field [~>f] is served by [_3], which depends on [_1] and [_2]; the
    host used with it optimizes [_3] into its dependency [_2]. *)
Definition optimizeAether : Aether :=
  aetherOf PhaseOptimize
    [("_1", leafPlan (UserPlan "A") []);
     ("_2", leafPlan (UserPlan "D") []);
     ("_3", leafPlan (UserPlan "B") ["_1"; "_2"])]
    [] [("~>f", "_3")].

Definition optimizeHost : Host := tableHost true [("_3", "_2")].

(** A computation that makes no [optimize] call and leaves [optimizedPlans]
    alone. *)
Definition optimizeFree {A} (m : M A) : Prop :=
  ∀ s, optimizedIn (m s).2 = [] ∧ optimizedPlans (m s).1.2 = optimizedPlans s.

(** ** Vocabulary of the statements about the deduplication pass *)

(** [plan.deduplicate(peers)] answers without changing the aether. *)
Definition hostDeduplicatesPurely `{Host} : Prop :=
  ∀ plan peers s, (deduplicate plan peers s).2 = s.

(** Every key of the plan table was handed out by [_addPlan]: the table is
    no longer than the counter says. *)
Definition tableCounted (s : Aether) : Prop := length (plans s) ≤ planCount s.

(** [s'] differs from [s] at most in what its slots hold. *)
Definition onlySlotsChanged (s s' : Aether) : Prop :=
  s' = withPlans (λ _, plans s') s ∧ length (plans s') = length (plans s).

(** A computation that leaves a counted aether as it found it. *)
Definition reads {A} (m : M A) : Prop := ∀ s, tableCounted s → (m s).1.2 = s.

(** A computation that changes at most slot contents, whose result carries a
    counter no smaller than [c], and that has changed nothing at all when
    the counter is still [c]. *)
Definition counts {A} (count : A → nat) (c : nat) (m : M A) : Prop :=
  ∀ s, tableCounted s →
    onlySlotsChanged s (m s).1.2
    ∧ ∀ a, (m s).1.1 = Ok a → c ≤ count a ∧ (count a = c → (m s).1.2 = s).

(** ** [treeNodePath] and [assignCommonAncestorPathIdentity] *)

(** [s.startsWith(prefix)] *)
Definition startsWith (s prefix : string) : bool := String.prefix prefix s.

(** [while ((n = n.parent) && n.pathIdentity.startsWith(startPathIdentity))
    path.unshift(n)], entered with [n.parent] being the node [m]. *)
Fixpoint climbFrom (m : TreeNode) (startPathIdentity : string)
  (path : list TreeNode) : list TreeNode :=
  match m with
  | mkTreeNode i f p g up =>
      if startsWith p startPathIdentity then
        match up with
        | Some u => climbFrom u startPathIdentity (mkTreeNode i f p g up :: path)
        | None => mkTreeNode i f p g up :: path
        end
      else path
  end.

Definition climb (n : option TreeNode) (startPathIdentity : string)
  (path : list TreeNode) : list TreeNode :=
  match n with
  | Some m => climbFrom m startPathIdentity path
  | None => path
  end.

(** The callback of [path.findIndex] at the indices from [i] on. *)
Fixpoint findListChange (previous : TreeNode) (rest : list TreeNode) (i : Z) : Z :=
  match rest with
  | [] => (-1)%Z
  | v :: rest' =>
      if String.eqb (fieldPathIdentity previous) (fieldPathIdentity v)
         && negb (String.eqb (pathIdentity previous) (pathIdentity v))
      then i
      else findListChange v rest' (i + 1)%Z
  end.

Definition listChangeIndex (path : list TreeNode) : Z :=
  match path with
  | [] => (-1)%Z
  | first :: rest => findListChange first rest 1
  end.

Definition outsideStart (treeNode : TreeNode) (startPathIdentity : string)
  : Exception :=
  Error ("Asked to find treeNodePath to TreeNode("
         +:+ pathIdentity treeNode +:+ ") starting at '"
         +:+ startPathIdentity
         +:+ "', however that TreeNode doesn't start with that path identity!").

(** [function treeNodePath(treeNode, startPathIdentity): TreeNode[]] *)
Definition treeNodePath (treeNode : TreeNode) (startPathIdentity : string)
  : Result (list TreeNode) :=
  if negb (startsWith (pathIdentity treeNode) startPathIdentity) then
    Throw (outsideStart treeNode startPathIdentity)
  else
    let path := climb (parent treeNode) startPathIdentity [treeNode] in
    let i := listChangeIndex path in
    if (0 <=? i)%Z then Ok (take (Z.to_nat i) path) else Ok path.

(** [treeNodes.map((treeNode) => treeNodePath(treeNode, start))] *)
Fixpoint treeNodePaths (treeNodes : list TreeNode) (startPathIdentity : string)
  : Result (list (list TreeNode)) :=
  match treeNodes with
  | [] => Ok []
  | treeNode :: rest =>
      match treeNodePath treeNode startPathIdentity with
      | Ok path =>
          match treeNodePaths rest startPathIdentity with
          | Ok paths => Ok (path :: paths)
          | Throw e => Throw e
          end
      | Throw e => Throw e
      end
  end.

(** The loop labelled [matchLoop], from index [i] on; [first] is what is
    left of [allPaths[0]] and [others] are [allPaths[1..]]. *)
Fixpoint matchLoop (first : list TreeNode) (others : list (list TreeNode))
  (i : nat) (deepestCommonPath : Z) : Z :=
  match first with
  | [] => deepestCommonPath
  | matcher :: first' =>
      if forallb (λ path : list TreeNode,
                    match path !! i with
                    | Some n => TreeNode_eqb n matcher
                    | None => false
                    end) others
      then matchLoop first' others (S i) (Z.of_nat i)
      else deepestCommonPath
  end.

Definition noCommonRoot : Exception :=
  GraphileInternalError "aac23403-3a32-4e04-a9f2-b19229e3dbfd".

(** The body of the loop over [treeNodesByPlan.entries()]: the value
    assigned to [plan.commonAncestorPathIdentity]. *)
Definition commonAncestorOf (parentPathIdentity : string) (treeNodes : list TreeNode)
  : Result string :=
  match treeNodePaths treeNodes parentPathIdentity with
  | Throw e => Throw e
  | Ok [] => Throw (TypeError "Cannot read properties of undefined (reading 'length')")
  | Ok (first :: others) =>
      let deepestCommonPath := matchLoop first others 0 (-1) in
      if (deepestCommonPath <? 0)%Z then Throw noCommonRoot
      else
        match first !! Z.to_nat deepestCommonPath with
        | Some commonAncestorNode => Ok (pathIdentity commonAncestorNode)
        | None => Throw (TypeError "Cannot read properties of undefined (reading 'pathIdentity')")
        end
  end.

Definition setObjects (v : gmap string ExecutablePlan) : M unit := λ s,
  (Ok tt, {| phase := phase s; planCount := planCount s; plans := plans s;
             objects := v; optimizedPlans := optimizedPlans s;
             planOptionsByPlan := planOptionsByPlan s;
             subscriptionPlanId := subscriptionPlanId s;
             subscriptionItemPlanId := subscriptionItemPlanId s;
             planIdByPathIdentity := planIdByPathIdentity s;
             itemPlanIdByFieldPathIdentity := itemPlanIdByFieldPathIdentity s;
             sideEffectPlanIdsByPathIdentity := sideEffectPlanIdsByPathIdentity s;
             transformDependencyPlanIdByTransformPlanId :=
               transformDependencyPlanIdByTransformPlanId s |}, []).

(** [plan.commonAncestorPathIdentity = v] *)
Definition setCommonAncestorPathIdentity (plan v : string) : M unit :=
  let* o := object plan in
  let* objs := gets objects in
  setObjects (<[plan := {| constructor_ := constructor_ o;
                           dependencies := dependencies o;
                           hasSideEffects := hasSideEffects o;
                           sync := sync o;
                           parentPathIdentity := parentPathIdentity o;
                           commonAncestorPathIdentity := v;
                           properties := properties o |}]> objs).

Definition unassignedCommonAncestor : Exception :=
  GraphileInternalError "1398689a-8285-4dd9-8e6c-25216258f275".

(** The loop under [// Assert it worked] over [Object.values(this.plans)]:
    it warns about every plan with an empty [commonAncestorPathIdentity] and
    a non-empty [parentPathIdentity], and keeps the first in
    [firstInvalidPlan].  A plan is written into the message by its id. *)
Definition warnInvalidPlans : M (option string) :=
  let* table := gets plans in
  forEach table None (λ entry firstInvalidPlan,
    match entry.2 with
    | None => ret firstInvalidPlan
    | Some plan =>
        let* o := object plan in
        if String.eqb (commonAncestorPathIdentity o) ""
           && negb (String.eqb (parentPathIdentity o) "")
        then
          emit (ConsoleWarn ("WARNING: Plan " +:+ plan
                             +:+ " has empty commonAncestorPathIdentity")) ;;
          ret (Some (default plan firstInvalidPlan))
        else ret firstInvalidPlan
    end).

(** Induction over a node and its ancestors. *)
Fixpoint TreeNode_induction (P : TreeNode → Prop)
  (Hroot : ∀ i f p g, P (mkTreeNode i f p g None))
  (Hstep : ∀ i f p g u, P u → P (mkTreeNode i f p g (Some u)))
  (n : TreeNode) : P n :=
  match n with
  | mkTreeNode i f p g None => Hroot i f p g
  | mkTreeNode i f p g (Some u) =>
      Hstep i f p g u (TreeNode_induction P Hroot Hstep u)
  end.

(** ** Vocabulary of the statements about common ancestors *)

(** How many ancestors a node has. *)
Fixpoint depth (n : TreeNode) : nat :=
  match n with
  | mkTreeNode _ _ _ _ (Some up) => S (depth up)
  | mkTreeNode _ _ _ _ None => 0
  end.

(** The node lies on every one of the paths. *)
Definition commonNode (paths : list (list TreeNode)) (n : TreeNode) : Prop :=
  ∀ path, path ∈ paths → n ∈ path.

(** The node lies on every path and no node that does lies deeper. *)
Definition deepestCommonNode (paths : list (list TreeNode)) (n : TreeNode) : Prop :=
  commonNode paths n ∧ ∀ m, commonNode paths m → depth m ≤ depth n.

(** The ancestors of a node, itself included, from the shallowest one on as
    long as the path identities start with [startPathIdentity] going up. *)
Fixpoint chainFrom (startPathIdentity : string) (m : TreeNode) : list TreeNode :=
  match m with
  | mkTreeNode i f p g up =>
      if startsWith p startPathIdentity then
        match up with
        | Some u => chainFrom startPathIdentity u
        | None => []
        end ++ [mkTreeNode i f p g up]
      else []
  end.

Definition chainWithin (startPathIdentity : string) (n : option TreeNode)
  : list TreeNode :=
  match n with
  | Some m => chainFrom startPathIdentity m
  | None => []
  end.

(** [v] is the node of a list item of the field of [previous]. *)
Definition listBoundary (previous v : TreeNode) : bool :=
  String.eqb (fieldPathIdentity previous) (fieldPathIdentity v)
  && negb (String.eqb (pathIdentity previous) (pathIdentity v)).

(** A field tree: the root, the list field [a] with its item node, and the
    fields [b] and [c] of the items. *)
Definition rootNode : TreeNode := mkTreeNode 0 "~" "~" [0] None.
Definition aNode : TreeNode := mkTreeNode 1 "~>a" "~>a" [0] (Some rootNode).
Definition aItemNode : TreeNode := mkTreeNode 2 "~>a" "~>a[]" [0] (Some aNode).
Definition bNode : TreeNode := mkTreeNode 3 "~>a[]>b" "~>a[]>b" [0] (Some aItemNode).
Definition cNode : TreeNode := mkTreeNode 4 "~>a[]>c" "~>a[]>c" [0] (Some aItemNode).

(** All paths hold the same node at index [k]. *)
Definition agree (first : list TreeNode) (others : list (list TreeNode)) (k : nat)
  : Prop :=
  ∃ m, first !! k = Some m ∧ ∀ o, o ∈ others → o !! k = Some m.

(** * The executor

    The methods of the executor are written over a run: the stores of the
    objects they share by reference, and what the crystal context keeps.  A
    method that returns [PromiseOrDirect] returns an array or a promise
    together with the run it leaves.  An [async] function is run to its end
    where it is called: its promise is fulfilled or rejected as its body
    returns or throws, and stays unsettled when the body awaits a promise
    that nothing in the run settles.  What other calls do while a function
    awaits is not followed here; the statements about calls that overlap
    are made of the loops that read and write the in-flight map, for
    whatever map they find. *)

(** ** Run-time values *)

(** What a plan produces for one row.  [NaN] is the number that is not
    equal to itself.  [CrystalErrorValue e] is [new CrystalError(e)]: the
    error that was thrown, wrapped so that it can be passed around as a
    value.  The last two are promises, which [plan.execute] may put in the
    list it returns. *)
Inductive Value :=
| Undefined
| Null
| NaN
| Data (d : string)
| CrystalErrorValue (originalError : Exception)
| Fulfilling (v : Value)
| Rejecting (e : Exception).

#[global] Instance Value_eq_dec : EqDecision Value.
Proof. solve_decision. Defined.

(** [a !== b], for a value and what was stored of it: [NaN] differs from
    everything, itself included. *)
Definition strictlyUnequal (a b : Value) : bool :=
  match a, b with
  | NaN, _ | _, NaN => true
  | _, _ => negb (bool_decide (a = b))
  end.

(** The state of a promise. *)
Inductive Promise (A : Type) :=
| Unsettled
| Fulfilled (a : A)
| Rejected (e : Exception).
Arguments Unsettled {A}.
Arguments Fulfilled {A} a.
Arguments Rejected {A} e.

(** [PromiseOrDirect<any[]>]: an array, named by its address, or a promise
    of one. *)
Inductive Completion :=
| Direct (array : nat)
| Later (promise : Promise nat).

(** Modelled from the spec: [class PlanResults] (planResults.ts) is not
    among the sources.  Section 3: a mapping from (scope path identity, plan
    id) to a computed value or error; one bucket per row at a scope, and rows
    "may legitimately share ancestor buckets".  A [PlanResults] names, for
    every path identity, the bucket object that holds the values of that
    scope; the bucket objects themselves live in the store of the run, so
    that two [PlanResults] can share one. *)
Record PlanResults := { bucketAt : string → nat }.

(** An entry of [planResultses]: [PlanResults | CrystalError | null]. *)
Inductive Row :=
| RowNull
| RowError (e : Exception)
| RowResults (planResults : PlanResults).

(** What an execution owns.  Objects that the code shares by reference are
    kept in stores and named by their address: the bucket objects
    ([{ [planId]: value }]), the arrays that [executePlan] returns, and the
    plan caches ([PlanCacheForPlanResultses], from plan id to what
    [executePlan] returned).  The crystal context contributes the in-flight
    maps ([inProgressPlanResolutions[plan.id]], a [Map] from bucket to
    deferred) and the deferreds.  [executeCalls] logs every call of a plan's
    [execute] with the dependency values it was given, and
    [planCacheChecks] holds the checks that [executePlan] queues in
    development when it answers from a plan cache: what it answered, and the
    length it expects of it. *)
Record Run := {
  buckets : gmap nat (gmap string Value);
  arrays : gmap nat (list Value);
  planCaches : gmap nat (gmap string Completion);
  inProgressPlanResolutions : gmap string (gmap nat nat);
  deferreds : gmap nat (Promise Value);
  executeCalls : list (string * list (list Value));
  planCacheChecks : list (Completion * nat);
  allocated : nat;
}.

(** How a computation of the executor ends: it returns, it throws, or it
    awaits a promise that nothing in the run settles. *)
Inductive Outcome (A : Type) :=
| Returns (a : A)
| Throws (e : Exception)
| Suspends.
Arguments Returns {A} a.
Arguments Throws {A} e.
Arguments Suspends {A}.

Definition X (A : Type) : Type := Run → Outcome A * Run.

Definition xret {A} (a : A) : X A := λ r, (Returns a, r).
Definition xthrow {A} (e : Exception) : X A := λ r, (Throws e, r).
Definition xbind {A B} (m : X A) (k : A → X B) : X B :=
  λ r, match m r with
       | (Returns a, r1) => k a r1
       | (Throws e, r1) => (Throws e, r1)
       | (Suspends, r1) => (Suspends, r1)
       end.
Definition xgets {A} (f : Run → A) : X A := λ r, (Returns (f r), r).
Definition xmodify (f : Run → Run) : X unit := λ r, (Returns tt, f r).

Notation "'do*' x ':=' m 'in' k" := (xbind m (λ x, k))
  (at level 10, x pattern, m at level 200, k at level 200,
   format "'[v' 'do*'  x  ':='  m  'in' '/' k ']'").
Notation "m ';;;' k" := (xbind m (λ _, k))
  (at level 100, k at level 200, right associativity).

(** An [async] function: what its body throws rejects the promise it
    returns. *)
Definition async (body : X nat) : X Completion := λ r,
  match body r with
  | (Returns a, r1) => (Returns (Later (Fulfilled a)), r1)
  | (Throws e, r1) => (Returns (Later (Rejected e)), r1)
  | (Suspends, r1) => (Returns (Later Unsettled), r1)
  end.

(** [await completion] *)
Definition await (completion : Completion) : X nat :=
  match completion with
  | Direct a | Later (Fulfilled a) => xret a
  | Later (Rejected e) => xthrow e
  | Later Unsettled => λ r, (Suspends, r)
  end.

(** ** The stores of a run *)

Definition withBuckets (f : gmap nat (gmap string Value) → gmap nat (gmap string Value))
  (r : Run) : Run :=
  {| buckets := f (buckets r); arrays := arrays r; planCaches := planCaches r;
     inProgressPlanResolutions := inProgressPlanResolutions r;
     deferreds := deferreds r; executeCalls := executeCalls r;
     planCacheChecks := planCacheChecks r; allocated := allocated r |}.

Definition withArrays (f : gmap nat (list Value) → gmap nat (list Value)) (r : Run) : Run :=
  {| buckets := buckets r; arrays := f (arrays r); planCaches := planCaches r;
     inProgressPlanResolutions := inProgressPlanResolutions r;
     deferreds := deferreds r; executeCalls := executeCalls r;
     planCacheChecks := planCacheChecks r; allocated := allocated r |}.

Definition withPlanCaches
  (f : gmap nat (gmap string Completion) → gmap nat (gmap string Completion))
  (r : Run) : Run :=
  {| buckets := buckets r; arrays := arrays r; planCaches := f (planCaches r);
     inProgressPlanResolutions := inProgressPlanResolutions r;
     deferreds := deferreds r; executeCalls := executeCalls r;
     planCacheChecks := planCacheChecks r; allocated := allocated r |}.

Definition withInProgress
  (f : gmap string (gmap nat nat) → gmap string (gmap nat nat)) (r : Run) : Run :=
  {| buckets := buckets r; arrays := arrays r; planCaches := planCaches r;
     inProgressPlanResolutions := f (inProgressPlanResolutions r);
     deferreds := deferreds r; executeCalls := executeCalls r;
     planCacheChecks := planCacheChecks r; allocated := allocated r |}.

Definition withDeferreds
  (f : gmap nat (Promise Value) → gmap nat (Promise Value)) (r : Run) : Run :=
  {| buckets := buckets r; arrays := arrays r; planCaches := planCaches r;
     inProgressPlanResolutions := inProgressPlanResolutions r;
     deferreds := f (deferreds r); executeCalls := executeCalls r;
     planCacheChecks := planCacheChecks r; allocated := allocated r |}.

Definition logExecute (plan : string) (values : list (list Value)) : X unit :=
  xmodify (λ r,
  {| buckets := buckets r; arrays := arrays r; planCaches := planCaches r;
     inProgressPlanResolutions := inProgressPlanResolutions r;
     deferreds := deferreds r; executeCalls := executeCalls r ++ [(plan, values)];
     planCacheChecks := planCacheChecks r; allocated := allocated r |}).

Definition queuePlanCacheCheck (completion : Completion) (expected : nat) : X unit :=
  xmodify (λ r,
  {| buckets := buckets r; arrays := arrays r; planCaches := planCaches r;
     inProgressPlanResolutions := inProgressPlanResolutions r;
     deferreds := deferreds r; executeCalls := executeCalls r;
     planCacheChecks := planCacheChecks r ++ [(completion, expected)];
     allocated := allocated r |}).

(** A new object: the next free address. *)
Definition allocate : X nat := λ r,
  (Returns (allocated r),
   {| buckets := buckets r; arrays := arrays r; planCaches := planCaches r;
      inProgressPlanResolutions := inProgressPlanResolutions r;
      deferreds := deferreds r; executeCalls := executeCalls r;
      planCacheChecks := planCacheChecks r; allocated := S (allocated r) |}).

(** [array[i] = v]: past the end, JavaScript extends the array. *)
Definition assign (i : nat) (v : Value) (l : list Value) : list Value :=
  if Nat.ltb i (length l) then <[i := v]> l
  else l ++ replicate (i - length l) Undefined ++ [v].

Definition newArray (values : list Value) : X nat :=
  do* a := allocate in
  xmodify (withArrays <[a := values]>) ;;; xret a.

Definition readArray (a : nat) : X (list Value) :=
  xgets (λ r, default [] (arrays r !! a)).

Definition writeArray (a i : nat) (v : Value) : X unit :=
  xmodify (withArrays (alter (assign i v) a)).

(** [array.splice(i, 1)] *)
Definition spliceArray (a i : nat) : X unit :=
  xmodify (withArrays (alter (delete i) a)).

(** [array[i]]: [undefined] past the end. *)
Definition arrayAt (r : Run) (a i : nat) : Value :=
  default Undefined (default [] (arrays r !! a) !! i).

(** [plan.id in bucket] and [bucket[plan.id]] *)
Definition bucketValue (r : Run) (bucket : nat) (planId : string) : option Value :=
  buckets r !! bucket ≫= λ b, b !! planId.

(** Modelled from the spec: [planResults.getBucket], [.has], [.get] and
    [.set] (planResults.ts) address the bucket of the path identity. *)
Definition getBucket (planResults : PlanResults) (pathIdentity : string) : nat :=
  bucketAt planResults pathIdentity.

Definition planResultsHas (r : Run) (planResults : PlanResults)
  (pathIdentity planId : string) : bool :=
  bool_decide (is_Some (bucketValue r (getBucket planResults pathIdentity) planId)).

Definition planResultsGet (r : Run) (planResults : PlanResults)
  (pathIdentity planId : string) : Value :=
  default Undefined (bucketValue r (getBucket planResults pathIdentity) planId).

Definition planResultsSet (planResults : PlanResults) (pathIdentity planId : string)
  (v : Value) : X unit :=
  xmodify (withBuckets (λ bs,
    let address := getBucket planResults pathIdentity in
    <[address := <[planId := v]> (default ∅ (bs !! address))]> bs)).

(** [Object.create(null)] for a plan cache, reading and writing one. *)
Definition newPlanCache : X nat :=
  do* c := allocate in
  xmodify (withPlanCaches <[c := ∅]>) ;;; xret c.

Definition cached (r : Run) (planCache : nat) (planId : string) : option Completion :=
  planCaches r !! planCache ≫= λ c, c !! planId.

Definition cacheStore (planCache : nat) (planId : string) (completion : Completion)
  : X unit :=
  xmodify (withPlanCaches (λ cs,
    <[planCache := <[planId := completion]> (default ∅ (cs !! planCache))]> cs)).

(** [defer()], [deferred.resolve(v)] and [deferred.reject(e)]: a promise
    settles once. *)
Definition defer : X nat :=
  do* d := allocate in
  xmodify (withDeferreds <[d := Unsettled]>) ;;; xret d.

Definition settleOnce (p : Promise Value) (old : Promise Value) : Promise Value :=
  match old with Unsettled => p | _ => old end.

Definition resolveDeferred (d : nat) (v : Value) : X unit :=
  xmodify (withDeferreds (alter (settleOnce (Fulfilled v)) d)).

Definition rejectDeferred (d : nat) (e : Exception) : X unit :=
  xmodify (withDeferreds (alter (settleOnce (Rejected e)) d)).

(** ** What the executor is handed from outside

    What a call of [plan.execute] or [plan.stream] does is the plan's
    business: it is given the dependency values, may look at the run so far,
    and returns a list, returns a promise of one, or throws.  The custom
    execution of a list transform re-enters the batch executor; it is taken
    as given too. *)
Inductive Execution :=
| Returned (results : list Value)
| ReturnedPromise (p : Promise (list Value))
| Threw (e : Exception).

Class Executor := {
  executorHost :: Host;
  aether : Aether;
  execute : string → list (list Value) → Run → Execution;
  stream' : string → list (list Value) → Run → Execution;
  executeTransformPlan : string → list PlanResults → X (list Value);
}.

(** [await plan.execute(...)] *)
Definition awaitExecution (e : Execution) : X (list Value) :=
  match e with
  | Returned results | ReturnedPromise (Fulfilled results) => xret results
  | ReturnedPromise (Rejected e) | Threw e => xthrow e
  | ReturnedPromise Unsettled => λ r, (Suspends, r)
  end.

(** [await rawPendingResult] inside [try]/[catch], for a promise. *)
Fixpoint settle (raw : Value) : Value :=
  match raw with
  | Fulfilling v => settle v
  | Rejecting e => CrystalErrorValue e
  | v => v
  end.

Definition valuePlanQueued : Exception :=
  GraphileInternalError "079b214f-3ec9-4257-8de9-0ca2b2bdb8e9".

Definition itemPlanExecuted : Exception :=
  Error "Should never attempt to execute __ItemPlan; that should be handled within executeBatch".

Definition resultCountMismatch : Exception :=
  AssertionError "Expected plan execution to return same number of results as inputs".

Definition planCacheLengthMismatch : Exception :=
  AssertionError "Expected the planCache length to match the planResultses length".

(** An entry [{ planResults, planResultsesIndex }]. *)
Definition Item : Type := PlanResults * nat.

(** [this.plans[dependencyPlanId]], with the check made in development; the
    message ends with what [inspect] prints of the missing plan, [undefined]
    or [null], which are one value here and written as the former. *)
Definition dependencyPlanOf `{Executor} (plan : string) (i : nat) (dependencyPlanId : string)
  : X string :=
  match planAt (plans aether) dependencyPlanId with
  | Some dependencyPlan => xret dependencyPlan
  | None =>
      if isDev then
        xthrow (Error ("Expected plan dependency '" +:+ pretty i +:+ "' for '"
                       +:+ plan +:+ "' to be a plan, instead found 'undefined'"))
      else xthrow (TypeError "Cannot read properties of undefined (reading 'id')")
  end.

(** [isSubscribe || planOptions?.stream] *)
Definition streams `{Executor} (plan : string) : bool :=
  bool_decide (subscriptionPlanId aether = Some plan) || shouldStream aether plan.

(** The first [CrystalError] that the arrays hold at index [i]. *)
Fixpoint dependencyError (r : Run) (dependencyValuesList : list nat) (i : nat)
  : option Value :=
  match dependencyValuesList with
  | [] => None
  | dependencyValues :: rest =>
      match arrayAt r dependencyValues i with
      | CrystalErrorValue e => Some (CrystalErrorValue e)
      | _ => dependencyError r rest i
      end
  end.

(** [for (j ...) dependencyValuesList[j].splice(i, 1)] *)
Fixpoint spliceAll (dependencyValuesList : list nat) (i : nat) : X unit :=
  match dependencyValuesList with
  | [] => xret tt
  | dependencyValues :: rest => spliceArray dependencyValues i ;;; spliceAll rest i
  end.

(** The arrays as [execute] sees them at the moment of the call. *)
Fixpoint readAll (dependencyValuesList : list nat) : X (list (list Value)) :=
  match dependencyValuesList with
  | [] => xret []
  | dependencyValues :: rest =>
      do* values := readArray dependencyValues in
      do* others := readAll rest in
      xret (values :: others)
  end.

(** The dependency arrays of a plan without dependencies:
    [[new Array(n).fill(undefined)]] with side effects, [[[undefined]]]
    without. *)
Definition noDependencyValues (o : ExecutablePlan) (n : nat) : X (list nat) :=
  do* a := newArray (if hasSideEffects o then replicate n Undefined else [Undefined]) in
  xret [a].

(** ** [executePlanPending]

    The three methods that follow re-enter [executePlan] for the
    dependencies of the plan; they are written over the entry point they
    re-enter, which the definition of [executePlan] below then closes. *)
Section ExecutePlan.

Context `{Executor}.

Variable executePlan : string → list Row → list string → nat → X Completion.

(** [await this.executePlan(dependencyPlan, ...)] for each dependency in
    turn. *)
Fixpoint awaitDependencies (plan : string) (dependencyIds : list string) (i : nat)
  (pendingPlanResultses : list PlanResults) (visitedPlans : list string)
  (planCache : nat) : X (list nat) :=
  match dependencyIds with
  | [] => xret []
  | dependencyPlanId :: rest =>
      do* dependencyPlan := dependencyPlanOf plan i dependencyPlanId in
      do* completion := executePlan dependencyPlan (map RowResults pendingPlanResultses)
                          visitedPlans planCache in
      do* allDependencyResults := await completion in
      do* others := awaitDependencies plan rest (S i) pendingPlanResultses
                      visitedPlans planCache in
      xret (allDependencyResults :: others)
  end.

(** The loop [for (let i = pendingPlanResultsesLength - 1; i >= 0; i--)],
    about to run the indices below [i]: a row with an error among its
    dependency values takes the error as its result and leaves the
    dependency arrays; the others are collected, with their index. *)
Fixpoint shortCircuit (plan commonAncestor : string) (result : nat)
  (checked : list nat) (pendingPlanResultses : list PlanResults) (i : nat)
  (realPending : list Item) : X (list Item) :=
  match i with
  | 0 => xret realPending
  | S i' =>
      do* r := xgets id in
      match pendingPlanResultses !! i', dependencyError r checked i' with
      | Some planResults, Some error =>
          writeArray result i' error ;;;
          planResultsSet planResults commonAncestor plan error ;;;
          spliceAll checked i' ;;;
          shortCircuit plan commonAncestor result checked pendingPlanResultses i'
            realPending
      | Some planResults, None =>
          shortCircuit plan commonAncestor result checked pendingPlanResultses i'
            (realPending ++ [(planResults, i')])
      | None, _ => xthrow (TypeError "Cannot read properties of undefined")
      end
  end.

(** The loop [for (let i = 0; i < realPendingPlanResultsesLength; i++)]
    that settles and stores what [execute] returned. *)
Fixpoint storeResults (plan commonAncestor : string) (result : nat) (perRow : bool)
  (pendingResults : list Value) (real : list Item) (i : nat) : X unit :=
  match real with
  | [] => xret tt
  | (planResults, underlyingIndex) :: real' =>
      let rawPendingResult :=
        default Undefined (pendingResults !! (if perRow then i else 0)) in
      let v := settle rawPendingResult in
      writeArray result underlyingIndex v ;;;
      planResultsSet planResults commonAncestor plan v ;;;
      storeResults plan commonAncestor result perRow pendingResults real' (S i)
  end.

(** [executePlanPending] once the dependencies have been awaited, from
    [const result = new Array(pendingPlanResultsesLength)] on. *)
Definition executePending (o : ExecutablePlan) (plan : string)
  (pendingPlanResultses : list PlanResults) (dependencyValuesList : list nat)
  : X nat :=
  let commonAncestor := commonAncestorPathIdentity o in
  let pendingPlanResultsesLength := length pendingPlanResultses in
  let hasDependencies := Nat.ltb 0 (length (dependencies o)) in
  do* result := newArray (replicate pendingPlanResultsesLength Undefined) in
  do* realPending :=
    shortCircuit plan commonAncestor result
      (if hasDependencies then dependencyValuesList else [])
      pendingPlanResultses pendingPlanResultsesLength [] in
  let real := reverse realPending in
  if Nat.ltb 0 (length real) then
    if bool_decide (constructor_ o = __ItemPlan) then xthrow itemPlanExecuted
    else
      do* pendingResults :=
        (if bool_decide (constructor_ o = __ListTransformPlan)
         then executeTransformPlan plan (map fst real)
         else
           do* values := readAll dependencyValuesList in
           do* r := xgets id in
           logExecute plan values ;;;
           awaitExecution
             (if streams plan then stream' plan values r else execute plan values r)) in
      if isDev && hasDependencies
         && negb (Nat.eqb (length pendingResults) pendingPlanResultsesLength)
      then xthrow resultCountMismatch
      else
        storeResults plan commonAncestor result
          (hasDependencies
           || bool_decide (constructor_ o = __ListTransformPlan)
           || hasSideEffects o)
          pendingResults real 0 ;;;
        xret result
  else xret result.

(** The body of [executePlanPending]. *)
Definition executePlanPendingBody (plan : string)
  (pendingPlanResultses : list PlanResults) (visitedPlans : list string)
  (planCacheForPendingPlanResultses : nat) : X nat :=
  match objects aether !! plan with
  | None => xthrow (TypeError "Cannot read properties of undefined")
  | Some o =>
      do* dependencyValuesList :=
        (if Nat.ltb 0 (length (dependencies o))
         then awaitDependencies plan (dependencies o) 0 pendingPlanResultses
                visitedPlans planCacheForPendingPlanResultses
         else noDependencyValues o (length pendingPlanResultses)) in
      executePending o plan pendingPlanResultses dependencyValuesList
  end.

(** [private async executePlanPending(plan, crystalContext,
    pendingPlanResultses, visitedPlans, depth,
    planCacheForPendingPlanResultses): Promise<any[]>] *)
Definition executePlanPending (plan : string)
  (pendingPlanResultses : list PlanResults) (visitedPlans : list string)
  (planCacheForPendingPlanResultses : nat) : X Completion :=
  async (executePlanPendingBody plan pendingPlanResultses visitedPlans
           planCacheForPendingPlanResultses).


(** ** [executePlanOld] *)

(** The lists the first loop of [executePlanOld] fills. *)
Record Classification := {
  pendingRows : list PlanResults;
  pendingDeferreds : list nat;
  pendingPlanResultsesIndexes : list nat;
  inProgressDeferreds : list nat;
  inProgressPlanResultsesIndexes : list nat;
}.

Definition pushPending (planResults : PlanResults) (deferred i : nat)
  (c : Classification) : Classification :=
  {| pendingRows := pendingRows c ++ [planResults];
     pendingDeferreds := pendingDeferreds c ++ [deferred];
     pendingPlanResultsesIndexes := pendingPlanResultsesIndexes c ++ [i];
     inProgressDeferreds := inProgressDeferreds c;
     inProgressPlanResultsesIndexes := inProgressPlanResultsesIndexes c |}.

Definition pushInProgress (deferred i : nat) (c : Classification) : Classification :=
  {| pendingRows := pendingRows c;
     pendingDeferreds := pendingDeferreds c;
     pendingPlanResultsesIndexes := pendingPlanResultsesIndexes c;
     inProgressDeferreds := inProgressDeferreds c ++ [deferred];
     inProgressPlanResultsesIndexes := inProgressPlanResultsesIndexes c ++ [i] |}.

(** The loop [for (let i = 0; i < planResultsesLength; i++)] of
    [executePlanOld], about to look at row [i]: a row is answered from its
    bucket, joins the deferred its bucket has in flight, or is made pending
    under a new deferred that the in-flight map then holds. *)
Fixpoint classify (o : ExecutablePlan) (plan : string) (result : nat)
  (planResultses : list Row) (i : nat) (c : Classification) : X Classification :=
  match planResultses with
  | [] => xret c
  | RowNull :: rest =>
      writeArray result i Null ;;; classify o plan result rest (S i) c
  | RowError e :: rest =>
      writeArray result i (CrystalErrorValue e) ;;; classify o plan result rest (S i) c
  | RowResults planResults :: rest =>
      do* r := xgets id in
      if planResultsHas r planResults (commonAncestorPathIdentity o) plan then
        writeArray result i (planResultsGet r planResults (commonAncestorPathIdentity o) plan) ;;;
        classify o plan result rest (S i) c
      else if bool_decide (constructor_ o = __ValuePlan) then xthrow valuePlanQueued
      else
        let bucket := getBucket planResults (commonAncestorPathIdentity o) in
        match inProgressPlanResolutions r !! plan with
        | None => xthrow (TypeError "Cannot read properties of undefined (reading 'has')")
        | Some deferredsByBucket =>
            match deferredsByBucket !! bucket with
            | Some deferred =>
                classify o plan result rest (S i) (pushInProgress deferred i c)
            | None =>
                do* deferred := defer in
                xmodify (withInProgress
                           <[plan := <[bucket := deferred]> deferredsByBucket]>) ;;;
                classify o plan result rest (S i) (pushPending planResults deferred i c)
            end
        end
  end.

(** [deferredsByBucket.delete(bucket)] *)
Definition deleteInProgress (plan : string) (bucket : nat) : X unit :=
  xmodify (withInProgress (alter (delete bucket) plan)).

(** The two callbacks of [pendingResultsPromise.then(...)], as loops over
    the pending rows with their index and deferred. *)
Fixpoint handleFulfilled (o : ExecutablePlan) (plan : string) (result pendingResults : nat)
  (pending : list (PlanResults * (nat * nat))) (i : nat) : X unit :=
  match pending with
  | [] => xret tt
  | (planResults, (j, deferred)) :: rest =>
      deleteInProgress plan (getBucket planResults (commonAncestorPathIdentity o)) ;;;
      do* r := xgets id in
      writeArray result j (arrayAt r pendingResults i) ;;;
      resolveDeferred deferred (arrayAt r pendingResults i) ;;;
      handleFulfilled o plan result pendingResults rest (S i)
  end.

Fixpoint handleRejected (o : ExecutablePlan) (plan : string) (result : nat)
  (error : Exception) (pending : list (PlanResults * (nat * nat))) : X unit :=
  match pending with
  | [] => xret tt
  | (planResults, (j, deferred)) :: rest =>
      deleteInProgress plan (getBucket planResults (commonAncestorPathIdentity o)) ;;;
      writeArray result j (CrystalErrorValue error) ;;;
      rejectDeferred deferred error ;;;
      handleRejected o plan result error rest
  end.

(** [Promise.all(inProgressDeferreds)] *)
Fixpoint promiseAll (r : Run) (ds : list nat) : Promise (list Value) :=
  match ds with
  | [] => Fulfilled []
  | d :: ds' =>
      match default Unsettled (deferreds r !! d), promiseAll r ds' with
      | Rejected e, _ => Rejected e
      | _, Rejected e => Rejected e
      | Fulfilled v, Fulfilled vs => Fulfilled (v :: vs)
      | _, _ => Unsettled
      end
  end.

(** [result[j] = completedInProgressResultses[i]] for every joined row. *)
Fixpoint handleInProgress (result : nat) (indexes : list nat) (completed : list Value)
  : X unit :=
  match indexes, completed with
  | j :: indexes', v :: completed' =>
      writeArray result j v ;;; handleInProgress result indexes' completed'
  | _, _ => xret tt
  end.

(** [planResults.get(...)] for every row: the answer for an [__ItemPlan]. *)
Definition itemPlanResults (r : Run) (o : ExecutablePlan) (plan : string) (row : Row)
  : Value :=
  match row with
  | RowNull => Null
  | RowError e => CrystalErrorValue e
  | RowResults planResults =>
      planResultsGet r planResults (commonAncestorPathIdentity o) plan
  end.


Definition emptyClassification : Classification :=
  {| pendingRows := []; pendingDeferreds := []; pendingPlanResultsesIndexes := [];
     inProgressDeferreds := []; inProgressPlanResultsesIndexes := [] |}.

(** [private executePlanOld(plan, crystalContext, planResultses,
    visitedPlans, depth, planCacheForPlanResultses): PromiseOrDirect<any[]>].
    The promise it returns is settled as far as the run settles the promises
    it waits for: the callbacks on [pendingResultsPromise] run if
    [executePlanPending] came to an end, those on
    [Promise.all(inProgressDeferreds)] if every joined deferred is
    settled. *)
Definition executePlanOld (plan : string) (planResultses : list Row)
  (visitedPlans : list string) (planCacheForPlanResultses : nat) : X Completion :=
  match objects aether !! plan with
  | None => xthrow (TypeError "Cannot read properties of undefined")
  | Some o =>
      if bool_decide (constructor_ o = __ItemPlan) then
        do* r := xgets id in
        do* a := newArray (map (itemPlanResults r o plan) planResultses) in
        xret (Direct a)
      else
        let planResultsesLength := length planResultses in
        do* result := newArray (replicate planResultsesLength Undefined) in
        do* c := classify o plan result planResultses 0 emptyClassification in
        let pendingPlanResultsesLength := length (pendingRows c) in
        if Nat.eqb pendingPlanResultsesLength 0
           && Nat.eqb (length (inProgressDeferreds c)) 0
        then xret (Direct result)
        else
          do* planCacheForPendingPlanResultses :=
            (if Nat.eqb pendingPlanResultsesLength planResultsesLength
             then xret planCacheForPlanResultses else newPlanCache) in
          do* pendingResultsPromise :=
            (if Nat.ltb 0 pendingPlanResultsesLength
             then executePlanPending plan (pendingRows c) visitedPlans
                    planCacheForPendingPlanResultses
             else do* a := newArray [] in xret (Later (Fulfilled a))) in
          let pending :=
            zip (pendingRows c)
                (zip (pendingPlanResultsesIndexes c) (pendingDeferreds c)) in
          do* handled :=
            match pendingResultsPromise with
            | Direct pendingResults | Later (Fulfilled pendingResults) =>
                handleFulfilled o plan result pendingResults pending 0 ;;; xret true
            | Later (Rejected error) =>
                handleRejected o plan result error pending ;;; xret true
            | Later Unsettled => xret false
            end in
          do* r := xgets id in
          match promiseAll r (inProgressDeferreds c) with
          | Rejected e => xret (Later (Rejected e))
          | Unsettled => xret (Later Unsettled)
          | Fulfilled completedInProgressResultses =>
              handleInProgress result (inProgressPlanResultsesIndexes c)
                completedInProgressResultses ;;;
              xret (Later (if handled : bool then Fulfilled result else Unsettled))
          end
  end.


(** ** [executePlanAlt] *)

(** [planResultsesByBucket]: a [Map] from bucket to the rows that resolve
    to it, in the order the buckets were first met. *)
Fixpoint insertItem (bucket : nat) (item : Item) (byBucket : list (nat * list Item))
  : list (nat * list Item) :=
  match byBucket with
  | [] => [(bucket, [item])]
  | (b, items) :: rest =>
      if Nat.eqb b bucket then (b, items ++ [item]) :: rest
      else (b, items) :: insertItem bucket item rest
  end.

(** Loop 1: rows without plan results are answered by themselves, the
    others are filed under their bucket. *)
Fixpoint groupRows (commonAncestor : string) (result : nat) (planResultses : list Row)
  (planResultsesIndex : nat) (byBucket : list (nat * list Item))
  : X (list (nat * list Item)) :=
  match planResultses with
  | [] => xret byBucket
  | RowNull :: rest =>
      writeArray result planResultsesIndex Null ;;;
      groupRows commonAncestor result rest (S planResultsesIndex) byBucket
  | RowError e :: rest =>
      writeArray result planResultsesIndex (CrystalErrorValue e) ;;;
      groupRows commonAncestor result rest (S planResultsesIndex) byBucket
  | RowResults planResults :: rest =>
      groupRows commonAncestor result rest (S planResultsesIndex)
        (insertItem (getBucket planResults commonAncestor)
           (planResults, planResultsesIndex) byBucket)
  end.

(** [for (const item of items) result[item.planResultsesIndex] = value] *)
Fixpoint fill (result : nat) (items : list Item) (value : Value) : X unit :=
  match items with
  | [] => xret tt
  | (_, planResultsesIndex) :: rest =>
      writeArray result planResultsesIndex value ;;; fill result rest value
  end.

(** Loop 2: a bucket that holds a value for the plan answers all its rows;
    the others are pending. *)
Fixpoint collectPending (o : ExecutablePlan) (plan : string) (result : nat)
  (byBucket : list (nat * list Item)) (pending : list (list Item))
  : X (list (list Item)) :=
  match byBucket with
  | [] => xret pending
  | (bucket, bucketPlanResultses) :: rest =>
      do* r := xgets id in
      match bucketValue r bucket plan with
      | Some previousResult =>
          fill result bucketPlanResultses previousResult ;;;
          collectPending o plan result rest pending
      | None =>
          if bool_decide (constructor_ o = __ValuePlan) then xthrow valuePlanQueued
          else collectPending o plan result rest (pending ++ [bucketPlanResultses])
      end
  end.

(** [pendingPlanResultsAndIndexListList.map((list) => list[0].planResults)] *)
Definition firstPlanResults (pending : list (list Item)) : list PlanResults :=
  omap (λ items, fst <$> head items) pending.

(** The loop that calls [this.executePlan] for every dependency without
    waiting for any. *)
Fixpoint startDependencies (plan : string) (dependencyIds : list string)
  (dependencyIndex : nat) (pendingPlanResultses : list PlanResults)
  (visitedPlans : list string) (planCache : nat) : X (list Completion) :=
  match dependencyIds with
  | [] => xret []
  | dependencyPlanId :: rest =>
      do* dependencyPlan := dependencyPlanOf plan dependencyIndex dependencyPlanId in
      do* allDependencyResultsOrPromise :=
        executePlan dependencyPlan (map RowResults pendingPlanResultses)
          visitedPlans planCache in
      do* others := startDependencies plan rest (S dependencyIndex)
                      pendingPlanResultses visitedPlans planCache in
      xret (allDependencyResultsOrPromise :: others)
  end.

Definition isLater (completion : Completion) : bool :=
  match completion with Later _ => true | Direct _ => false end.

(** The results of the dependencies when none is a promise. *)
Definition directResults (completions : list Completion) : list nat :=
  omap (λ completion, match completion with Direct a => Some a | Later _ => None end)
       completions.

(** The loop of [awaitDependencyPromises] over the promises, in order:
    the arrays, or the error of the first promise that rejects. *)
Fixpoint awaitEach (completions : list Completion) : X (Result (list nat)) :=
  match completions with
  | [] => xret (Ok [])
  | Later (Rejected e) :: _ => xret (Throw e)
  | Later Unsettled :: _ => λ r, (Suspends, r)
  | Direct a :: rest | Later (Fulfilled a) :: rest =>
      do* others := awaitEach rest in
      xret (match others with Ok arrays => Ok (a :: arrays) | Throw e => Throw e end)
  end.

(** [for (const list of pending) for (const item of list)
    result[item.planResultsesIndex] = value] *)
Fixpoint fillAll (result : nat) (pending : list (list Item)) (value : Value) : X unit :=
  match pending with
  | [] => xret tt
  | items :: rest => fill result items value ;;; fillAll result rest value
  end.

(** "Since we just awaited, we must re-evaluate the pendingResults": the
    loop over the pending buckets from the last to the first, about to run
    the indices below [i].  A bucket answered in the meantime leaves the
    pending lists and the dependency arrays. *)
Fixpoint reevaluate (o : ExecutablePlan) (plan : string) (result : nat)
  (dependencyValuesList : list nat) (i : nat) (pending : list (list Item))
  : X (list (list Item)) :=
  match i with
  | 0 => xret pending
  | S i' =>
      match pending !! i' ≫= λ items, (λ item, (items, fst item)) <$> head items with
      | None => xthrow (TypeError "Cannot read properties of undefined")
      | Some (items, planResults) =>
          do* r := xgets id in
          if planResultsHas r planResults (commonAncestorPathIdentity o) plan then
            fill result items
              (planResultsGet r planResults (commonAncestorPathIdentity o) plan) ;;;
            spliceAll dependencyValuesList i' ;;;
            reevaluate o plan result dependencyValuesList i' (delete i' pending)
          else reevaluate o plan result dependencyValuesList i' pending
      end
  end.


Definition notEquivalent : Exception :=
  GraphileInternalError "f0af3cb6-7f0c-4002-aff5-976bf233269a".

(** The loop over the rows of one bucket that gives them [value]: the
    first row stores it in the bucket; with [check], development compares
    what the other rows then read. *)
Fixpoint storeForBucket (o : ExecutablePlan) (plan : string) (result : nat)
  (check : bool) (value : Value) (items : list Item) (first : bool) : X unit :=
  match items with
  | [] => xret tt
  | (planResults, planResultsesIndex) :: rest =>
      writeArray result planResultsesIndex value ;;;
      (if first
       then planResultsSet planResults (commonAncestorPathIdentity o) plan value
       else
         do* r := xgets id in
         if check && isDev
            && strictlyUnequal
                 (planResultsGet r planResults (commonAncestorPathIdentity o) plan) value
         then xthrow notEquivalent else xret tt) ;;;
      storeForBucket o plan result check value rest false
  end.

(** "For each bucket, build dependency values to feed to execute": the
    loop of [doNext] over the pending buckets from the last to the first,
    about to run the indices below [i]. *)
Fixpoint shortCircuitBuckets (o : ExecutablePlan) (plan : string) (result : nat)
  (dependencyValuesList : list nat) (pending : list (list Item)) (i : nat)
  (toExecute : list (list Item)) : X (list (list Item)) :=
  match i with
  | 0 => xret toExecute
  | S i' =>
      do* r := xgets id in
      match pending !! i', dependencyError r dependencyValuesList i' with
      | Some items, Some error =>
          storeForBucket o plan result false error items true ;;;
          spliceAll dependencyValuesList i' ;;;
          shortCircuitBuckets o plan result dependencyValuesList pending i' toExecute
      | Some items, None =>
          shortCircuitBuckets o plan result dependencyValuesList pending i'
            (toExecute ++ [items])
      | None, _ => xthrow (TypeError "undefined is not iterable")
      end
  end.

(** The loop over [toExecute] that hands out what [execute] returned. *)
Fixpoint distribute (o : ExecutablePlan) (plan : string) (result : nat)
  (crystalError : option Value) (executionResults : list Value) (perRow : bool)
  (toExecute : list (list Item)) (executableIndex : nat) : X unit :=
  match toExecute with
  | [] => xret tt
  | items :: rest =>
      let value :=
        match crystalError with
        | Some error => error
        | None =>
            default Undefined
              (executionResults !! (if perRow then executableIndex else 0))
        end in
      storeForBucket o plan result true value items true ;;;
      distribute o plan result crystalError executionResults perRow rest
        (S executableIndex)
  end.

Definition returnedPromise (plan : string) : Exception :=
  Error (plan +:+ " claims to be synchronous, but it returned a promise; please set 'sync = false'").

(** [const doNext = () => { ... }] *)
Definition doNext (o : ExecutablePlan) (plan : string) (result : nat)
  (planResultses : list Row) (visitedPlans : list string)
  (planCacheForPlanResultses : nat) (dependencyValuesList : list nat)
  (pending : list (list Item)) : X Completion :=
  let hasDependencies := Nat.ltb 0 (length (dependencies o)) in
  do* collected :=
    (if hasDependencies
     then shortCircuitBuckets o plan result dependencyValuesList pending
            (length pending) []
     else xret pending) in
  if Nat.eqb (length collected) 0 then xret (Direct result)
  else
    let toExecute := reverse collected in
    if bool_decide (constructor_ o = __ItemPlan) then xthrow itemPlanExecuted
    else if sync o && negb (bool_decide (constructor_ o = __ListTransformPlan))
            && negb (streams plan)
    then
      do* values := readAll dependencyValuesList in
      do* r := xgets id in
      logExecute plan values ;;;
      let '(crystalError, executionResults) :=
        match execute plan values r with
        | Returned results => (None, results)
        | ReturnedPromise _ => (Some (CrystalErrorValue (returnedPromise plan)), [])
        | Threw e => (Some (CrystalErrorValue e), [])
        end in
      distribute o plan result crystalError executionResults
        (hasDependencies || hasSideEffects o) toExecute 0 ;;;
      xret (Direct result)
    else executePlanOld plan planResultses visitedPlans planCacheForPlanResultses.

(** [const awaitDependencyPromises = async () => { ... }] *)
Definition awaitDependencyPromises (o : ExecutablePlan) (plan : string) (result : nat)
  (planResultses : list Row) (visitedPlans : list string)
  (planCacheForPlanResultses : nat) (completions : list Completion)
  (pending : list (list Item)) : X nat :=
  do* awaited := awaitEach completions in
  match awaited with
  | Throw e => fillAll result pending (CrystalErrorValue e) ;;; xret result
  | Ok dependencyValuesList =>
      do* pending' := reevaluate o plan result dependencyValuesList
                        (length pending) pending in
      if Nat.eqb (length pending') 0 then xret result
      else
        do* next := doNext o plan result planResultses visitedPlans
                      planCacheForPlanResultses dependencyValuesList pending' in
        await next
  end.

Definition recursionError (plan : string) : Exception :=
  Error ("ExecutablePlan execution recursion error: attempted to execute "
         +:+ plan +:+ " again").

(** [private executePlanAlt(plan, crystalContext, planResultses,
    visitedPlans, depth, planCacheForPlanResultses): PromiseOrDirect<any[]>] *)
Definition executePlanAlt (plan : string) (planResultses : list Row)
  (visitedPlans : list string) (planCacheForPlanResultses : nat) : X Completion :=
  match objects aether !! plan with
  | None => xthrow (TypeError "Cannot read properties of undefined")
  | Some o =>
      if bool_decide (plan ∈ visitedPlans) then xthrow (recursionError plan)
      else
        let visitedPlans := visitedPlans ++ [plan] in
        if bool_decide (constructor_ o = __ItemPlan) then
          do* r := xgets id in
          do* a := newArray (map (itemPlanResults r o plan) planResultses) in
          xret (Direct a)
        else
          let planResultsesLength := length planResultses in
          do* result := newArray (replicate planResultsesLength Undefined) in
          do* byBucket :=
            groupRows (commonAncestorPathIdentity o) result planResultses 0 [] in
          do* pending := collectPending o plan result byBucket [] in
          if Nat.eqb (length pending) 0 then xret (Direct result)
          else
            let pendingPlanResultses := firstPlanResults pending in
            do* planCacheForPendingPlanResultses :=
              (if Nat.eqb (length pendingPlanResultses) planResultsesLength
               then xret planCacheForPlanResultses else newPlanCache) in
            if Nat.ltb 0 (length (dependencies o)) then
              do* completions :=
                startDependencies plan (dependencies o) 0 pendingPlanResultses
                  visitedPlans planCacheForPendingPlanResultses in
              if existsb isLater completions then
                async (awaitDependencyPromises o plan result planResultses visitedPlans
                         planCacheForPlanResultses completions pending)
              else
                doNext o plan result planResultses visitedPlans
                  planCacheForPlanResultses (directResults completions) pending
            else
              do* dependencyValuesList :=
                noDependencyValues o (length pendingPlanResultses) in
              doNext o plan result planResultses visitedPlans
                planCacheForPlanResultses dependencyValuesList pending
  end.

End ExecutePlan.

(** [private executePlan(plan, crystalContext, planResultses, visitedPlans,
    depth, planCacheForPlanResultses): PromiseOrDirect<any[]>].  What was
    returned for the plan under this plan cache is returned again, the same
    array; in development a check of its length is queued.  [stack] bounds
    the depth of the calls, as the call stack does. *)
Fixpoint executePlan `{Executor} (stack : nat) (plan : string) (planResultses : list Row)
  (visitedPlans : list string) (planCacheForPlanResultses : nat) : X Completion :=
  match stack with
  | 0 => xthrow RangeError
  | S stack' =>
      do* r := xgets id in
      match cached r planCacheForPlanResultses plan with
      | Some completion =>
          (if isDev then queuePlanCacheCheck completion (length planResultses)
           else xret tt) ;;;
          xret completion
      | None =>
          do* result := executePlanAlt (executePlan stack') plan planResultses
                          visitedPlans planCacheForPlanResultses in
          cacheStore planCacheForPlanResultses plan result ;;;
          xret result
      end
  end.

(** The rejections of the queued checks that nothing handles: the check
    runs after the synchronous code, on the array as it then is. *)
Definition unhandledRejections (r : Run) : list Exception :=
  omap (λ '(completion, expected),
          match completion with
          | Direct a | Later (Fulfilled a) =>
              if Nat.eqb (length (default [] (arrays r !! a))) expected then None
              else Some planCacheLengthMismatch
          | Later (Rejected e) => Some e
          | Later Unsettled => None
          end) (planCacheChecks r).

(** ** A concrete executor used to run the model *)

(** A plan whose [execute] returns one result per entry of its first
    dependency array: the values of its dependencies at that index, joined. *)
Definition joinData (vs : list Value) : Value :=
  Data (String.concat "," (map (λ v, match v with Data d => d | _ => "?" end) vs)).

Definition rowsOf (values : list (list Value)) : list Value :=
  imap (λ i _, joinData (map (λ l, default Undefined (l !! i)) values)) (hd [] values).

Definition joiningExecutor (dev : bool) (objs : list (string * ExecutablePlan))
  : Executor :=
  {| executorHost := tableHost dev [];
     aether := aetherOf PhaseReady objs [] [];
     execute := λ _ values _, Returned (rowsOf values);
     stream' := λ _ values _, Returned (rowsOf values);
     executeTransformPlan := λ _ _, xret [] |}.

(** One synchronous plan whose [execute] answers with [NaN]. *)
Definition nanExecutor (dev : bool) : Executor :=
  {| executorHost := tableHost dev [];
     aether := aetherOf PhaseReady [("_1", leafPlan (UserPlan "Load") [])] [] [];
     execute := λ _ _ _, Returned [NaN];
     stream' := λ _ _ _, Returned [];
     executeTransformPlan := λ _ _, xret [] |}.

(** A row whose every scope is held by the bucket at [address]. *)
Definition rowAt (address : nat) : Row := RowResults {| bucketAt := λ _, address |}.

(** The run of a new crystal context ([newCrystalContext]: an empty
    in-flight map for every plan) with one empty plan cache at address 0,
    in which the buckets already hold [values] for the plan [loaded]. *)
Definition newRun (planIds : list string) (loaded : string) (values : list (nat * Value))
  : Run :=
  {| buckets := list_to_map (map (λ kv, (kv.1, {[ loaded := kv.2 ]})) values);
     arrays := ∅;
     planCaches := {[ 0 := ∅ ]};
     inProgressPlanResolutions := list_to_map (map (λ planId, (planId, ∅)) planIds);
     deferreds := ∅; executeCalls := []; planCacheChecks := []; allocated := 1 |}.

(** The array a call returned, if it returned one. *)
Definition returned (x : Outcome Completion * Run) : option (list Value) :=
  match x.1 with
  | Returns (Direct a) | Returns (Later (Fulfilled a)) => arrays x.2 !! a
  | _ => None
  end.

(** Three synchronous plans: [_1] loads a value, [_2] depends on it, and
    [_3] depends on both. *)
Definition diamond : list (string * ExecutablePlan) :=
  [("_1", leafPlan (UserPlan "Load") []);
   ("_2", leafPlan (UserPlan "Access") ["_1"]);
   ("_3", leafPlan (UserPlan "List") ["_1"; "_2"])].

(** Three rows in three buckets; [_1] has failed for the second. *)
Definition diamondRun : Run :=
  newRun ["_1"; "_2"; "_3"] "_1"
    [(10, Data "a"); (11, CrystalErrorValue (Error "boom")); (12, Data "c")].

(** One plan that is not synchronous; its [execute] is rejected the first
    time it is called and returns a value from then on. *)
Definition flakyExecutor : Executor :=
  {| executorHost := tableHost false [];
     aether := aetherOf PhaseReady
       [("_1", {| constructor_ := UserPlan "Load"; dependencies := [];
                  hasSideEffects := false; sync := false; parentPathIdentity := "";
                  commonAncestorPathIdentity := ""; properties := [] |})] [] [];
     execute := λ _ _ r,
       match executeCalls r with
       | [] => ReturnedPromise (Rejected (Error "connection lost"))
       | _ => Returned [Data "v"]
       end;
     stream' := λ _ _ _, Returned [];
     executeTransformPlan := λ _ _, xret [] |}.

(** Two batches, one after the other and each with its own plan cache, that
    ask for [plan] on the same rows. *)
Definition twoBatches `{Executor} (plan : string) (planResultses : list Row)
  : X (Completion * Completion) :=
  do* first := executePlan stack plan planResultses [] 0 in
  do* planCache := newPlanCache in
  do* second := executePlan stack plan planResultses [] planCache in
  xret (first, second).

(** What the two batches returned, and the calls of [execute] they made. *)
Definition observed (x : Outcome (Completion * Completion) * Run)
  : option (list Value) * option (list Value) * list (string * list (list Value)) :=
  match x.1 with
  | Returns (first, second) =>
      (returned (Returns first, x.2), returned (Returns second, x.2), executeCalls x.2)
  | _ => (None, None, executeCalls x.2)
  end.

(** ** The side effects of a field: [executeBatchForPlanResultses]

    The end of the method chains the side-effect plans of the field and
    then calls [executeBatchInner].  To tell one call that waits for
    another from calls that overlap, the run is given a clock: a promise
    that [executePlan] returns settles [latency] later than the call was
    made, whatever [latency] is, and the calls are recorded with the time
    they begin and end.  [executeBatchInner] is taken as given. *)
Inductive Moment :=
| Begins (plan : string)
| Ends (plan : string)
| BeginsInner.

#[global] Instance Moment_eq_dec : EqDecision Moment.
Proof. solve_decision. Defined.

Record World := {
  run : Run;
  now : nat;
  moments : list (nat * Moment);
}.

Definition record (m : Moment) (w : World) : World :=
  {| run := run w; now := now w; moments := moments w ++ [(now w, m)] |}.

Definition elapse (duration : nat) (w : World) : World :=
  {| run := run w; now := now w + duration; moments := moments w |}.

Definition withRun (r : Run) (w : World) : World :=
  {| run := r; now := now w; moments := moments w |}.

Section SideEffects.

Context `{Executor}.

Variable latency : string → nat → nat.

Variable executeBatchInner : X Completion.

(** [chain.then(() => this.executePlan(sideEffectPlan, crystalContext,
    planResultses))]: the callback runs once [chain] is fulfilled, and the
    new chain settles as what the callback returns does. *)
Definition thenExecutePlan (sideEffectPlan : string) (planResultses : list Row)
  (chain : Promise unit * World) : Promise unit * World :=
  match chain with
  | (Fulfilled _, w) =>
      let w := record (Begins sideEffectPlan) w in
      let call :=
        do* planCache := newPlanCache in
        executePlan stack sideEffectPlan planResultses [] planCache in
      match call (run w) with
      | (Returns (Direct _), r) =>
          (Fulfilled tt, record (Ends sideEffectPlan) (withRun r w))
      | (Returns (Later (Fulfilled _)), r) =>
          (Fulfilled tt,
           record (Ends sideEffectPlan)
             (elapse (latency sideEffectPlan (now w)) (withRun r w)))
      | (Returns (Later (Rejected e)), r) =>
          (Rejected e,
           record (Ends sideEffectPlan)
             (elapse (latency sideEffectPlan (now w)) (withRun r w)))
      | (Throws e, r) =>
          (Rejected e, record (Ends sideEffectPlan) (withRun r w))
      | (Returns (Later Unsettled), r) | (Suspends, r) =>
          (Unsettled, withRun r w)
      end
  | (Rejected e, w) => (Rejected e, w)
  | (Unsettled, w) => (Unsettled, w)
  end.

(** [for (let i = 0; i < sideEffectCount; i++) chain = chain.then(...)] *)
Fixpoint chainSideEffects (sideEffectPlans : list string) (planResultses : list Row)
  (chain : Promise unit * World) : Promise unit * World :=
  match sideEffectPlans with
  | [] => chain
  | sideEffectPlan :: rest =>
      chainSideEffects rest planResultses
        (thenExecutePlan sideEffectPlan planResultses chain)
  end.

(** A call of [executeBatchInner]. *)
Definition beginInner (w : World) : Outcome Completion * World :=
  let w := record BeginsInner w in
  let '(outcome, r) := executeBatchInner (run w) in
  (outcome, withRun r w).

(** The end of [private executeBatchForPlanResultses(crystalContext,
    pathIdentity, fieldDigest, sideEffectPlans, plan, itemPlan,
    planResultses, ...): PromiseOrDirect<any[]>], from "First, execute side
    effects (in order, *not* in parallel)". *)
Definition executeBatchForPlanResultses (sideEffectPlans : list string)
  (planResultses : list Row) (w : World) : Outcome Completion * World :=
  if Nat.ltb 0 (length sideEffectPlans) then
    match chainSideEffects sideEffectPlans planResultses (Fulfilled tt, w) with
    | (Fulfilled _, w') =>
        match beginInner w' with
        | (Returns (Direct a), w'') => (Returns (Later (Fulfilled a)), w'')
        | (Returns (Later p), w'') => (Returns (Later p), w'')
        | (Throws e, w'') => (Returns (Later (Rejected e)), w'')
        | (Suspends, w'') => (Returns (Later Unsettled), w'')
        end
    | (Rejected e, w') => (Returns (Later (Rejected e)), w')
    | (Unsettled, w') => (Returns (Later Unsettled), w')
    end
  else beginInner w.

End SideEffects.

(** ** Vocabulary of the statements about side effects *)

(** The trace of a field whose side effects run one after the other, each
    to its end, before [executeBatchInner] begins. *)
Definition oneAfterTheOther (sideEffectPlans : list string) : list Moment :=
  flat_map (λ plan, [Begins plan; Ends plan]) sideEffectPlans ++ [BeginsInner].

(** The times of a trace never go back. *)
Fixpoint inTime (from : nat) (ms : list (nat * Moment)) : Prop :=
  match ms with
  | [] => True
  | (t, _) :: ms' => from ≤ t ∧ inTime t ms'
  end.

(** Three side-effect plans that are not synchronous, and latencies that
    would let the later ones overtake the first if they ran together. *)
Definition mutation : ExecutablePlan :=
  {| constructor_ := UserPlan "Mutation"; dependencies := [];
     hasSideEffects := true; sync := false; parentPathIdentity := "";
     commonAncestorPathIdentity := ""; properties := [] |}.

Definition mutations : list (string * ExecutablePlan) :=
  [("_1", mutation); ("_2", mutation); ("_3", mutation)].

Definition slowFirst (plan : string) (_ : nat) : nat :=
  if String.eqb plan "_1" then 5 else if String.eqb plan "_2" then 1 else 3.

Definition newWorld (r : Run) : World := {| run := r; now := 0; moments := [] |}.

(** The call a link of the chain makes:
    [this.executePlan(sideEffectPlan, crystalContext, planResultses)], with a
    plan cache of its own. *)
Definition sideEffectCall `{Executor} (planResultses : list Row)
  (sideEffectPlan : string) : X Completion :=
  do* planCache := newPlanCache in
  executePlan stack sideEffectPlan planResultses [] planCache.

(** What a call comes to for the promise that waits for it: it is
    fulfilled, it is rejected (a [throw] inside a [then] callback rejects the
    chain too), or it never settles. *)
Inductive Settlement :=
| IsFulfilled
| IsRejected (e : Exception)
| NeverSettles.

Definition settlement (x : Outcome Completion) : Settlement :=
  match x with
  | Returns (Direct _) | Returns (Later (Fulfilled _)) => IsFulfilled
  | Returns (Later (Rejected e)) | Throws e => IsRejected e
  | Returns (Later Unsettled) | Suspends => NeverSettles
  end.

(** The run once the calls for [sideEffectPlans] have been made one after
    the other, each in the run the one before left. *)
Fixpoint runAfter `{Executor} (planResultses : list Row) (sideEffectPlans : list string)
  (r : Run) : Run :=
  match sideEffectPlans with
  | [] => r
  | sideEffectPlan :: rest =>
      runAfter planResultses rest (sideEffectCall planResultses sideEffectPlan r).2
  end.

(** Each of these calls is fulfilled. *)
Definition allFulfilled `{Executor} (planResultses : list Row)
  (sideEffectPlans : list string) (r : Run) : Prop :=
  ∀ before sideEffectPlan after,
    sideEffectPlans = before ++ sideEffectPlan :: after →
    settlement (sideEffectCall planResultses sideEffectPlan
                  (runAfter planResultses before r)).1 = IsFulfilled.

(** The side effects that began and ended, in the order of the list. *)
Definition begunAndEnded (sideEffectPlans : list string) : list Moment :=
  flat_map (λ plan, [Begins plan; Ends plan]) sideEffectPlans.

(** The first mutation throws in [execute]; the others return. *)
Definition firstThrows : Executor :=
  {| executorHost := tableHost false [];
     aether := aetherOf PhaseReady mutations [] [];
     execute := λ plan values _,
       if String.eqb plan "_1" then Threw (Error "insert failed")
       else Returned (rowsOf values);
     stream' := λ _ values _, Returned (rowsOf values);
     executeTransformPlan := λ _ _, xret [] |}.

(** ** Vocabulary of the statements about the in-flight map *)

(** The in-flight map of a plan: from bucket to deferred. *)
Definition inFlight (r : Run) (plan : string) : gmap nat nat :=
  default ∅ (inProgressPlanResolutions r !! plan).

(** The bucket a row resolves to for a plan. *)
Definition bucketOf (o : ExecutablePlan) (planResults : PlanResults) : nat :=
  getBucket planResults (commonAncestorPathIdentity o).

(** Row [j], which is [pr], was made pending under the deferred [d]; row
    [j] joined the deferred [d]. *)
Definition pendingUnder (c : Classification) (j : nat) (pr : PlanResults) (d : nat)
  : Prop :=
  ∃ k, pendingRows c !! k = Some pr
       ∧ pendingPlanResultsesIndexes c !! k = Some j
       ∧ pendingDeferreds c !! k = Some d.

Definition joinedTo (c : Classification) (j d : nat) : Prop :=
  ∃ k, inProgressPlanResultsesIndexes c !! k = Some j
       ∧ inProgressDeferreds c !! k = Some d.

(** What holds of the lists and of the in-flight map [m] while the loop of
    [executePlanOld] runs from the run [r0] and the in-flight map [m0]. *)
Definition classifying (o : ExecutablePlan) (plan : string) (r0 : Run)
  (m0 m : gmap nat nat) (c : Classification) : Prop :=
  length (pendingRows c) = length (pendingDeferreds c)
  ∧ length (pendingPlanResultsesIndexes c) = length (pendingDeferreds c)
  ∧ length (inProgressPlanResultsesIndexes c) = length (inProgressDeferreds c)
  ∧ NoDup (bucketOf o <$> pendingRows c)
  ∧ (∀ pr, pr ∈ pendingRows c →
       m0 !! bucketOf o pr = None
       ∧ bucketValue r0 (bucketOf o pr) plan = None
       ∧ is_Some (m !! bucketOf o pr))
  ∧ m0 ⊆ m.

(** ** Vocabulary of the statements about the partition by bucket *)

(** Every group of [byBucket] is filed under a bucket of its own, is not
    empty, and holds rows of [planResultses] that resolve to its bucket. *)
Definition grouped (o : ExecutablePlan) (planResultses : list Row)
  (byBucket : list (nat * list Item)) : Prop :=
  NoDup byBucket.*1
  ∧ ∀ bucket items, (bucket, items) ∈ byBucket →
      items ≠ []
      ∧ ∀ pr j, (pr, j) ∈ items →
          bucketOf o pr = bucket ∧ planResultses !! j = Some (RowResults pr).

(** Row [j], which is [pr], is in the group of its bucket. *)
Definition filed (o : ExecutablePlan) (byBucket : list (nat * list Item))
  (j : nat) (pr : PlanResults) : Prop :=
  ∃ items, (bucketOf o pr, items) ∈ byBucket ∧ (pr, j) ∈ items.

(** ** Vocabulary of the statements about short-circuiting *)

(** The first [CrystalError] among the values of the dependencies at index
    [i]. *)
Fixpoint erred (vss : list (list Value)) (i : nat) : option Value :=
  match vss with
  | [] => None
  | vs :: rest =>
      match default Undefined (vs !! i) with
      | CrystalErrorValue e => Some (CrystalErrorValue e)
      | _ => erred rest i
      end
  end.

(** The entries of [l], whose first entry has index [from], at the indices
    that [keep] holds of. *)
Fixpoint pick {A} (keep : nat → bool) (from : nat) (l : list A) : list A :=
  match l with
  | [] => []
  | x :: l' =>
      if keep from then x :: pick keep (S from) l' else pick keep (S from) l'
  end.

(** Of [n] rows, those at an index where no dependency erred. *)
Definition spared (vss : list (list Value)) (n k : nat) : bool :=
  Nat.leb n k || bool_decide (erred vss k = None).

(** The rows that go on to [execute], with their index. *)
Definition sparedRows (vss : list (list Value)) (pendingPlanResultses : list PlanResults)
  : list Item :=
  filter (λ item, erred vss item.2 = None)
         (imap (λ k planResults, (planResults, k)) pendingPlanResultses).

(** A run in which the array at address 5 holds what a dependency
    returned for three rows: a value, an error and a value. *)
Definition awaitedRun : Run :=
  {| buckets := ∅;
     arrays := {[ 5 := [Data "a"; CrystalErrorValue (Error "boom"); Data "c"] ]};
     planCaches := ∅; inProgressPlanResolutions := ∅; deferreds := ∅;
     executeCalls := []; planCacheChecks := []; allocated := 6 |}.

Definition threeRows : list PlanResults :=
  [ {| bucketAt := λ _, 10 |}; {| bucketAt := λ _, 11 |}; {| bucketAt := λ _, 12 |} ].

(** The result array while the rows from [i] on have been looked at. *)
Definition resultFrom (pending : list PlanResults) (vss : list (list Value))
  (res0 : list Value) (i : nat) (l : list Value) : Prop :=
  length l = length pending
  ∧ ∀ k, k < length pending →
      l !! k = Some (if bool_decide (i ≤ k)
                     then default (default Undefined (res0 !! k)) (erred vss k)
                     else default Undefined (res0 !! k)).

(** What the row at position [k] of the rows executed is given. *)
Definition resultAt (perRow : bool) (pendingResults : list Value) (k : nat) : Value :=
  settle (default Undefined (pendingResults !! (if perRow then k else 0))).

(** ** Vocabulary of the statements about peers *)

(** One plan object could stand for the other: the same class, the same
    parent path identity, and dependency ids that resolve, position by
    position, to the same slot contents. *)
Definition interchangeable (s : Aether) (planA planB : ExecutablePlan) : Prop :=
  constructor_ planA = constructor_ planB
  ∧ parentPathIdentity planA = parentPathIdentity planB
  ∧ Forall2 (λ depA depB, lookupKey depA (plans s) = lookupKey depB (plans s))
      (dependencies planA) (dependencies planB).

(** ** [getPlan], [dangerouslyGetPlan] and [isOptimized] *)

(** [public dangerouslyGetPlan(id: string): ExecutablePlan] *)
Definition dangerouslyGetPlan (id : string) : M (option string) := slot id.

(** [public getPlan(id, requestingPlan)]: the checking function when [isDev],
    the bare lookup otherwise. *)
Definition getPlan `{Host} (id requestingPlan : string) : M (option string) :=
  if isDev then
    let* ph := gets phase in
    if negb (bool_decide (ph ∈ planCreationPhases)) then
      throw (Error ("Getting a plan during the '" +:+ phaseName ph
                    +:+ "' phase is forbidden - please do so before or during the optimize phase."))
    else
      let* optimized := gets optimizedPlans in
      if bool_decide (requestingPlan ∈ optimized) then
        throw (Error ("Optimized plan " +:+ requestingPlan
                      +:+ " is not permitted to request other plans (requested '"
                      +:+ id +:+ "')"))
      else
        let* plan := slot id in
        match plan with
        | None => throw (Error ("Programming error: plan with id '" +:+ id
                                +:+ "' no longer exists"))
        | Some p => ret (Some p)
        end
  else slot id.

(** [public isOptimized(plan: ExecutablePlan): boolean] *)
Definition isOptimized (plan : string) : M bool :=
  gets (λ s, bool_decide (plan ∈ optimizedPlans s)).

(** ** [isTypePlanned] *)

(** A GraphQL object type as [isTypePlanned] sees it: its name (what
    [toString] gives) and [!!type.extensions?.graphile?.Plan]. *)
Record ObjectType := { objectTypeName : string; hasPlan : bool }.

(** The named types [isTypePlanned] tells apart by [instanceof]. *)
Inductive NamedType :=
| GraphQLObjectType (type : ObjectType)
| GraphQLUnionType (name : string) (types : list ObjectType)
| GraphQLInterfaceType (name : string)
| GraphQLOtherType (name : string).

(** [schema.getImplementations(namedType).objects] *)
Record Schema := { getImplementations : string → list ObjectType }.

Definition expectation (hasPlan : bool) : string :=
  if hasPlan then "expected a plan" else "did not expect a plan".

Definition planDisagreement (name first : string) (firstHadPlan : bool)
  (type : string) (i : nat) (hasPlan : bool) : Exception :=
  Error ("The '" +:+ name +:+ "' interface or union type's first type '" +:+ first
         +:+ "' " +:+ expectation firstHadPlan +:+ ", however the type '" +:+ type
         +:+ "' (index = " +:+ pretty i +:+ ") " +:+ expectation hasPlan
         +:+ ". All types in an interface or union must be in agreement about whether a plan is expected or not.").

(** [for (const type of types) { ... i++; }] with [firstHadPlan] and [i]
    threaded; [first] is [types[0]]. *)
Fixpoint typesAgree (name first : string) (types : list ObjectType)
  (firstHadPlan : option bool) (i : nat) : Result (option bool) :=
  match types with
  | [] => Ok firstHadPlan
  | type :: rest =>
      match firstHadPlan with
      | None => typesAgree name first rest (Some (hasPlan type)) (S i)
      | Some had =>
          if negb (eqb (hasPlan type) had)
          then Throw (planDisagreement name first had (objectTypeName type) i
                        (hasPlan type))
          else typesAgree name first rest (Some had) (S i)
      end
  end.

(** [function isTypePlanned(schema, namedType): boolean] *)
Definition isTypePlanned (schema : Schema) (namedType : NamedType) : Result bool :=
  let unionOrInterface (name : string) (types : list ObjectType) :=
    match typesAgree name (match types with t :: _ => objectTypeName t | [] => "undefined" end)
            types None 0 with
    | Ok (Some firstHadPlan) => Ok firstHadPlan
    | Ok None => Ok false
    | Throw e => Throw e
    end in
  match namedType with
  | GraphQLObjectType type => Ok (hasPlan type)
  | GraphQLUnionType name types => unionOrInterface name types
  | GraphQLInterfaceType name => unionOrInterface name (getImplementations schema name)
  | GraphQLOtherType _ => Ok false
  end.

(** ** Vocabulary of the statements about planned types *)

(** The object types a union or an interface stands for. *)
Definition memberTypes (schema : Schema) (namedType : NamedType) : list ObjectType :=
  match namedType with
  | GraphQLObjectType type => [type]
  | GraphQLUnionType _ types => types
  | GraphQLInterfaceType name => getImplementations schema name
  | GraphQLOtherType _ => []
  end.

(** ** [finalizePlans] *)

Section FinalizePlans.
(** What the plan classes keep to themselves ([isFinalized] and the like). *)
Context {P : Type}.
(** [plan.finalize()] of the plan class, and [assertFinalized] (plan.ts). *)
Variable finalize : string → Aether * P → Result unit * (Aether * P).
Variable assertFinalized : string → Aether * P → Result unit * (Aether * P).

(** [for (const i of ids.reverse()) { const plan = this.plans[i];
    if (plan !== null) { ... distinctActivePlansInReverseOrder.add(plan) } }];
    reading [plan.parentPathIdentity] throws when the slot holds no object. *)
Fixpoint collectActivePlans (s : Aether) (ids : list string)
  (distinctActivePlansInReverseOrder : list string) : Result (list string) :=
  match ids with
  | [] => Ok distinctActivePlansInReverseOrder
  | i :: ids' =>
      match lookupKey i (plans s) with
      | Some None => collectActivePlans s ids' distinctActivePlansInReverseOrder
      | Some (Some plan) =>
          match objects s !! plan with
          | Some _ =>
              collectActivePlans s ids' (setAdd plan distinctActivePlansInReverseOrder)
          | None => Throw (TypeError "no such plan object")
          end
      | None =>
          Throw (TypeError "Cannot read properties of undefined (reading 'parentPathIdentity')")
      end
  end.

(** [for (const plan of distinctActivePlansInReverseOrder) { plan.finalize();
    assertFinalized(plan); }]; the list returned names the plans whose
    [finalize] was called, in the order of the calls. *)
Fixpoint finalizeEach (plans : list string) (st : Aether * P)
  : Result unit * (Aether * P) * list string :=
  match plans with
  | [] => (Ok tt, st, [])
  | plan :: rest =>
      match finalize plan st with
      | (Ok _, st1) =>
          match assertFinalized plan st1 with
          | (Ok _, st2) =>
              let '(r, st3, calls) := finalizeEach rest st2 in
              (r, st3, plan :: calls)
          | (Throw e, st2) => (Throw e, st2, [plan])
          end
      | (Throw e, st1) => (Throw e, st1, [plan])
      end
  end.

(** [private finalizePlans(): void] *)
Definition finalizePlans (st : Aether * P) : Result unit * (Aether * P) * list string :=
  let ids := drop 0 (map fst (plans st.1)) in
  match collectActivePlans st.1 (reverse ids) [] with
  | Ok distinctActivePlansInReverseOrder =>
      finalizeEach distinctActivePlansInReverseOrder st
  | Throw e => (Throw e, st, [])
  end.

End FinalizePlans.

(** ** Vocabulary of the statements about finalization *)

(** The plans in the slots of the table, each once, ordered by the last slot
    that holds them, last slot first. *)
Definition livePlansLastFirst (s : Aether) : list string :=
  reverse (remove_dups (omap snd (plans s))).

(** Plan classes that record in a set which plans have been finalized;
    [assertFinalized] looks the plan up there. *)
Definition recordFinalized (plan : string) (st : Aether * gset string)
  : Result unit * (Aether * gset string) :=
  (Ok tt, (st.1, {[plan]} ∪ st.2)).

Definition checkFinalized (plan : string) (st : Aether * gset string)
  : Result unit * (Aether * gset string) :=
  if bool_decide (plan ∈ st.2) then (Ok tt, st)
  else (Throw (Error "Plan was not finalized"), st).

(** Three slots after a deduplication: [_2] has been replaced by [_1]. *)
Definition aliasedAether : Aether :=
  withPlans (λ _, [("_1", Some "_1"); ("_2", Some "_1"); ("_3", Some "_3")])
    (aetherOf PhaseFinalize
       [("_1", leafPlan (UserPlan "A") []);
        ("_2", leafPlan (UserPlan "A") []);
        ("_3", leafPlan (UserPlan "B") ["_2"])]
       [] [("~>f", "_3")]).

(** ** [walkFinalizedPlans] *)

(** The loop of the callback of [walkFinalizedPlans] over
    [plan.dependencies].  The fields [_recursiveDependencyIds] of the plan
    objects, each a [Set<string>] in insertion order, are kept by plan in
    [recursiveDependencyIds]; a plan object without the field has no entry, and
    using the field then throws. *)
Fixpoint addRecursiveDependencies (plan : string) (dependencies : list string)
  (recursiveDependencyIds : gmap string (list string))
  : M (gmap string (list string)) :=
  match dependencies with
  | [] => ret recursiveDependencyIds
  | depId :: rest =>
      let* dep := dangerouslyGetPlan depId in
      match recursiveDependencyIds !! plan with
      | None => throw (TypeError "Cannot read properties of undefined (reading 'add')")
      | Some own =>
          match dep with
          | None => throw (TypeError "Cannot read properties of undefined (reading 'id')")
          | Some d =>
              let added := <[plan := setAdd d own]> recursiveDependencyIds in
              match added !! d with
              | None => throw (TypeError "dep._recursiveDependencyIds is not iterable")
              | Some depdeps =>
                  addRecursiveDependencies plan rest
                    (<[plan := fold_left (λ ids depdep, setAdd depdep ids) depdeps
                                 (setAdd d own)]> added)
              end
          end
      end
  end.

(** The callback: it returns the plan it was given. *)
Definition walkCallback (plan : string)
  (recursiveDependencyIds : gmap string (list string))
  : M (string * gmap string (list string)) :=
  let* o := object plan in
  let* recursiveDependencyIds' :=
    addRecursiveDependencies plan (dependencies o) recursiveDependencyIds in
  ret (plan, recursiveDependencyIds').

(** [private walkFinalizedPlans()]; the result is the fields
    [_recursiveDependencyIds] as the walk leaves them. *)
Definition walkFinalizedPlans `{Host}
  (recursiveDependencyIds : gmap string (list string))
  : M (gmap string (list string)) :=
  processPlans "walking" DependenciesFirst walkCallback None 0 recursiveDependencyIds.

(** ** Vocabulary of the statements about recursive dependencies *)

(** The plan sits in some slot of the table. *)
Definition livePlan (s : Aether) (p : string) : Prop :=
  ∃ i, planAt (plans s) i = Some p.

(** Every plan of the table also sits in the slot of its own id. *)
Definition inOwnSlot (s : Aether) : Prop :=
  ∀ p, livePlan s p → planAt (plans s) p = Some p.

(** One of the dependency ids of [p] resolves to [q]. *)
Definition dependsDirectlyOn (s : Aether) (p q : string) : Prop :=
  ∃ o depId, objects s !! p = Some o ∧ depId ∈ dependencies o
             ∧ planAt (plans s) depId = Some q.

(** [q] is reached from [p] along one or more dependency edges. *)
Inductive dependsOn (s : Aether) : string → string → Prop :=
| dependsOn_direct p q : dependsDirectlyOn s p q → dependsOn s p q
| dependsOn_further p q r :
    dependsDirectlyOn s p q → dependsOn s q r → dependsOn s p r.

(** Every plan of the table is an object whose dependency ids all resolve. *)
Definition dependenciesResolve (s : Aether) : Prop :=
  ∀ p, livePlan s p →
    ∃ o, objects s !! p = Some o
         ∧ ∀ depId, depId ∈ dependencies o → is_Some (planAt (plans s) depId).

(** [rank] goes down along every dependency edge and stays below [bound]:
    the plans form a DAG no deeper than [bound]. *)
Definition rankedBelow (s : Aether) (rank : string → nat) (bound : nat) : Prop :=
  (∀ p q, livePlan s p → dependsDirectlyOn s p q → rank q < rank p)
  ∧ ∀ p, livePlan s p → rank p < bound.

(** What the walk has established when it has been through the plans in
    [st.1]: the field of every plan holds recursive dependencies only, and
    all of them for the plans gone through. *)
Definition walked (s : Aether) (st : gset string * gmap string (list string)) : Prop :=
  ∀ p, livePlan s p →
    ∃ l, st.2 !! p = Some l ∧ NoDup l
         ∧ (∀ x, x ∈ l → dependsOn s p x)
         ∧ (p ∈ st.1 → ∀ x, dependsOn s p x → x ∈ l).

(** A chain of three plans: [_3] needs [_2], which needs [_1]. *)
Definition chainAether : Aether :=
  aetherOf PhaseReady
    [("_1", leafPlan (UserPlan "A") []);
     ("_2", leafPlan (UserPlan "B") ["_1"]);
     ("_3", leafPlan (UserPlan "C") ["_2"])]
    [] [("~>f", "_3")].

(** The depth of the plans of [chainAether]. *)
Definition chainRank (p : string) : nat :=
  if String.eqb p "_1" then 1 else if String.eqb p "_2" then 2 else 3.

(** ** [findPath] *)

(** [ancestorPlan._pathByDescendent]: the paths already found from one
    ancestor, by descendant plan; an entry holds a path or [null]. *)
Abbreviation PathByDescendent := (gmap string (option (list string))).

(** The loop of [findPath] over [descendentPlan.dependencies], with the
    recursive call passed in. *)
Fixpoint findPathThrough
  (find : option string → PathByDescendent
          → Result (option (list string)) * PathByDescendent)
  (s : Aether) (ancestorPlan descendentPlan : string) (dependencies : list string)
  (pathByDescendent : PathByDescendent)
  : Result (option (list string)) * PathByDescendent :=
  match dependencies with
  | [] => (Ok None, <[descendentPlan := None]> pathByDescendent)
  | depId :: rest =>
      let depPlan := planAt (plans s) depId in
      if bool_decide (depPlan = Some ancestorPlan) then
        let path := [descendentPlan] in
        (Ok (Some path), <[descendentPlan := Some path]> pathByDescendent)
      else
        match find depPlan pathByDescendent with
        | (Ok (Some p), pathByDescendent') =>
            let path := p ++ [descendentPlan] in
            (Ok (Some path), <[descendentPlan := Some path]> pathByDescendent')
        | (Ok None, pathByDescendent') =>
            findPathThrough find s ancestorPlan descendentPlan rest pathByDescendent'
        | (Throw e, pathByDescendent') => (Throw e, pathByDescendent')
        end
  end.

(** [private findPath(ancestorPlan, descendentPlan)]; the descendant may be
    [null] (a dependency id that resolves to nothing), the ancestor is a plan.
    [EMPTY_ARRAY] is [[]], which is truthy.  [stackLeft] bounds the nesting of
    the recursion. *)
Fixpoint findPath (stackLeft : nat) (s : Aether) (ancestorPlan : string)
  (descendentPlan : option string) (pathByDescendent : PathByDescendent)
  : Result (option (list string)) * PathByDescendent :=
  match descendentPlan with
  | None =>
      if negb (bool_decide (phase s = PhaseReady))
      then (Throw (Error "Only call findPath when aether is ready"), pathByDescendent)
      else (Throw (TypeError "Cannot read properties of undefined (reading 'dependencies')"),
            pathByDescendent)
  | Some d =>
      match pathByDescendent !! d with
      | Some known => (Ok known, pathByDescendent)
      | None =>
          if bool_decide (ancestorPlan = d) then (Ok (Some []), pathByDescendent)
          else
            match objects s !! d with
            | None => (Throw (TypeError "no such plan object"), pathByDescendent)
            | Some o =>
                if bool_decide (constructor_ o = __ValuePlan)
                then (Ok (Some []), pathByDescendent)
                else if negb (bool_decide (phase s = PhaseReady))
                then (Throw (Error "Only call findPath when aether is ready"),
                      pathByDescendent)
                else
                  match stackLeft with
                  | 0 => (Throw RangeError, pathByDescendent)
                  | S stackLeft' =>
                      findPathThrough (findPath stackLeft' s ancestorPlan) s
                        ancestorPlan d (dependencies o) pathByDescendent
                  end
            end
      end
  end.

(** ** Vocabulary of the statements about paths between plans *)

(** [path] leads to [descendentPlan] from [ancestorPlan], or from a
    [__ValuePlan]: it is empty at the ancestor and at a value plan, and
    otherwise it is a path to a plan one of the dependency ids of
    [descendentPlan] resolves to, followed by [descendentPlan]. *)
Inductive connects (s : Aether) (ancestorPlan : string) : string → list string → Prop :=
| connects_ancestor : connects s ancestorPlan ancestorPlan []
| connects_value d o :
    objects s !! d = Some o → constructor_ o = __ValuePlan →
    connects s ancestorPlan d []
| connects_dependency d q p :
    dependsDirectlyOn s d q → connects s ancestorPlan q p →
    connects s ancestorPlan d (p ++ [d]).

(** What an answer of [findPath] says about the descendant. *)
Definition answers (s : Aether) (ancestorPlan d : string)
  (answer : option (list string)) : Prop :=
  match answer with
  | Some path => connects s ancestorPlan d path
  | None => ∀ path, ¬ connects s ancestorPlan d path
  end.

(** Every entry of the cache tells the truth: a path that connects, or
    [null] where no path does. *)
Definition pathsKnown (s : Aether) (ancestorPlan : string)
  (pathByDescendent : PathByDescendent) : Prop :=
  ∀ d known, pathByDescendent !! d = Some known → answers s ancestorPlan d known.

(** ** Vocabulary of the statements about plans without dependencies *)

(** The array [a] of the run, an address handed out before, has [n] entries,
    and its entries at the indices in [W] are as [P] says. *)
Definition answered (r : Run) (a n : nat) (W : nat → Prop) (P : nat → Value → Prop)
  : Prop :=
  a < allocated r
  ∧ ∃ l, arrays r !! a = Some l ∧ length l = n
         ∧ ∀ j, W j → ∃ v, l !! j = Some v ∧ P j v.

(** The rows of the batch that carry plan results all find a value for the
    plan in their bucket. *)
Definition allAnswered (r : Run) (o : ExecutablePlan) (plan : string)
  (planResultses : list Row) : Prop :=
  ∀ j pr, planResultses !! j = Some (RowResults pr) →
    is_Some (bucketValue r (bucketOf o pr) plan).

(** A plan that [executePlanAlt] executes itself, at once: synchronous,
    without dependencies, not streamed, and none of the classes the executor
    treats apart. *)
Definition synchronousLeaf `{Executor} (plan : string) (o : ExecutablePlan) : Prop :=
  objects aether !! plan = Some o ∧ dependencies o = [] ∧ sync o = true
  ∧ constructor_ o ≠ __ItemPlan ∧ constructor_ o ≠ __ValuePlan
  ∧ constructor_ o ≠ __ListTransformPlan ∧ streams plan = false.

(** The comparison development makes after a row is stored cannot fail for
    the plan: the executor is not in development, or [plan.execute] never
    answers with [NaN]. *)
Definition equivalenceCheckPasses `{Executor} (plan : string) : Prop :=
  isDev = false
  ∨ ∀ values r results, execute plan values r = Returned results → NaN ∉ results.

(** ** [populateValuePlan] *)

Section PopulateValuePlan.
Context `{Executor}.
(** [ROOT_VALUE_OBJECT] (utils.ts): the object that stands for a nullish
    value. *)
Variable ROOT_VALUE_OBJECT : Value.

(** [object ?? ROOT_VALUE_OBJECT] *)
Definition orRootValueObject (object : Value) : Value :=
  match object with
  | Undefined | Null => ROOT_VALUE_OBJECT
  | v => v
  end.

(** [export function populateValuePlan(valuePlan, crystalObject, object,
    label): void]; the crystal object is given by its [$$planResults]. *)
Definition populateValuePlan (valuePlan : string) (crystalObject : PlanResults)
  (object : Value) : X unit :=
  match objects aether !! valuePlan with
  | None => xthrow (TypeError "Cannot read properties of undefined")
  | Some o =>
      planResultsSet crystalObject (commonAncestorPathIdentity o) valuePlan
        (orRootValueObject object)
  end.

End PopulateValuePlan.

(** One [__ValuePlan], as [newCrystalContext] has for the variable values,
    the context and the root value. *)
Definition valueExecutor : Executor :=
  joiningExecutor true [("_1", leafPlan __ValuePlan [])].

(** ** [executeBatch] *)

(** A [Batch]: the field it is for, the plans of that field, and its
    entries [[crystalObject, deferred]], a crystal object being given by its
    [$$planResults]. *)
Record Batch := {
  batchPathIdentity : string;
  batchSideEffectPlans : list string;
  batchPlan : string;
  batchItemPlan : string;
  entries : list (PlanResults * nat);
}.

Section ExecuteBatch.

(** [this.executeBatchForPlanResultses(crystalContext, pathIdentity,
    fieldDigest, sideEffectPlans, plan, itemPlan, planResultses)], whatever
    it does with the run. *)
Variable resultsForBatch : Batch → list Row → X Completion.

(** [for (let i = 0; i < entriesLength; i++) entries[i][1].resolve(results[i])] *)
Fixpoint resolveEntries (entries : list (PlanResults * nat)) (results i : nat) : X unit :=
  match entries with
  | [] => xret tt
  | (_, deferred) :: rest =>
      do* r := xgets id in
      resolveDeferred deferred (arrayAt r results i) ;;;
      resolveEntries rest results (S i)
  end.

(** [for (let i = 0; i < entriesLength; i++) entries[i][1].reject(e)] *)
Fixpoint rejectEntries (entries : list (PlanResults * nat)) (e : Exception) : X unit :=
  match entries with
  | [] => xret tt
  | (_, deferred) :: rest => rejectDeferred deferred e ;;; rejectEntries rest e
  end.

(** [public async executeBatch(batch, crystalContext): Promise<void>], over
    the run and [this.batchByPathIdentity]; the result is the state of the
    promise the call returns. *)
Definition executeBatch (batch : Batch) (st : Run * gmap string Batch)
  : Promise unit * (Run * gmap string Batch) :=
  let batchByPathIdentity := delete (batchPathIdentity batch) st.2 in
  let planResultses := map (λ entry, RowResults entry.1) (entries batch) in
  match resultsForBatch batch planResultses st.1 with
  | (Returns (Direct results), r) | (Returns (Later (Fulfilled results)), r) =>
      (Fulfilled tt, ((resolveEntries (entries batch) results 0 r).2, batchByPathIdentity))
  | (Returns (Later (Rejected e)), r) | (Throws e, r) =>
      (Fulfilled tt, ((rejectEntries (entries batch) e r).2, batchByPathIdentity))
  | (Returns (Later Unsettled), r) | (Suspends, r) =>
      (Unsettled, (r, batchByPathIdentity))
  end.

End ExecuteBatch.

(** ** Vocabulary of the statements about batches *)

(** What the call inside [executeBatch] came to: an array of results, an
    error, or nothing yet. *)
Inductive BatchOutcome :=
| BatchResults (results : nat)
| BatchError (e : Exception)
| BatchWaiting.

Definition batchOutcome (x : Outcome Completion) : BatchOutcome :=
  match x with
  | Returns (Direct results) | Returns (Later (Fulfilled results)) => BatchResults results
  | Returns (Later (Rejected e)) | Throws e => BatchError e
  | Returns (Later Unsettled) | Suspends => BatchWaiting
  end.

(** A batch of two entries waiting on the deferreds 1 and 2. *)
Definition twoEntries : Batch :=
  {| batchPathIdentity := "~>f"; batchSideEffectPlans := []; batchPlan := "_1";
     batchItemPlan := "_1";
     entries := [({| bucketAt := λ _, 10 |}, 1); ({| bucketAt := λ _, 11 |}, 2)] |}.

(** A run in which those two deferreds are unsettled. *)
Definition waitingRun : Run :=
  withDeferreds (λ _, {[ 1 := Unsettled; 2 := Unsettled ]})
    (newRun ["_1"] "_1" []).

(** ** Vocabulary of the statements about the order of [processPlans] *)

(** [d] is one of the plans [process] puts into [first] for [p]: a plan of
    the table that [p] depends on directly (dependencies first), or that
    depends directly on [p] (dependents first). *)
Definition mustPrecede (s : Aether) (order : ProcessOrder) (p d : string) : Prop :=
  livePlan s d
  ∧ match order with
    | DependenciesFirst => dependsDirectlyOn s p d
    | DependentsFirst => dependsDirectlyOn s d p
    end.

(** [rank] goes down from every plan of the table to the plans that come
    first for it, and stays below [bound]. *)
Definition rankedFor (s : Aether) (order : ProcessOrder) (rank : string → nat)
  (bound : nat) : Prop :=
  (∀ p d, livePlan s p → mustPrecede s order p d → rank d < rank p)
  ∧ ∀ p, livePlan s p → rank p < bound.

(** A callback that returns the plan it was given and leaves the aether
    [s] alone; [step] is what it does to the variables it closes over. *)
Definition observes {C} (s : Aether) (callback : string → C → M (string * C))
  (step : string → C → C) : Prop :=
  ∀ p c, livePlan s p → callback p c s = (Ok (p, step p c), s, []).

(** What the callback has seen once it was called on [visited], in that
    order. *)
Definition seenAfter {C} (step : string → C → C) (visited : list string) (closure : C) : C :=
  fold_left (λ c p, step p c) visited closure.

(** The state of [processPlans] once the callback has been called on
    [visited], in that order: each of these plans came after all the plans
    that had to come first. *)
Definition inOrder {C} (s : Aether) (order : ProcessOrder) (step : string → C → C)
  (closure : C) (visited : list string) (st : gset string * C) : Prop :=
  st.1 = list_to_set visited ∧ st.2 = seenAfter step visited closure
  ∧ NoDup visited ∧ (∀ p, p ∈ visited → livePlan s p)
  ∧ ∀ i p d, visited !! i = Some p → mustPrecede s order p d →
      ∃ j, j < i ∧ visited !! j = Some d.

(** A callback that notes the plans it is called with. *)
Definition notePlan (plan : string) (noted : list string) : M (string * list string) :=
  ret (plan, noted ++ [plan]).

(** ** [walkTreeFirstPlanUsages] and [assignGroupIds]

    The two methods themselves, beside the answers of [Host] that stand for
    them in the compiler passes above.  They go down the field tree, so a
    node comes with the nodes below it. *)

(** A [TreeNode] with its [children]. *)
Inductive FieldTree := FieldTreeOf (node : TreeNode) (below : list FieldTree).

Definition treeNodeOf (t : FieldTree) : TreeNode :=
  match t with FieldTreeOf n _ => n end.
Definition childrenOf (t : FieldTree) : list FieldTree :=
  match t with FieldTreeOf _ cs => cs end.

(** [delete o[k]]; a key whose value is [undefined] reads like a key that
    is not there. *)
Fixpoint removeKey {V : Type} (k : string) (o : list (string * V)) : list (string * V) :=
  match o with
  | [] => []
  | (k', v) :: o' => if String.eqb k' k then removeKey k o' else (k', v) :: removeKey k o'
  end.

(** What the local function [processPlan] works on: the set [knownPlans]
    and the array [treeNode.children] of the call of [recurse] it belongs to,
    the identity the next new tree node gets, and what the callback closes
    over. *)
Record Walking (C : Type) := {
  knownPlans : gset string;
  children : list FieldTree;
  nextNodeId : nat;
  closedOver : C;
}.
Arguments knownPlans {C} _.
Arguments children {C} _.
Arguments nextNodeId {C} _.
Arguments closedOver {C} _.

Module TreeWalk.
Section WalkTreeFirstPlanUsages.
Context `{Host} {C : Type}.

(** The [callback]; a plan that is [undefined] or [null] is [None]. *)
Variable callback : TreeNode → option string → C → M C.

(** The [if (plan instanceof __ListTransformPlan)] of [processPlan]. *)
Definition addTransformTreeNode (treeNode : TreeNode) (plan : string) (w : Walking C)
  : M (Walking C) :=
  let transformPathIdentity := pathIdentity treeNode +:+ "@" +:+ plan +:+ "[]" in
  if existsb (λ c, String.eqb (pathIdentity (treeNodeOf c)) transformPathIdentity)
       (children w)
  then ret w
  else
    let transformTreeNode :=
      mkTreeNode (nextNodeId w) (fieldPathIdentity treeNode) transformPathIdentity
        (groupIds treeNode) (Some treeNode) in
    let* transformDependencies := gets transformDependencyPlanIdByTransformPlanId in
    let* byPath := gets planIdByPathIdentity in
    setPlanIdByPathIdentity
      match lookupKey plan transformDependencies with
      | Some depId => assignKey transformPathIdentity depId byPath
      | None => removeKey transformPathIdentity byPath
      end ;;
    ret {| knownPlans := knownPlans w;
           children := children w ++ [FieldTreeOf transformTreeNode []];
           nextNodeId := S (nextNodeId w);
           closedOver := closedOver w |}.

(** The local function [processPlan] of [recurse], for the node [treeNode];
    [stackLeft] bounds the nesting of the recursion. *)
Fixpoint processPlan (stackLeft : nat) (treeNode : TreeNode) (plan : option string)
  (w : Walking C) : M (Walking C) :=
  match plan with
  | None =>
      let* _ := callback treeNode None (closedOver w) in
      throw nullDereference
  | Some p =>
      if bool_decide (p ∈ knownPlans w) then ret w
      else
        match stackLeft with
        | 0 => throw RangeError
        | S stackLeft' =>
            let* o := object p in
            let* w1 :=
              if bool_decide (constructor_ o = __ListTransformPlan)
              then addTransformTreeNode treeNode p w
              else ret w in
            let* c := callback treeNode (Some p) (closedOver w1) in
            let* o' := object p in
            forEach (dependencies o')
              {| knownPlans := {[p]} ∪ knownPlans w1; children := children w1;
                 nextNodeId := nextNodeId w1; closedOver := c |}
              (λ depId w', let* dep := slot depId in processPlan stackLeft' treeNode dep w')
        end
  end.

(** The part of [recurse] under [if (!treeNode.parent)]. *)
Definition processSubscriptionPlan (stackLeft : nat) (treeNode : TreeNode)
  (w : Walking C) : M (Walking C) :=
  match parent treeNode with
  | Some _ => ret w
  | None =>
      let* subscriptionPlanId := gets subscriptionPlanId in
      match subscriptionPlanId with
      | None => ret w
      | Some id =>
          if String.eqb id "" then ret w
          else
            let* subscriptionPlan := slot id in
            match subscriptionPlan with
            | None => throw (AssertionError "Could not find the plan for the subscription")
            | Some _ => processPlan stackLeft treeNode subscriptionPlan w
            end
      end
  end.

(** [treeNode.children.forEach((child) => recurse(child, new Set(knownPlans)))],
    with the recursive call passed in; the children come back as the calls
    leave them. *)
Definition recurseChildren
  (rec : FieldTree → gset string → nat * C → M (FieldTree * (nat * C)))
  (w : Walking C) : M (list FieldTree * (nat * C)) :=
  forEach (children w) ([], (nextNodeId w, closedOver w)) (λ child acc,
    let* r := rec child (knownPlans w) acc.2 in
    ret (acc.1 ++ [r.1], r.2)).

(** The local function [recurse]; the result is the node with its children
    as the call leaves them, the next node identity and what the callback
    closes over. *)
Fixpoint recurse (stackLeft : nat) (tree : FieldTree) (knownPlans : gset string)
  (st : nat * C) : M (FieldTree * (nat * C)) :=
  match stackLeft with
  | 0 => throw RangeError
  | S stackLeft' =>
      let treeNode := treeNodeOf tree in
      let* w1 := processSubscriptionPlan stackLeft' treeNode
                   {| knownPlans := knownPlans; children := childrenOf tree;
                      nextNodeId := st.1; closedOver := st.2 |} in
      let* byPath := gets planIdByPathIdentity in
      match lookupKey (pathIdentity treeNode) byPath with
      | None =>
          throw (AssertionError ("Could not determine the item plan id for path identity '"
                                 +:+ pathIdentity treeNode +:+ "'"))
      | Some treeNodePlanId =>
          let* treeNodePlan := slot treeNodePlanId in
          match treeNodePlan with
          | None =>
              throw (AssertionError ("Could not find the plan for path identity '"
                                     +:+ pathIdentity treeNode +:+ "'"))
          | Some _ =>
              let* w2 := processPlan stackLeft' treeNode treeNodePlan w1 in
              let* r := recurseChildren (recurse stackLeft') w2 in
              ret (FieldTreeOf treeNode r.1, r.2)
          end
      end
  end.

(** [private walkTreeFirstPlanUsages(callback)], from [this.rootTreeNode]. *)
Definition walkTreeFirstPlanUsages (rootTreeNode : FieldTree) (st : nat * C)
  : M (FieldTree * (nat * C)) :=
  recurse stack rootTreeNode ∅ st.

End WalkTreeFirstPlanUsages.

(** The callback of [assignCommonAncestorPathIdentity]: the tree node is
    pushed onto the array [treeNodesByPlan] holds for the plan, a [Map] in
    insertion order.  For a plan that is [undefined] the map is left as it
    is: the entry the source makes under [undefined] is never read, because
    [processPlan] throws right after the callback. *)
Definition noteTreeNode (treeNode : TreeNode) (plan : option string)
  (treeNodesByPlan : list (string * list TreeNode)) : M (list (string * list TreeNode)) :=
  match plan with
  | Some p =>
      let treeNodes := default [] (lookupKey p treeNodesByPlan) in
      ret (assignKey p (treeNodes ++ [treeNode]) treeNodesByPlan)
  | None => ret treeNodesByPlan
  end.

(** [private assignCommonAncestorPathIdentity()] over [this.rootTreeNode];
    the result is the tree as the walk leaves it and the next node
    identity. *)
Definition assignCommonAncestorPathIdentity `{Host} (rootTreeNode : FieldTree)
  (nextNodeId : nat) : M (FieldTree * nat) :=
  let* walked := walkTreeFirstPlanUsages noteTreeNode rootTreeNode (nextNodeId, []) in
  forEach walked.2.2 tt (λ entry _,
    let* o := object entry.1 in
    let* commonAncestor :=
      liftResult (commonAncestorOf (parentPathIdentity o) entry.2) in
    setCommonAncestorPathIdentity entry.1 commonAncestor) ;;
  (if isDev then
     let* firstInvalidPlan := warnInvalidPlans in
     match firstInvalidPlan with
     | Some _ => throw unassignedCommonAncestor
     | None => ret tt
     end
   else ret tt) ;;
  ret (walked.1, walked.2.1).

(** The loop of the callback of [assignGroupIds].  The fields [groupIds] of
    the plan objects are kept by plan in [planGroupIds]. *)
Fixpoint pushGroupIds (plan : option string) (groupIds : list nat)
  (planGroupIds : gmap string (list nat)) : Result (gmap string (list nat)) :=
  match groupIds with
  | [] => Ok planGroupIds
  | groupId :: rest =>
      match plan with
      | None => Throw (TypeError "Cannot read properties of undefined (reading 'groupIds')")
      | Some p =>
          match planGroupIds !! p with
          | None => Throw (TypeError "Cannot read properties of undefined (reading 'includes')")
          | Some own =>
              pushGroupIds plan rest
                (if bool_decide (groupId ∈ own) then planGroupIds
                 else <[p := own ++ [groupId]]> planGroupIds)
          end
      end
  end.

(** The callback of [assignGroupIds]. *)
Definition assignGroupIdsCallback (groupIdsByPathIdentity : gmap string (list nat))
  (treeNode : TreeNode) (plan : option string) (planGroupIds : gmap string (list nat))
  : M (gmap string (list nat)) :=
  match groupIdsByPathIdentity !! fieldPathIdentity treeNode with
  | None =>
      throw (AssertionError ("Could not determine the group ids for path identity '"
                             +:+ fieldPathIdentity treeNode +:+ "'"))
  | Some groupIds => liftResult (pushGroupIds plan groupIds planGroupIds)
  end.

(** [private assignGroupIds(_offset = 0)] over [this.groupIdsByPathIdentity],
    [this.rootTreeNode] and the fields [groupIds] of the plans. *)
Definition assignGroupIds `{Host} (groupIdsByPathIdentity : gmap string (list nat))
  (rootTreeNode : FieldTree) (st : nat * gmap string (list nat))
  : M (FieldTree * (nat * gmap string (list nat))) :=
  walkTreeFirstPlanUsages (assignGroupIdsCallback groupIdsByPathIdentity) rootTreeNode st.

End TreeWalk.

(** ** Vocabulary of the statements about the walk of the field tree *)

(** [q] is [p] or is reached from it along dependency edges. *)
Definition reaches (s : Aether) (p q : string) : Prop := p = q ∨ dependsOn s p q.

(** The plans [recurse] calls [processPlan] with at a node: the subscription
    plan at a node without parent, and the plan of the node's path. *)
Definition subscriptionPlanAt (s : Aether) (treeNode : TreeNode) : list string :=
  match parent treeNode, subscriptionPlanId s with
  | None, Some id =>
      if String.eqb id "" then [] else option_list (planAt (plans s) id)
  | _, _ => []
  end.

Definition pathPlanAt (s : Aether) (treeNode : TreeNode) : list string :=
  match lookupKey (pathIdentity treeNode) (planIdByPathIdentity s) with
  | Some id => option_list (planAt (plans s) id)
  | None => []
  end.

Definition plansAt (s : Aether) (treeNode : TreeNode) : list string :=
  subscriptionPlanAt s treeNode ++ pathPlanAt s treeNode.

(** [p] is used at the node [n] of [tree] and at none of the nodes above
    it; [above] are the plans of the nodes above [tree]. *)
Inductive firstUsage (s : Aether) : list string → FieldTree → TreeNode → string → Prop :=
| firstUsage_here above tree a p :
    a ∈ plansAt s (treeNodeOf tree) → reaches s a p →
    (∀ b, b ∈ above → ¬ reaches s b p) →
    firstUsage s above tree (treeNodeOf tree) p
| firstUsage_below above tree child n p :
    child ∈ childrenOf tree →
    firstUsage s (above ++ plansAt s (treeNodeOf tree)) child n p →
    firstUsage s above tree n p.

(** The nodes of a tree, and how many levels it has. *)
Fixpoint nodes (tree : FieldTree) : list TreeNode :=
  match tree with
  | FieldTreeOf n cs => n :: concat (map nodes cs)
  end.

Fixpoint height (tree : FieldTree) : nat :=
  match tree with
  | FieldTreeOf _ cs => S (max_list (map height cs))
  end.

(** Every node of the tree has a plan id under its path, and the id
    resolves; the subscription plan id resolves when there is one. *)
Definition treePlanned (s : Aether) (tree : FieldTree) : Prop :=
  (∀ n, n ∈ nodes tree →
     ∃ id, lookupKey (pathIdentity n) (planIdByPathIdentity s) = Some id
           ∧ is_Some (planAt (plans s) id))
  ∧ ∀ id, subscriptionPlanId s = Some id → id ≠ "" → is_Some (planAt (plans s) id).

(** No plan of the table is a list transform. *)
Definition noListTransforms (s : Aether) : Prop :=
  ∀ p o, livePlan s p → objects s !! p = Some o → constructor_ o ≠ __ListTransformPlan.

(** What [processPlan] has done between [w] and [w']: it has called the
    callback on the plans [L], each of them a plan of the table that was not
    known before and all of whose dependencies are known now, and it has left
    the children alone.  [step] is what the callback does to the variables
    it closes over, and [I] what is known of them. *)
Definition explored {C} (s : Aether) (step : string → C → C) (I : C → Prop)
  (w w' : Walking C) (L : list string) : Prop :=
  knownPlans w' = knownPlans w ∪ list_to_set L
  ∧ children w' = children w ∧ nextNodeId w' = nextNodeId w
  ∧ closedOver w' = fold_left (λ c x, step x c) L (closedOver w)
  ∧ I (closedOver w') ∧ NoDup L
  ∧ ∀ x, x ∈ L →
      (x ∉ knownPlans w) ∧ livePlan s x
      ∧ ∀ q, dependsDirectlyOn s x q → q ∈ knownPlans w'.

(** The known plans are those reached from the plans [above]. *)
Definition knownFrom (s : Aether) (above : list string) (K : gset string) : Prop :=
  ∀ x, x ∈ K ↔ ∃ b, b ∈ above ∧ reaches s b x.

(** A callback that leaves the aether [s] alone when it is given a plan of
    the table; [step] is what it does to the variables it closes over. *)
Definition observesUsages {C} (s : Aether) (callback : TreeNode → option string → C → M C)
  (step : TreeNode → string → C → C) : Prop :=
  ∀ n p c, livePlan s p → callback n (Some p) c s = (Ok (step n p c), s, []).

(** What the callback has seen once it was called on [usages], in that
    order. *)
Definition seenUsages {C} (step : TreeNode → string → C → C)
  (usages : list (TreeNode * string)) (c : C) : C :=
  fold_left (λ c u, step u.1 u.2 c) usages c.

(** What the callback of [assignGroupIds] leaves of the fields [groupIds]
    when it is called on the node [n] and the plan [p] and returns. *)
Definition groupIdsAfter (groupIdsByPathIdentity : gmap string (list nat))
  (n : TreeNode) (p : string) (planGroupIds : gmap string (list nat))
  : gmap string (list nat) :=
  match groupIdsByPathIdentity !! fieldPathIdentity n with
  | Some groupIds =>
      match TreeWalk.pushGroupIds (Some p) groupIds planGroupIds with
      | Ok planGroupIds' => planGroupIds'
      | Throw _ => planGroupIds
      end
  | None => planGroupIds
  end.

(** A callback that notes the usages it is called with. *)
Definition noteUsage (treeNode : TreeNode) (plan : option string)
  (noted : list (TreeNode * option string)) : M (list (TreeNode * option string)) :=
  ret (noted ++ [(treeNode, plan)]).

(** The chain [_3 → _2 → _1] with [_1] as the plan of the root and [_3] as
    the plan of the field [a]. *)
Definition fieldAether : Aether :=
  {| phase := phase chainAether; planCount := planCount chainAether;
     plans := plans chainAether; objects := objects chainAether;
     optimizedPlans := optimizedPlans chainAether;
     planOptionsByPlan := planOptionsByPlan chainAether;
     subscriptionPlanId := None; subscriptionItemPlanId := None;
     planIdByPathIdentity := [("~", "_1"); ("~>a", "_3")];
     itemPlanIdByFieldPathIdentity := itemPlanIdByFieldPathIdentity chainAether;
     sideEffectPlanIdsByPathIdentity := [];
     transformDependencyPlanIdByTransformPlanId := [] |}.

(** The root with the field [a] below it. *)
Definition fieldTree : FieldTree := FieldTreeOf rootNode [FieldTreeOf aNode []].

(** ** Vocabulary of the statements about the assigned common ancestors *)









(** The root with the fields [a] and [d] below it; [_1] is the plan of the
    root, [_3] of [a] and [_4] of [d], and both [_3] and [_4] need [_2]. *)
Definition dNode : TreeNode := mkTreeNode 2 "~>d" "~>d" [0] (Some rootNode).

Definition forkTree : FieldTree :=
  FieldTreeOf rootNode [FieldTreeOf aNode []; FieldTreeOf dNode []].

Definition forkAether : Aether :=
  let s := aetherOf PhaseReady
             [("_1", leafPlan (UserPlan "A") []);
              ("_2", leafPlan (UserPlan "B") []);
              ("_3", leafPlan (UserPlan "C") ["_2"]);
              ("_4", leafPlan (UserPlan "D") ["_2"])]
             [] [] in
  {| phase := phase s; planCount := planCount s; plans := plans s;
     objects := objects s; optimizedPlans := optimizedPlans s;
     planOptionsByPlan := planOptionsByPlan s;
     subscriptionPlanId := None; subscriptionItemPlanId := None;
     planIdByPathIdentity := [("~", "_1"); ("~>a", "_3"); ("~>d", "_4")];
     itemPlanIdByFieldPathIdentity := [];
     sideEffectPlanIdsByPathIdentity := [];
     transformDependencyPlanIdByTransformPlanId := [] |}.


(** The list field [a] with the fields [b] and [c] of its items; every node
    has a plan of its own, and the plans of [b] and [c] both need [_6], which
    was created under [parentOfShared]. *)
Definition listTree : FieldTree :=
  FieldTreeOf rootNode
    [FieldTreeOf aNode
       [FieldTreeOf aItemNode [FieldTreeOf bNode []; FieldTreeOf cNode []]]].

Definition listAether (parentOfShared : string) : Aether :=
  let shared := leafPlan (UserPlan "S") [] in
  let s := aetherOf PhaseReady
             [("_1", leafPlan (UserPlan "A") []);
              ("_2", leafPlan (UserPlan "B") []);
              ("_3", leafPlan (UserPlan "C") []);
              ("_4", leafPlan (UserPlan "D") ["_6"]);
              ("_5", leafPlan (UserPlan "E") ["_6"]);
              ("_6", {| constructor_ := constructor_ shared;
                        dependencies := dependencies shared;
                        hasSideEffects := hasSideEffects shared; sync := sync shared;
                        parentPathIdentity := parentOfShared;
                        commonAncestorPathIdentity := "";
                        properties := properties shared |})]
             [] [] in
  {| phase := phase s; planCount := planCount s; plans := plans s;
     objects := objects s; optimizedPlans := optimizedPlans s;
     planOptionsByPlan := planOptionsByPlan s;
     subscriptionPlanId := None; subscriptionItemPlanId := None;
     planIdByPathIdentity :=
       [("~", "_1"); ("~>a", "_2"); ("~>a[]", "_3"); ("~>a[]>b", "_4");
        ("~>a[]>c", "_5")];
     itemPlanIdByFieldPathIdentity := [];
     sideEffectPlanIdsByPathIdentity := [];
     transformDependencyPlanIdByTransformPlanId := [] |}.

(** ** Vocabulary of the statements about the plans the optimize pass reaches *)

(** [plan.optimize()] leaves the aether as it is and answers with the plan
    itself or with a plan of the table. *)
Definition hostOptimizesWithinTable `{Host} : Prop :=
  ∀ plan options s,
    (optimize plan options s).2 = s
    ∧ ∀ r, (optimize plan options s).1 = Ok r → r = plan ∨ livePlan s r.

(** What holds of the aether [s] during a pass started in [s0]: every plan
    of the table sits in its own slot, no key was added to the table, the
    counter is the one the pass started with, no plan has left
    [optimizedPlans] and none has entered the table. *)
Definition duringPass (s0 s : Aether) : Prop :=
  inOwnSlot s ∧ tableCounted s ∧ planCount s = planCount s0
  ∧ optimizedPlans s0 ⊆ optimizedPlans s
  ∧ ∀ q, livePlan s q → livePlan s0 q.

(** The plans in [processed] were optimized since [s0], and every plan of the
    table is in [processed] or in [pending]. *)
Definition passCovers (s0 s : Aether) (processed pending : gset string) : Prop :=
  duringPass s0 s
  ∧ (∀ q, q ∈ processed → q ∈ optimizedPlans s ∧ q ∉ optimizedPlans s0)
  ∧ ∀ q, livePlan s q → q ∈ processed ∨ q ∈ pending.

(** A host whose [optimize] inlines a plan into the last of its
    dependencies: it answers with the plan that dependency resolves to, and
    with the plan itself when it has none. *)
Definition inliningHost : Host :=
  {| isDev := true; stack := 64;
     deduplicate := λ plan peers, pureOracle (hd plan peers);
     optimize := λ plan _ s,
       (Ok match objects s !! plan with
           | Some o =>
               match last (dependencies o) with
               | Some depId => default plan (planAt (plans s) depId)
               | None => plan
               end
           | None => plan
           end, s);
     finalizeArguments := λ _, pureOracle tt;
     listTransformItemPlan := λ _ _, pureOracle "";
     assignGroupIds := λ _, pureOracle tt |}.

(** * Part II: properties *)

(** ** Running the monad *)

Lemma bind_ret {A B} (a : A) (k : A → M B) (s : Aether) :
  bind (ret a) k s = k a s.
Proof. unfold bind, ret. destruct (k a s) as [[r s2] w2]. reflexivity. Qed.

Lemma bind_gets {A B} (f : Aether → A) (k : A → M B) (s : Aether) :
  bind (gets f) k s = k (f s) s.
Proof. unfold bind, gets. destruct (k (f s) s) as [[r s2] w2]. reflexivity. Qed.

Lemma bind_get {B} (k : Aether → M B) (s : Aether) :
  bind get k s = k s s.
Proof. unfold bind, get. destruct (k s s) as [[r s2] w2]. reflexivity. Qed.


Lemma bind_liftResult {A B} (r : Result A) (k : A → M B) (s : Aether) :
  bind (liftResult r) k s
  = match r with Ok a => k a s | Throw e => (Throw e, s, []) end.
Proof.
  unfold bind, liftResult. destruct r as [a|e]; [|reflexivity].
  destruct (k a s) as [[r s2] w2]. reflexivity.
Qed.

Lemma bind_run {A B} (m : M A) (k : A → M B) (s s1 : Aether) (a : A) w1 :
  m s = (Ok a, s1, w1) →
  bind m k s = (let '(r, s2, w2) := k a s1 in (r, s2, w1 ++ w2)).
Proof. intros Hm. unfold bind. rewrite Hm. reflexivity. Qed.

Lemma bind_run_silent {A B} (m : M A) (k : A → M B) (s s1 : Aether) (a : A) :
  m s = (Ok a, s1, []) → bind m k s = k a s1.
Proof.
  intros Hm. unfold bind. rewrite Hm. destruct (k a s1) as [[r s2] w2]. reflexivity.
Qed.

Lemma bind_run_throw {A B} (m : M A) (k : A → M B) (s s1 : Aether) e w1 :
  m s = (Throw e, s1, w1) → bind m k s = (Throw e, s1, w1).
Proof. intros Hm. unfold bind. rewrite Hm. reflexivity. Qed.

Lemma object_run (p : string) (s : Aether) (o : ExecutablePlan) :
  objects s !! p = Some o → object p s = (Ok o, s, []).
Proof. intros Ho. unfold object. rewrite Ho. reflexivity. Qed.


Lemma bind_Ok {A B} (m : M A) (k : A → M B) (s s2 : Aether) (b : B) (w : list Event) :
  bind m k s = (Ok b, s2, w) →
  ∃ a s1 w1 w2, m s = (Ok a, s1, w1) ∧ k a s1 = (Ok b, s2, w2) ∧ w = w1 ++ w2.
Proof.
  unfold bind. destruct (m s) as [[[a|e] s1] w1]; [|discriminate].
  destruct (k a s1) as [[r s3] w2] eqn:Hk. intros [= -> -> <-].
  by exists a, s1, w1, w2.
Qed.

(** ** Properties of [_addPlan] *)

Lemma lookupKey_assignKey {V} (k j : string) (v : V) o :
  lookupKey j (assignKey k v o) = if decide (k = j) then Some v else lookupKey j o.
Proof.
  induction o as [|[k' v'] o IH]; simpl.
  - destruct (String.eqb_spec k j); case_decide; congruence.
  - destruct (String.eqb_spec k' k) as [->|Hk]; simpl.
    + destruct (String.eqb_spec k j); case_decide; congruence.
    + destruct (String.eqb_spec k' j) as [->|Hj]; [|exact IH].
      case_decide; congruence.
Qed.

Lemma phase_cases (p : AetherPhase) :
  p ∈ planCreationPhases ∨ p ∈ [PhaseInit; PhaseFinalize; PhaseReady].
Proof. destruct p; [right|left|left|left|left|right|right]; set_solver. Qed.

Lemma phase_exclusive (p : AetherPhase) :
  p ∈ planCreationPhases → p ∈ [PhaseInit; PhaseFinalize; PhaseReady] → False.
Proof.
  unfold planCreationPhases. rewrite !elem_of_cons, !elem_of_nil.
  destruct p; intuition discriminate.
Qed.

(** C7. [_addPlan] returns an id exactly in the phases plan, validate,
    deduplicate and optimize, and then the new id is ["_" + (planCount + 1)],
    the plan sits in its slot and the counter has advanced; in the phases init,
    finalize and ready it throws and the aether, its plan table included, is
    as it was. *)
Theorem _addPlan_phase_gate (plan : ExecutablePlan) (s : Aether) :
  ((∃ planId s', _addPlan plan s = (Ok planId, s', [])) ↔
     phase s ∈ planCreationPhases)
  ∧ (phase s ∈ planCreationPhases →
       let planId := "_" +:+ pretty (S (planCount s)) in
       ∃ s', _addPlan plan s = (Ok planId, s', [])
             ∧ planAt (plans s') planId = Some planId
             ∧ objects s' !! planId = Some plan
             ∧ planCount s' = S (planCount s))
  ∧ (phase s ∈ [PhaseInit; PhaseFinalize; PhaseReady] →
       ∃ message, _addPlan plan s = (Throw (Error message), s, [])).
Proof.
  unfold _addPlan, planCreationPhases.
  case_bool_decide as Hph; repeat split.
  - intros _. exact Hph.
  - intros _. eauto.
  - intros _. eexists. split; [reflexivity|]. simpl. repeat split.
    + unfold planAt. rewrite lookupKey_assignKey. by case_decide.
    + apply lookup_insert_eq.
  - intros H. destruct (phase_exclusive _ Hph H).
  - intros (planId & s' & H). discriminate H.
  - intros H. contradiction.
  - intros H. contradiction.
  - intros _. eauto.
Qed.

(** During finalize a plan cannot be created; during plan it gets the id _1. *)
Lemma _addPlan_phase_gate_witness :
  (∃ message, _addPlan (leafPlan __ValuePlan []) (emptyAether PhaseFinalize)
              = (Throw (Error message), emptyAether PhaseFinalize, []))
  ∧ (∃ s', _addPlan (leafPlan __ValuePlan []) (emptyAether PhasePlan)
           = (Ok "_1", s', []) ∧ planAt (plans s') "_1" = Some "_1").
Proof.
  split.
  - apply (_addPlan_phase_gate (leafPlan __ValuePlan []) (emptyAether PhaseFinalize)).
    simpl. set_solver.
  - destruct (_addPlan_phase_gate (leafPlan __ValuePlan []) (emptyAether PhasePlan))
      as (_ & H & _).
    destruct H as (s' & H1 & H2 & _); [unfold planCreationPhases; simpl; set_solver|].
    exists s'. split; [exact H1 | exact H2].
Defined.

(** ** Streamed plans and deduplication *)

(** For a plan whose plan options carry a stream setting, [deduplicatePlan]
    returns the plan itself, leaves the aether as it was and makes no call:
    no peers are looked for and the plan's [deduplicate] method is not
    invoked. *)
Lemma deduplicatePlan_skips_streamed_plans `{Host} (plan : string) (s : Aether)
  (planOptions : PlanOptions) :
  is_Some (objects s !! plan) →
  planOptionsByPlan s !! plan = Some planOptions →
  is_Some (stream planOptions) →
  deduplicatePlan plan s = (Ok plan, s, []).
Proof.
  intros [o Ho] Hopt Hstream.
  unfold deduplicatePlan, bind, object, gets, shouldStream. rewrite Ho.
  destruct (hasSideEffects o); [reflexivity|].
  rewrite Hopt. rewrite bool_decide_eq_true_2 by exact Hstream. reflexivity.
Qed.

Lemma deduplicatePlan_skips_streamed_plans_witness :
  @deduplicatePlan (tableHost true []) "_2" (twinsAether true)
  = (Ok "_2", twinsAether true, []).
Proof.
  apply (@deduplicatePlan_skips_streamed_plans (tableHost true []) "_2"
           (twinsAether true) {| stream := Some {| initialCount := 0 |} |}).
  - vm_compute. eauto.
  - vm_compute. reflexivity.
  - simpl. eauto.
Defined.

(** The same plan without [@stream] is handed its twin and replaced by it. *)
Lemma deduplicatePlan_merges_unstreamed_twin :
  @deduplicatePlan (tableHost true []) "_2" (twinsAether false)
  = (Ok "_1", twinsAether false, [CallDeduplicate "_2" ["_1"]]).
Proof. vm_compute. reflexivity. Qed.

(** C10. A streamed plan is merged with a peer all the same.  On the twins
    [_1] and [_2], of which [_2] is the plan of a field with [@stream]:
    called on [_2], [deduplicatePlan] returns [_2] without looking for peers,
    but called on [_1] it hands the streamed [_2] to [_1.deduplicate] as a
    peer (the filter looks at [hasSideEffects] of a potential peer, not at
    its stream option), and the deduplication pass then puts [_2] into the
    slot of [_1]: the streamed plan serves both fields, although the method
    says of streaming plans that "we cannot reference the stream more than
    once". *)
Theorem deduplicatePlans_merges_peer_into_streamed_plan :
  shouldStream (twinsAether true) "_2" = true
  ∧ shouldStream (twinsAether true) "_1" = false
  ∧ @deduplicatePlan (tableHost true []) "_2" (twinsAether true)
    = (Ok "_2", twinsAether true, [])
  ∧ @deduplicatePlan (tableHost true []) "_1" (twinsAether true)
    = (Ok "_2", twinsAether true, [CallDeduplicate "_1" ["_2"]])
  ∧ (@deduplicatePlans (tableHost true []) 0 (twinsAether true)).1.1 = Ok tt
  ∧ plans (@deduplicatePlans (tableHost true []) 0 (twinsAether true)).1.2
    = [("_1", Some "_2"); ("_2", Some "_2")]
  ∧ itemPlanIdByFieldPathIdentity
      (@deduplicatePlans (tableHost true []) 0 (twinsAether true)).1.2
    = [("~>a", "_1"); ("~>b", "_2")].
Proof. vm_compute. repeat split; reflexivity. Qed.

(** ** The reference check of [validatePlans] *)

Lemma referenceErrors_nil (p : string) (o : ExecutablePlan) :
  referenceErrors p o = [] ↔ ¬ holdsPlanReference o.
Proof.
  unfold referenceErrors, holdsPlanReference.
  induction (properties o) as [|[key v] l IH]; simpl.
  - split; [|done]. intros _ (k & v & Hin). set_solver.
  - destruct v as [val|]; simpl.
    + split; [done|]. intros Hno. exfalso. apply Hno. exists key, val. set_solver.
    + rewrite IH. split; intros Hno (k & v & Hin); apply Hno.
      * exists k, v. set_solver.
      * exists k, v. set_solver.
Qed.

Lemma referenceErrors_shape (p : string) (o : ExecutablePlan) (e : Exception) :
  e ∈ referenceErrors p o → ∃ key val, e = illegalReference p key val.
Proof.
  unfold referenceErrors. rewrite list_elem_of_omap.
  intros ([key v] & _ & Hv). simpl in Hv. destruct v; naive_solver.
Qed.

Lemma scan_loop (s : Aether) (ids : list string) (errors : list Exception) :
  slotsAllocated s ids →
  forEach ids errors (λ id errors,
    let* plan := slot id in
    match plan with
    | Some p =>
        let* o := object p in
        let referencingPlanIsAllowed :=
          bool_decide (constructor_ o = __TrackedObjectPlan) in
        if referencingPlanIsAllowed then ret errors
        else ret (errors ++ referenceErrors p o)
    | None => ret errors
    end) s
  = (Ok (errors ++ scannedErrors s ids), s, []).
Proof.
  revert errors. induction ids as [|id ids IH]; intros errors Halloc; simpl.
  - unfold ret. by rewrite app_nil_r.
  - assert (Hrest : slotsAllocated s ids).
    { intros i p Hi. apply Halloc. set_solver. }
    unfold slot at 1. rewrite (bind_run_silent _ _ s s
      (errors ++ match planAt (plans s) id with
                 | Some p =>
                     match objects s !! p with
                     | Some o =>
                         if bool_decide (constructor_ o = __TrackedObjectPlan)
                         then [] else referenceErrors p o
                     | None => []
                     end
                 | None => []
                 end)).
    + rewrite IH by exact Hrest. by rewrite <- app_assoc.
    + rewrite bind_gets.
      destruct (planAt (plans s) id) as [p|] eqn:Hp.
      * destruct (Halloc id p ltac:(set_solver) Hp) as [o Ho].
        rewrite (bind_run_silent _ _ s s o (object_run _ _ _ Ho)). rewrite Ho.
        destruct (bool_decide (constructor_ o = __TrackedObjectPlan)); simpl;
          unfold ret; by rewrite ?app_nil_r.
      * unfold ret. by rewrite app_nil_r.
Qed.

Lemma scannedErrors_nil (s : Aether) (ids : list string) :
  slotsAllocated s ids →
  scannedErrors s ids = [] ↔ ¬ illegalReferenceIn s ids.
Proof.
  unfold scannedErrors, illegalReferenceIn.
  induction ids as [|id ids IH]; intros Halloc; simpl.
  - split; [|done]. intros _ (i & _ & _ & Hin & _). set_solver.
  - assert (Hrest : slotsAllocated s ids).
    { intros i p Hi. apply Halloc. set_solver. }
    specialize (IH Hrest). clear Hrest.
    split.
    + intros Hnil. apply app_eq_nil in Hnil as [Hhd Htl].
      intros (i & p & o & Hin & Hp & Ho & Hcls & Href).
      apply elem_of_cons in Hin as [->|Hin].
      * rewrite Hp, Ho in Hhd. rewrite bool_decide_eq_false_2 in Hhd by exact Hcls.
        by apply referenceErrors_nil in Hhd.
      * apply IH in Htl. apply Htl. exists i, p, o. done.
    + intros Hno. apply app_nil. split.
      * destruct (planAt (plans s) id) as [p|] eqn:Hp; [|done].
        destruct (objects s !! p) as [o|] eqn:Ho; [|done].
        case_bool_decide as Hcls; [done|].
        apply referenceErrors_nil. intros Href. apply Hno.
        exists id, p, o. split; [set_solver|done].
      * apply IH. intros (i & p & o & Hin & Hrest'). apply Hno.
        exists i, p, o. split; [set_solver|done].
Qed.

Lemma scannedErrors_shape (s : Aether) (ids : list string) (e : Exception) :
  e ∈ scannedErrors s ids → ∃ plan key val, e = illegalReference plan key val.
Proof.
  unfold scannedErrors. rewrite list_elem_of_In, in_flat_map.
  intros (id & _ & Hin). apply list_elem_of_In in Hin.
  destruct (planAt (plans s) id) as [p|]; [|set_solver].
  destruct (objects s !! p) as [o|]; [|set_solver].
  case_bool_decide; [set_solver|].
  exists p. by apply referenceErrors_shape in Hin.
Qed.

(** C9 as the code has it.  Over the scanned slots (all of them in the
    validate phase, where [offset] is 0): if a plan other than a
    [__TrackedObjectPlan] holds a direct reference to a plan the method
    throws an illegal-reference error after logging the collected messages,
    and the aether is untouched; otherwise the check passes and the method
    goes on to [assignGroupIds]. *)
Theorem validatePlans_reference_check `{Host} (offset : nat) (s : Aether) :
  slotsAllocated s (drop offset (map fst (plans s))) →
  (illegalReferenceIn s (drop offset (map fst (plans s))) →
     ∃ plan key val message,
       validatePlans offset s
       = (Throw (illegalReference plan key val), s, [ConsoleError message]))
  ∧ (¬ illegalReferenceIn s (drop offset (map fst (plans s))) →
       validatePlans offset s = call (assignGroupIds offset) s).
Proof.
  intros Halloc.
  pose proof (scannedErrors_nil s _ Halloc) as Hnil.
  pose proof (scan_loop s _ [] Halloc) as Hloop.
  unfold validatePlans, getPlanIds. rewrite bind_gets.
  rewrite (bind_run_silent _ _ _ _ _ Hloop). simpl.
  destruct (scannedErrors s (drop offset (map fst (plans s)))) as [|e errors] eqn:Herrs.
  - split.
    + intros Hill. exfalso. apply Hnil; done.
    + intros _. reflexivity.
  - split.
    + intros _.
      destruct (scannedErrors_shape s (drop offset (map fst (plans s))) e)
        as (plan & key & val & ->); [rewrite Herrs; set_solver|].
      exists plan, key, val. eexists. unfold bind, emit, throw. simpl. reflexivity.
    + intros Hno. apply Hnil in Hno. discriminate Hno.
Qed.

Lemma validatePlans_reference_check_witness :
  (∃ plan key val message,
     @validatePlans (tableHost true []) 0 leakyAether
     = (Throw (illegalReference plan key val), leakyAether, [ConsoleError message]))
  ∧ @validatePlans (tableHost true []) 0 (twinsAether false)
    = (Ok tt, twinsAether false, []).
Proof.
  split.
  - apply (@validatePlans_reference_check (tableHost true []) 0 leakyAether).
    + intros id p Hid Hp. change (id ∈ ["_1"; "_2"]) in Hid.
      rewrite !elem_of_cons, elem_of_nil in Hid.
      destruct Hid as [->|[->|[]]]; vm_compute in Hp; injection Hp as <-;
        vm_compute; eauto.
    + exists "_2", "_2". eexists. split; [change ("_2" ∈ ["_1"; "_2"]); set_solver|].
      split; [vm_compute; reflexivity|]. split; [vm_compute; reflexivity|].
      split; [simpl; discriminate|]. exists "valuePlan", "_1". simpl. set_solver.
  - apply (@validatePlans_reference_check (tableHost true []) 0 (twinsAether false)).
    + intros id p Hid Hp. change (id ∈ ["_1"; "_2"]) in Hid.
      rewrite !elem_of_cons, elem_of_nil in Hid.
      destruct Hid as [->|[->|[]]]; vm_compute in Hp; injection Hp as <-;
        vm_compute; eauto.
    + intros (id & p & o & Hid & Hp & Ho & _ & key & val & Href).
      change (id ∈ ["_1"; "_2"]) in Hid.
      rewrite !elem_of_cons, elem_of_nil in Hid.
      destruct Hid as [->|[->|[]]]; vm_compute in Hp; injection Hp as <-;
        vm_compute in Ho; injection Ho as <-; simpl in Href; set_solver.
Defined.

(** C9 as stated fails on the tracked object plans every aether creates: the
    plan [_2] holds the value plan [_1] in its property [valuePlan], and
    validation passes. *)
Lemma validatePlans_allows_tracked_object_reference :
  (∃ o, objects trackedAether !! "_2" = Some o
        ∧ ("valuePlan", PlanReference "_1") ∈ properties o)
  ∧ @validatePlans (tableHost true []) 0 trackedAether = (Ok tt, trackedAether, []).
Proof.
  split.
  - eexists. split; [vm_compute; reflexivity|]. simpl. set_solver.
  - vm_compute. reflexivity.
Qed.

(** ** Tree shaking keeps exactly the reachable plans *)

Lemma closedAt_mono (s : Aether) (A A' : gset string) (x : string) :
  A ⊆ A' → closedAt s A x → closedAt s A' x.
Proof.
  intros Hsub (o & Ho & Hdeps). exists o. split; [done|].
  intros d Hd. destruct (Hdeps d Hd) as (q & Hq & Hin). exists q. set_solver.
Qed.

Lemma marks_refl (s : Aether) (A : gset string) : marks s A A.
Proof. split; [done|]. intros x Hx Hnx. done. Qed.

Lemma marks_trans (s : Aether) (A B C : gset string) :
  marks s A B → marks s B C → marks s A C.
Proof.
  intros [HAB HnewB] [HBC HnewC]. split; [set_solver|].
  intros x HxC HxA. destruct (decide (x ∈ B)) as [HxB|HxB].
  - destruct (HnewB x HxB HxA) as [Hr Hc]. split; [done|].
    by apply (closedAt_mono s B C).
  - by apply HnewC.
Qed.

Section Marking.
Context (s : Aether).

Lemma markAll_marks mark (ids : list string) (A A' : gset string) :
  marker s mark → (∀ A, mark None A = Throw nullDereference) →
  (∀ d q, d ∈ ids → planAt (plans s) d = Some q → reachable s q) →
  markAll mark (plans s) ids A = Ok A' →
  marks s A A' ∧ ∀ d, d ∈ ids → ∃ q, planAt (plans s) d = Some q ∧ q ∈ A'.
Proof.
  intros Hmark Hnone. revert A. induction ids as [|d ids IH]; intros A Hreach Hrun.
  - simpl in Hrun. injection Hrun as <-. split; [apply marks_refl|]. set_solver.
  - simpl in Hrun.
    destruct (planAt (plans s) d) as [q|] eqn:Hq.
    2:{ rewrite Hnone in Hrun. discriminate. }
    destruct (mark (Some q) A) as [A1|e] eqn:Hm; [|discriminate].
    destruct (Hmark A q A1 (Hreach d q ltac:(set_solver) Hq) Hm) as [HA1 HqA1].
    destruct (IH A1 ltac:(intros d' q' Hd'; apply Hreach; set_solver) Hrun)
      as [HA' Hids].
    split; [by apply (marks_trans s A A1 A')|].
    intros d' Hd'. apply elem_of_cons in Hd' as [->|Hd'].
    + exists q. split; [done|]. destruct HA' as [Hsub _]. set_solver.
    + by apply Hids.
Qed.

Lemma markPlanActive_None (n : nat) (A : gset string) :
  markPlanActive n s None A = Throw nullDereference.
Proof. by destruct n. Qed.

Lemma markPlanActive_marker (n : nat) : marker s (markPlanActive n s).
Proof.
  induction n as [|n IH]; intros A q A' Hreach Hrun; simpl in Hrun.
  - case_bool_decide as Hin; [|discriminate Hrun]. injection Hrun as <-.
    split; [apply marks_refl|done].
  - case_bool_decide as Hin.
    { injection Hrun as <-. split; [apply marks_refl|done]. }
    destruct (objects s !! q) as [o|] eqn:Ho; [|discriminate Hrun].
    apply markAll_marks in Hrun as [[Hsub Hnew] Hdeps];
      [|exact IH|apply markPlanActive_None|].
    2:{ intros d q' Hd Hq'. by apply (reachable_dependency s q o d q'). }
    split; [|set_solver]. split; [set_solver|].
    intros x Hx HxA. destruct (decide (x = q)) as [->|Hne].
    + split; [done|]. exists o. done.
    + apply Hnew; set_solver.
Qed.

Lemma markSeeds_marks `{Host} (asserted : bool) (ids : list string)
  (A A' : gset string) :
  (∀ d q, d ∈ ids → planAt (plans s) d = Some q → reachable s q) →
  markSeeds asserted s ids A = Ok A' →
  marks s A A' ∧ ∀ d, d ∈ ids → ∃ q, planAt (plans s) d = Some q ∧ q ∈ A'.
Proof.
  revert A. induction ids as [|d ids IH]; intros A Hreach Hrun.
  - simpl in Hrun. injection Hrun as <-. split; [apply marks_refl|]. set_solver.
  - simpl in Hrun.
    destruct (isDev && asserted && bool_decide (planAt (plans s) d = None));
      [discriminate Hrun|].
    destruct (planAt (plans s) d) as [q|] eqn:Hq.
    2:{ rewrite markPlanActive_None in Hrun. discriminate Hrun. }
    destruct (markPlanActive stack s (Some q) A) as [A1|e] eqn:Hm; [|discriminate Hrun].
    destruct (markPlanActive_marker stack A q A1
                (Hreach d q ltac:(set_solver) Hq) Hm) as [HA1 HqA1].
    destruct (IH A1 ltac:(intros d' q' Hd'; apply Hreach; set_solver) Hrun)
      as [HA' Hids].
    split; [by apply (marks_trans s A A1 A')|].
    intros d' Hd'. apply elem_of_cons in Hd' as [->|Hd'].
    + exists q. split; [done|]. destruct HA' as [Hsub _]. set_solver.
    + by apply Hids.
Qed.

End Marking.

Lemma treeShakePlans_run `{Host} (s : Aether) :
  treeShakePlans s
  = match activeAfterSeeds s with
    | Ok activePlans =>
        (Ok tt, withPlans (λ _, sweep activePlans (map fst (plans s)) (plans s)) s, [])
    | Throw e => (Throw e, s, [])
    end.
Proof.
  unfold treeShakePlans, activeAfterSeeds. rewrite bind_get.
  rewrite bind_liftResult.
  destruct (markSeeds false s (subscriptionSeed s) ∅) as [a1|e]; [|reflexivity].
  rewrite bind_liftResult.
  destruct (markSeeds true s _ a1) as [a2|e]; [|reflexivity].
  rewrite bind_liftResult.
  destruct (markSeeds true s _ a2) as [a3|e]; [|reflexivity].
  rewrite bind_liftResult.
  destruct (markSeeds true s _ a3) as [a4|e]; [|reflexivity].
  unfold getPlanIds. rewrite bind_gets. reflexivity.
Qed.

Lemma seedIds_split (s : Aether) (d : string) :
  d ∈ seedIds s ↔
  d ∈ subscriptionSeed s ∨ d ∈ map snd (itemPlanIdByFieldPathIdentity s)
  ∨ d ∈ concat (map snd (sideEffectPlanIdsByPathIdentity s))
  ∨ d ∈ map snd (transformDependencyPlanIdByTransformPlanId s).
Proof. unfold seedIds, assertedSeeds. rewrite !elem_of_app. tauto. Qed.

(** After the seed loops the active plans are exactly the reachable ones. *)
Lemma activeAfterSeeds_reachable `{Host} (s : Aether) (F : gset string) :
  activeAfterSeeds s = Ok F → ∀ p, p ∈ F ↔ reachable s p.
Proof.
  unfold activeAfterSeeds. intros Hrun.
  destruct (markSeeds false s (subscriptionSeed s) ∅) as [a1|] eqn:H1; [|discriminate].
  destruct (markSeeds true s _ a1) as [a2|] eqn:H2; [|discriminate].
  destruct (markSeeds true s _ a2) as [a3|] eqn:H3; [|discriminate].
  assert (Hseed : ∀ ids : list string, (∀ d, d ∈ ids → d ∈ seedIds s) →
            ∀ d q, d ∈ ids → planAt (plans s) d = Some q → reachable s q).
  { intros ids Hids d q Hd Hq. apply (reachable_seed s d q); auto. }
  apply markSeeds_marks in H1 as [M1 S1];
    [|apply Hseed; intros d Hd; apply seedIds_split; tauto].
  apply markSeeds_marks in H2 as [M2 S2];
    [|apply Hseed; intros d Hd; apply seedIds_split; tauto].
  apply markSeeds_marks in H3 as [M3 S3];
    [|apply Hseed; intros d Hd; apply seedIds_split; tauto].
  apply markSeeds_marks in Hrun as [M4 S4];
    [|apply Hseed; intros d Hd; apply seedIds_split; tauto].
  pose proof (marks_trans _ _ _ _ M1 (marks_trans _ _ _ _ M2
               (marks_trans _ _ _ _ M3 M4))) as [_ Hall].
  destruct M2 as [Sub2 _], M3 as [Sub3 _], M4 as [Sub4 _].
  intros p. split.
  - intros Hp. apply Hall; set_solver.
  - induction 1 as [d p Hd Hp|p o d q Hreach IH Ho Hd Hq].
    + apply seedIds_split in Hd as [Hd|[Hd|[Hd|Hd]]].
      * destruct (S1 d Hd) as (q & Hq & Hin). set_solver.
      * destruct (S2 d Hd) as (q & Hq & Hin). set_solver.
      * destruct (S3 d Hd) as (q & Hq & Hin). set_solver.
      * destruct (S4 d Hd) as (q & Hq & Hin). set_solver.
    + destruct (Hall p IH ltac:(set_solver)) as [_ (o' & Ho' & Hdeps)].
      assert (o' = o) as -> by congruence.
      destruct (Hdeps d Hd) as (q' & Hq' & Hin). congruence.
Qed.

Lemma map_fst_assignKey {V} (k : string) (v : V) (o : list (string * V)) :
  is_Some (lookupKey k o) → map fst (assignKey k v o) = map fst o.
Proof.
  induction o as [|[k' v'] o IH]; simpl; intros [x Hx]; [discriminate Hx|].
  destruct (String.eqb_spec k' k) as [->|Hne]; simpl; [done|].
  f_equal. apply IH. eauto.
Qed.

Lemma planAt_is_Some_key (t : list (string * option string)) (i p : string) :
  planAt t i = Some p → lookupKey i t = Some (Some p).
Proof.
  unfold planAt. destruct (lookupKey i t) as [[q|]|]; congruence.
Qed.

Lemma sweep_keys (A : gset string) (ids : list string) t :
  map fst (sweep A ids t) = map fst t.
Proof.
  revert t. induction ids as [|i ids IH]; intros t; simpl; [done|].
  destruct (planAt t i) as [p|] eqn:Hp; [|apply IH].
  case_bool_decide; [apply IH|].
  rewrite IH. apply map_fst_assignKey. apply planAt_is_Some_key in Hp. eauto.
Qed.

Lemma lookupKey_sweep (A : gset string) (ids : list string) t (j : string) :
  lookupKey j (sweep A ids t)
  = match lookupKey j t with
    | Some (Some p) =>
        if bool_decide (j ∈ ids) && negb (bool_decide (p ∈ A)) then Some None
        else Some (Some p)
    | other => other
    end.
Proof.
  revert t. induction ids as [|i ids IH]; intros t; simpl.
  - by destruct (lookupKey j t) as [[p|]|].
  - destruct (planAt t i) as [p|] eqn:Hp.
    + pose proof (planAt_is_Some_key _ _ _ Hp) as Hk.
      destruct (decide (p ∈ A)) as [HpA|HpA].
      * rewrite (bool_decide_eq_true_2 _ HpA). rewrite IH.
        destruct (lookupKey j t) as [[q|]|] eqn:Hj; try done.
        destruct (decide (j = i)) as [->|Hne].
        -- assert (q = p) as -> by congruence.
           rewrite (bool_decide_eq_true_2 _ HpA). simpl.
           by rewrite !andb_false_r.
        -- rewrite (bool_decide_ext (j ∈ i :: ids) (j ∈ ids)); [done|]. set_solver.
      * rewrite (bool_decide_eq_false_2 _ HpA). rewrite IH, lookupKey_assignKey.
        destruct (decide (i = j)) as [<-|Hij].
        -- rewrite Hk.
           rewrite (bool_decide_eq_true_2 (i ∈ i :: ids)) by set_solver.
           rewrite (bool_decide_eq_false_2 _ HpA). done.
        -- destruct (lookupKey j t) as [[q|]|] eqn:Hj; try done.
           rewrite (bool_decide_ext (j ∈ i :: ids) (j ∈ ids)); [done|]. set_solver.
    + rewrite IH. destruct (lookupKey j t) as [[q|]|] eqn:Hj; try done.
      destruct (decide (j = i)) as [->|Hne].
      * unfold planAt in Hp. rewrite Hj in Hp. discriminate Hp.
      * rewrite (bool_decide_ext (j ∈ i :: ids) (j ∈ ids)); [done|]. set_solver.
Qed.

Lemma lookupKey_Some_key {V} (k : string) (o : list (string * V)) (v : V) :
  lookupKey k o = Some v → k ∈ map fst o ∧ (k, v) ∈ o.
Proof.
  induction o as [|[k' v'] o IH]; simpl; [done|].
  destruct (String.eqb_spec k' k) as [->|Hne].
  - intros [= ->]. set_solver.
  - intros Hk. destruct (IH Hk). set_solver.
Qed.

Lemma planAt_slotPlans (t : list (string * option string)) (i p : string) :
  planAt t i = Some p → p ∈ slotPlans t.
Proof.
  intros Hp. apply planAt_is_Some_key, lookupKey_Some_key in Hp as [_ Hin].
  unfold slotPlans. apply elem_of_list_to_set, list_elem_of_omap.
  exists (i, Some p). done.
Qed.

Lemma size_list_to_set_le (l : list string) :
  size (list_to_set l : gset string) ≤ length l.
Proof.
  induction l as [|x l IH].
  - rewrite list_to_set_nil, size_empty. simpl. lia.
  - rewrite list_to_set_cons. simpl.
    destruct (decide (x ∈ (list_to_set l : gset string))) as [Hin|Hnin].
    + replace ({[x]} ∪ list_to_set l : gset string) with (list_to_set l : gset string)
        by set_solver. lia.
    + rewrite size_union by set_solver. rewrite size_singleton. lia.
Qed.

Lemma size_slotPlans (t : list (string * option string)) :
  size (slotPlans t) ≤ length t.
Proof.
  unfold slotPlans. etrans; [apply size_list_to_set_le|].
  induction t as [|[k v] t IH]; [done|].
  change (omap snd ((k, v) :: t))
    with (match v with Some p => p :: omap snd t | None => omap snd t end).
  destruct v; simpl; lia.
Qed.

Section MarkingTerminates.
Context (s : Aether).
Hypothesis linked : ∀ p, reachable s p →
  ∃ o, objects s !! p = Some o
       ∧ ∀ depId, depId ∈ dependencies o → is_Some (planAt (plans s) depId).

Lemma markAll_total mark (n : nat) (ids : list string) (A : gset string) :
  marker s mark →
  (∀ A q, reachable s q → size (slotPlans (plans s) ∖ A) ≤ n →
          ∃ A', mark (Some q) A = Ok A') →
  (∀ d, d ∈ ids → ∃ q, planAt (plans s) d = Some q ∧ reachable s q) →
  size (slotPlans (plans s) ∖ A) ≤ n →
  ∃ A', markAll mark (plans s) ids A = Ok A'.
Proof.
  intros Hmarker Htotal. revert A.
  induction ids as [|d ids IH]; intros A Hids Hsize; simpl; [eauto|].
  destruct (Hids d ltac:(set_solver)) as (q & Hq & Hreach). rewrite Hq.
  destruct (Htotal A q Hreach Hsize) as [A1 HA1]. rewrite HA1.
  destruct (Hmarker A q A1 Hreach HA1) as [[Hsub _] _].
  apply IH; [intros d' Hd'; apply Hids; set_solver|].
  etrans; [|exact Hsize]. apply subseteq_size. set_solver.
Qed.

Lemma markPlanActive_total (n : nat) (A : gset string) (p : string) :
  reachable s p → p ∈ slotPlans (plans s) →
  size (slotPlans (plans s) ∖ A) ≤ n →
  ∃ A', markPlanActive n s (Some p) A = Ok A'.
Proof.
  revert A p. induction n as [|n IH]; intros A p Hreach HpU Hsize; simpl;
    case_bool_decide as Hin; eauto.
  - exfalso.
    assert (size (slotPlans (plans s) ∖ A) ≠ 0); [|lia].
    apply size_non_empty_iff. set_solver.
  - destruct (linked p Hreach) as (o & Ho & Hdeps). rewrite Ho.
    apply (markAll_total _ n).
    + apply markPlanActive_marker.
    + intros A1 q Hq Hsz. destruct (linked q Hq) as (oq & Hoq & _).
      destruct Hq as [d q Hd Hq|q0 o0 d q Hq0 Ho0 Hd Hq].
      * apply IH; [by apply (reachable_seed s d q)|by apply (planAt_slotPlans _ d)|done].
      * apply IH; [by apply (reachable_dependency s q0 o0 d q)
                  |by apply (planAt_slotPlans _ d)|done].
    + intros d Hd. destruct (Hdeps d Hd) as [q Hq]. exists q. split; [done|].
      by apply (reachable_dependency s p o d q).
    + assert (size (slotPlans (plans s) ∖ ({[p]} ∪ A))
              < size (slotPlans (plans s) ∖ A)); [|lia].
      apply subset_size. set_solver.
Qed.

Lemma markSeeds_total `{Host} (asserted : bool) (ids : list string)
  (A : gset string) :
  length (plans s) ≤ stack →
  (∀ d, d ∈ ids → d ∈ seedIds s ∧ is_Some (planAt (plans s) d)) →
  ∃ A', markSeeds asserted s ids A = Ok A'.
Proof.
  intros Hstack. revert A. induction ids as [|d ids IH]; intros A Hids; simpl; [eauto|].
  destruct (Hids d ltac:(set_solver)) as [Hseed [q Hq]]. rewrite Hq.
  rewrite (bool_decide_eq_false_2 (Some q = None)) by done. rewrite andb_false_r.
  assert (Hreach : reachable s q) by by apply (reachable_seed s d q).
  destruct (markPlanActive_total stack A q Hreach) as [A1 HA1].
  { by apply (planAt_slotPlans _ d). }
  { etrans; [apply subseteq_size|]; [|etrans; [apply size_slotPlans|exact Hstack]].
    set_solver. }
  rewrite HA1. apply IH. intros d' Hd'. apply Hids. set_solver.
Qed.

End MarkingTerminates.

(** C2. Whenever [treeShakePlans] returns, it has made no call, it has
    changed nothing but slot contents, a slot still holds its plan exactly
    when that plan is reachable from the seeds along dependency edges, and
    the slot of every other plan holds [null].  It does return when every
    seed id and every dependency id of a reachable plan resolves to a plan
    and the engine's stack is as deep as the table is long. *)
Theorem treeShakePlans_keeps_exactly_reachable `{Host} (s : Aether) :
  (∀ s' w, treeShakePlans s = (Ok tt, s', w) →
     w = [] ∧ s' = withPlans (λ _, plans s') s
     ∧ map fst (plans s') = map fst (plans s)
     ∧ (∀ i p, planAt (plans s') i = Some p ↔
               planAt (plans s) i = Some p ∧ reachable s p)
     ∧ (∀ i p, planAt (plans s) i = Some p → ¬ reachable s p →
               lookupKey i (plans s') = Some None))
  ∧ (wellLinked s → length (plans s) ≤ stack →
     ∃ s', treeShakePlans s = (Ok tt, s', [])).
Proof.
  rewrite treeShakePlans_run. split.
  - intros s' w Hrun.
    destruct (activeAfterSeeds s) as [F|e] eqn:HF; [|discriminate Hrun].
    pose proof (activeAfterSeeds_reachable s F HF) as Hreach.
    injection Hrun as <- <-. simpl. split; [done|]. split; [done|].
    split; [apply sweep_keys|]. split.
    + intros i p. unfold planAt at 1. rewrite lookupKey_sweep.
      destruct (lookupKey i (plans s)) as [[q|]|] eqn:Hi.
      * assert (Hq : planAt (plans s) i = Some q) by (unfold planAt; by rewrite Hi).
        rewrite Hq.
        rewrite (bool_decide_eq_true_2 (i ∈ map fst (plans s)))
          by (by apply lookupKey_Some_key in Hi as [? _]).
        simpl. case_bool_decide as HqF; simpl.
        -- split; [intros [= ->]; split; [done|by apply Hreach]|by intros [? _]].
        -- split; [done|]. intros [[= ->] Hr]. by apply Hreach in Hr.
      * unfold planAt. rewrite Hi. split; [done|by intros [? _]].
      * unfold planAt. rewrite Hi. split; [done|by intros [? _]].
    + intros i p Hp Hnr. rewrite lookupKey_sweep.
      pose proof (planAt_is_Some_key _ _ _ Hp) as Hi. rewrite Hi.
      rewrite (bool_decide_eq_true_2 (i ∈ map fst (plans s)))
        by (by apply lookupKey_Some_key in Hi as [? _]).
      rewrite (bool_decide_eq_false_2 (p ∈ F)); [done|].
      intros HpF. by apply Hnr, Hreach.
  - intros [Hseeds Hlinked] Hstack.
    assert (Hloop : ∀ asserted (ids : list string) A,
              (∀ d, d ∈ ids → d ∈ seedIds s) → ∃ A', markSeeds asserted s ids A = Ok A').
    { intros asserted ids A Hids. apply markSeeds_total; [done|done|].
      intros d Hd. split; [by apply Hids|]. by apply Hseeds, Hids. }
    unfold activeAfterSeeds.
    destruct (Hloop false (subscriptionSeed s) ∅) as [a1 ->];
      [intros d Hd; apply seedIds_split; tauto|].
    destruct (Hloop true (map snd (itemPlanIdByFieldPathIdentity s)) a1) as [a2 ->];
      [intros d Hd; apply seedIds_split; tauto|].
    destruct (Hloop true (concat (map snd (sideEffectPlanIdsByPathIdentity s))) a2)
      as [a3 ->]; [intros d Hd; apply seedIds_split; tauto|].
    destruct (Hloop true (map snd (transformDependencyPlanIdByTransformPlanId s)) a3)
      as [a4 ->]; [intros d Hd; apply seedIds_split; tauto|].
    eauto.
Qed.

(** On [shakeAether] the pass returns, keeps [_1] and [_2], which the field
    [~>f] reaches, and nulls the slot of [_3], which nothing reaches. *)
Lemma treeShakePlans_keeps_exactly_reachable_witness :
  (∃ s', @treeShakePlans (tableHost true []) shakeAether = (Ok tt, s', [])
         ∧ plans s' = [("_1", Some "_1"); ("_2", Some "_2"); ("_3", None)])
  ∧ reachable shakeAether "_1" ∧ reachable shakeAether "_2"
  ∧ ¬ reachable shakeAether "_3".
Proof.
  destruct (@treeShakePlans_keeps_exactly_reachable (tableHost true []) shakeAether)
    as [Hchar Htotal].
  assert (Hrun : @treeShakePlans (tableHost true []) shakeAether
                 = (Ok tt, withPlans (λ _, [("_1", Some "_1"); ("_2", Some "_2");
                                            ("_3", None)]) shakeAether, []))
    by (vm_compute; reflexivity).
  destruct (Hchar _ _ Hrun) as (_ & _ & _ & Hiff & _).
  assert (Hreach : ∀ p, reachable shakeAether p → p = "_1" ∨ p = "_2").
  { intros p Hp.
    assert (∃ i, planAt (plans shakeAether) i = Some p) as [i Hi]
      by (destruct Hp; eauto).
    assert (Hkeep : planAt [("_1", Some "_1"); ("_2", Some "_2"); ("_3", None)] i
                    = Some p) by (apply Hiff; done).
    unfold planAt in Hkeep. cbn -[String.eqb] in Hkeep.
    destruct (String.eqb_spec "_1" i); [left; congruence|].
    destruct (String.eqb_spec "_2" i); [right; congruence|].
    destruct (String.eqb_spec "_3" i); discriminate Hkeep. }
  split; [|split; [|split]].
  - destruct Htotal as [s' Hs'].
    + split.
      * intros planId Hid. change (planId ∈ ["_2"]) in Hid.
        apply list_elem_of_singleton in Hid as ->. vm_compute. eauto.
      * intros p Hp. destruct (Hreach p Hp) as [->| ->].
        -- eexists. split; [vm_compute; reflexivity|]. simpl. set_solver.
        -- eexists. split; [vm_compute; reflexivity|]. simpl.
           intros depId Hd. apply list_elem_of_singleton in Hd as ->.
           vm_compute. eauto.
    + vm_compute. lia.
    + exists s'. split; [exact Hs'|]. rewrite Hrun in Hs'. by injection Hs' as <-.
  - apply (Hiff "_1" "_1"). reflexivity.
  - apply (Hiff "_2" "_2"). reflexivity.
  - intros H3. destruct (Hreach _ H3); discriminate.
Defined.

(** ** Each plan is optimized at most once *)

Lemma optimizedIn_app (w1 w2 : list Event) :
  optimizedIn (w1 ++ w2) = optimizedIn w1 ++ optimizedIn w2.
Proof. unfold optimizedIn. by rewrite omap_app. Qed.

Lemma optimizesOnce_bind {A B} (m : M A) (k : A → M B) :
  optimizesOnce m → (∀ a, optimizesOnce (k a)) → optimizesOnce (bind m k).
Proof.
  intros Hm Hk s. specialize (Hm s). unfold bind.
  destruct (m s) as [[[a|e] s1] w1]; simpl in *; [|naive_solver].
  destruct Hm as (Hnd1 & Hnew1 & Hset1). specialize (Hset1 a eq_refl).
  specialize (Hk a s1). destruct (k a s1) as [[r s2] w2]; simpl in *.
  destruct Hk as (Hnd2 & Hnew2 & Hset2). rewrite optimizedIn_app.
  split; [|split].
  - apply NoDup_app. split; [done|]. split; [|done].
    intros p Hp1 Hp2. apply (Hnew2 p Hp2). rewrite Hset1. set_solver.
  - intros p Hp. apply elem_of_app in Hp as [Hp|Hp]; [by apply Hnew1|].
    intros Hin. apply (Hnew2 p Hp). rewrite Hset1. set_solver.
  - intros b Hb. rewrite (Hset2 b Hb), Hset1, list_to_set_app_L. set_solver.
Qed.

(** Catching and rethrowing changes neither the outcome nor the aether, and
    adds no call into a plan to the log. *)
Lemma rethrowing_spec {A} (message : string) (m : M A) (s : Aether) :
  (rethrowing message m s).1 = (m s).1
  ∧ optimizedIn (rethrowing message m s).2 = optimizedIn (m s).2.
Proof.
  unfold rethrowing. destruct (m s) as [[[a|e] s'] w]; [done|]. simpl.
  split; [done|]. unfold optimizedIn. rewrite omap_app. simpl. by rewrite app_nil_r.
Qed.

Lemma optimizesOnce_rethrowing {A} (message : string) (m : M A) :
  optimizesOnce m → optimizesOnce (rethrowing message m).
Proof.
  intros Hm s. destruct (rethrowing_spec message m s) as [-> ->]. apply Hm.
Qed.

Lemma optimizeFree_rethrowing {A} (message : string) (m : M A) :
  optimizeFree m → optimizeFree (rethrowing message m).
Proof.
  intros Hm s. destruct (rethrowing_spec message m s) as [-> ->]. apply Hm.
Qed.

Lemma optimizeFree_once {A} (m : M A) : optimizeFree m → optimizesOnce m.
Proof.
  intros Hm s. destruct (Hm s) as [Hw Hs]. rewrite Hw, Hs.
  split; [constructor|]. split; [set_solver|]. intros _ _. set_solver.
Qed.

Lemma optimizeFree_bind {A B} (m : M A) (k : A → M B) :
  optimizeFree m → (∀ a, optimizeFree (k a)) → optimizeFree (bind m k).
Proof.
  intros Hm Hk s. specialize (Hm s). unfold bind.
  destruct (m s) as [[[a|e] s1] w1]; simpl in *; [|done].
  destruct Hm as [Hw1 Hs1]. specialize (Hk a s1).
  destruct (k a s1) as [[r s2] w2]; simpl in *. destruct Hk as [Hw2 Hs2].
  rewrite optimizedIn_app, Hw1, Hw2, Hs2, Hs1. done.
Qed.

Lemma optimizeFree_ret {A} (a : A) : optimizeFree (ret a).
Proof. done. Qed.
Lemma optimizeFree_throw {A} (e : Exception) : optimizeFree (@throw A e).
Proof. done. Qed.
Lemma optimizeFree_gets {A} (f : Aether → A) : optimizeFree (gets f).
Proof. done. Qed.
Lemma optimizeFree_get : optimizeFree get.
Proof. done. Qed.
Lemma optimizeFree_liftResult {A} (r : Result A) : optimizeFree (liftResult r).
Proof. done. Qed.
Lemma optimizeFree_slot (i : string) : optimizeFree (slot i).
Proof. done. Qed.
Lemma optimizeFree_getPlanIds (n : nat) : optimizeFree (getPlanIds n).
Proof. done. Qed.
Lemma optimizeFree_object (p : string) : optimizeFree (object p).
Proof. intros s. unfold object. by destruct (objects s !! p). Qed.
Lemma optimizeFree_setPlans t : optimizeFree (setPlans t).
Proof. done. Qed.
Lemma optimizeFree_setSideEffectPlanIds v : optimizeFree (setSideEffectPlanIds v).
Proof. done. Qed.
Lemma optimizeFree_setPlanIdByPathIdentity v : optimizeFree (setPlanIdByPathIdentity v).
Proof. done. Qed.
Lemma optimizeFree_setTransformDependency v : optimizeFree (setTransformDependency v).
Proof. done. Qed.
Lemma optimizeFree_emit_deduplicate p peers : optimizeFree (emit (CallDeduplicate p peers)).
Proof. done. Qed.
Lemma optimizeFree_emit_finalize p : optimizeFree (emit (CallFinalizeArguments p)).
Proof. done. Qed.
Lemma optimizeFree_emit_console m : optimizeFree (emit (ConsoleError m)).
Proof. done. Qed.

Lemma optimizeFree_call {A} (o : Oracle A) :
  oracleKeepsOptimized o → optimizeFree (call o).
Proof.
  intros Ho s. specialize (Ho s). unfold call.
  destruct (o s) as [r s']. done.
Qed.

Lemma optimizeFree_forEach {A B} (xs : list A) (acc : B) (body : A → B → M B) :
  (∀ x b, optimizeFree (body x b)) → optimizeFree (forEach xs acc body).
Proof.
  intros Hbody. revert acc. induction xs as [|x xs IH]; intros acc; simpl.
  - apply optimizeFree_ret.
  - apply optimizeFree_bind; [apply Hbody|intros; apply IH].
Qed.

Lemma optimizesOnce_forEach {A B} (xs : list A) (acc : B) (body : A → B → M B) :
  (∀ x b, optimizesOnce (body x b)) → optimizesOnce (forEach xs acc body).
Proof.
  intros Hbody. revert acc. induction xs as [|x xs IH]; intros acc; simpl.
  - apply optimizeFree_once, optimizeFree_ret.
  - apply optimizesOnce_bind; [apply Hbody|intros; apply IH].
Qed.

Create HintDb optfree discriminated.
#[local] Hint Resolve optimizeFree_ret optimizeFree_throw optimizeFree_gets
  optimizeFree_get optimizeFree_liftResult optimizeFree_slot
  optimizeFree_getPlanIds optimizeFree_object optimizeFree_setPlans
  optimizeFree_setSideEffectPlanIds optimizeFree_setPlanIdByPathIdentity
  optimizeFree_setTransformDependency optimizeFree_emit_deduplicate
  optimizeFree_emit_finalize optimizeFree_emit_console : optfree.

(** Takes a goal [optimizeFree m] apart along the syntax of [m]. *)
Ltac optfree :=
  repeat first
    [ progress intros
    | apply optimizeFree_bind
    | apply optimizeFree_forEach
    | solve [eauto with optfree]
    | match goal with
      | |- optimizeFree (match ?x with _ => _ end) => destruct x
      | |- optimizeFree (if ?b then _ else _) => destruct b
      | |- optimizeFree (call _) => apply optimizeFree_call
      end ].

Section OptimizePass.
Context `{Host}.
Hypothesis keeps : hostKeepsOptimized.

Lemma optimizeFree_pushSideEffectPlanId path np :
  optimizeFree (pushSideEffectPlanId path np).
Proof. unfold pushSideEffectPlanId. optfree. Qed.

Lemma optimizeFree_finalizeArgumentsSince n path allow :
  optimizeFree (finalizeArgumentsSince n path allow).
Proof.
  destruct keeps as (_ & _ & Hfin & Hitem & _).
  unfold finalizeArgumentsSince. optfree; auto using optimizeFree_pushSideEffectPlanId.
Qed.

Lemma optimizeFree_validatePlans offset : optimizeFree (validatePlans offset).
Proof.
  destruct keeps as (_ & _ & _ & _ & Hgroups).
  unfold validatePlans. optfree; auto.
Qed.

Lemma optimizeFree_treeShakePlans : optimizeFree treeShakePlans.
Proof. unfold treeShakePlans. optfree. Qed.

Lemma optimizeFree_replacePlan p r : optimizeFree (replacePlan p r).
Proof. unfold replacePlan. optfree. Qed.

Lemma optimizeFree_firstOf order p : optimizeFree (firstOf order p).
Proof. unfold firstOf. optfree. Qed.

Lemma optimizesOnce_optimizePlan (plan : string) : optimizesOnce (optimizePlan plan).
Proof.
  destruct keeps as (_ & Hopt & _).
  intros s. unfold optimizePlan. rewrite bind_gets.
  case_bool_decide as Hin.
  { simpl. split; [constructor|]. split; [set_solver|]. done. }
  rewrite bind_gets. unfold bind, emit, call, addOptimized, ret.
  specialize (Hopt plan (match planOptionsByPlan s !! plan with
                         | Some o => stream o | None => None end) s).
  destruct (optimize plan _ s) as [[r|e] s1]; simpl in *.
  - split; [apply NoDup_singleton|]. split; [set_solver|].
    intros _ _. rewrite Hopt. set_solver.
  - split; [apply NoDup_singleton|]. split; [set_solver|]. done.
Qed.

Section Process.
Context {C : Type} (order : ProcessOrder)
  (callback : string → C → M (string * C))
  (onPlanReplacement : option (string → string → M unit)).
Hypothesis callback_once : ∀ p c, optimizesOnce (callback p c).
Hypothesis replacement_free :
  ∀ f p r, onPlanReplacement = Some f → optimizeFree (f p r).

Lemma optimizesOnce_processFirst rec plan first st :
  (∀ p st, optimizesOnce (rec p st)) →
  optimizesOnce (@processFirst C rec plan first st).
Proof.
  intros Hrec. revert st. induction first as [|d first IH]; intros st; simpl.
  - apply optimizeFree_once, optimizeFree_ret.
  - apply optimizesOnce_bind; [apply optimizeFree_once, optimizeFree_slot|].
    intros [q|]; [|apply IH]. case_bool_decide; [apply IH|].
    apply optimizesOnce_bind; [apply Hrec|]. intros st'.
    apply optimizesOnce_bind; [apply optimizeFree_once, optimizeFree_slot|].
    intros [cur|]; [apply IH|]. apply optimizeFree_once, optimizeFree_ret.
Qed.

Lemma optimizesOnce_process (n : nat) plan st :
  optimizesOnce (process order callback onPlanReplacement n plan st).
Proof.
  revert plan st. induction n as [|n IH]; intros [p|] st; simpl;
    try apply optimizeFree_once, optimizeFree_ret.
  - case_bool_decide; apply optimizeFree_once; optfree.
  - case_bool_decide; [apply optimizeFree_once, optimizeFree_ret|].
    apply optimizesOnce_bind; [apply optimizeFree_once, optimizeFree_firstOf|].
    intros first. apply optimizesOnce_bind.
    { apply optimizesOnce_processFirst. apply IH. }
    intros [aborted st1]. simpl. destruct aborted.
    { apply optimizeFree_once, optimizeFree_ret. }
    apply optimizesOnce_bind; [apply optimizeFree_once, optimizeFree_gets|].
    intros old. apply optimizesOnce_bind;
      [apply optimizesOnce_rethrowing, callback_once|].
    intros cr. apply optimizeFree_once.
    apply optimizeFree_bind; [apply optimizeFree_finalizeArgumentsSince|].
    intros _. apply optimizeFree_bind; [|optfree].
    case_bool_decide; [|apply optimizeFree_ret].
    apply optimizeFree_bind; [apply optimizeFree_replacePlan|]. intros _.
    destruct onPlanReplacement as [f|] eqn:Hf; [|apply optimizeFree_ret].
    by apply (replacement_free f).
Qed.

Lemma optimizesOnce_processPlans description offset closure :
  optimizesOnce (processPlans description order callback onPlanReplacement
                   offset closure).
Proof.
  unfold processPlans.
  apply optimizesOnce_bind; [apply optimizeFree_once, optimizeFree_gets|].
  intros old. apply optimizesOnce_bind; [apply optimizeFree_once, optimizeFree_getPlanIds|].
  intros ids. apply optimizesOnce_bind.
  { apply optimizesOnce_forEach. intros i acc.
    apply optimizesOnce_bind; [apply optimizeFree_once, optimizeFree_slot|].
    intros plan. apply optimizesOnce_bind; [apply optimizesOnce_process|].
    intros st. apply optimizeFree_once. optfree. }
  intros r. apply optimizeFree_once.
  apply optimizeFree_bind; [apply optimizeFree_gets|]. intros count.
  apply optimizeFree_bind; [|optfree].
  destruct (Nat.ltb old count); [apply optimizeFree_validatePlans|apply optimizeFree_ret].
Qed.

End Process.

Lemma optimizesOnce_optimizePlans : optimizesOnce optimizePlans.
Proof.
  unfold optimizePlans. apply optimizesOnce_processPlans.
  - intros p c. apply optimizesOnce_bind; [apply optimizesOnce_optimizePlan|].
    intros r. apply optimizeFree_once, optimizeFree_ret.
  - intros f p r [= <-]. apply optimizeFree_treeShakePlans.
Qed.

End OptimizePass.

Lemma filter_eq_absent (l : list string) (plan : string) :
  plan ∉ l → filter (λ p, p = plan) l = [].
Proof.
  induction l as [|p l IH]; [done|]. intros Hnin.
  rewrite filter_cons. case_decide as Hp; [set_solver|]. apply IH. set_solver.
Qed.

Lemma optimizeCalls_NoDup (w : list Event) (plan : string) :
  NoDup (optimizedIn w) → optimizeCalls w plan ≤ 1.
Proof.
  unfold optimizeCalls. induction 1 as [|p l Hnin Hnd IH]; [simpl; lia|].
  rewrite filter_cons. case_decide as Hp; [|exact IH]. subst p. simpl.
  rewrite filter_eq_absent by done. simpl. lia.
Qed.

Lemma optimizeCalls_pos (w : list Event) (plan : string) :
  0 < optimizeCalls w plan ↔ plan ∈ optimizedIn w.
Proof.
  unfold optimizeCalls. induction (optimizedIn w) as [|p l IH]; simpl.
  - split; [lia|]. set_solver.
  - rewrite filter_cons. case_decide as Hp; simpl.
    + subst p. split; [set_solver|lia].
    + rewrite IH. set_solver.
Qed.

Lemma tableHost_keeps_optimized dev rewrites :
  @hostKeepsOptimized (tableHost dev rewrites).
Proof. repeat split. Qed.

(** C8 as stated fails: [_1] is in the table when the pass starts, its
    dependent [_3] is optimized first and replaced by [_2], tree shaking
    then nulls the slot of [_1], and the pass returns without ever calling
    the [optimize] method of [_1]. *)
Lemma optimizePlans_skips_plan_shaken_before_its_turn :
  planAt (plans optimizeAether) "_1" = Some "_1"
  ∧ (@optimizePlans optimizeHost optimizeAether).1.1 = Ok tt
  ∧ (@optimizePlans optimizeHost optimizeAether).2
    = [CallOptimize "_3" None; CallOptimize "_2" None]
  ∧ plans (@optimizePlans optimizeHost optimizeAether).1.2
    = [("_1", None); ("_2", Some "_2"); ("_3", Some "_2")]
  ∧ optimizeCalls (@optimizePlans optimizeHost optimizeAether).2 "_1" = 0.
Proof. vm_compute. repeat split; reflexivity. Qed.

(** ** A deduplication pass without replacements changes nothing *)

Lemma withPlans_id (s : Aether) : s = withPlans (λ _, plans s) s.
Proof. by destruct s. Qed.

Lemma onlySlotsChanged_refl (s : Aether) : onlySlotsChanged s s.
Proof. split; [apply withPlans_id|done]. Qed.

Lemma onlySlotsChanged_trans (s1 s2 s3 : Aether) :
  onlySlotsChanged s1 s2 → onlySlotsChanged s2 s3 → onlySlotsChanged s1 s3.
Proof.
  intros [E12 L12] [E23 L23]. split; [|congruence].
  rewrite E23 at 1. rewrite E12. reflexivity.
Qed.

Lemma onlySlotsChanged_counted (s s' : Aether) :
  onlySlotsChanged s s' → tableCounted s → tableCounted s'.
Proof.
  intros [E L]. unfold tableCounted. rewrite L, E. simpl. done.
Qed.

Lemma onlySlotsChanged_planCount (s s' : Aether) :
  onlySlotsChanged s s' → planCount s' = planCount s.
Proof. intros [E _]. rewrite E. reflexivity. Qed.

Lemma reads_ret {A} (a : A) : reads (ret a).
Proof. done. Qed.
Lemma reads_throw {A} (e : Exception) : reads (@throw A e).
Proof. done. Qed.
Lemma reads_gets {A} (f : Aether → A) : reads (gets f).
Proof. done. Qed.
Lemma reads_get : reads get.
Proof. done. Qed.
Lemma reads_emit (e : Event) : reads (emit e).
Proof. done. Qed.
Lemma reads_liftResult {A} (r : Result A) : reads (liftResult r).
Proof. done. Qed.
Lemma reads_object (p : string) : reads (object p).
Proof. intros s _. unfold object. by destruct (objects s !! p). Qed.

Lemma reads_bind {A B} (m : M A) (k : A → M B) :
  reads m → (∀ a, reads (k a)) → reads (bind m k).
Proof.
  intros Hm Hk s Hs. specialize (Hm s Hs). unfold bind.
  destruct (m s) as [[[a|e] s1] w1]; simpl in *; [|done]. subst s1.
  specialize (Hk a s Hs). by destruct (k a s) as [[r s2] w2].
Qed.

Lemma counts_reads {A} (count : A → nat) (c : nat) (m : M A) :
  reads m → (∀ s a, (m s).1.1 = Ok a → c ≤ count a) → counts count c m.
Proof.
  intros Hm Hc s Hs. rewrite (Hm s Hs).
  split; [apply onlySlotsChanged_refl|]. intros a Ha. split; [by eapply Hc|done].
Qed.

Lemma counts_bind {A B} (countA : A → nat) (countB : B → nat) (c : nat)
  (m : M A) (k : A → M B) :
  counts countA c m → (∀ a, counts countB (countA a) (k a)) →
  counts countB c (bind m k).
Proof.
  intros Hm Hk s Hs. destruct (Hm s Hs) as [HR Hcount]. unfold bind.
  destruct (m s) as [[[a|e] s1] w1]; simpl in *; [|split; [done|discriminate]].
  destruct (Hcount a eq_refl) as [Hle Hsame].
  destruct (Hk a s1 (onlySlotsChanged_counted _ _ HR Hs)) as [HR2 Hcount2].
  destruct (k a s1) as [[r s2] w2]; simpl in *.
  split; [by eapply onlySlotsChanged_trans|].
  intros b ->. destruct (Hcount2 b eq_refl) as [Hle2 Hsame2].
  split; [lia|]. intros Hb. rewrite Hsame2 by lia. apply Hsame. lia.
Qed.

(** A reading step whose result is known to satisfy [Q]. *)
Lemma counts_bind_reads {A B} (Q : A → Prop) (count : B → nat) (c : nat)
  (m : M A) (k : A → M B) :
  reads m → (∀ s a, (m s).1.1 = Ok a → Q a) →
  (∀ a, Q a → counts count c (k a)) → counts count c (bind m k).
Proof.
  intros Hm HQ Hk s Hs. specialize (Hm s Hs). specialize (HQ s). unfold bind.
  destruct (m s) as [[[a|e] s1] w1]; simpl in *; subst s1.
  2:{ split; [apply onlySlotsChanged_refl|discriminate]. }
  destruct (Hk a (HQ a eq_refl) s Hs) as [HR Hcount].
  destruct (k a s) as [[r s2] w2]; simpl in *. done.
Qed.

Lemma reads_firstOf order p : reads (firstOf order p).
Proof.
  unfold firstOf. apply reads_bind; [apply reads_get|]. intros s.
  destruct order; [apply reads_liftResult|].
  apply reads_bind; [apply reads_object|]. intros o. apply reads_liftResult.
Qed.

Lemma forEach_nil {A B} (acc : B) (body : A → B → M B) (s : Aether) :
  forEach [] acc body s = (Ok acc, s, []).
Proof. reflexivity. Qed.

Lemma reads_finalizeArgumentsSince `{Host} (path : string) (allow : bool)
  (n : nat) (s : Aether) :
  length (plans s) ≤ n → finalizeArgumentsSince n path allow s = (Ok tt, s, []).
Proof.
  intros Hn. unfold finalizeArgumentsSince, getPlanIds. rewrite bind_gets.
  rewrite drop_ge; [reflexivity|]. by rewrite length_map.
Qed.

Lemma length_assignKey_present {V} (k : string) (v : V) (o : list (string * V)) :
  is_Some (lookupKey k o) → length (assignKey k v o) = length o.
Proof.
  intros Hk. rewrite <- (length_map fst), map_fst_assignKey by done.
  by rewrite length_map.
Qed.

Lemma replacePlan_loop (p r : string) (ids : list string) (s : Aether) :
  ∃ s', forEach ids tt (λ j _,
          let* pj := slot j in
          if bool_decide (pj = Some p) then
            let* table := gets plans in setPlans (assignKey j (Some r) table)
          else ret tt) s = (Ok tt, s', [])
        ∧ onlySlotsChanged s s'.
Proof.
  revert s. induction ids as [|j ids IH]; intros s.
  - exists s. split; [reflexivity|apply onlySlotsChanged_refl].
  - simpl.
    set (s1 := if bool_decide (planAt (plans s) j = Some p)
               then withPlans (λ _, assignKey j (Some r) (plans s)) s else s).
    assert (Hbody : (let* pj := slot j in
                     if bool_decide (pj = Some p) then
                       let* table := gets plans in setPlans (assignKey j (Some r) table)
                     else ret tt) s = (Ok tt, s1, [])).
    { unfold slot. rewrite bind_gets. unfold s1.
      case_bool_decide; [by rewrite bind_gets|reflexivity]. }
    rewrite (bind_run_silent _ _ _ _ _ Hbody).
    destruct (IH s1) as (s' & Hrun & HR). exists s'. split; [exact Hrun|].
    eapply onlySlotsChanged_trans; [|exact HR]. unfold s1.
    case_bool_decide as Hj; [|apply onlySlotsChanged_refl].
    split; [done|]. simpl. apply length_assignKey_present.
    apply planAt_is_Some_key in Hj. eauto.
Qed.

Lemma replacePlan_run (p r : string) (s : Aether) :
  ∃ s', replacePlan p r s = (Ok tt, s', []) ∧ onlySlotsChanged s s'.
Proof. unfold replacePlan, getPlanIds. rewrite bind_gets. apply replacePlan_loop. Qed.

Section DeduplicatePass.
Context `{Host}.
Hypothesis pure : hostDeduplicatesPurely.

Lemma reads_deduplicatePlan (plan : string) : reads (deduplicatePlan plan).
Proof.
  unfold deduplicatePlan. apply reads_bind; [apply reads_object|]. intros o.
  destruct (hasSideEffects o); [apply reads_ret|].
  apply reads_bind; [apply reads_gets|]. intros [|]; [apply reads_ret|].
  apply reads_bind; [apply reads_gets|]. intros found.
  apply reads_bind; [apply reads_liftResult|]. intros [|peer peers]; [apply reads_ret|].
  apply reads_bind; [apply reads_emit|]. intros _.
  apply reads_bind.
  { intros s _. unfold call. specialize (pure plan (peer :: peers) s).
    by destruct (deduplicate plan (peer :: peers) s). }
  intros r. repeat case_bool_decide; first [apply reads_ret|apply reads_throw].
Qed.

(** What the callback returns: the plan itself with the counter as it was, or
    another plan with the counter advanced. *)
Lemma deduplicateCallback_result (plan : string) (c : nat) (s : Aether) cr :
  (deduplicateCallback plan c s).1.1 = Ok cr →
  (cr.1 = plan ∧ cr.2 = c) ∨ (cr.1 ≠ plan ∧ cr.2 = S c).
Proof.
  unfold deduplicateCallback, bind.
  destruct (deduplicatePlan plan s) as [[[r|e] s1] w1]; simpl; [|discriminate].
  case_bool_decide as Hr; simpl; intros [= <-]; simpl; [right|left]; done.
Qed.

Lemma reads_deduplicateCallback (plan : string) (c : nat) :
  reads (deduplicateCallback plan c).
Proof.
  unfold deduplicateCallback. apply reads_bind; [apply reads_deduplicatePlan|].
  intros r. case_bool_decide; apply reads_ret.
Qed.

#[local] Abbreviation processD := (process DependenciesFirst deduplicateCallback None).

Lemma counts_processFirst rec (plan : string) (first : list string)
  (st : gset string * nat) :
  (∀ p st, counts snd st.2 (rec p st)) →
  counts (λ r : bool * (gset string * nat), r.2.2) st.2
    (processFirst rec plan first st).
Proof.
  intros Hrec. revert st. induction first as [|d first IH]; intros st; simpl.
  - apply counts_reads; [apply reads_ret|]. intros s a [= <-]. done.
  - apply (counts_bind_reads (λ _, True)); [apply reads_gets|done|].
    intros [q|] _; [|apply IH]. case_bool_decide; [apply IH|].
    eapply counts_bind; [apply Hrec|]. intros st'. simpl.
    apply (counts_bind_reads (λ _, True)); [apply reads_gets|done|].
    intros [cur|] _; [apply IH|].
    apply counts_reads; [apply reads_ret|]. intros s a [= <-]. done.
Qed.

(** The tail of [process] after the callback has answered [cr]. *)
Lemma counts_after_callback (p : string) (seen : gset string) (c : nat)
  (old : nat) (cr : string * nat) :
  (cr.1 = p ∧ cr.2 = c) ∨ (cr.1 ≠ p ∧ cr.2 = S c) →
  ∀ s, tableCounted s → old = planCount s →
    let out := (finalizeArgumentsSince old ROOT_PATH false ;;
                (if bool_decide (cr.1 ≠ p) then
                   replacePlan p cr.1 ;;
                   match @None (string → string → M unit) with
                   | Some f => f p cr.1
                   | None => ret tt
                   end
                 else ret tt) ;;
                ret ({[p]} ∪ seen, cr.2)) s in
    onlySlotsChanged s out.1.2
    ∧ ∀ a : gset string * nat, out.1.1 = Ok a → c ≤ a.2 ∧ (a.2 = c → out.1.2 = s).
Proof.
  intros Hcr s Hs ->. simpl.
  rewrite (bind_run_silent _ _ s s tt)
    by (apply reads_finalizeArgumentsSince; exact Hs).
  destruct Hcr as [[Hsame Hc]|[Hdiff Hc]].
  - rewrite bool_decide_eq_false_2 by (intros Hne; by apply Hne).
    rewrite bind_ret. unfold ret. simpl.
    split; [apply onlySlotsChanged_refl|]. intros a [= <-]. simpl. split; [lia|done].
  - rewrite bool_decide_eq_true_2 by done.
    destruct (replacePlan_run p cr.1 s) as (s' & Hrun & HR).
    rewrite (bind_run_silent _ _ s s' tt).
    2:{ rewrite (bind_run_silent _ _ s s' tt) by exact Hrun. reflexivity. }
    unfold ret. simpl. split; [exact HR|]. intros a [= <-]. simpl. split; lia.
Qed.

Lemma counts_process (n : nat) (plan : option string) (st : gset string * nat) :
  counts snd st.2 (processD n plan st).
Proof.
  revert plan st. induction n as [|n IH]; intros [p|] st.
  - simpl. case_bool_decide.
    + apply counts_reads; [apply reads_ret|]. by intros s a [= <-].
    + apply counts_reads; [apply reads_throw|]. intros s a Ha. simpl in Ha. discriminate Ha.
  - apply counts_reads; [apply reads_ret|]. by intros s a [= <-].
  - simpl. case_bool_decide.
    { apply counts_reads; [apply reads_ret|]. by intros s a [= <-]. }
    apply (counts_bind_reads (λ _, True)); [apply reads_firstOf|done|].
    intros first _.
    eapply counts_bind; [apply counts_processFirst; apply IH|].
    intros [aborted st1]. simpl. destruct aborted.
    { apply counts_reads; [apply reads_ret|]. by intros s a [= <-]. }
    intros s Hs. rewrite bind_gets.
    pose proof (reads_deduplicateCallback p st1.2 s Hs) as Hreads.
    pose proof (deduplicateCallback_result p st1.2 s) as Hresult.
    match goal with
    | |- context [rethrowing ?message ?m] =>
        destruct (rethrowing_spec message m s) as [Hsame _];
        rewrite <- Hsame in Hreads, Hresult;
        destruct (rethrowing message m s) as [[[cr|e] s1] w1] eqn:Hcb
    end; simpl in Hreads, Hresult; subst s1.
    2:{ rewrite (bind_run_throw _ _ _ _ _ _ Hcb). simpl.
        split; [apply onlySlotsChanged_refl|]. intros a Ha. discriminate Ha. }
    rewrite (bind_run _ _ _ _ _ _ Hcb).
    pose proof (counts_after_callback p st1.1 st1.2 (planCount s) cr
                  (Hresult cr eq_refl) s Hs eq_refl) as Hout.
    match goal with
    | |- context [match ?x with pair _ _ => _ end] =>
        assert (Hx : onlySlotsChanged s x.1.2
                     ∧ ∀ a : gset string * nat, x.1.1 = Ok a →
                         st1.2 ≤ a.2 ∧ (a.2 = st1.2 → x.1.2 = s)) by exact Hout;
        destruct x as [[r s2] w2]
    end.
    exact Hx.
  - apply counts_reads; [apply reads_ret|]. by intros s a [= <-].
Qed.

End DeduplicatePass.

Section DeduplicateFixpoint.
Context `{Host}.
Hypothesis pure : hostDeduplicatesPurely.

Lemma counts_forEach {A B} (count : B → nat) (xs : list A) (acc : B)
  (body : A → B → M B) :
  (∀ x b, counts count (count b) (body x b)) →
  counts count (count acc) (forEach xs acc body).
Proof.
  intros Hbody. revert acc. induction xs as [|x xs IH]; intros acc; simpl.
  - apply counts_reads; [apply reads_ret|]. by intros s a [= <-].
  - eapply counts_bind; [apply Hbody|]. intros b. apply IH.
Qed.

(** One turn of the loop: only slot contents change, and a turn that
    reports zero replacements has changed nothing. *)
Lemma deduplicatePass_run (offset : nat) (s : Aether) :
  tableCounted s →
  onlySlotsChanged s (deduplicatePass offset s).1.2
  ∧ ((deduplicatePass offset s).1.1 = Ok 0 → (deduplicatePass offset s).1.2 = s).
Proof.
  intros Hs. unfold deduplicatePass, processPlans, getPlanIds.
  rewrite !bind_gets.
  match goal with
  | |- context [bind (forEach ?ids ?init ?body) ?k s] =>
      assert (Hbody : ∀ x b,
                counts (λ acc : gset string * nat * nat * nat, acc.1.1.2)
                  b.1.1.2 (body x b));
      [|pose proof (counts_forEach _ ids init body Hbody s Hs) as [HR Hcount];
        destruct (forEach ids init body s) as [[[r|e] s1] w1] eqn:Hrun]
  end.
  - intros i acc. apply (counts_bind_reads (λ _, True)); [apply reads_gets|done|].
    intros plan _. eapply counts_bind; [apply (counts_process pure)|].
    intros st. simpl.
    apply (counts_bind_reads (λ _, True)); [apply reads_gets|done|].
    intros count _.
    destruct (isDev && _)%bool.
    + apply counts_reads; [apply reads_throw|]. intros s0 a Ha. discriminate Ha.
    + apply counts_reads; [apply reads_ret|]. by intros s0 a [= <-].
  - simpl in HR, Hcount.
    rewrite (bind_run _ _ _ _ _ _ Hrun). rewrite bind_gets.
    rewrite (onlySlotsChanged_planCount _ _ HR), Nat.ltb_irrefl, bind_ret.
    unfold ret. simpl. split; [exact HR|].
    intros [= Hzero]. apply (Hcount r eq_refl). exact Hzero.
  - rewrite (bind_run_throw _ _ _ _ _ _ Hrun). simpl.
    split; [exact HR|]. intros Hno. discriminate Hno.
Qed.

Lemma deduplicateLoop_ends_in_fixpoint (offset remaining : nat) (s : Aether) :
  tableCounted s →
  (deduplicateLoop remaining offset s).1.1 = Ok tt →
  (deduplicatePass offset (deduplicateLoop remaining offset s).1.2).1.1 = Ok 0
  ∧ (deduplicatePass offset (deduplicateLoop remaining offset s).1.2).1.2
    = (deduplicateLoop remaining offset s).1.2.
Proof.
  revert s. induction remaining as [|remaining IH]; intros s Hs; simpl.
  { intros Hno. discriminate Hno. }
  destruct (deduplicatePass_run offset s Hs) as [HR Hzero].
  destruct (deduplicatePass offset s) as [[[n|e] s1] w1] eqn:Hpass; simpl in *.
  2:{ rewrite (bind_run_throw _ _ _ _ _ _ Hpass). intros Hno. discriminate Hno. }
  rewrite (bind_run _ _ _ _ _ _ Hpass).
  destruct n as [|n]; simpl.
  - intros _. rewrite Hzero in Hpass by done. rewrite Hzero by done.
    rewrite Hpass. done.
  - pose proof (IH s1 (onlySlotsChanged_counted _ _ HR Hs)) as IH1.
    destruct (deduplicateLoop remaining offset s1) as [[r s2] w2]; simpl in *.
    exact IH1.
Qed.

Lemma deduplicatePlans_at_fixpoint (offset : nat) (s : Aether) :
  (deduplicatePass offset s).1.1 = Ok 0 → (deduplicatePass offset s).1.2 = s →
  (deduplicatePlans offset s).1.1 = Ok tt ∧ (deduplicatePlans offset s).1.2 = s.
Proof.
  intros Hzero Hsame. unfold deduplicatePlans.
  destruct (N.to_nat 10001) as [|remaining] eqn:Hfuel; [vm_compute in Hfuel; lia|].
  simpl. destruct (deduplicatePass offset s) as [[r s1] w1] eqn:Hpass.
  simpl in Hzero, Hsame. subst r s1.
  rewrite (bind_run _ _ _ _ _ _ Hpass). simpl. done.
Qed.

End DeduplicateFixpoint.

(** C3. When the plug-in [deduplicate] methods answer without changing the
    aether and [deduplicatePlans] has returned, the deduplication pass run
    again on the resulting aether reports zero replacements and leaves the
    aether, its plan table included, exactly as it is; so does a whole new
    run of [deduplicatePlans]. *)
Theorem deduplicatePlans_idempotent `{Host} (offset : nat) (s : Aether) :
  hostDeduplicatesPurely → tableCounted s →
  (deduplicatePlans offset s).1.1 = Ok tt →
  (deduplicatePass offset (deduplicatePlans offset s).1.2).1.1 = Ok 0
  ∧ (deduplicatePass offset (deduplicatePlans offset s).1.2).1.2
    = (deduplicatePlans offset s).1.2
  ∧ (deduplicatePlans offset (deduplicatePlans offset s).1.2).1.1 = Ok tt
  ∧ (deduplicatePlans offset (deduplicatePlans offset s).1.2).1.2
    = (deduplicatePlans offset s).1.2.
Proof.
  intros Hpure Hs Hok.
  destruct (deduplicateLoop_ends_in_fixpoint Hpure offset (N.to_nat 10001) s Hs Hok)
    as [Hzero Hsame].
  split; [exact Hzero|]. split; [exact Hsame|].
  by apply deduplicatePlans_at_fixpoint.
Qed.

Lemma tableHost_deduplicates_purely dev rewrites :
  @hostDeduplicatesPurely (tableHost dev rewrites).
Proof. intros plan peers s. reflexivity. Qed.

(** The first run merges [_1] into its twin [_2]; the second finds nothing
    to replace. *)
Lemma deduplicatePlans_idempotent_witness :
  plans (@deduplicatePlans (tableHost true []) 0 (twinsAether false)).1.2
  = [("_1", Some "_2"); ("_2", Some "_2")]
  ∧ (@deduplicatePass (tableHost true []) 0
       (@deduplicatePlans (tableHost true []) 0 (twinsAether false)).1.2).1.1 = Ok 0
  ∧ (@deduplicatePass (tableHost true []) 0
       (@deduplicatePlans (tableHost true []) 0 (twinsAether false)).1.2).1.2
    = (@deduplicatePlans (tableHost true []) 0 (twinsAether false)).1.2.
Proof.
  split; [vm_compute; reflexivity|].
  destruct (@deduplicatePlans_idempotent (tableHost true []) 0 (twinsAether false))
    as (Hzero & Hsame & _).
  - apply tableHost_deduplicates_purely.
  - unfold tableCounted. simpl. lia.
  - vm_compute. reflexivity.
  - split; [exact Hzero|exact Hsame].
Defined.

(** C3 as stated fails when a [deduplicate] method changes the aether, which
    the deduplicate phase allows ([_addPlan] accepts new plans in it).  With
    the twins [_1] and [_2] and the host [helperHost], the loop of
    [deduplicatePlans] ends after one pass that reports zero replacements and
    has created the plan [_3]; the pass run again then replaces [_2] by
    [_1] and a second run of [deduplicatePlans] rewrites the table. *)
Lemma deduplicatePlans_not_idempotent_when_deduplicate_creates_a_plan :
  let first := @deduplicatePlans helperHost 0 (twinsAether false) in
  @deduplicatePass helperHost 0 (twinsAether false) = (Ok 0, first.1.2, first.2)
  ∧ first.1.1 = Ok tt
  ∧ plans first.1.2 = [("_1", Some "_1"); ("_2", Some "_2"); ("_3", Some "_3")]
  ∧ (@deduplicatePass helperHost 0 first.1.2).1.1 = Ok 1
  ∧ (@deduplicatePlans helperHost 0 first.1.2).1.1 = Ok tt
  ∧ plans (@deduplicatePlans helperHost 0 first.1.2).1.2
    = [("_1", Some "_1"); ("_2", Some "_1"); ("_3", Some "_3")].
Proof. vm_compute. repeat split; reflexivity. Qed.

(** ** Common ancestors *)

Lemma TreeNode_eqb_eq (a b : TreeNode) : TreeNode_eqb a b = true ↔ a = b.
Proof.
  revert b. induction a as [i f p g|i f p g u IH] using TreeNode_induction;
    intros [i' f' p' g' [u'|]]; simpl;
    rewrite ?andb_true_iff, ?Nat.eqb_eq, ?String.eqb_eq, ?bool_decide_eq_true, ?IH;
    split; try (intros [[[[-> ->] ->] ->] Hu]; congruence);
    try (intros [= -> -> -> -> ?]; subst; done); try (intros [= -> -> -> ->]; done).
Qed.

Section Chains.
Context (start : string).

Lemma climbFrom_chain (m : TreeNode) (path : list TreeNode) :
  climbFrom m start path = chainFrom start m ++ path.
Proof.
  revert path. induction m as [i f p g|i f p g u IH] using TreeNode_induction;
    intros path; simpl; destruct (startsWith p start); try done.
  rewrite IH. by rewrite <- app_assoc.
Qed.

Lemma chainFrom_self (m : TreeNode) :
  startsWith (pathIdentity m) start = true →
  chainFrom start m = chainWithin start (parent m) ++ [m].
Proof. destruct m as [i f p g [u|]]; simpl; intros ->; done. Qed.

Lemma chainFrom_outside (m : TreeNode) :
  startsWith (pathIdentity m) start = false → chainFrom start m = [].
Proof. destruct m as [i f p g [u|]]; simpl; intros ->; done. Qed.

Lemma chainFrom_cases (m : TreeNode) :
  chainFrom start m = [] ∨ chainFrom start m = chainWithin start (parent m) ++ [m].
Proof.
  destruct (startsWith (pathIdentity m) start) eqn:Hsw;
    [right; by apply chainFrom_self|left; by apply chainFrom_outside].
Qed.

Lemma depth_parent (m u : TreeNode) : parent m = Some u → depth m = S (depth u).
Proof. destruct m as [i f p g [u'|]]; simpl; congruence. Qed.

Lemma chainFrom_no_deeper (m x : TreeNode) :
  x ∈ chainFrom start m → depth x ≤ depth m.
Proof.
  induction m as [i f p g|i f p g u IH] using TreeNode_induction; simpl;
    destruct (startsWith p start);
    rewrite ?elem_of_app, ?list_elem_of_singleton, ?elem_of_nil; intros Hx;
    try done.
  - subst x. done.
  - destruct Hx as [Hx| ->]; [|done]. specialize (IH Hx). lia.
Qed.

Lemma chainFrom_begins_with (m x : TreeNode) :
  x ∈ chainFrom start m →
  ∃ pre rest, chainFrom start x = pre ++ [x] ∧ chainFrom start m = (pre ++ [x]) ++ rest.
Proof.
  induction m as [i f p g|i f p g u IH] using TreeNode_induction; simpl;
    destruct (startsWith p start) eqn:Hsw;
    rewrite ?elem_of_app, ?list_elem_of_singleton, ?elem_of_nil; intros Hx;
    try done.
  - subst x. exists [], []. simpl. rewrite Hsw. done.
  - destruct Hx as [Hx| ->].
    + destruct (IH Hx) as (pre & rest & Hx' & Hu).
      exists pre, (rest ++ [mkTreeNode i f p g (Some u)]).
      split; [done|]. rewrite Hu. by rewrite <- !app_assoc.
    + exists (chainFrom start u), []. simpl. rewrite Hsw. by rewrite app_nil_r.
Qed.

Lemma chainFrom_deepens (m : TreeNode) (i j : nat) (x y : TreeNode) :
  chainFrom start m !! i = Some x → chainFrom start m !! j = Some y →
  i < j → depth x < depth y.
Proof.
  revert i j x y.
  induction m as [i0 f p g|i0 f p g u IH] using TreeNode_induction;
    intros i j x y; simpl; destruct (startsWith p start); try done.
  - simpl. intros Hi Hj Hlt. destruct i, j; simpl in *; try lia; done.
  - intros Hi Hj Hlt.
    assert (Hjlen : j < length (chainFrom start u ++ [mkTreeNode i0 f p g (Some u)]))
      by (by eapply lookup_lt_Some).
    rewrite length_app in Hjlen. simpl in Hjlen.
    rewrite lookup_app_l in Hi by lia.
    destruct (decide (j < length (chainFrom start u))) as [Hj'|Hj'].
    + rewrite lookup_app_l in Hj by lia. by eapply IH.
    + rewrite lookup_app_r in Hj by lia.
      replace (j - length (chainFrom start u)) with 0 in Hj by lia.
      injection Hj as <-. simpl.
      apply list_elem_of_lookup_2 in Hi. apply chainFrom_no_deeper in Hi. lia.
Qed.

(** Every path that contains [x] begins with the chain that ends in [x]. *)
Lemma path_through (a x : TreeNode) (k : nat) :
  x ∈ take k (chainFrom start a) →
  ∃ pre rest, chainFrom start x = pre ++ [x]
              ∧ take k (chainFrom start a) = (pre ++ [x]) ++ rest.
Proof.
  intros Hx.
  assert (Hin : x ∈ chainFrom start a).
  { apply list_elem_of_lookup in Hx as [i Hi]. apply lookup_take_Some in Hi as [Hi _].
    by eapply list_elem_of_lookup_2. }
  destruct (chainFrom_begins_with a x Hin) as (pre & rest & Hchain & Ha).
  exists pre, (take (k - length (pre ++ [x])) rest). split; [done|].
  apply list_elem_of_lookup in Hx as [i Hi].
  apply lookup_take_Some in Hi as [Hi Hik].
  assert (Hpos : chainFrom start a !! length pre = Some x).
  { rewrite Ha, <- app_assoc. by apply list_lookup_middle. }
  assert (i = length pre) as ->.
  { destruct (Nat.lt_trichotomy i (length pre)) as [Hlt|[Heq|Hgt]]; [|done|].
    - pose proof (chainFrom_deepens a _ _ _ _ Hi Hpos Hlt). lia.
    - pose proof (chainFrom_deepens a _ _ _ _ Hpos Hi Hgt). lia. }
  rewrite Ha. rewrite take_app_ge; [done|]. rewrite length_app. simpl. lia.
Qed.

Lemma treeNodePath_chain (a : TreeNode) (path : list TreeNode) :
  treeNodePath a start = Ok path → ∃ k, path = take k (chainFrom start a).
Proof.
  unfold treeNodePath.
  destruct (startsWith (pathIdentity a) start) eqn:Hsw; simpl; [|done].
  assert (Hclimb : climb (parent a) start [a] = chainFrom start a).
  { rewrite (chainFrom_self a Hsw). unfold climb, chainWithin.
    destruct (parent a); [apply climbFrom_chain|done]. }
  rewrite Hclimb. destruct (0 <=? listChangeIndex (chainFrom start a))%Z.
  - intros [= <-]. eauto.
  - intros [= <-]. exists (length (chainFrom start a)). by rewrite take_ge.
Qed.

Lemma treeNodePaths_chains (treeNodes : list TreeNode) (paths : list (list TreeNode)) :
  treeNodePaths treeNodes start = Ok paths →
  ∀ path, path ∈ paths → ∃ a k, a ∈ treeNodes ∧ path = take k (chainFrom start a).
Proof.
  revert paths. induction treeNodes as [|a rest IH]; intros paths; simpl.
  - intros [= <-]. set_solver.
  - destruct (treeNodePath a start) as [path|] eqn:Ha; [|done].
    destruct (treeNodePaths rest start) as [paths'|] eqn:Hrest; [|done].
    intros [= <-] q Hq. apply elem_of_cons in Hq as [->|Hq].
    + apply treeNodePath_chain in Ha as [k ->]. exists a, k. set_solver.
    + destruct (IH paths' eq_refl q Hq) as (b & k & Hb & ->). exists b, k. set_solver.
Qed.

End Chains.

Lemma matchLoop_agreement (first : list TreeNode) (others : list (list TreeNode))
  (suffix done : list TreeNode) :
  first = done ++ suffix →
  (∀ k, k < length done → agree first others k) →
  ∃ n, matchLoop suffix others (length done) (Z.of_nat (length done) - 1)
       = (Z.of_nat n - 1)%Z
       ∧ (∀ k, k < n → agree first others k) ∧ ¬ agree first others n.
Proof.
  revert done. induction suffix as [|m suffix IH]; intros done Hfirst Hdone; simpl.
  - exists (length done). split; [done|]. split; [done|].
    intros (x & Hx & _). rewrite Hfirst, app_nil_r in Hx.
    apply lookup_lt_Some in Hx. lia.
  - assert (Hm : first !! length done = Some m).
    { rewrite Hfirst. by apply list_lookup_middle. }
    destruct (forallb _ others) eqn:Hall.
    + destruct (IH (done ++ [m])) as (n & Hn & Hagree & Hstop).
      * by rewrite <- app_assoc.
      * intros k Hk. rewrite length_app in Hk. simpl in Hk.
        destruct (decide (k < length done)) as [Hlt|Hge]; [by apply Hdone|].
        assert (k = length done) as -> by lia.
        exists m. split; [done|]. intros o Ho.
        rewrite forallb_forall in Hall. specialize (Hall o).
        rewrite <- list_elem_of_In in Hall. specialize (Hall Ho).
        destruct (o !! length done) as [x|]; [|done].
        apply TreeNode_eqb_eq in Hall. by subst.
      * exists n. rewrite length_app in Hn. simpl in Hn.
        replace (length done + 1) with (S (length done)) in Hn by lia.
        replace (Z.of_nat (S (length done)) - 1)%Z with (Z.of_nat (length done)) in Hn
          by lia.
        done.
    + exists (length done). split; [done|]. split; [done|].
      intros (x & Hx & Hothers). assert (x = m) as -> by congruence.
      apply not_true_iff_false in Hall. apply Hall.
      apply forallb_forall. intros o Ho. apply list_elem_of_In in Ho.
      rewrite (Hothers o Ho). by apply TreeNode_eqb_eq.
Qed.

(** The body of the loop over the entries of [treeNodesByPlan], on the
    paths [treeNodePaths] returns: either some node lies on all of them, and
    the value is the path identity of the deepest such node, or no node lies
    on all of them and the body throws [aac23403]. *)
Lemma commonAncestorOf_deepest_common_node (parentPathIdentity : string)
  (treeNodes : list TreeNode) (allPaths : list (list TreeNode)) :
  treeNodes ≠ [] →
  treeNodePaths treeNodes parentPathIdentity = Ok allPaths →
  (∃ n, deepestCommonNode allPaths n
        ∧ commonAncestorOf parentPathIdentity treeNodes = Ok (pathIdentity n))
  ∨ ((∀ n, ¬ commonNode allPaths n)
     ∧ commonAncestorOf parentPathIdentity treeNodes = Throw noCommonRoot).
Proof.
  intros Hne Hpaths. unfold commonAncestorOf. rewrite Hpaths.
  pose proof (treeNodePaths_chains parentPathIdentity treeNodes allPaths Hpaths)
    as Hchains.
  destruct allPaths as [|first others].
  { destruct treeNodes as [|a rest]; [done|]. simpl in Hpaths.
    destruct (treeNodePath a parentPathIdentity); [|done].
    destruct (treeNodePaths rest parentPathIdentity); done. }
  destruct (matchLoop_agreement first others first [] eq_refl) as (n & Hn & Hagree & Hstop).
  { simpl. lia. }
  change (matchLoop first others 0 (-1) = (Z.of_nat n - 1)%Z) in Hn. rewrite Hn.
  (* every common node forces agreement up to its own index *)
  assert (Hcommon : ∀ x, commonNode (first :: others) x →
            ∃ pre : list TreeNode, first !! length pre = Some x ∧ length pre < n).
  { intros x Hx.
    destruct (Hchains first ltac:(set_solver)) as (a & k & _ & Hfirst).
    pose proof (Hx first ltac:(set_solver)) as Hxfirst. rewrite Hfirst in Hxfirst.
    destruct (path_through parentPathIdentity a x k Hxfirst) as (pre & rest & Hchain & Hpath).
    exists pre. rewrite Hfirst, Hpath, <- app_assoc.
    split; [by apply list_lookup_middle|].
    destruct (decide (length pre < n)) as [|Hge]; [done|]. exfalso. apply Hstop.
    assert (Hlen : n < length (pre ++ [x])) by (rewrite length_app; simpl; lia).
    destruct (lookup_lt_is_Some_2 (pre ++ [x]) n Hlen) as [m Hm].
    exists m. split.
    - rewrite Hfirst, Hpath. by rewrite lookup_app_l.
    - intros o Ho.
      destruct (Hchains o ltac:(set_solver)) as (b & kb & _ & Hob).
      pose proof (Hx o ltac:(set_solver)) as Hxo. rewrite Hob in Hxo.
      destruct (path_through parentPathIdentity b x kb Hxo) as (pre' & rest' & Hchain' & Hpath').
      assert (pre' ++ [x] = pre ++ [x]) as Heq by congruence.
      rewrite Hob, Hpath', Heq. by rewrite lookup_app_l. }
  destruct n as [|n].
  - right. split.
    + intros x Hx. destruct (Hcommon x Hx) as (pre & _ & Hlt). lia.
    + reflexivity.
  - left. replace (Z.of_nat (S n) - 1)%Z with (Z.of_nat n) by lia.
    destruct (Hagree n ltac:(lia)) as (c & Hc & Hothers).
    exists c. split.
    + split.
      * intros path Hpath. apply elem_of_cons in Hpath as [->|Ho].
        -- by eapply list_elem_of_lookup_2.
        -- eapply list_elem_of_lookup_2. by apply Hothers.
      * intros m Hm. destruct (Hcommon m Hm) as (pre & Hpre & Hlt).
        destruct (decide (length pre = n)) as [Heq|Hneq].
        -- rewrite Heq in Hpre. assert (m = c) as -> by congruence. done.
        -- destruct (Hchains first ltac:(set_solver)) as (a & k & _ & Hfirst).
           rewrite Hfirst in Hpre, Hc.
           apply lookup_take_Some in Hpre as [Hpre _].
           apply lookup_take_Some in Hc as [Hc _].
           pose proof (chainFrom_deepens parentPathIdentity a _ _ _ _ Hpre Hc
                         ltac:(lia)). lia.
    + replace (Z.of_nat n <? 0)%Z with false by (symmetry; apply Z.ltb_ge; lia).
      rewrite Nat2Z.id, Hc. reflexivity.
Qed.

(** A plan created under [~>a[]] and first used at the fields [b] and [c] of
    the items is stored with the item node; its paths are
    [[aItemNode; bNode]] and [[aItemNode; cNode]]. *)
Lemma commonAncestorOf_deepest_common_node_witness :
  commonAncestorOf "~>a[]" [bNode; cNode] = Ok "~>a[]"
  ∧ ∃ n, deepestCommonNode [[aItemNode; bNode]; [aItemNode; cNode]] n
         ∧ pathIdentity n = "~>a[]".
Proof.
  split; [vm_compute; reflexivity|].
  destruct (commonAncestorOf_deepest_common_node "~>a[]" [bNode; cNode]
              [[aItemNode; bNode]; [aItemNode; cNode]])
    as [(n & Hdeepest & Hrun)|[_ Hrun]].
  - discriminate.
  - vm_compute. reflexivity.
  - exists n. split; [exact Hdeepest|].
    assert (Hvalue : commonAncestorOf "~>a[]" [bNode; cNode] = Ok "~>a[]")
      by (vm_compute; reflexivity).
    rewrite Hvalue in Hrun. by injection Hrun as <-.
  - exfalso. assert (Hvalue : commonAncestorOf "~>a[]" [bNode; cNode] = Ok "~>a[]")
      by (vm_compute; reflexivity).
    rewrite Hvalue in Hrun. discriminate Hrun.
Defined.

(** With the parent path identity [~>a[]>] the two chains start at [bNode]
    and at [cNode]: no node is common and the internal error is thrown. *)
Lemma commonAncestorOf_without_common_node :
  commonAncestorOf "~>a[]>" [bNode; cNode] = Throw noCommonRoot
  ∧ treeNodePaths [bNode; cNode] "~>a[]>" = Ok [[bNode]; [cNode]].
Proof. split; vm_compute; reflexivity. Qed.

(** A use below a list boundary is stored above it: a plan created at the
    root and first used at [b] belongs to [~>a], the last node before the
    items. *)
Lemma commonAncestorOf_stops_at_list_boundary :
  treeNodePath bNode "~" = Ok [rootNode; aNode]
  ∧ commonAncestorOf "~" [bNode] = Ok "~>a".
Proof. split; vm_compute; reflexivity. Qed.

(** ** Where a path is cut *)

Lemma findListChange_spec (rest : list TreeNode) :
  ∀ (previous : TreeNode) (i : Z),
    (0 ≤ i)%Z →
    (findListChange previous rest i = (-1)%Z
     ∧ ∀ k x y, (previous :: rest) !! k = Some x → (previous :: rest) !! S k = Some y →
         listBoundary x y = false)
    ∨ (∃ k x y,
         findListChange previous rest i = (i + Z.of_nat k)%Z
         ∧ (previous :: rest) !! k = Some x
         ∧ (previous :: rest) !! S k = Some y
         ∧ listBoundary x y = true
         ∧ ∀ k' x' y', k' < k → (previous :: rest) !! k' = Some x' →
             (previous :: rest) !! S k' = Some y' → listBoundary x' y' = false).
Proof.
  induction rest as [|v rest IH]; intros previous i Hi.
  - left. split; [done|]. intros [|k] x y Hx Hy; done.
  - cbn [findListChange]. fold (listBoundary previous v).
    destruct (listBoundary previous v) eqn:Hb.
    + right. exists 0, previous, v. split_and!; try done; [lia|].
      intros k' x' y' Hk'. lia.
    + destruct (IH v (i + 1)%Z) as [[Hnone Hall]|(k & x & y & Hfound & Hx & Hy & Hxy & Hbefore)];
        [lia| |].
      * left. split; [done|]. intros [|k] x y Hx Hy.
        -- simpl in Hx, Hy. by simplify_eq.
        -- by apply (Hall k x y).
      * right. exists (S k), x, y. split_and!; try done; [lia|].
        intros [|k'] x' y' Hk' Hx' Hy'.
        -- simpl in Hx', Hy'. by simplify_eq.
        -- apply (Hbefore k' x' y'); [lia|done..].
Qed.

(** The path [treeNodePath] returns for a node is the first part of the
    chain of its ancestors inside the start path identity; no node of the
    path is the list item of the node before it; and where the path stops
    short of the chain, the next node of the chain is the list item of the
    last node of the path. *)
Theorem treeNodePath_cut_at_list_boundary (treeNode : TreeNode) (start : string)
  (path : list TreeNode) :
  treeNodePath treeNode start = Ok path →
  ∃ rest,
    chainFrom start treeNode = path ++ rest
    ∧ (∀ k x y, path !! k = Some x → path !! S k = Some y → listBoundary x y = false)
    ∧ (∀ y, head rest = Some y → ∃ x, last path = Some x ∧ listBoundary x y = true).
Proof.
  unfold treeNodePath.
  destruct (startsWith (pathIdentity treeNode) start) eqn:Hsw; simpl; [|done].
  assert (Hclimb : climb (parent treeNode) start [treeNode] = chainFrom start treeNode).
  { rewrite (chainFrom_self start treeNode Hsw). unfold climb, chainWithin.
    destruct (parent treeNode); [apply climbFrom_chain|done]. }
  rewrite Hclimb. unfold listChangeIndex.
  destruct (chainFrom start treeNode) as [|first others] eqn:Hchain.
  - simpl. intros [= <-]. exists []. split_and!; done.
  - destruct (findListChange_spec others first 1)
      as [[Hnone Hall]|(k & x & y & Hfound & Hx & Hy & Hxy & Hbefore)]; [lia| |].
    + rewrite Hnone. simpl. intros [= <-]. exists [].
      rewrite app_nil_r. split_and!; done.
    + rewrite Hfound. rewrite (proj2 (Z.leb_le _ _)) by lia.
      replace (Z.to_nat (1 + Z.of_nat k)) with (S k) by lia.
      intros [= <-]. exists (drop (S k) (first :: others)).
      split_and!.
      * symmetry. apply (take_drop (S k) (first :: others)).
      * intros k' x' y' Hx' Hy'.
        change (first :: take k others) with (take (S k) (first :: others)) in Hx', Hy'.
        apply lookup_take_Some in Hx' as [Hx' Hk'].
        apply lookup_take_Some in Hy' as [Hy' Hk''].
        apply (Hbefore k' x' y'); [lia|done..].
      * intros y' Hy'. exists x.
        change (first :: take k others) with (take (S k) (first :: others)).
        split.
        -- rewrite last_lookup. rewrite length_take.
           pose proof (lookup_lt_Some _ _ _ Hx) as Hlt.
           replace (Init.Nat.pred (S k `min` length (first :: others))) with k by lia.
           rewrite lookup_take_lt by lia. done.
        -- rewrite head_lookup, lookup_drop, Nat.add_0_r in Hy'.
           rewrite Hy in Hy'. by simplify_eq.
Qed.

Lemma treeNodePath_cut_at_list_boundary_witness :
  ∃ rest,
    chainFrom "~" bNode = [rootNode; aNode] ++ rest
    ∧ (∀ k x y, [rootNode; aNode] !! k = Some x → [rootNode; aNode] !! S k = Some y →
         listBoundary x y = false)
    ∧ (∀ y, head rest = Some y →
         ∃ x, last [rootNode; aNode] = Some x ∧ listBoundary x y = true).
Proof.
  apply (treeNodePath_cut_at_list_boundary bNode "~" [rootNode; aNode]).
  reflexivity.
Defined.

(** ** Errors of a dependency and the rows beside them *)

(** C6.  One erroring dependency among three rows should give the error to
    its row and leave the other rows correctly computed.  In the diamond
    [_3 -> _1, _2 -> _1] it does not: when [_2] short-circuits the row whose
    [_1] failed, it splices the array that [executePlan] returned for [_1],
    which the plan cache holds and [_3] was handed as well.  [_3] then reads
    [_1] one row short: its [execute] is given [a] alone from [_1] beside
    [a] and [c] from [_2], and the third row, which computes to [c,c] when
    it is asked for by itself, is left [undefined].  In development the
    length check queued on the plan cache fails for that array. *)
Theorem executePlan_short_circuit_splices_cached_results :
  let batch := [rowAt 10; rowAt 11; rowAt 12] in
  let run dev :=
    @executePlan (joiningExecutor dev diamond) 10 "_3" batch [] 0 diamondRun in
  returned (run false)
  = Some [Data "a,a"; CrystalErrorValue (Error "boom"); Undefined]
  ∧ executeCalls (run false).2
    = [("_2", [[Data "a"; Data "c"]]); ("_3", [[Data "a"]; [Data "a"; Data "c"]])]
  ∧ returned (@executePlan (joiningExecutor false diamond) 10 "_3" [rowAt 12] [] 0
                diamondRun)
    = Some [Data "c,c"]
  ∧ unhandledRejections (run true).2 = [planCacheLengthMismatch].
Proof. repeat split; vm_compute; reflexivity. Qed.

(** ** One execution for a plan and a bucket *)

(** C1.  Two batches that ask for the same plan on a row of the same bucket
    should observe the same result, from one call of [execute].  When the
    promise of [executePlanPending] is rejected, [executePlanOld] puts the
    wrapped error in its result but not in the bucket, so the second batch
    finds nothing stored, calls [execute] again, and here observes a value
    where the first observed an error. *)
Theorem executePlanOld_rejection_is_not_stored :
  let x := @twoBatches flakyExecutor "_1" [rowAt 10] (newRun ["_1"] "_1" []) in
  observed x
  = (Some [CrystalErrorValue (Error "connection lost")],
     Some [Data "v"],
     [("_1", [[Undefined]]); ("_1", [[Undefined]])])
  ∧ bucketValue x.2 10 "_1" = Some (Data "v").
Proof. split; vm_compute; reflexivity. Qed.

(** ** Side effects run one after the other, before the field's plan *)

Lemma inTime_app (a b : nat) (ms1 ms2 : list (nat * Moment)) :
  inTime a ms1 → Forall (λ tm, tm.1 ≤ b) ms1 → a ≤ b → inTime b ms2 →
  inTime a (ms1 ++ ms2).
Proof.
  revert a. induction ms1 as [|[t m] ms1 IH]; intros a H1 Hall Hab H2; simpl.
  - destruct ms2 as [|[t m] ms2]; [done|]. simpl in *. split; [lia|tauto].
  - simpl in H1. destruct H1 as [Hat H1]. split; [done|].
    apply Forall_cons in Hall as [Ht Hall]. simpl in Ht.
    apply IH; done.
Qed.

Section SideEffectsRun.

Context `{Executor}.

Variable latency : string → nat → nat.

(** A chain that is not fulfilled runs no further callback. *)
Lemma chainSideEffects_stuck (sideEffectPlans : list string) (planResultses : list Row)
  (chain : Promise unit) (w : World) :
  (∀ u, chain ≠ Fulfilled u) →
  chainSideEffects latency sideEffectPlans planResultses (chain, w) = (chain, w).
Proof.
  intros Hno. induction sideEffectPlans as [|p ps IH]; simpl; [done|].
  destruct chain as [|u|e]; simpl; try exact IH. by destruct (Hno u).
Qed.

Lemma allFulfilled_cons (planResultses : list Row) (p : string) (ps : list string)
  (r : Run) :
  allFulfilled planResultses (p :: ps) r
  ↔ settlement (sideEffectCall planResultses p r).1 = IsFulfilled
    ∧ allFulfilled planResultses ps (sideEffectCall planResultses p r).2.
Proof.
  split.
  - intros Hall. split; [apply (Hall [] p ps eq_refl)|].
    intros before q after ->. apply (Hall (p :: before) q after eq_refl).
  - intros [Hp Hps] [|p' before] q after Heq; simpl in Heq.
    + by injection Heq as <- <-.
    + injection Heq as <- ->. by apply (Hps before q after).
Qed.

Lemma runAfter_app (planResultses : list Row) (ps qs : list string) (r : Run) :
  runAfter planResultses (ps ++ qs) r
  = runAfter planResultses qs (runAfter planResultses ps r).
Proof. revert r. induction ps as [|p ps IH]; intros r; simpl; [done|apply IH]. Qed.

(** What the whole chain does: either every call is fulfilled and every
    side effect begins and ends, or the chain stops at the first call that is
    not. *)
Lemma chainSideEffects_runs (sideEffectPlans : list string) (planResultses : list Row) :
  ∀ (u : unit) (w : World),
    let chained :=
      chainSideEffects latency sideEffectPlans planResultses (Fulfilled u, w) in
    ∃ ms, moments chained.2 = moments w ++ ms
          ∧ inTime (now w) ms
          ∧ Forall (λ tm, tm.1 ≤ now chained.2) ms
          ∧ now w ≤ now chained.2
          ∧ ((allFulfilled planResultses sideEffectPlans (run w)
              ∧ (∃ u', chained.1 = Fulfilled u')
              ∧ map snd ms = begunAndEnded sideEffectPlans
              ∧ run chained.2 = runAfter planResultses sideEffectPlans (run w))
             ∨ ∃ before p after,
                 sideEffectPlans = before ++ p :: after
                 ∧ allFulfilled planResultses before (run w)
                 ∧ run chained.2 = runAfter planResultses (before ++ [p]) (run w)
                 ∧ match settlement (sideEffectCall planResultses p
                                       (runAfter planResultses before (run w))).1 with
                   | IsFulfilled => False
                   | IsRejected e =>
                       chained.1 = Rejected e
                       ∧ map snd ms = begunAndEnded before ++ [Begins p; Ends p]
                   | NeverSettles =>
                       chained.1 = Unsettled
                       ∧ map snd ms = begunAndEnded before ++ [Begins p]
                   end).
Proof.
  induction sideEffectPlans as [|p ps IH]; intros u w chained; subst chained.
  - simpl. exists []. rewrite app_nil_r. split_and!; try done. left.
    split_and!; try done; [|by exists u]. intros [|??] ?? Heq; discriminate Heq.
  - change (chainSideEffects latency (p :: ps) planResultses (Fulfilled u, w))
      with (chainSideEffects latency ps planResultses
              (thenExecutePlan latency p planResultses (Fulfilled u, w))).
    assert (Hstop : ∀ chain w1 ms1,
      (∀ u', chain ≠ Fulfilled u') →
      moments w1 = moments w ++ ms1 → inTime (now w) ms1 →
      Forall (λ tm, tm.1 ≤ now w1) ms1 → now w ≤ now w1 →
      run w1 = (sideEffectCall planResultses p (run w)).2 →
      match settlement (sideEffectCall planResultses p (run w)).1 with
      | IsFulfilled => False
      | IsRejected e => chain = Rejected e ∧ map snd ms1 = [Begins p; Ends p]
      | NeverSettles => chain = Unsettled ∧ map snd ms1 = [Begins p]
      end →
      let chained := chainSideEffects latency ps planResultses (chain, w1) in
      ∃ ms, moments chained.2 = moments w ++ ms
          ∧ inTime (now w) ms
          ∧ Forall (λ tm, tm.1 ≤ now chained.2) ms
          ∧ now w ≤ now chained.2
          ∧ ((allFulfilled planResultses (p :: ps) (run w)
              ∧ (∃ u', chained.1 = Fulfilled u')
              ∧ map snd ms = begunAndEnded (p :: ps)
              ∧ run chained.2 = runAfter planResultses (p :: ps) (run w))
             ∨ ∃ before q after,
                 p :: ps = before ++ q :: after
                 ∧ allFulfilled planResultses before (run w)
                 ∧ run chained.2 = runAfter planResultses (before ++ [q]) (run w)
                 ∧ match settlement (sideEffectCall planResultses q
                                       (runAfter planResultses before (run w))).1 with
                   | IsFulfilled => False
                   | IsRejected e =>
                       chained.1 = Rejected e
                       ∧ map snd ms = begunAndEnded before ++ [Begins q; Ends q]
                   | NeverSettles =>
                       chained.1 = Unsettled
                       ∧ map snd ms = begunAndEnded before ++ [Begins q]
                   end)).
    { intros chain w1 ms1 Hno Hms Ht Hle Hnow Hrun Hshape chained. subst chained.
      rewrite (chainSideEffects_stuck ps planResultses chain w1 Hno).
      exists ms1. split_and!; try done. right. exists [], p, ps.
      split_and!; try done.
      intros [|??] ?? Heq; discriminate Heq. }
    unfold thenExecutePlan. fold (sideEffectCall planResultses p).
    change (run (record (Begins p) w)) with (run w).
    destruct (sideEffectCall planResultses p (run w)) as [x r] eqn:Hcall.
    assert (Hgo : ∀ w1 ms1,
      settlement x = IsFulfilled →
      moments w1 = moments w ++ ms1 → inTime (now w) ms1 →
      Forall (λ tm, tm.1 ≤ now w1) ms1 → now w ≤ now w1 → run w1 = r →
      map snd ms1 = [Begins p; Ends p] →
      let chained := chainSideEffects latency ps planResultses (Fulfilled tt, w1) in
      ∃ ms, moments chained.2 = moments w ++ ms
          ∧ inTime (now w) ms
          ∧ Forall (λ tm, tm.1 ≤ now chained.2) ms
          ∧ now w ≤ now chained.2
          ∧ ((allFulfilled planResultses (p :: ps) (run w)
              ∧ (∃ u', chained.1 = Fulfilled u')
              ∧ map snd ms = begunAndEnded (p :: ps)
              ∧ run chained.2 = runAfter planResultses (p :: ps) (run w))
             ∨ ∃ before q after,
                 p :: ps = before ++ q :: after
                 ∧ allFulfilled planResultses before (run w)
                 ∧ run chained.2 = runAfter planResultses (before ++ [q]) (run w)
                 ∧ match settlement (sideEffectCall planResultses q
                                       (runAfter planResultses before (run w))).1 with
                   | IsFulfilled => False
                   | IsRejected e =>
                       chained.1 = Rejected e
                       ∧ map snd ms = begunAndEnded before ++ [Begins q; Ends q]
                   | NeverSettles =>
                       chained.1 = Unsettled
                       ∧ map snd ms = begunAndEnded before ++ [Begins q]
                   end)).
    { intros w1 ms1 Hx Hms1 Ht1 Hle1 Hnow1 Hrun1 Hshape1 chained. subst chained.
      destruct (IH tt w1) as (ms2 & Hms2 & Ht2 & Hle2 & Hnow2 & Hcases).
      exists (ms1 ++ ms2). split_and!.
      - rewrite Hms2, Hms1, app_assoc. done.
      - by apply (inTime_app _ (now w1)).
      - apply Forall_app. split; [|done].
        eapply Forall_impl; [exact Hle1|]. simpl. intros. lia.
      - lia.
      - rewrite Hrun1 in Hcases.
        destruct Hcases as [(Hall & Hful & Hshape2 & Hrun2)|
                            (before & q & after & Hsplit & Hall & Hrun2 & Hq)].
        + left. split_and!.
          * apply allFulfilled_cons. rewrite Hcall. done.
          * done.
          * rewrite map_app, Hshape1, Hshape2. done.
          * simpl. rewrite Hcall. done.
        + right. exists (p :: before), q, after. split_and!.
          * by rewrite Hsplit.
          * apply allFulfilled_cons. rewrite Hcall. done.
          * simpl. rewrite Hcall. done.
          * simpl. rewrite Hcall. simpl.
            destruct (settlement (sideEffectCall planResultses q
                                    (runAfter planResultses before r)).1) as [|e|];
              [destruct Hq|..]; destruct Hq as [Hchain Hshape2];
              (split; [exact Hchain|]); rewrite map_app, Hshape1, Hshape2; done. }
    destruct x as [[a|[|a|e]]|e|]; cbn [fst snd];
      [apply (Hgo _ [(now w, Begins p); (now w, Ends p)])
      |apply (Hstop Unsettled _ [(now w, Begins p)])
      |apply (Hgo _ [(now w, Begins p); (now w + latency p (now w), Ends p)])
      |apply (Hstop (Rejected e) _
                [(now w, Begins p); (now w + latency p (now w), Ends p)])
      |apply (Hstop (Rejected e) _ [(now w, Begins p); (now w, Ends p)])
      |apply (Hstop Unsettled _ [(now w, Begins p)])];
      try done; simpl; try lia; try (by rewrite <- app_assoc);
      try (by rewrite Hcall); try (repeat constructor; simpl; lia).
Qed.

End SideEffectsRun.

(** C4.  Whatever the latencies: the side effects of a field begin and end
    one after the other in the order they were declared, each call of
    [executePlan] made in the run the one before left, and the times
    recorded never go back.  When every one of these calls is fulfilled, all
    side effects have begun and ended before [executeBatchInner] begins, it
    begins in the run they left, and the method settles as it does.  The
    chain stops only at the first call that throws, is rejected or never
    settles: the side effects before it have begun and ended, it has begun,
    no later one begins and neither does [executeBatchInner], and the method
    is rejected with the same error, respectively never settles. *)
Theorem executeBatchForPlanResultses_side_effects_in_order `{Executor}
  (latency : string → nat → nat) (executeBatchInner : X Completion)
  (sideEffectPlans : list string) (planResultses : list Row) (w : World) :
  let result := executeBatchForPlanResultses latency executeBatchInner
                  sideEffectPlans planResultses w in
  ∃ ms,
    moments result.2 = moments w ++ ms
    ∧ inTime (now w) ms
    ∧ ((allFulfilled planResultses sideEffectPlans (run w)
        ∧ map snd ms = oneAfterTheOther sideEffectPlans
        ∧ settlement result.1
          = settlement (executeBatchInner
                          (runAfter planResultses sideEffectPlans (run w))).1
        ∧ run result.2
          = (executeBatchInner (runAfter planResultses sideEffectPlans (run w))).2)
       ∨ ∃ before p after,
           sideEffectPlans = before ++ p :: after
           ∧ allFulfilled planResultses before (run w)
           ∧ run result.2 = runAfter planResultses (before ++ [p]) (run w)
           ∧ match settlement (sideEffectCall planResultses p
                                 (runAfter planResultses before (run w))).1 with
             | IsFulfilled => False
             | IsRejected e =>
                 result.1 = Returns (Later (Rejected e))
                 ∧ map snd ms = begunAndEnded before ++ [Begins p; Ends p]
             | NeverSettles =>
                 result.1 = Returns (Later Unsettled)
                 ∧ map snd ms = begunAndEnded before ++ [Begins p]
             end).
Proof.
  intros result. subst result. unfold executeBatchForPlanResultses, oneAfterTheOther.
  destruct (Nat.ltb 0 (length sideEffectPlans)) eqn:Hcount.
  - destruct (chainSideEffects_runs latency sideEffectPlans planResultses tt w)
      as (ms1 & Hms1 & Ht1 & Hle1 & Hnow1 & Hcases).
    destruct (chainSideEffects latency sideEffectPlans planResultses (Fulfilled tt, w))
      as [chain w1]. cbn [fst snd] in *.
    destruct Hcases as [(Hall & [u' ->] & Hshape & Hrun)|
                        (before & p & after & Hsplit & Hall & Hrun & Hp)].
    + exists (ms1 ++ [(now w1, BeginsInner)]). unfold beginInner.
      change (run (record BeginsInner w1)) with (run w1). rewrite Hrun.
      destruct (executeBatchInner (runAfter planResultses sideEffectPlans (run w)))
        as [outcome r] eqn:Hinner.
      split_and!.
      * destruct outcome as [[a|q]|e|]; simpl; rewrite Hms1, <- app_assoc; done.
      * by apply (inTime_app _ (now w1)).
      * left. split_and!; [done| | |].
        -- rewrite map_app, Hshape. done.
        -- by destruct outcome as [[a|[|a|e]]|e|].
        -- by destruct outcome as [[a|q]|e|].
    + exists ms1. revert Hp.
      destruct (settlement (sideEffectCall planResultses p
                              (runAfter planResultses before (run w))).1)
        as [|e|] eqn:Hsettles; [done|..]; intros [-> Hshape]; cbn [fst snd];
        (split_and!; [done|done|]); right; exists before, p, after;
        rewrite Hsettles; split_and!; done.
  - destruct sideEffectPlans as [|p ps]; [|discriminate Hcount].
    exists [(now w, BeginsInner)]. unfold beginInner.
    change (run (record BeginsInner w)) with (run w). simpl.
    destruct (executeBatchInner (run w)) as [outcome r] eqn:Hinner. simpl.
    split; [done|]. split; [done|]. left. split_and!; try done.
    intros [|??] ?? Heq; discriminate Heq.
Qed.

(** Three mutations whose promises take 5, 1 and 3 ticks. *)
Lemma side_effects_end_in_declaration_order :
  moments (@executeBatchForPlanResultses (joiningExecutor false mutations) slowFirst
             (xret (Direct 0)) ["_1"; "_2"; "_3"] [rowAt 10]
             (newWorld (newRun ["_1"; "_2"; "_3"] "_1" []))).2
  = [(0, Begins "_1"); (5, Ends "_1"); (5, Begins "_2"); (6, Ends "_2");
     (6, Begins "_3"); (9, Ends "_3"); (9, BeginsInner)].
Proof. vm_compute. reflexivity. Qed.

(** A side effect whose [execute] throws does not stop the chain: the error
    becomes the value of the plan, the call of [executePlan] is fulfilled,
    and the next side effect begins. *)
Lemma side_effects_go_on_after_execute_throws :
  map snd (moments (@executeBatchForPlanResultses firstThrows slowFirst
                      (xret (Direct 0)) ["_1"; "_2"; "_3"] [rowAt 10]
                      (newWorld (newRun ["_1"; "_2"; "_3"] "_1" []))).2)
  = oneAfterTheOther ["_1"; "_2"; "_3"].
Proof. vm_compute. reflexivity. Qed.

(** ** Rows are joined onto what is in flight *)

Lemma pendingUnder_push (c : Classification) (pr pr' : PlanResults) (d i j d' : nat) :
  length (pendingRows c) = length (pendingDeferreds c) →
  length (pendingPlanResultsesIndexes c) = length (pendingDeferreds c) →
  pendingUnder (pushPending pr d i c) j pr' d'
  ↔ pendingUnder c j pr' d' ∨ (j = i ∧ pr' = pr ∧ d' = d).
Proof.
  intros Hrows Hlen. unfold pendingUnder. simpl. split.
  - intros (k & Hr & Hj & Hd).
    destruct (decide (k < length (pendingDeferreds c))) as [Hk|Hk].
    + left. exists k. rewrite lookup_app_l in Hr by lia.
      rewrite lookup_app_l in Hj by lia.
      rewrite lookup_app_l in Hd by lia. done.
    + right. rewrite lookup_app_r in Hr by lia.
      rewrite lookup_app_r in Hj by lia. rewrite lookup_app_r in Hd by lia.
      rewrite Hlen in Hj. rewrite Hrows in Hr.
      destruct (k - length (pendingDeferreds c)) as [|n]; simpl in *; [|done].
      by simplify_eq.
  - intros [(k & Hr & Hj & Hd)|(-> & -> & ->)].
    + exists k. rewrite !lookup_app_l; eauto using lookup_lt_Some.
    + exists (length (pendingDeferreds c)).
      rewrite lookup_app_r by lia. rewrite lookup_app_r by lia.
      rewrite lookup_app_r by lia.
      rewrite Hlen, Hrows, Nat.sub_diag. done.
Qed.

Lemma joinedTo_push (c : Classification) (d i j d' : nat) :
  length (inProgressPlanResultsesIndexes c) = length (inProgressDeferreds c) →
  joinedTo (pushInProgress d i c) j d' ↔ joinedTo c j d' ∨ (j = i ∧ d' = d).
Proof.
  intros Hlen. unfold joinedTo. simpl. split.
  - intros (k & Hj & Hd).
    destruct (decide (k < length (inProgressDeferreds c))) as [Hk|Hk].
    + left. exists k. rewrite lookup_app_l in Hj by lia.
      rewrite lookup_app_l in Hd by lia. done.
    + right. rewrite lookup_app_r in Hj by lia. rewrite lookup_app_r in Hd by lia.
      rewrite Hlen in Hj.
      destruct (k - length (inProgressDeferreds c)) as [|n]; simpl in *; [|done].
      by simplify_eq.
  - intros [(k & Hj & Hd)|[-> ->]].
    + exists k. rewrite !lookup_app_l; eauto using lookup_lt_Some.
    + exists (length (inProgressDeferreds c)).
      rewrite lookup_app_r by lia. rewrite lookup_app_r by lia.
      rewrite Hlen, Nat.sub_diag. done.
Qed.

Lemma xbind_returns {A B} (m : X A) (k : A → X B) (r r1 : Run) (a : A) :
  m r = (Returns a, r1) → xbind m k r = k a r1.
Proof. intros Hm. unfold xbind. by rewrite Hm. Qed.

Section Classify.

Context (o : ExecutablePlan) (plan : string) (result : nat) (r0 : Run)
  (m0 : gmap nat nat).

Hypothesis executable : constructor_ o ≠ __ValuePlan.

Lemma classify_spec (planResultses : list Row) :
  ∀ (i : nat) (c : Classification) (r : Run) (m : gmap nat nat),
    inProgressPlanResolutions r !! plan = Some m →
    buckets r = buckets r0 →
    classifying o plan r0 m0 m c →
    ∃ c' r' m',
      classify o plan result planResultses i c r = (Returns c', r')
      ∧ inProgressPlanResolutions r' !! plan = Some m'
      ∧ buckets r' = buckets r0
      ∧ classifying o plan r0 m0 m' c'
      ∧ m ⊆ m'
      ∧ (∀ j pr d, pendingUnder c j pr d → pendingUnder c' j pr d)
      ∧ (∀ j d, joinedTo c j d → joinedTo c' j d)
      ∧ (∀ k pr, planResultses !! k = Some (RowResults pr) →
           bucketValue r0 (bucketOf o pr) plan = None →
           ∃ d, m' !! bucketOf o pr = Some d
                ∧ (pendingUnder c' (i + k) pr d ∨ joinedTo c' (i + k) d)).
Proof.
  induction planResultses as [|row rest IH]; intros i c r m Hm Hb Hc.
  - exists c, r, m. simpl. split_and!; done.
  - destruct row as [|e|pr].
    + destruct (IH (S i) c (withArrays (alter (assign i Null) result) r) m)
        as (c' & r' & m' & Hrun & Hm' & Hb' & Hc' & Hsub & Hp & Hj & Hcov);
        try done.
      exists c', r', m'. split_and!; try done.
      intros [|k] pr' Hk Hv; [done|].
      replace (i + S k) with (S i + k) by lia. by apply Hcov.
    + destruct (IH (S i) c
                  (withArrays (alter (assign i (CrystalErrorValue e)) result) r) m)
        as (c' & r' & m' & Hrun & Hm' & Hb' & Hc' & Hsub & Hp & Hj & Hcov);
        try done.
      exists c', r', m'. split_and!; try done.
      intros [|k] pr' Hk Hv; [done|].
      replace (i + S k) with (S i + k) by lia. by apply Hcov.
    + cbn [classify]. unfold xbind at 1. cbn [xgets]. unfold id.
      assert (Hvalue : bucketValue r (bucketOf o pr) plan
                       = bucketValue r0 (bucketOf o pr) plan).
      { unfold bucketValue. by rewrite Hb. }
      destruct (planResultsHas r pr (commonAncestorPathIdentity o) plan) eqn:Hhas.
      * destruct (IH (S i) c
                    (withArrays
                       (alter (assign i (planResultsGet r pr
                                           (commonAncestorPathIdentity o) plan))
                              result) r) m)
          as (c' & r' & m' & Hrun & Hm' & Hb' & Hc' & Hsub & Hp & Hj & Hcov);
          try done.
        exists c', r', m'. split_and!; try done.
        intros [|k] pr' Hk Hv.
        -- simpl in Hk. injection Hk as <-.
           unfold planResultsHas in Hhas. apply bool_decide_eq_true in Hhas.
           fold (bucketOf o pr) in Hhas. rewrite Hvalue, Hv in Hhas.
           by destruct Hhas.
        -- replace (i + S k) with (S i + k) by lia. by apply Hcov.
      * rewrite bool_decide_eq_false_2 by done.
        rewrite Hm. fold (bucketOf o pr).
        assert (Hnone : bucketValue r0 (bucketOf o pr) plan = None).
        { unfold planResultsHas in Hhas. apply bool_decide_eq_false in Hhas.
          fold (bucketOf o pr) in Hhas. rewrite Hvalue in Hhas.
          by apply eq_None_not_Some. }
        destruct Hc as (Hl0 & Hl1 & Hl2 & Hnodup & Hfresh & Hsub0).
        destruct (m !! bucketOf o pr) as [d|] eqn:Hin.
        -- destruct (IH (S i) (pushInProgress d i c) r m)
             as (c' & r' & m' & Hrun & Hm' & Hb' & Hc' & Hsub & Hp & Hj & Hcov);
             try done.
           { split_and!; try done. simpl. rewrite !length_app. simpl. lia. }
           exists c', r', m'. split_and!; try done.
           ++ intros j d' Hjd. apply Hj. apply joinedTo_push; auto.
           ++ intros [|k] pr' Hk Hv.
              ** simpl in Hk. injection Hk as <-.
                 exists d. split.
                 { by apply (lookup_weaken m). }
                 right. apply Hj. apply joinedTo_push; [done|].
                 right. split; [lia|done].
              ** replace (i + S k) with (S i + k) by lia. by apply Hcov.
        -- set (d := allocated r).
           set (r1 := withInProgress
                        <[plan := <[bucketOf o pr := d]> m]>
                        (withDeferreds <[d := Unsettled]>
                           {| buckets := buckets r; arrays := arrays r;
                              planCaches := planCaches r;
                              inProgressPlanResolutions := inProgressPlanResolutions r;
                              deferreds := deferreds r; executeCalls := executeCalls r;
                              planCacheChecks := planCacheChecks r;
                              allocated := S (allocated r) |})).
           destruct (IH (S i) (pushPending pr d i c) r1 (<[bucketOf o pr := d]> m))
             as (c' & r' & m' & Hrun & Hm' & Hb' & Hc' & Hsub & Hp & Hj & Hcov).
           { subst r1. simpl. apply lookup_insert_eq. }
           { done. }
           { split_and!; try done.
             - simpl. rewrite !length_app. simpl. lia.
             - simpl. rewrite !length_app. simpl. lia.
             - simpl. rewrite fmap_app. apply NoDup_app. split_and!; [done| |].
               + intros b Hb1 Hb2. apply list_elem_of_singleton in Hb2 as ->.
                 apply list_elem_of_fmap in Hb1 as (pr' & Heq & Hpr').
                 destruct (Hfresh pr' Hpr') as (_ & _ & [d' Hsome]).
                 rewrite <- Heq, Hin in Hsome. done.
               + simpl. apply NoDup_singleton.
             - simpl. intros pr' Hpr'. apply elem_of_app in Hpr' as [Hpr'|Hpr'].
               + destruct (Hfresh pr' Hpr') as (? & ? & [d' Hsome]).
                 split_and!; try done.
                 destruct (decide (bucketOf o pr' = bucketOf o pr)) as [Heq|Hne].
                 * rewrite Heq, lookup_insert_eq. eauto.
                 * rewrite lookup_insert_ne by done. eauto.
               + apply list_elem_of_singleton in Hpr' as ->.
                 split_and!; try done.
                 * destruct (m0 !! bucketOf o pr) as [d'|] eqn:H0; [|done].
                   by rewrite (lookup_weaken _ _ _ _ H0 Hsub0) in Hin.
                 * rewrite lookup_insert_eq. eauto.
             - etrans; [exact Hsub0|]. by apply insert_subseteq. }
           exists c', r', m'. split_and!; try done.
           ++ etrans; [|exact Hsub]. by apply insert_subseteq.
           ++ intros j pr' d' Hjd. apply Hp. apply pendingUnder_push; auto.
           ++ intros [|k] pr' Hk Hv.
              ** simpl in Hk. injection Hk as <-.
                 exists d. split.
                 { apply (lookup_weaken (<[bucketOf o pr := d]> m)); [|done].
                   apply lookup_insert_eq. }
                 left. apply Hp. apply pendingUnder_push; [done..|].
                 right. split_and!; [lia|done..].
              ** replace (i + S k) with (S i + k) by lia. by apply Hcov.
Qed.

End Classify.

(** The first loop of [executePlanOld], run for a plan that can be queued
    in a context that holds an in-flight map [m] for it, comes to an end,
    and: the rows it makes pending resolve to pairwise distinct buckets,
    none of which was in flight or holds a value for the plan; what was in
    flight stays in flight; and every row whose bucket holds no value for
    the plan ends up under the deferred that the in-flight map then has for
    its bucket, either as the row made pending under it or by joining it.
    Rows of one bucket therefore share one deferred, and only one of them
    is handed to [executePlanPending]. *)
Theorem classify_joins_in_flight (o : ExecutablePlan) (plan : string) (result : nat)
  (planResultses : list Row) (r : Run) (m : gmap nat nat) :
  constructor_ o ≠ __ValuePlan →
  inProgressPlanResolutions r !! plan = Some m →
  ∃ c r',
    classify o plan result planResultses 0 emptyClassification r = (Returns c, r')
    ∧ NoDup (bucketOf o <$> pendingRows c)
    ∧ (∀ pr, pr ∈ pendingRows c →
         m !! bucketOf o pr = None ∧ bucketValue r (bucketOf o pr) plan = None)
    ∧ (∀ b d, m !! b = Some d → inFlight r' plan !! b = Some d)
    ∧ (∀ j pr, planResultses !! j = Some (RowResults pr) →
         bucketValue r (bucketOf o pr) plan = None →
         ∃ d, inFlight r' plan !! bucketOf o pr = Some d
              ∧ (pendingUnder c j pr d ∨ joinedTo c j d)).
Proof.
  intros Hexecutable Hm.
  destruct (classify_spec o plan result r m Hexecutable planResultses 0
              emptyClassification r m Hm eq_refl)
    as (c & r' & m' & Hrun & Hm' & Hb' & Hc' & Hsub & _ & _ & Hcov).
  { split_and!; try done; simpl.
    - constructor.
    - intros pr Hpr. by apply elem_of_nil in Hpr. }
  exists c, r'. unfold inFlight. rewrite Hm'. simpl.
  destruct Hc' as (_ & _ & _ & Hnodup & Hfresh & _).
  split_and!; try done.
  - intros pr Hpr. destruct (Hfresh pr Hpr) as (? & ? & _). done.
  - intros b d Hbd. by apply (lookup_weaken m).
Qed.

Lemma classify_joins_in_flight_witness :
  ∃ c r',
    classify mutation "_1" 0 [rowAt 10; rowAt 11; rowAt 10] 0 emptyClassification
      (newRun ["_1"] "_2" [(10, Data "a")]) = (Returns c, r')
    ∧ NoDup (bucketOf mutation <$> pendingRows c)
    ∧ (∀ pr, pr ∈ pendingRows c →
         (∅ : gmap nat nat) !! bucketOf mutation pr = None
         ∧ bucketValue (newRun ["_1"] "_2" [(10, Data "a")]) (bucketOf mutation pr) "_1"
           = None)
    ∧ (∀ b d, (∅ : gmap nat nat) !! b = Some d → inFlight r' "_1" !! b = Some d)
    ∧ (∀ j pr, [rowAt 10; rowAt 11; rowAt 10] !! j = Some (RowResults pr) →
         bucketValue (newRun ["_1"] "_2" [(10, Data "a")]) (bucketOf mutation pr) "_1"
         = None →
         ∃ d, inFlight r' "_1" !! bucketOf mutation pr = Some d
              ∧ (pendingUnder c j pr d ∨ joinedTo c j d)).
Proof.
  apply (classify_joins_in_flight mutation "_1" 0 [rowAt 10; rowAt 11; rowAt 10]
           (newRun ["_1"] "_2" [(10, Data "a")]) ∅).
  - discriminate.
  - reflexivity.
Defined.

(** ** One group for each bucket *)

Lemma insertItem_keys (bucket : nat) (item : Item) (byBucket : list (nat * list Item)) :
  (insertItem bucket item byBucket).*1
  = if bool_decide (bucket ∈ byBucket.*1) then byBucket.*1 else byBucket.*1 ++ [bucket].
Proof.
  induction byBucket as [|[b items] rest IH]; [done|].
  cbn [insertItem]. destruct (Nat.eqb_spec b bucket) as [->|Hne];
    rewrite !fmap_cons; cbn [fst].
  - rewrite bool_decide_eq_true_2; [done|]. apply elem_of_cons. by left.
  - rewrite IH. destruct (decide (bucket ∈ rest.*1)) as [Hin|Hout].
    + rewrite !bool_decide_eq_true_2; try done. apply elem_of_cons. by right.
    + rewrite !bool_decide_eq_false_2; try done.
      rewrite elem_of_cons. intros [?|?]; [by subst|done].
Qed.

Lemma insertItem_elem (bucket : nat) (item : Item) (byBucket : list (nat * list Item))
  (b : nat) (items : list Item) :
  (b, items) ∈ insertItem bucket item byBucket →
  (b, items) ∈ byBucket
  ∨ (b = bucket
     ∧ ((∃ old, (bucket, old) ∈ byBucket ∧ items = old ++ [item]) ∨ items = [item])).
Proof.
  induction byBucket as [|[b' items'] rest IH]; simpl.
  - intros Hin. apply list_elem_of_singleton in Hin. simplify_eq.
    right. split; [done|]. by right.
  - destruct (Nat.eqb_spec b' bucket) as [->|Hne]; rewrite !elem_of_cons.
    + intros [Hin|Hin]; [|by left; right].
      simplify_eq. right. split; [done|]. left. exists items'.
      split; [|done]. apply elem_of_cons. by left.
    + intros [Hin|Hin]; [by left; left|].
      destruct (IH Hin) as [?|[-> [(old & Hold & ->)| ->]]].
      * left. by right.
      * right. split; [done|]. left. exists old. split; [|done].
        apply elem_of_cons. by right.
      * right. split; [done|]. by right.
Qed.

Lemma insertItem_grows (bucket : nat) (item : Item) (byBucket : list (nat * list Item))
  (b : nat) (items : list Item) :
  (b, items) ∈ byBucket →
  ∃ items', (b, items') ∈ insertItem bucket item byBucket ∧ items ⊆ items'.
Proof.
  induction byBucket as [|[b' old] rest IH]; simpl; [by intros ?%elem_of_nil|].
  rewrite elem_of_cons. intros [Hin|Hin].
  - simplify_eq. destruct (Nat.eqb_spec b' bucket) as [->|Hne].
    + exists (old ++ [item]). split; [apply elem_of_cons; by left|].
      intros x Hx. apply elem_of_app. by left.
    + exists old. split; [apply elem_of_cons; by left|done].
  - destruct (Nat.eqb_spec b' bucket) as [->|Hne].
    + exists items. split; [apply elem_of_cons; by right|done].
    + destruct (IH Hin) as (items' & Hin' & Hsub). exists items'.
      split; [apply elem_of_cons; by right|done].
Qed.

Lemma insertItem_files (bucket : nat) (item : Item) (byBucket : list (nat * list Item)) :
  ∃ items, (bucket, items) ∈ insertItem bucket item byBucket ∧ item ∈ items.
Proof.
  induction byBucket as [|[b' old] rest IH]; simpl.
  - exists [item]. split; apply elem_of_cons; by left.
  - destruct (Nat.eqb_spec b' bucket) as [->|Hne].
    + exists (old ++ [item]). split; [apply elem_of_cons; by left|].
      apply elem_of_app. right. apply elem_of_cons. by left.
    + destruct IH as (items & Hin & Hitem). exists items.
      split; [apply elem_of_cons; by right|done].
Qed.

Lemma fill_buckets (result : nat) (items : list Item) (v : Value) (r : Run) :
  ∃ r', fill result items v r = (Returns tt, r') ∧ buckets r' = buckets r.
Proof.
  revert r. induction items as [|[pr j] rest IH]; intros r; simpl.
  - by exists r.
  - destruct (IH (withArrays (alter (assign j v) result) r)) as (r' & Hrun & Hb).
    exists r'. split; [exact Hrun|exact Hb].
Qed.

Section Partition.

Context (o : ExecutablePlan) (plan : string) (result : nat) (planResultses : list Row).

Lemma grouped_insert (pr : PlanResults) (i : nat) (byBucket : list (nat * list Item)) :
  planResultses !! i = Some (RowResults pr) →
  grouped o planResultses byBucket →
  grouped o planResultses (insertItem (bucketOf o pr) (pr, i) byBucket).
Proof.
  intros Hrow [Hkeys Hitems]. split.
  - rewrite insertItem_keys. case_bool_decide as Hin; [done|].
    apply NoDup_app. split_and!; [done| |apply NoDup_singleton].
    intros b Hb ->%list_elem_of_singleton. done.
  - intros b items Hin.
    assert (Hitem : ∀ pr' j, (pr', j) ∈ [(pr, i)] →
              bucketOf o pr' = bucketOf o pr
              ∧ planResultses !! j = Some (RowResults pr')).
    { intros pr' j Hin'. apply list_elem_of_singleton in Hin'. by simplify_eq. }
    destruct (insertItem_elem _ _ _ _ _ Hin) as [Hold|[-> [(old & Hold & ->)| ->]]].
    + by apply Hitems.
    + destruct (Hitems _ _ Hold) as [Hne Hall]. split.
      * by destruct old.
      * intros pr' j [Hin'|Hin']%elem_of_app; [by apply Hall|by apply Hitem].
    + split; [done|exact Hitem].
Qed.

Lemma groupRows_spec (rows : list Row) :
  ∀ (i : nat) (byBucket : list (nat * list Item)) (r : Run),
    (∀ k, rows !! k = planResultses !! (i + k)) →
    grouped o planResultses byBucket →
    ∃ byBucket' r',
      groupRows (commonAncestorPathIdentity o) result rows i byBucket r
      = (Returns byBucket', r')
      ∧ buckets r' = buckets r
      ∧ grouped o planResultses byBucket'
      ∧ (∀ j pr, filed o byBucket j pr → filed o byBucket' j pr)
      ∧ (∀ k pr, rows !! k = Some (RowResults pr) → filed o byBucket' (i + k) pr).
Proof.
  induction rows as [|row rest IH]; intros i byBucket r Hrows Hg.
  - exists byBucket, r. simpl. split_and!; done.
  - assert (Hrest : ∀ k, rest !! k = planResultses !! (S i + k)).
    { intros k. replace (S i + k) with (i + S k) by lia.
      by rewrite <- (Hrows (S k)). }
    destruct row as [|e|pr].
    + destruct (IH (S i) byBucket (withArrays (alter (assign i Null) result) r)
                  Hrest Hg) as (b' & r' & Hrun & Hb & Hg' & Hmono & Hcov).
      exists b', r'. split_and!; try done.
      intros [|k] pr Hk; [done|].
      replace (i + S k) with (S i + k) by lia. by apply Hcov.
    + destruct (IH (S i) byBucket
                  (withArrays (alter (assign i (CrystalErrorValue e)) result) r)
                  Hrest Hg) as (b' & r' & Hrun & Hb & Hg' & Hmono & Hcov).
      exists b', r'. split_and!; try done.
      intros [|k] pr Hk; [done|].
      replace (i + S k) with (S i + k) by lia. by apply Hcov.
    + assert (Hrow : planResultses !! i = Some (RowResults pr)).
      { specialize (Hrows 0). rewrite Nat.add_0_r in Hrows. by rewrite <- Hrows. }
      destruct (IH (S i) (insertItem (bucketOf o pr) (pr, i) byBucket) r Hrest
                  (grouped_insert _ _ _ Hrow Hg))
        as (b' & r' & Hrun & Hb & Hg' & Hmono & Hcov).
      exists b', r'. split_and!; try done.
      * intros j pr' (items & Hin & Hitem). apply Hmono.
        destruct (insertItem_grows (bucketOf o pr) (pr, i) _ _ _ Hin)
          as (items' & Hin' & Hsub).
        exists items'. split; [done|]. by apply Hsub.
      * intros [|k] pr' Hk.
        -- simpl in Hk. injection Hk as <-. rewrite Nat.add_0_r. apply Hmono.
           apply insertItem_files.
        -- replace (i + S k) with (S i + k) by lia. by apply Hcov.
Qed.

Lemma collectPending_spec (executable : constructor_ o ≠ __ValuePlan)
  (byBucket : list (nat * list Item)) :
  ∀ (pending : list (list Item)) (r : Run),
    ∃ r',
      collectPending o plan result byBucket pending r
      = (Returns
           (pending
            ++ (filter (λ g, bucketValue r g.1 plan = None) byBucket).*2), r')
      ∧ buckets r' = buckets r.
Proof.
  induction byBucket as [|[b items] rest IH]; intros pending r.
  - exists r. simpl. by rewrite app_nil_r.
  - cbn [collectPending]. unfold xbind at 1. cbn [xgets]. unfold id.
    destruct (bucketValue r b plan) as [previous|] eqn:Hvalue.
    + destruct (fill_buckets result items previous r) as (r1 & Hfill & Hb1).
      rewrite (xbind_returns _ _ _ _ _ Hfill).
      destruct (IH pending r1) as (r' & Hrun & Hb').
      exists r'. rewrite Hrun. split; [|congruence].
      rewrite filter_cons_False by (simpl; congruence).
      assert (Hsame :
        filter (λ g : nat * list Item, bucketValue r1 g.1 plan = None) rest
        = filter (λ g : nat * list Item, bucketValue r g.1 plan = None) rest).
      { apply list_filter_iff. intros [b' items'].
        unfold bucketValue. by rewrite Hb1. }
      by rewrite Hsame.
    + rewrite bool_decide_eq_false_2 by done.
      destruct (IH (pending ++ [items]) r) as (r' & Hrun & Hb').
      exists r'. rewrite Hrun. split; [|done].
      rewrite filter_cons_True by done. rewrite fmap_cons, <- app_assoc. done.
Qed.

End Partition.

Lemma firstPlanResults_groups (o : ExecutablePlan) (groups : list (nat * list Item)) :
  (∀ bucket items, (bucket, items) ∈ groups →
     items ≠ [] ∧ ∀ pr j, (pr, j) ∈ items → bucketOf o pr = bucket) →
  bucketOf o <$> firstPlanResults groups.*2 = groups.*1.
Proof.
  unfold firstPlanResults.
  induction groups as [|[b items] rest IH]; intros Hall; [done|].
  destruct (Hall b items) as [Hne Hitems]; [apply elem_of_cons; by left|].
  destruct items as [|[pr j] items]; [done|].
  rewrite !fmap_cons. simpl. f_equal.
  - apply (Hitems pr j). apply elem_of_cons. by left.
  - apply IH. intros b' items' Hin. apply Hall. apply elem_of_cons. by right.
Qed.

(** The first two loops of [executePlanAlt], run for a plan that can be
    queued, come to an end with the pending groups, and: the groups stand
    for pairwise distinct buckets, one row each being handed on; the rows of
    a group are rows of the batch that resolve to one bucket, which holds no
    value for the plan; and every row of the batch whose bucket holds no
    value for the plan is in a group. *)
Theorem executePlanAlt_one_group_per_bucket (o : ExecutablePlan) (plan : string)
  (result : nat) (planResultses : list Row) (r : Run) :
  constructor_ o ≠ __ValuePlan →
  ∃ pending r',
    (do* byBucket :=
       groupRows (commonAncestorPathIdentity o) result planResultses 0 [] in
     collectPending o plan result byBucket []) r = (Returns pending, r')
    ∧ NoDup (bucketOf o <$> firstPlanResults pending)
    ∧ length (firstPlanResults pending) = length pending
    ∧ (∀ items pr j, items ∈ pending → (pr, j) ∈ items →
         planResultses !! j = Some (RowResults pr)
         ∧ bucketValue r (bucketOf o pr) plan = None)
    ∧ (∀ items pr1 j1 pr2 j2, items ∈ pending →
         (pr1, j1) ∈ items → (pr2, j2) ∈ items → bucketOf o pr1 = bucketOf o pr2)
    ∧ (∀ j pr, planResultses !! j = Some (RowResults pr) →
         bucketValue r (bucketOf o pr) plan = None →
         ∃ items, items ∈ pending ∧ (pr, j) ∈ items).
Proof.
  intros Hexecutable.
  destruct (groupRows_spec o result planResultses planResultses 0 [] r)
    as (byBucket & r1 & Hgroup & Hb1 & [Hkeys Hitems] & _ & Hcov).
  { done. }
  { split; [constructor|]. intros b items Hin. by apply elem_of_nil in Hin. }
  destruct (collectPending_spec o plan result Hexecutable byBucket [] r1)
    as (r' & Hcollect & Hb').
  set (groups := filter (λ g : nat * list Item, bucketValue r1 g.1 plan = None)
                   byBucket) in *.
  assert (Hvalue : ∀ b, bucketValue r1 b plan = bucketValue r b plan).
  { intros b. unfold bucketValue. by rewrite Hb1. }
  assert (Hgroups : ∀ b items, (b, items) ∈ groups ↔
            bucketValue r b plan = None ∧ (b, items) ∈ byBucket).
  { intros b items. unfold groups. rewrite list_elem_of_filter. simpl.
    by rewrite Hvalue. }
  assert (Hfirst : bucketOf o <$> firstPlanResults groups.*2 = groups.*1).
  { apply firstPlanResults_groups. intros b items Hin%Hgroups.
    destruct (Hitems b items) as [Hne Hall]; [tauto|].
    split; [done|]. intros pr j Hpr. by destruct (Hall pr j Hpr). }
  exists groups.*2, r'. split_and!.
  - rewrite (xbind_returns _ _ _ _ _ Hgroup). exact Hcollect.
  - rewrite Hfirst. eapply sublist_NoDup; [exact Hkeys|].
    apply fmap_sublist, sublist_filter.
  - rewrite <- (length_fmap (bucketOf o)), Hfirst, !length_fmap. done.
  - intros items pr j Hin Hpr.
    apply list_elem_of_fmap in Hin as ([b items'] & -> & Hin). simpl in *.
    apply Hgroups in Hin as [Hnone Hin].
    destruct (Hitems b items' Hin) as [_ Hall].
    destruct (Hall pr j Hpr) as [<- Hrow]. done.
  - intros items pr1 j1 pr2 j2 Hin H1 H2.
    apply list_elem_of_fmap in Hin as ([b items'] & -> & Hin). simpl in *.
    apply Hgroups in Hin as [_ Hin].
    destruct (Hitems b items' Hin) as [_ Hall].
    destruct (Hall pr1 j1 H1) as [-> _]. destruct (Hall pr2 j2 H2) as [-> _]. done.
  - intros j pr Hrow Hnone.
    destruct (Hcov j pr Hrow) as (items & Hin & Hpr).
    exists items. split; [|done].
    apply list_elem_of_fmap. exists (bucketOf o pr, items). split; [done|].
    apply Hgroups. done.
Qed.

Lemma executePlanAlt_one_group_per_bucket_witness :
  ∃ pending r',
    (do* byBucket :=
       groupRows (commonAncestorPathIdentity mutation) 0
         [rowAt 10; rowAt 11; rowAt 10] 0 [] in
     collectPending mutation "_1" 0 byBucket [])
      (newRun ["_1"] "_2" []) = (Returns pending, r')
    ∧ NoDup (bucketOf mutation <$> firstPlanResults pending)
    ∧ length (firstPlanResults pending) = length pending
    ∧ (∀ items pr j, items ∈ pending → (pr, j) ∈ items →
         [rowAt 10; rowAt 11; rowAt 10] !! j = Some (RowResults pr)
         ∧ bucketValue (newRun ["_1"] "_2" []) (bucketOf mutation pr) "_1" = None)
    ∧ (∀ items pr1 j1 pr2 j2, items ∈ pending →
         (pr1, j1) ∈ items → (pr2, j2) ∈ items →
         bucketOf mutation pr1 = bucketOf mutation pr2)
    ∧ (∀ j pr, [rowAt 10; rowAt 11; rowAt 10] !! j = Some (RowResults pr) →
         bucketValue (newRun ["_1"] "_2" []) (bucketOf mutation pr) "_1" = None →
         ∃ items, items ∈ pending ∧ (pr, j) ∈ items).
Proof.
  apply (executePlanAlt_one_group_per_bucket mutation "_1" 0
           [rowAt 10; rowAt 11; rowAt 10] (newRun ["_1"] "_2" [])).
  discriminate.
Defined.

(** ** Short-circuiting leaves the other rows alone when no array is shared *)

Lemma pick_all {A} (keep : nat → bool) (from : nat) (l : list A) :
  (∀ k, from ≤ k → keep k = true) → pick keep from l = l.
Proof.
  revert from. induction l as [|x l IH]; intros from Hkeep; simpl; [done|].
  rewrite Hkeep by lia. f_equal. apply IH. intros k Hk. apply Hkeep. lia.
Qed.

Lemma lookup_below_pick {A} (keep : nat → bool) (i i' : nat) (vs : list A) :
  i' < i → (take i vs ++ pick keep i (drop i vs)) !! i' = vs !! i'.
Proof.
  intros Hlt. destruct (decide (i' < length vs)) as [Hin|Hout].
  - rewrite lookup_app_l by (rewrite length_take; lia).
    by rewrite lookup_take_lt.
  - rewrite take_ge, drop_ge by lia. simpl. by rewrite app_nil_r.
Qed.

Lemma pick_step {A} (keep : nat → bool) (i' : nat) (vs : list A) :
  take i' vs ++ pick keep i' (drop i' vs)
  = if keep i' then take (S i') vs ++ pick keep (S i') (drop (S i') vs)
    else delete i' (take (S i') vs ++ pick keep (S i') (drop (S i') vs)).
Proof.
  destruct (vs !! i') as [x|] eqn:Hx.
  - rewrite (take_S_r _ _ _ Hx), (drop_S _ _ _ Hx). simpl.
    assert (Hlen : length (take i' vs) = i').
    { rewrite length_take. apply lookup_lt_Some in Hx. lia. }
    destruct (keep i').
    + by rewrite <- app_assoc.
    + rewrite <- app_assoc. simpl.
      pose proof (delete_middle (take i' vs) (pick keep (S i') (drop (S i') vs)) x)
        as Hmiddle.
      rewrite Hlen in Hmiddle. by rewrite Hmiddle.
  - apply lookup_ge_None in Hx.
    rewrite !take_ge, !drop_ge by lia. simpl. rewrite app_nil_r.
    destruct (keep i'); [done|].
    rewrite delete_take_drop, take_ge, drop_ge by lia. by rewrite app_nil_r.
Qed.

Lemma spliceAll_spec (checked : list nat) (i : nat) :
  NoDup checked →
  ∀ r, ∃ r',
    spliceAll checked i r = (Returns tt, r')
    ∧ buckets r' = buckets r
    ∧ executeCalls r' = executeCalls r
    ∧ (∀ a, a ∈ checked → arrays r' !! a = delete i <$> arrays r !! a)
    ∧ (∀ a, a ∉ checked → arrays r' !! a = arrays r !! a).
Proof.
  induction checked as [|a rest IH]; intros Hnodup r.
  - exists r. simpl. split_and!; try done. intros a Ha. by apply elem_of_nil in Ha.
  - apply NoDup_cons in Hnodup as [Hfresh Hnodup].
    destruct (IH Hnodup (withArrays (alter (delete i) a) r))
      as (r' & Hrun & Hb & Hcalls & Hin & Hout).
    exists r'. split_and!; try done.
    + intros b [->|Hb']%elem_of_cons.
      * rewrite (Hout _ Hfresh). simpl. by rewrite lookup_alter_eq.
      * rewrite (Hin _ Hb'). simpl. rewrite lookup_alter_ne; [done|].
        intros ->. done.
    + intros b Hb'. apply not_elem_of_cons in Hb' as [Hne Hb'].
      rewrite (Hout _ Hb'). simpl. by rewrite lookup_alter_ne.
Qed.

Lemma dependencyError_erred (r : Run) (checked : list nat) (vss cur : list (list Value))
  (i : nat) :
  Forall2 (λ a vs, arrays r !! a = Some vs) checked cur →
  Forall2 (λ vs vs', vs' !! i = vs !! i) vss cur →
  dependencyError r checked i = erred vss i.
Proof.
  intros Hheap. revert vss. induction Hheap as [|a vs' checked cur Ha Hheap IH];
    intros vss Hsame.
  - by apply Forall2_nil_inv_r in Hsame as ->.
  - apply Forall2_cons_inv_r in Hsame as (vs & vss' & Hvs & Hsame & ->).
    simpl. unfold arrayAt. rewrite Ha. simpl. rewrite Hvs.
    rewrite (IH _ Hsame). done.
Qed.

Lemma sparedRows_step (vss : list (list Value)) (pending : list PlanResults)
  (i' : nat) (pr : PlanResults) :
  pending !! i' = Some pr →
  sparedRows vss (take (S i') pending)
  = sparedRows vss (take i' pending)
    ++ (if bool_decide (erred vss i' = None) then [(pr, i')] else []).
Proof.
  intros Hpr. unfold sparedRows.
  rewrite (take_S_r _ _ _ Hpr), imap_app, filter_app. f_equal.
  assert (Hlen : length (take i' pending) = i').
  { rewrite length_take. apply lookup_lt_Some in Hpr. lia. }
  simpl. rewrite Hlen, Nat.add_0_r.
  case_bool_decide as Herr.
  - by rewrite filter_cons_True.
  - by rewrite filter_cons_False.
Qed.

Lemma Forall2_arrays_map (r r' : Run) (checked : list nat) (vss : list (list Value))
  (cur cur' h : list Value → list Value) :
  (∀ a, a ∈ checked → arrays r' !! a = h <$> arrays r !! a) →
  (∀ vs, h (cur vs) = cur' vs) →
  Forall2 (λ a vs, arrays r !! a = Some (cur vs)) checked vss →
  Forall2 (λ a vs, arrays r' !! a = Some (cur' vs)) checked vss.
Proof.
  intros Hin Hh Hheap.
  induction Hheap as [|a vs cs vss' Ha Hheap IH]; constructor.
  - rewrite Hin by (apply elem_of_cons; by left). rewrite Ha. simpl. by rewrite Hh.
  - apply IH. intros b Hb. apply Hin, elem_of_cons. by right.
Qed.

Section ShortCircuit.

Context (plan commonAncestor : string) (result : nat) (checked : list nat)
  (pending : list PlanResults) (vss : list (list Value)) (res0 : list Value).

Hypothesis distinct : NoDup checked.

Hypothesis apart : result ∉ checked.

Hypothesis ownBuckets : NoDup ((λ pr, getBucket pr commonAncestor) <$> pending).

Lemma shortCircuit_spec :
  ∀ (i : nat) (real : list Item) (r : Run) (l : list Value),
    i ≤ length pending →
    Forall2 (λ a vs, arrays r !! a
                     = Some (take i vs
                             ++ pick (spared vss (length pending)) i (drop i vs)))
            checked vss →
    arrays r !! result = Some l →
    resultFrom pending vss res0 i l →
    ∃ real' r' l',
      shortCircuit plan commonAncestor result checked pending i real r
      = (Returns real', r')
      ∧ reverse real' = sparedRows vss (take i pending) ++ reverse real
      ∧ Forall2 (λ a vs, arrays r' !! a
                         = Some (pick (spared vss (length pending)) 0 vs))
                checked vss
      ∧ arrays r' !! result = Some l' ∧ resultFrom pending vss res0 0 l'
      ∧ (∀ k pr e, k < i → pending !! k = Some pr → erred vss k = Some e →
           bucketValue r' (getBucket pr commonAncestor) plan = Some e)
      ∧ (∀ b, (∀ k pr, k < i → pending !! k = Some pr →
                 getBucket pr commonAncestor = b → erred vss k = None) →
           bucketValue r' b plan = bucketValue r b plan)
      ∧ executeCalls r' = executeCalls r.
Proof.
  induction i as [|i' IH]; intros real r l Hle Hheap Hres Hl.
  - exists real, r, l. simpl. split_and!; try done.
    intros k pr e Hk. lia.
  - destruct (lookup_lt_is_Some_2 pending i') as [pr Hpr]; [lia|].
    cbn [shortCircuit]. unfold xbind at 1. cbn [xgets]. unfold id.
    rewrite Hpr.
    rewrite (dependencyError_erred r checked vss
               ((λ vs, take (S i') vs
                       ++ pick (spared vss (length pending)) (S i')
                            (drop (S i') vs)) <$> vss)).
    2:{ apply Forall2_fmap_r. exact Hheap. }
    2:{ apply Forall2_fmap_r, Forall_Forall2_diag, Forall_forall.
        intros vs _. apply lookup_below_pick. lia. }
    assert (Hkeep : spared vss (length pending) i'
                    = bool_decide (erred vss i' = None)).
    { unfold spared. rewrite (proj2 (Nat.leb_gt _ _)) by lia. done. }
    destruct Hl as [Hlen Hl].
    destruct (erred vss i') as [error|] eqn:Herr.
    + set (r1 := withArrays (alter (assign i' error) result) r).
      set (r2 := withBuckets
                   (λ bs, <[getBucket pr commonAncestor :=
                              <[plan := error]>
                                (default ∅ (bs !! getBucket pr commonAncestor))]> bs)
                   r1).
      destruct (spliceAll_spec checked i' distinct r2)
        as (r3 & Hsplice & Hb3 & Hc3 & Hin3 & Hout3).
      destruct (IH real r3 (<[i' := error]> l)) as
        (real' & r' & l' & Hrun & Hreal & Hheap' & Hres' & Hl' & Hset & Hkept & Hcalls).
      { lia. }
      { apply (Forall2_arrays_map r r3 checked vss
                 (λ vs, take (S i') vs
                     ++ pick (spared vss (length pending)) (S i') (drop (S i') vs))
                 (λ vs, take i' vs
                     ++ pick (spared vss (length pending)) i' (drop i' vs))
                 (delete i')); [| |exact Hheap].
        - intros a Ha. rewrite (Hin3 a Ha). simpl.
          rewrite lookup_alter_ne; [done|]. intros ->. done.
        - intros vs. rewrite (pick_step (spared vss (length pending)) i' vs).
          rewrite Hkeep. by rewrite bool_decide_eq_false_2. }
      { rewrite (Hout3 _ apart). simpl. rewrite lookup_alter_eq, Hres. simpl.
        unfold assign. rewrite (proj2 (Nat.ltb_lt _ _)) by lia. done. }
      { split; [by rewrite length_insert|]. intros k Hk.
        destruct (decide (k = i')) as [->|Hne].
        - rewrite list_lookup_insert_eq by lia.
          rewrite bool_decide_eq_true_2 by lia. by rewrite Herr.
        - rewrite list_lookup_insert_ne by done. rewrite (Hl k Hk).
          destruct (decide (S i' ≤ k)).
          + rewrite !bool_decide_eq_true_2 by lia. done.
          + rewrite !bool_decide_eq_false_2 by lia. done. }
      exists real', r', l'. split_and!; try done.
      * unfold xbind. simpl. fold r1. fold r2. rewrite Hsplice. exact Hrun.
      * rewrite Hreal, (sparedRows_step _ _ _ _ Hpr), Herr.
        rewrite bool_decide_eq_false_2 by done. by rewrite app_nil_r.
      * intros k pr' e Hk Hpr' He.
        destruct (decide (k = i')) as [->|Hne].
        -- rewrite Hpr in Hpr'. injection Hpr' as <-.
           rewrite Herr in He. injection He as <-.
           rewrite Hkept.
           ++ unfold bucketValue. rewrite Hb3. simpl.
              rewrite lookup_insert_eq. simpl. apply lookup_insert_eq.
           ++ intros k pr' Hk' Hpr' Hsame. exfalso.
              assert (Hneq : k ≠ i') by lia. apply Hneq.
              eapply (NoDup_lookup _ _ _ _ ownBuckets).
              ** rewrite list_lookup_fmap, Hpr'. simpl. by rewrite Hsame.
              ** rewrite list_lookup_fmap, Hpr. done.
        -- apply (Hset k pr' e); [lia|done..].
      * intros b Hb. rewrite Hkept.
        -- unfold bucketValue. rewrite Hb3. simpl.
           destruct (decide (getBucket pr commonAncestor = b)) as [Heq|Hneq].
           ++ specialize (Hb i' pr (Nat.lt_succ_diag_r _) Hpr Heq).
              rewrite Herr in Hb. done.
           ++ by rewrite lookup_insert_ne.
        -- intros k pr' Hk. apply Hb. lia.
      * by rewrite Hcalls, Hc3.
    + destruct (IH (real ++ [(pr, i')]) r l) as
        (real' & r' & l' & Hrun & Hreal & Hheap' & Hres' & Hl' & Hset & Hkept & Hcalls).
      { lia. }
      { apply (Forall2_arrays_map r r checked vss
                 (λ vs, take (S i') vs
                     ++ pick (spared vss (length pending)) (S i') (drop (S i') vs))
                 (λ vs, take i' vs
                     ++ pick (spared vss (length pending)) i' (drop i' vs))
                 id); [| |exact Hheap].
        - intros a Ha. by rewrite option_fmap_id.
        - intros vs. rewrite (pick_step (spared vss (length pending)) i' vs).
          rewrite Hkeep. by rewrite bool_decide_eq_true_2. }
      { done. }
      { split; [done|]. intros k Hk. rewrite (Hl k Hk).
        destruct (decide (k = i')) as [->|Hne].
        - rewrite bool_decide_eq_false_2 by lia.
          rewrite bool_decide_eq_true_2 by lia. by rewrite Herr.
        - destruct (decide (S i' ≤ k)).
          + rewrite !bool_decide_eq_true_2 by lia. done.
          + rewrite !bool_decide_eq_false_2 by lia. done. }
      exists real', r', l'. split_and!; try done.
      * rewrite Hreal, (sparedRows_step _ _ _ _ Hpr), Herr.
        rewrite bool_decide_eq_true_2 by done.
        rewrite reverse_app. simpl. by rewrite <- app_assoc.
      * intros k pr' e Hk Hpr' He.
        destruct (decide (k = i')) as [->|Hne].
        -- rewrite Herr in He. done.
        -- apply (Hset k pr' e); [lia|done..].
      * intros b Hb. apply Hkept. intros k pr' Hk. apply Hb. lia.
Qed.

End ShortCircuit.

Lemma readAll_spec (dependencyValuesList : list nat) (vss : list (list Value)) (r : Run) :
  Forall2 (λ a vs, arrays r !! a = Some vs) dependencyValuesList vss →
  readAll dependencyValuesList r = (Returns vss, r).
Proof.
  induction 1 as [|a vs dvl vss' Ha Hheap IH]; simpl; [done|].
  unfold xbind, readArray, xgets. rewrite Ha. simpl.
  fold (readAll dvl r). rewrite IH. done.
Qed.

Section StoreResults.

Context (plan commonAncestor : string) (result : nat) (perRow : bool)
  (pendingResults : list Value).

Lemma storeResults_spec (real : list Item) :
  ∀ (i : nat) (r : Run) (l : list Value),
    arrays r !! result = Some l →
    NoDup real.*2 →
    Forall (λ item : Item, item.2 < length l) real →
    NoDup ((λ item : Item, getBucket item.1 commonAncestor) <$> real) →
    ∃ r' l',
      storeResults plan commonAncestor result perRow pendingResults real i r
      = (Returns tt, r')
      ∧ arrays r' !! result = Some l'
      ∧ length l' = length l
      ∧ (∀ k pr j, real !! k = Some (pr, j) →
           l' !! j = Some (resultAt perRow pendingResults (i + k))
           ∧ bucketValue r' (getBucket pr commonAncestor) plan
             = Some (resultAt perRow pendingResults (i + k)))
      ∧ (∀ j, j ∉ real.*2 → l' !! j = l !! j)
      ∧ (∀ b, b ∉ ((λ item : Item, getBucket item.1 commonAncestor) <$> real) →
           bucketValue r' b plan = bucketValue r b plan)
      ∧ executeCalls r' = executeCalls r.
Proof.
  induction real as [|[pr j] rest IH]; intros i r l Hres Hnodup Hlt Hbuckets.
  - exists r, l. simpl. split_and!; done.
  - apply NoDup_cons in Hnodup as [Hj Hnodup].
    apply Forall_cons in Hlt as [Hjlt Hlt]. simpl in Hjlt.
    rewrite fmap_cons in Hbuckets. apply NoDup_cons in Hbuckets as [Hb Hbuckets].
    simpl in Hb.
    set (v := resultAt perRow pendingResults i).
    set (r1 := withArrays (alter (assign j v) result) r).
    set (r2 := withBuckets
                 (λ bs, <[getBucket pr commonAncestor :=
                            <[plan := v]>
                              (default ∅ (bs !! getBucket pr commonAncestor))]> bs)
                 r1).
    destruct (IH (S i) r2 (<[j := v]> l)) as
      (r' & l' & Hrun & Hres' & Hlen & Hgiven & Hkept & Hbkept & Hcalls).
    { simpl. rewrite lookup_alter_eq, Hres. simpl. unfold assign.
      rewrite (proj2 (Nat.ltb_lt _ _)) by lia. done. }
    { done. }
    { eapply Forall_impl; [exact Hlt|]. intros item. by rewrite length_insert. }
    { done. }
    exists r', l'. split_and!.
    + exact Hrun.
    + done.
    + by rewrite Hlen, length_insert.
    + intros [|k] pr' j' Hk.
      * simpl in Hk. injection Hk as <- <-. rewrite Nat.add_0_r. split.
        -- rewrite (Hkept j Hj). apply list_lookup_insert_eq. done.
        -- rewrite (Hbkept _ Hb). unfold bucketValue. simpl.
           rewrite lookup_insert_eq. simpl. apply lookup_insert_eq.
      * simpl in Hk. replace (i + S k) with (S i + k) by lia. by apply Hgiven.
    + intros j' Hj'. rewrite fmap_cons in Hj'. apply not_elem_of_cons in Hj' as [Hne Hj'].
      rewrite (Hkept j' Hj'). by apply list_lookup_insert_ne.
    + intros b Hb'. rewrite fmap_cons in Hb'.
      apply not_elem_of_cons in Hb' as [Hne Hb']. simpl in Hne.
      rewrite (Hbkept b Hb'). unfold bucketValue. simpl.
      by rewrite lookup_insert_ne.
    + done.
Qed.

End StoreResults.

Lemma newArray_spec (values : list Value) (r : Run) :
  ∃ r', newArray values r = (Returns (allocated r), r')
        ∧ arrays r' = <[allocated r := values]> (arrays r)
        ∧ buckets r' = buckets r
        ∧ executeCalls r' = executeCalls r.
Proof. eexists. split_and!; reflexivity. Qed.

Lemma sparedRows_lookup (vss : list (list Value)) (pending : list PlanResults)
  (pr : PlanResults) (k : nat) :
  (pr, k) ∈ sparedRows vss pending ↔ pending !! k = Some pr ∧ erred vss k = None.
Proof.
  unfold sparedRows. rewrite list_elem_of_filter, list_elem_of_lookup. simpl. split.
  - intros [Herr [i Hi]]. rewrite list_lookup_imap in Hi.
    destruct (pending !! i) as [pr'|] eqn:Hpr; simpl in Hi; [|done].
    by simplify_eq.
  - intros [Hpr Herr]. split; [done|]. exists k. rewrite list_lookup_imap, Hpr. done.
Qed.

Lemma sparedRows_indexes (vss : list (list Value)) (pending : list PlanResults) :
  NoDup (sparedRows vss pending).*2.
Proof.
  unfold sparedRows. eapply sublist_NoDup; [|apply fmap_sublist, sublist_filter].
  assert (Hseq : (imap (λ k planResults, (planResults, k)) pending).*2
                 = seq 0 (length pending)).
  { apply list_eq. intros i. rewrite list_lookup_fmap, list_lookup_imap.
    destruct (pending !! i) as [pr|] eqn:Hpr; simpl.
    - rewrite lookup_seq_lt; [done|]. by apply lookup_lt_Some in Hpr.
    - rewrite lookup_seq_ge; [done|]. by apply lookup_ge_None in Hpr. }
  rewrite Hseq. apply NoDup_seq.
Qed.

Lemma sparedRows_buckets (vss : list (list Value)) (pending : list PlanResults)
  (commonAncestor : string) :
  NoDup ((λ pr, getBucket pr commonAncestor) <$> pending) →
  NoDup ((λ item : Item, getBucket item.1 commonAncestor) <$> sparedRows vss pending).
Proof.
  intros Hnodup. unfold sparedRows.
  eapply sublist_NoDup; [|apply fmap_sublist, sublist_filter].
  assert (Hsame :
            (λ item : Item, getBucket item.1 commonAncestor)
              <$> imap (λ k planResults, (planResults, k)) pending
            = (λ pr, getBucket pr commonAncestor) <$> pending).
  { apply list_eq. intros i. rewrite !list_lookup_fmap, list_lookup_imap.
    by destruct (pending !! i). }
  by rewrite Hsame.
Qed.

(** In production, when the arrays of the dependencies are distinct
    objects, [executePlanPending] short-circuits exactly the rows with an
    erred dependency: such a row takes the first error among its dependency
    values as its result, in the result array and in its bucket; [execute]
    is called once, with the dependency values of the other rows only; and
    these rows are given, in order, what [execute] returned, settled, in the
    result array and in their bucket. *)
Theorem executePending_isolates_errors `{Executor} (o : ExecutablePlan) (plan : string)
  (pendingPlanResultses : list PlanResults) (dependencyValuesList : list nat)
  (vss : list (list Value)) (results : list Value) (r : Run) :
  let commonAncestor := commonAncestorPathIdentity o in
  let values := pick (spared vss (length pendingPlanResultses)) 0 <$> vss in
  isDev = false →
  constructor_ o ≠ __ItemPlan →
  constructor_ o ≠ __ListTransformPlan →
  0 < length (dependencies o) →
  NoDup dependencyValuesList →
  Forall (λ a, a < allocated r) dependencyValuesList →
  Forall2 (λ a vs, arrays r !! a = Some vs) dependencyValuesList vss →
  NoDup ((λ pr, getBucket pr commonAncestor) <$> pendingPlanResultses) →
  (∀ r2, (if streams plan then stream' plan values r2 else execute plan values r2)
         = Returned results) →
  ∃ result r' l,
    executePending o plan pendingPlanResultses dependencyValuesList r
    = (Returns result, r')
    ∧ arrays r' !! result = Some l
    ∧ length l = length pendingPlanResultses
    ∧ (∀ k pr e, pendingPlanResultses !! k = Some pr → erred vss k = Some e →
         l !! k = Some e
         ∧ bucketValue r' (getBucket pr commonAncestor) plan = Some e)
    ∧ (∀ idx pr k, sparedRows vss pendingPlanResultses !! idx = Some (pr, k) →
         l !! k = Some (settle (default Undefined (results !! idx)))
         ∧ bucketValue r' (getBucket pr commonAncestor) plan
           = Some (settle (default Undefined (results !! idx))))
    ∧ executeCalls r'
      = executeCalls r
        ++ (if sparedRows vss pendingPlanResultses is [] then [] else [(plan, values)]).
Proof.
  intros commonAncestor values Hprod Hitem Htransform Hdeps Hdistinct Hold Hheap
    Hbuckets Hexecute.
  unfold executePending. rewrite (proj2 (Nat.ltb_lt _ _) Hdeps).
  destruct (newArray_spec (replicate (length pendingPlanResultses) Undefined) r)
    as (r0 & Hnew & Harr0 & Hb0 & Hc0).
  rewrite (xbind_returns _ _ _ _ _ Hnew).
  assert (Hapart : allocated r ∉ dependencyValuesList).
  { intros Hin. rewrite Forall_forall in Hold. specialize (Hold _ Hin). lia. }
  destruct (shortCircuit_spec plan commonAncestor (allocated r) dependencyValuesList
              pendingPlanResultses vss
              (replicate (length pendingPlanResultses) Undefined) Hdistinct Hapart
              Hbuckets (length pendingPlanResultses) [] r0
              (replicate (length pendingPlanResultses) Undefined))
    as (real & r1 & l1 & Hshort & Hreal & Hheap1 & Hres1 & [Hlen1 Hl1] & Hset1 & Hkept1 & Hc1).
  { done. }
  { apply (Forall2_arrays_map r r0 dependencyValuesList vss (λ vs, vs) _ id);
      [| |exact Hheap].
    - intros a Ha. rewrite Harr0, option_fmap_id.
      rewrite lookup_insert_ne; [done|]. intros <-. done.
    - intros vs. simpl.
      rewrite pick_all.
      + by rewrite take_drop.
      + intros k Hk. unfold spared.
        by rewrite (proj2 (Nat.leb_le _ _)) by lia. }
  { rewrite Harr0. apply lookup_insert_eq. }
  { split; [apply length_replicate|]. intros k Hk.
    rewrite lookup_replicate_2 by done.
    by rewrite bool_decide_eq_false_2 by lia. }
  rewrite (xbind_returns _ _ _ _ _ Hshort).
  rewrite firstn_all, app_nil_r in Hreal.
  rewrite Hreal.
  assert (Herred : ∀ k pr e, pendingPlanResultses !! k = Some pr →
            erred vss k = Some e → l1 !! k = Some e).
  { intros k pr e Hpr He. rewrite Hl1 by (by apply lookup_lt_Some in Hpr).
    rewrite bool_decide_eq_true_2 by lia. by rewrite He. }
  destruct (sparedRows vss pendingPlanResultses) as [|item rest] eqn:Hspared.
  - simpl. exists (allocated r), r1, l1. split_and!; try done.
    + intros k pr e Hpr He. split; [by eapply Herred|].
      apply (Hset1 k pr e); [by apply lookup_lt_Some in Hpr|done..].
    + by rewrite app_nil_r, Hc1, Hc0.
  - assert (Hvalues : readAll dependencyValuesList r1 = (Returns values, r1)).
    { apply readAll_spec. apply Forall2_fmap_r. exact Hheap1. }
    set (r2 := {| buckets := buckets r1; arrays := arrays r1;
                  planCaches := planCaches r1;
                  inProgressPlanResolutions := inProgressPlanResolutions r1;
                  deferreds := deferreds r1;
                  executeCalls := executeCalls r1 ++ [(plan, values)];
                  planCacheChecks := planCacheChecks r1;
                  allocated := allocated r1 |}).
    destruct (storeResults_spec plan commonAncestor (allocated r) true results
                (item :: rest) 0 r2 l1)
      as (r' & l' & Hstore & Hres' & Hlen' & Hgiven & Hkept & Hbkept & Hcalls).
    { exact Hres1. }
    { rewrite <- Hspared. apply sparedRows_indexes. }
    { rewrite <- Hspared. apply Forall_forall. intros [pr k] Hin.
      apply sparedRows_lookup in Hin as [Hpr _]. simpl. rewrite Hlen1.
      by apply lookup_lt_Some in Hpr. }
    { rewrite <- Hspared. by apply sparedRows_buckets. }
    exists (allocated r), r', l'. split_and!.
    + cbn [length]. cbn [Nat.ltb Nat.leb].
      rewrite !bool_decide_eq_false_2 by done.
      rewrite Hprod. cbn [andb orb].
      assert (Hinner :
        (do* values0 := readAll dependencyValuesList in
         do* r2 := xgets id in
         logExecute plan values0 ;;;
         awaitExecution
           (if streams plan then stream' plan values0 r2
            else execute plan values0 r2)) r1 = (Returns results, r2)).
      { rewrite (xbind_returns _ _ _ _ _ Hvalues).
        unfold xbind, xgets, logExecute, xmodify. simpl.
        rewrite (Hexecute r1). done. }
      rewrite (xbind_returns _ _ _ _ _ Hinner).
      fold commonAncestor. rewrite (xbind_returns _ _ _ _ _ Hstore). done.
    + done.
    + by rewrite Hlen'.
    + intros k pr e Hpr He.
      assert (Hout : ∀ pr' k', (pr', k') ∈ item :: rest →
                getBucket pr' commonAncestor = getBucket pr commonAncestor → False).
      { intros pr' k' Hin Hsame. rewrite <- Hspared in Hin.
        apply sparedRows_lookup in Hin as [Hpr' Hnone].
        assert (k' = k) as ->; [|by rewrite He in Hnone].
        eapply (NoDup_lookup _ _ _ _ Hbuckets).
        - rewrite list_lookup_fmap, Hpr'. simpl. by rewrite Hsame.
        - by rewrite list_lookup_fmap, Hpr. }
      split.
      * rewrite Hkept; [by eapply Herred|].
        intros Hin. apply list_elem_of_fmap in Hin as ([pr' k'] & Heq & Hin).
        simpl in Heq. subst k'. rewrite <- Hspared in Hin.
        apply sparedRows_lookup in Hin as [_ Hnone]. by rewrite He in Hnone.
      * rewrite Hbkept.
        -- change (bucketValue r2 (getBucket pr commonAncestor) plan)
             with (bucketValue r1 (getBucket pr commonAncestor) plan).
           apply (Hset1 k pr e); [by apply lookup_lt_Some in Hpr|done..].
        -- intros Hin. apply list_elem_of_fmap in Hin as ([pr' k'] & Heq & Hin).
           simpl in Heq. by apply (Hout pr' k').
    + intros idx pr k Hidx. apply (Hgiven idx pr k Hidx).
    + rewrite Hcalls. simpl. by rewrite Hc1, Hc0.
Qed.

Lemma executePending_isolates_errors_witness :
  let o := leafPlan (UserPlan "Access") ["_1"] in
  let vss := [[Data "a"; CrystalErrorValue (Error "boom"); Data "c"]] in
  ∃ result r' l,
    @executePending (joiningExecutor false diamond) o "_2" threeRows [5] awaitedRun
    = (Returns result, r')
    ∧ arrays r' !! result = Some l
    ∧ length l = length threeRows
    ∧ (∀ k pr e, threeRows !! k = Some pr → erred vss k = Some e →
         l !! k = Some e
         ∧ bucketValue r' (getBucket pr (commonAncestorPathIdentity o)) "_2" = Some e)
    ∧ (∀ idx pr k, sparedRows vss threeRows !! idx = Some (pr, k) →
         l !! k = Some (settle (default Undefined ([Data "a"; Data "c"] !! idx)))
         ∧ bucketValue r' (getBucket pr (commonAncestorPathIdentity o)) "_2"
           = Some (settle (default Undefined ([Data "a"; Data "c"] !! idx))))
    ∧ executeCalls r'
      = executeCalls awaitedRun
        ++ (if sparedRows vss threeRows is [] then []
            else [("_2", pick (spared vss (length threeRows)) 0 <$> vss)]).
Proof.
  apply (@executePending_isolates_errors (joiningExecutor false diamond)
           (leafPlan (UserPlan "Access") ["_1"]) "_2" threeRows [5]
           [[Data "a"; CrystalErrorValue (Error "boom"); Data "c"]]
           [Data "a"; Data "c"] awaitedRun).
  - reflexivity.
  - discriminate.
  - discriminate.
  - simpl. lia.
  - apply NoDup_singleton.
  - repeat constructor.
  - repeat constructor.
  - apply (bool_decide_unpack _). vm_compute. exact I.
  - intros r2. reflexivity.
Defined.


(** In development the same call is rejected: the assertion on the number
    of results compares what [execute] returned for the two rows it was given
    with the three rows there were before the erred row was taken out. *)
Lemma executePending_development_assertion :
  (@executePending (joiningExecutor true diamond) (leafPlan (UserPlan "Access") ["_1"])
     "_2" threeRows [5] awaitedRun).1
  = Throws resultCountMismatch.
Proof. vm_compute. reflexivity. Qed.

(** ** The plan cache hands out the same array *)

Lemma xbind_Returns {A B} (m : X A) (k : A → X B) (r r2 : Run) (b : B) :
  xbind m k r = (Returns b, r2) →
  ∃ a r1, m r = (Returns a, r1) ∧ k a r1 = (Returns b, r2).
Proof.
  unfold xbind. destruct (m r) as [[a|e|] r1]; [|discriminate..]. by exists a, r1.
Qed.

(** Once [executePlan] has returned, the plan cache holds what it returned
    for the plan. *)
Lemma executePlan_caches `{Executor} (stack : nat) (plan : string)
  (planResultses : list Row) (visitedPlans : list string) (planCache : nat)
  (completion : Completion) (r r1 : Run) :
  executePlan stack plan planResultses visitedPlans planCache r
  = (Returns completion, r1) →
  cached r1 planCache plan = Some completion.
Proof.
  destruct stack as [|stack]; [discriminate|]. cbn [executePlan].
  unfold xbind at 1. cbn [xgets]. unfold id.
  destruct (cached r planCache plan) as [c|] eqn:Hcached.
  - destruct isDev; intros [= <- <-]; exact Hcached.
  - intros (result & ra & _ & Hstore)%xbind_Returns.
    injection Hstore as <- <-. unfold cached. simpl.
    by rewrite lookup_insert_eq; simpl; rewrite lookup_insert_eq.
Qed.

(** X5. What [executePlan] has returned for a plan under a plan cache it
    returns again under that plan cache, the very same array or promise,
    whatever rows and visited plans it is called with, and without executing
    anything: the buckets, the arrays and the calls of [execute] are as the
    first call left them, and the plan cache still holds the entry. *)
Theorem executePlan_answers_from_plan_cache `{Executor} (stack depth : nat)
  (plan : string) (planResultses planResultses' : list Row)
  (visitedPlans visitedPlans' : list string) (planCache : nat)
  (completion : Completion) (r r1 : Run) :
  executePlan stack plan planResultses visitedPlans planCache r
  = (Returns completion, r1) →
  ∃ r2,
    executePlan (S depth) plan planResultses' visitedPlans' planCache r1
    = (Returns completion, r2)
    ∧ buckets r2 = buckets r1
    ∧ arrays r2 = arrays r1
    ∧ executeCalls r2 = executeCalls r1
    ∧ cached r2 planCache plan = Some completion.
Proof.
  intros Hcached%executePlan_caches. cbn [executePlan]. unfold xbind at 1.
  cbn [xgets]. unfold id.
  rewrite Hcached. destruct isDev; eexists; split_and!; try reflexivity; exact Hcached.
Qed.

(** The diamond: [_1] is executed for three rows, and a second call for
    other rows under the same plan cache is answered with the array of the
    first. *)
Lemma executePlan_answers_from_plan_cache_witness :
  let r1 := (@executePlan (joiningExecutor true diamond) 10 "_1"
               [rowAt 10; rowAt 11; rowAt 12] [] 0 diamondRun).2 in
  ∃ r2,
    @executePlan (joiningExecutor true diamond) 1 "_1"
      [rowAt 12; rowAt 10] ["_3"] 0 r1
    = (Returns (Direct 1), r2)
    ∧ buckets r2 = buckets r1
    ∧ arrays r2 = arrays r1
    ∧ executeCalls r2 = executeCalls r1
    ∧ cached r2 0 "_1" = Some (Direct 1).
Proof.
  apply (@executePlan_answers_from_plan_cache (joiningExecutor true diamond) 10 0 "_1"
           [rowAt 10; rowAt 11; rowAt 12] [rowAt 12; rowAt 10] [] ["_3"] 0 (Direct 1)
           diamondRun).
  vm_compute. reflexivity.
Defined.

(** ** Tree shaking twice is tree shaking once *)

Section ShakenAgain.
Context (s s' : Aether).
Hypothesis same_objects : objects s' = objects s.
Hypothesis reachable_kept :
  ∀ i p, planAt (plans s) i = Some p → reachable s p → planAt (plans s') i = Some p.

Lemma markAll_shaken mark mark' (ids : list string) (A A' : gset string) :
  (∀ A, mark None A = Throw nullDereference) →
  (∀ q A A', reachable s q → mark (Some q) A = Ok A' → mark' (Some q) A = Ok A') →
  (∀ d q, d ∈ ids → planAt (plans s) d = Some q → reachable s q) →
  markAll mark (plans s) ids A = Ok A' →
  markAll mark' (plans s') ids A = Ok A'.
Proof.
  intros Hnone Hmark. revert A. induction ids as [|d ids IH]; intros A Hreach Hrun.
  - exact Hrun.
  - simpl in Hrun |- *.
    destruct (planAt (plans s) d) as [q|] eqn:Hq.
    2:{ rewrite Hnone in Hrun. discriminate Hrun. }
    assert (Hr : reachable s q) by (apply (Hreach d); [set_solver|done]).
    rewrite (reachable_kept d q Hq Hr).
    destruct (mark (Some q) A) as [A1|e] eqn:Hm; [|discriminate Hrun].
    rewrite (Hmark q A A1 Hr Hm). apply IH; [|exact Hrun].
    intros d' q' Hd'. apply Hreach. set_solver.
Qed.

Lemma markPlanActive_shaken (n : nat) (q : string) (A A' : gset string) :
  reachable s q →
  markPlanActive n s (Some q) A = Ok A' → markPlanActive n s' (Some q) A = Ok A'.
Proof.
  revert q A A'. induction n as [|n IH]; intros q A A' Hr Hrun; simpl in Hrun |- *.
  - exact Hrun.
  - case_bool_decide; [exact Hrun|]. rewrite same_objects.
    destruct (objects s !! q) as [o|] eqn:Ho; [|discriminate Hrun].
    apply (markAll_shaken (markPlanActive n s)); try done.
    + apply markPlanActive_None.
    + intros d q' Hd Hq'. by apply (reachable_dependency s q o d q').
Qed.

Lemma markSeeds_shaken `{Host} (asserted : bool) (ids : list string)
  (A A' : gset string) :
  (∀ d q, d ∈ ids → planAt (plans s) d = Some q → reachable s q) →
  markSeeds asserted s ids A = Ok A' → markSeeds asserted s' ids A = Ok A'.
Proof.
  revert A. induction ids as [|d ids IH]; intros A Hreach Hrun.
  - exact Hrun.
  - simpl in Hrun |- *.
    destruct (planAt (plans s) d) as [q|] eqn:Hq.
    2:{ destruct (isDev && asserted && bool_decide (None = None));
          [discriminate Hrun|].
        rewrite markPlanActive_None in Hrun. discriminate Hrun. }
    assert (Hr : reachable s q) by (apply (Hreach d); [set_solver|done]).
    rewrite (reachable_kept d q Hq Hr).
    rewrite (bool_decide_eq_false_2 (Some q = None)) in Hrun |- * by done.
    rewrite andb_false_r in Hrun |- *.
    destruct (markPlanActive stack s (Some q) A) as [A1|e] eqn:Hm; [|discriminate Hrun].
    rewrite (markPlanActive_shaken _ _ _ _ Hr Hm). apply IH; [|exact Hrun].
    intros d' q' Hd'. apply Hreach. set_solver.
Qed.

End ShakenAgain.

Lemma sweep_nothing (A : gset string) (ids : list string)
  (t : list (string * option string)) :
  (∀ i p, planAt t i = Some p → p ∈ A) → sweep A ids t = t.
Proof.
  intros Hall. induction ids as [|i ids IH]; [done|]. simpl.
  destruct (planAt t i) as [p|] eqn:Hp; [|exact IH].
  rewrite bool_decide_eq_true_2 by (by apply (Hall i)). exact IH.
Qed.

(** The slots after the sweep: those of the plans in [A], as they were. *)
Lemma planAt_sweep (A : gset string) (t : list (string * option string))
  (i p : string) :
  planAt (sweep A (map fst t) t) i = Some p ↔ planAt t i = Some p ∧ p ∈ A.
Proof.
  unfold planAt. rewrite lookupKey_sweep.
  destruct (lookupKey i t) as [[q|]|] eqn:Hi; [|naive_solver..].
  rewrite (bool_decide_eq_true_2 (i ∈ map fst t))
    by (by apply lookupKey_Some_key in Hi as [? _]).
  simpl. case_bool_decide; naive_solver.
Qed.

(** X6. If [treeShakePlans] returns, running it again on the aether it left
    returns too and changes nothing. *)
Theorem treeShakePlans_idempotent `{Host} (s s' : Aether) (w : list Event) :
  treeShakePlans s = (Ok tt, s', w) → treeShakePlans s' = (Ok tt, s', []).
Proof.
  intros Hrun. rewrite treeShakePlans_run in Hrun |- *.
  destruct (activeAfterSeeds s) as [F|e] eqn:HF; [|discriminate Hrun].
  pose proof (activeAfterSeeds_reachable s F HF) as HFr.
  injection Hrun as <- <-.
  set (s' := withPlans _ s).
  assert (Hslots : ∀ i p, planAt (plans s') i = Some p
                          ↔ planAt (plans s) i = Some p ∧ p ∈ F)
    by (intros i p; apply planAt_sweep).
  assert (Hkept : ∀ i p, planAt (plans s) i = Some p → reachable s p →
                         planAt (plans s') i = Some p)
    by (intros i p Hp Hr; apply Hslots; split; [done|by apply HFr]).
  assert (Hseed : ∀ d q, d ∈ seedIds s → planAt (plans s) d = Some q → reachable s q)
    by (intros d q Hd Hq; by apply (reachable_seed s d q)).
  assert (Hgo : ∀ asserted ids A A', (∀ d, d ∈ ids → d ∈ seedIds s) →
            markSeeds asserted s ids A = Ok A' → markSeeds asserted s' ids A = Ok A').
  { intros asserted ids A A' Hids. apply (markSeeds_shaken s s' eq_refl Hkept).
    intros d q Hd. by apply Hseed, Hids. }
  assert (HF' : activeAfterSeeds s' = Ok F).
  { unfold activeAfterSeeds in HF |- *.
    change (subscriptionSeed s') with (subscriptionSeed s).
    change (itemPlanIdByFieldPathIdentity s') with (itemPlanIdByFieldPathIdentity s).
    change (sideEffectPlanIdsByPathIdentity s') with (sideEffectPlanIdsByPathIdentity s).
    change (transformDependencyPlanIdByTransformPlanId s')
      with (transformDependencyPlanIdByTransformPlanId s).
    destruct (markSeeds false s (subscriptionSeed s) ∅) as [a1|] eqn:H1; [|done].
    rewrite (Hgo false (subscriptionSeed s) ∅ a1);
      [|intros d Hd; apply seedIds_split; tauto|exact H1].
    destruct (markSeeds true s (map snd (itemPlanIdByFieldPathIdentity s)) a1)
      as [a2|] eqn:H2; [|done].
    rewrite (Hgo true (map snd (itemPlanIdByFieldPathIdentity s)) a1 a2);
      [|intros d Hd; apply seedIds_split; tauto|exact H2].
    destruct (markSeeds true s
                (concat (map snd (sideEffectPlanIdsByPathIdentity s))) a2)
      as [a3|] eqn:H3; [|done].
    rewrite (Hgo true (concat (map snd (sideEffectPlanIdsByPathIdentity s))) a2 a3);
      [|intros d Hd; apply seedIds_split; tauto|exact H3].
    apply Hgo; [|exact HF]. intros d Hd. apply seedIds_split. tauto. }
  rewrite HF'. rewrite sweep_nothing by (intros i p Hp; by apply Hslots in Hp as [_ ?]).
  by rewrite <- withPlans_id.
Qed.

(** The aether of three plans, one of them needed by nothing, is shaken
    once and then stays as it is. *)
Lemma treeShakePlans_idempotent_witness :
  let s' := withPlans (λ _, [("_1", Some "_1"); ("_2", Some "_2"); ("_3", None)])
              shakeAether in
  @treeShakePlans (tableHost true []) shakeAether = (Ok tt, s', [])
  ∧ @treeShakePlans (tableHost true []) s' = (Ok tt, s', []).
Proof.
  intros s'.
  assert (Hrun : @treeShakePlans (tableHost true []) shakeAether = (Ok tt, s', []))
    by (vm_compute; reflexivity).
  split; [exact Hrun|].
  exact (@treeShakePlans_idempotent (tableHost true []) _ _ _ Hrun).
Defined.

(** ** What a plan may be replaced by during deduplication *)

Lemma arraysMatch_Forall2 {A} (cmp : A → A → bool) (a b : list A) :
  arraysMatch a b cmp = true ↔ Forall2 (λ x y, cmp x y = true) a b.
Proof.
  revert b. induction a as [|x a IH]; intros [|y b]; simpl.
  - split; [constructor|done].
  - split; [done|inversion 1].
  - split; [done|inversion 1].
  - rewrite andb_true_iff, IH. split.
    + intros [? ?]. by constructor.
    + inversion 1; subst. done.
Qed.

Lemma isPeer_interchangeable (s : Aether) (planA planB : ExecutablePlan) :
  isPeer s planA planB = true ↔ interchangeable s planA planB.
Proof.
  unfold isPeer, interchangeable.
  case_bool_decide as Hc; simpl; [|naive_solver].
  destruct (String.eqb_spec (parentPathIdentity planA) (parentPathIdentity planB))
    as [Hp|Hp]; simpl; [|naive_solver].
  destruct (arraysMatch _ _ _) eqn:Hm; simpl.
  - apply arraysMatch_Forall2 in Hm. split; [intros _|done].
    split_and!; [done..|]. eapply Forall2_impl; [exact Hm|].
    intros x y Hxy. by apply bool_decide_eq_true in Hxy.
  - split; [done|]. intros (_ & _ & Hdeps).
    assert (arraysMatch (dependencies planA) (dependencies planB)
              (λ depA depB,
                 bool_decide (lookupKey depA (plans s) = lookupKey depB (plans s)))
            = true); [|congruence].
    apply arraysMatch_Forall2. eapply Forall2_impl; [exact Hdeps|].
    intros x y Hxy. by apply bool_decide_eq_true.
Qed.

(** X8. [isPeer] is an equivalence on plan objects. *)
Theorem isPeer_equivalence (s : Aether) :
  Equivalence (λ planA planB, isPeer s planA planB = true).
Proof.
  split.
  - intros a. apply isPeer_interchangeable. split_and!; [done..|].
    by apply Forall_Forall2_diag, Forall_forall.
  - intros a b (Hc & Hp & Hd)%isPeer_interchangeable.
    apply isPeer_interchangeable. split_and!; [done..|].
    apply Forall2_flip. eapply Forall2_impl; [exact Hd|]. done.
  - intros a b c (Hc & Hp & Hd)%isPeer_interchangeable
      (Hc' & Hp' & Hd')%isPeer_interchangeable.
    apply isPeer_interchangeable. split_and!; [congruence..|].
    eapply Forall2_trans; [|exact Hd|exact Hd']. intros x y z. simpl. congruence.
Qed.

Lemma findPeers_sound (s : Aether) (o : ExecutablePlan)
  (entries : list (string * option string)) (seenIds : gset string)
  (peers : list string) :
  findPeers s o entries seenIds = Ok peers →
  ∀ r, r ∈ peers →
    (r, Some r) ∈ entries ∧ (r ∉ seenIds)
    ∧ ∃ o', objects s !! r = Some o' ∧ hasSideEffects o' = false
            ∧ isPeer s o o' = true.
Proof.
  revert seenIds peers.
  induction entries as [|[id [p|]] entries IH]; intros seenIds peers Hrun r Hr;
    simpl in Hrun.
  - injection Hrun as <-. set_solver.
  - destruct (objects s !! p) as [o'|] eqn:Ho'; [|discriminate Hrun].
    destruct (String.eqb p id && negb (hasSideEffects o')
              && negb (bool_decide (p ∈ seenIds)) && isPeer s o o') eqn:Hcond.
    + destruct (findPeers s o entries ({[p]} ∪ seenIds)) as [peers'|] eqn:Hrest;
        [|discriminate Hrun].
      injection Hrun as <-.
      apply andb_true_iff in Hcond as [Hcond Hpeer].
      apply andb_true_iff in Hcond as [Hcond Hseen].
      apply andb_true_iff in Hcond as [Hid Hside].
      apply String.eqb_eq in Hid as <-.
      apply negb_true_iff in Hside. apply negb_true_iff, bool_decide_eq_false in Hseen.
      apply elem_of_cons in Hr as [->|Hr].
      * split; [set_solver|]. split; [done|]. by exists o'.
      * destruct (IH _ _ Hrest r Hr) as (Hin & Hnew & Ho).
        split; [set_solver|]. split; [set_solver|done].
    + destruct (IH _ _ Hrun r Hr) as (Hin & Hnew & Ho).
      split; [set_solver|]. split; [done|done].
  - destruct (IH _ _ Hrun r Hr) as (Hin & Hnew & Ho).
    split; [set_solver|]. split; [done|done].
Qed.

(** X7. When [deduplicatePlan] returns another plan than the one it was
    given, neither of the two has side effects, the given plan is not
    streamed, the other plan sits in the table under its own id, as the table
    was before the plan's [deduplicate] method ran, and the two are
    interchangeable: of one class, under one parent path identity, with
    dependencies that resolve to the same plans. *)
Theorem deduplicatePlan_replaces_by_peer `{Host} (plan r : string)
  (s s' : Aether) (w : list Event) :
  deduplicatePlan plan s = (Ok r, s', w) → r ≠ plan →
  ∃ o o', objects s !! plan = Some o ∧ hasSideEffects o = false
          ∧ shouldStream s plan = false
          ∧ (r, Some r) ∈ plans s
          ∧ objects s !! r = Some o' ∧ hasSideEffects o' = false
          ∧ interchangeable s o o'.
Proof.
  intros Hrun Hne. unfold deduplicatePlan in Hrun.
  destruct (objects s !! plan) as [o|] eqn:Ho.
  2:{ unfold bind, object in Hrun. rewrite Ho in Hrun. discriminate Hrun. }
  rewrite (bind_run_silent _ _ s s o (object_run _ _ _ Ho)) in Hrun.
  destruct (hasSideEffects o) eqn:Hside.
  { injection Hrun as -> _ _. done. }
  rewrite bind_gets in Hrun.
  destruct (shouldStream s plan) eqn:Hstream.
  { injection Hrun as -> _ _. done. }
  rewrite bind_gets, bind_liftResult in Hrun.
  destruct (findPeers s o (plans s) {[plan]}) as [peers|] eqn:Hpeers;
    [|discriminate Hrun].
  destruct peers as [|peer peers].
  { injection Hrun as -> _ _. done. }
  unfold bind, emit, call in Hrun.
  destruct (deduplicate plan (peer :: peers) s) as [[replacementPlan|e] s1]; simpl in Hrun;
    [|discriminate Hrun].
  case_bool_decide as Hrep; simpl in Hrun.
  2:{ injection Hrun as -> _ _. done. }
  case_bool_decide as Hin; simpl in Hrun; [|discriminate Hrun].
  injection Hrun as -> _ _.
  destruct (findPeers_sound s o _ _ _ Hpeers r Hin) as (Hentry & _ & o' & Ho' & Hside' & Hpeer).
  exists o, o'. split_and!; try done. by apply isPeer_interchangeable.
Qed.

(** The unstreamed twin [_2] is replaced by [_1], its peer. *)
Lemma deduplicatePlan_replaces_by_peer_witness :
  ∃ o o', objects (twinsAether false) !! "_2" = Some o ∧ hasSideEffects o = false
          ∧ shouldStream (twinsAether false) "_2" = false
          ∧ ("_1", Some "_1") ∈ plans (twinsAether false)
          ∧ objects (twinsAether false) !! "_1" = Some o' ∧ hasSideEffects o' = false
          ∧ interchangeable (twinsAether false) o o'.
Proof.
  apply (@deduplicatePlan_replaces_by_peer (tableHost true []) "_2" "_1"
           (twinsAether false) (twinsAether false) [CallDeduplicate "_2" ["_1"]]).
  - vm_compute. reflexivity.
  - discriminate.
Defined.

(** ** Who may ask for a plan *)

Lemma optimizePlan_records `{Host} (plan r : string) (s s' : Aether)
  (w : list Event) :
  optimizePlan plan s = (Ok r, s', w) → plan ∈ optimizedPlans s'.
Proof.
  unfold optimizePlan. rewrite bind_gets. case_bool_decide; [discriminate|].
  rewrite bind_gets. unfold bind, emit, call, addOptimized, ret.
  destruct (optimize plan _ s) as [[r1|e] s1]; simpl; [|discriminate].
  intros [= <- <- <-]. simpl. set_solver.
Qed.

(** X9. Once [optimizePlan] has returned for a plan, [isOptimized] says so,
    and every [getPlan] that plan makes is refused in development mode, whatever
    id it asks for; in production the same call is the bare table lookup. *)
Theorem getPlan_refuses_optimized_plan `{Host} (plan r : string)
  (s s' : Aether) (w : list Event) :
  optimizePlan plan s = (Ok r, s', w) →
  isOptimized plan s' = (Ok true, s', [])
  ∧ (isDev = true →
     ∀ id, ∃ message, getPlan id plan s' = (Throw (Error message), s', []))
  ∧ (isDev = false →
     ∀ id, getPlan id plan s' = (Ok (planAt (plans s') id), s', [])).
Proof.
  intros Hin%optimizePlan_records. split_and!.
  - unfold isOptimized, gets. by rewrite bool_decide_eq_true_2.
  - intros Hdev id. unfold getPlan. rewrite Hdev, bind_gets.
    destruct (negb _); [by eexists|]. rewrite bind_gets.
    rewrite bool_decide_eq_true_2 by done. by eexists.
  - intros Hdev id. unfold getPlan. by rewrite Hdev.
Qed.

(** In [optimizeAether] the plan [_3] is optimized into [_2]; asking for
    [_1] afterwards is refused. *)
Lemma getPlan_refuses_optimized_plan_witness :
  ∃ s' message, @optimizePlan optimizeHost "_3" optimizeAether
                = (Ok "_2", s', [CallOptimize "_3" None])
    ∧ @getPlan optimizeHost "_1" "_3" s' = (Throw (Error message), s', []).
Proof.
  pose (s' := (@optimizePlan optimizeHost "_3" optimizeAether).1.2).
  assert (Hrun : @optimizePlan optimizeHost "_3" optimizeAether
                 = (Ok "_2", s', [CallOptimize "_3" None]))
    by (vm_compute; reflexivity).
  destruct (@getPlan_refuses_optimized_plan optimizeHost _ _ _ _ _ Hrun)
    as (_ & Hdev & _).
  destruct (Hdev eq_refl "_1") as [message Hmessage].
  exists s', message. split; [exact Hrun|exact Hmessage].
Defined.

(** X10. After tree shaking, asking in development mode for the id of a plan
    that was not reachable is answered with the error that the plan no longer
    exists, when the phase allows asking and the asking plan has not been
    optimized; in production the answer is [null]. *)
Theorem getPlan_after_treeShakePlans `{Host} (id p requestingPlan : string)
  (s s' : Aether) (w : list Event) :
  treeShakePlans s = (Ok tt, s', w) →
  planAt (plans s) id = Some p → ¬ reachable s p →
  phase s ∈ planCreationPhases → requestingPlan ∉ optimizedPlans s →
  getPlan id requestingPlan s'
  = if isDev
    then (Throw (Error ("Programming error: plan with id '" +:+ id
                        +:+ "' no longer exists")), s', [])
    else (Ok None, s', []).
Proof.
  intros Hrun Hp Hunreachable Hphase Hrequesting.
  rewrite treeShakePlans_run in Hrun.
  destruct (activeAfterSeeds s) as [F|e] eqn:HF; [|discriminate Hrun].
  pose proof (activeAfterSeeds_reachable s F HF) as HFr.
  injection Hrun as <- <-. set (s' := withPlans _ s).
  assert (Hgone : planAt (plans s') id = None).
  { destruct (planAt (plans s') id) as [q|] eqn:Hq; [|done].
    apply planAt_sweep in Hq as [Hq HqF]. rewrite Hp in Hq. injection Hq as ->.
    by apply HFr in HqF. }
  unfold getPlan. destruct isDev; [|unfold slot, gets; by rewrite Hgone].
  rewrite bind_gets. change (phase s') with (phase s).
  rewrite bool_decide_eq_true_2 by done. simpl. rewrite bind_gets.
  change (optimizedPlans s') with (optimizedPlans s).
  rewrite bool_decide_eq_false_2 by done.
  unfold slot. rewrite bind_gets, Hgone. reflexivity.
Qed.

(** In [shakeAether] nothing reaches [_3]; after the shake its id is
    answered with the error. *)
Lemma getPlan_after_treeShakePlans_witness :
  let s' := withPlans (λ _, [("_1", Some "_1"); ("_2", Some "_2"); ("_3", None)])
              shakeAether in
  @getPlan (tableHost true []) "_3" "_2" s'
  = (Throw (Error "Programming error: plan with id '_3' no longer exists"), s', []).
Proof.
  intros s'.
  apply (@getPlan_after_treeShakePlans (tableHost true []) "_3" "_3" "_2"
           shakeAether s' []).
  - vm_compute. reflexivity.
  - reflexivity.
  - pose (F := match @activeAfterSeeds (tableHost true []) shakeAether with
               | Ok F => F
               | Throw _ => ∅
               end).
    assert (HF : @activeAfterSeeds (tableHost true []) shakeAether = Ok F)
      by (vm_compute; reflexivity).
    intros Hr%(activeAfterSeeds_reachable _ F HF).
    assert (Hout : bool_decide ("_3" ∈ F) = false) by (vm_compute; reflexivity).
    by apply bool_decide_eq_false in Hout.
  - vm_compute. set_solver.
  - vm_compute. set_solver.
Defined.

(** ** The member types of a union or interface agree about plans *)

Lemma typesAgree_spec (name first : string) (types : list ObjectType)
  (had : bool) (i : nat) :
  match typesAgree name first types (Some had) i with
  | Ok r => r = Some had ∧ Forall (λ t, hasPlan t = had) types
  | Throw e =>
      ∃ before type after,
        types = before ++ type :: after
        ∧ Forall (λ t, hasPlan t = had) before ∧ hasPlan type ≠ had
        ∧ e = planDisagreement name first had (objectTypeName type)
                (i + length before) (hasPlan type)
  end.
Proof.
  revert i. induction types as [|t types IH]; intros i; simpl.
  - split; [done|constructor].
  - destruct (eqb (hasPlan t) had) eqn:Hsame; simpl.
    + apply eqb_prop in Hsame. specialize (IH (S i)).
      destruct (typesAgree name first types (Some had) (S i)) as [r|e].
      * destruct IH as [-> Hall]. split; [done|]. by constructor.
      * destruct IH as (before & type & after & -> & Hbefore & Htype & ->).
        exists (t :: before), type, after. split_and!; try done.
        -- by constructor.
        -- simpl. do 2 f_equal. lia.
    + exists [], t, types. split_and!; try done.
      * intros Heq. rewrite Heq, eqb_reflx in Hsame. discriminate.
      * simpl. by rewrite Nat.add_0_r.
Qed.

(** X11. For a union or an interface, [isTypePlanned] answers [true] exactly
    when there is a member type and every member type has a plan, [false]
    exactly when no member type has one, and throws exactly when some member
    type differs from the first; the error then names the first member that
    differs, with its index.  An object type is planned when it has a plan,
    and any other named type is not. *)
Theorem isTypePlanned_members_agree (schema : Schema) (namedType : NamedType) :
  let types := memberTypes schema namedType in
  match isTypePlanned schema namedType with
  | Ok planned =>
      Forall (λ t, hasPlan t = planned) types ∧ (types = [] → planned = false)
  | Throw e =>
      ∃ name first before type after,
        types = first :: before ++ type :: after
        ∧ Forall (λ t, hasPlan t = hasPlan first) before
        ∧ hasPlan type ≠ hasPlan first
        ∧ e = planDisagreement name (objectTypeName first) (hasPlan first)
                (objectTypeName type) (S (length before)) (hasPlan type)
  end.
Proof.
  assert (Hcase : ∀ name types,
    match match typesAgree name
                  (match types with t :: _ => objectTypeName t | [] => "undefined" end)
                  types None 0 with
          | Ok (Some firstHadPlan) => Ok firstHadPlan
          | Ok None => Ok false
          | Throw e => Throw e
          end with
    | Ok planned =>
        Forall (λ t, hasPlan t = planned) types ∧ (types = [] → planned = false)
    | Throw e =>
        ∃ name first before type after,
          types = first :: before ++ type :: after
          ∧ Forall (λ t, hasPlan t = hasPlan first) before
          ∧ hasPlan type ≠ hasPlan first
          ∧ e = planDisagreement name (objectTypeName first) (hasPlan first)
                  (objectTypeName type) (S (length before)) (hasPlan type)
    end).
  { intros name [|first types]; simpl; [by split|].
    pose proof (typesAgree_spec name (objectTypeName first) types (hasPlan first) 1)
      as Hspec.
    destruct (typesAgree name (objectTypeName first) types (Some (hasPlan first)) 1)
      as [r|e].
    - destruct Hspec as [-> Hall]. split; [by constructor|done].
    - destruct Hspec as (before & type & after & -> & Hbefore & Htype & ->).
      by exists name, first, before, type, after. }
  destruct namedType as [type|name types|name|name]; simpl.
  - split; [by repeat constructor|done].
  - apply Hcase.
  - apply Hcase.
  - split; [constructor|done].
Qed.

(** ** Every live plan is finalized once, the latest slot first *)

Lemma setAdd_elem (x y : string) (l : list string) :
  y ∈ setAdd x l ↔ y = x ∨ y ∈ l.
Proof. unfold setAdd. case_bool_decide; set_solver. Qed.

Lemma setAdd_NoDup (x : string) (l : list string) : NoDup l → NoDup (setAdd x l).
Proof.
  unfold setAdd. intros Hl. case_bool_decide; [done|].
  apply NoDup_app. split_and!; [done|set_solver|apply NoDup_singleton].
Qed.

Lemma fold_setAdd_reverse (l : list string) :
  fold_left (λ acc x, setAdd x acc) (reverse l) [] = reverse (remove_dups l).
Proof.
  induction l as [|x l IH]; [done|].
  rewrite reverse_cons, fold_left_app, IH. simpl. unfold setAdd.
  destruct (decide_rel elem_of x l) as [Hin|Hout].
  - rewrite bool_decide_eq_true_2; [done|]. by apply elem_of_reverse, elem_of_remove_dups.
  - rewrite bool_decide_eq_false_2; [by rewrite reverse_cons|].
    by rewrite elem_of_reverse, elem_of_remove_dups.
Qed.

Lemma collectActivePlans_run (s : Aether) (ids : list string) (acc : list string) :
  (∀ i, i ∈ ids → is_Some (lookupKey i (plans s))) →
  (∀ i p, planAt (plans s) i = Some p → is_Some (objects s !! p)) →
  collectActivePlans s ids acc
  = Ok (fold_left (λ acc x, setAdd x acc) (omap (planAt (plans s)) ids) acc).
Proof.
  intros Hkeys Hobjects. revert acc.
  induction ids as [|i ids IH]; intros acc; [done|]. simpl.
  destruct (Hkeys i ltac:(set_solver)) as [v Hv].
  unfold planAt at 1. rewrite Hv. destruct v as [p|]; simpl.
  - destruct (Hobjects i p) as [o ->]; [unfold planAt; by rewrite Hv|].
    apply IH. intros j Hj. apply Hkeys. set_solver.
  - apply IH. intros j Hj. apply Hkeys. set_solver.
Qed.

Lemma lookupKey_NoDup {V} (o : list (string * V)) (k : string) (v : V) :
  NoDup (map fst o) → (k, v) ∈ o → lookupKey k o = Some v.
Proof.
  induction o as [|[k' v'] o IH]; simpl; [set_solver|].
  intros Hnd Hin. apply NoDup_cons in Hnd as [Hk' Hnd].
  destruct (String.eqb_spec k' k) as [->|Hne].
  - apply elem_of_cons in Hin as [[= ->]|Hin]; [done|].
    exfalso. apply Hk'. apply list_elem_of_fmap. by exists (k, v).
  - apply IH; [done|]. set_solver.
Qed.

Lemma omap_planAt_keys (t : list (string * option string)) :
  NoDup (map fst t) → omap (planAt t) (map fst t) = omap snd t.
Proof.
  intros Hnd.
  assert (Hgen : ∀ l, l ⊆ t → omap (planAt t) (map fst l) = omap snd l).
  { induction l as [|[k v] l IH]; intros Hsub; [done|].
    change (map fst ((k, v) :: l)) with (k :: map fst l).
    cbn [omap list_omap snd]. rewrite IH by set_solver. unfold planAt.
    rewrite (lookupKey_NoDup t k v Hnd) by set_solver. by destruct v. }
  by apply Hgen.
Qed.

Section FinalizeEach.
Context {P : Type}.
Variable finalize : string → Aether * P → Result unit * (Aether * P).
Variable assertFinalized : string → Aether * P → Result unit * (Aether * P).

Lemma finalizeEach_calls (plans : list string) (st : Aether * P) :
  (finalizeEach finalize assertFinalized plans st).2 `prefix_of` plans
  ∧ ((finalizeEach finalize assertFinalized plans st).1.1 = Ok tt →
     (finalizeEach finalize assertFinalized plans st).2 = plans).
Proof.
  revert st. induction plans as [|plan rest IH]; intros st; simpl.
  - split; [done|done].
  - destruct (finalize plan st) as [[[]|e] st1].
    2:{ split; [by apply prefix_cons, prefix_nil|done]. }
    destruct (assertFinalized plan st1) as [[[]|e] st2].
    2:{ split; [by apply prefix_cons, prefix_nil|done]. }
    specialize (IH st2).
    destruct (finalizeEach finalize assertFinalized rest st2) as [[r st3] calls].
    simpl in IH |- *. destruct IH as [Hprefix Hall].
    split; [by apply prefix_cons|]. intros Hr. by rewrite Hall.
Qed.

End FinalizeEach.

(** X12. [finalizePlans] collects the plans before it calls any of them: the
    plans found in the slots of the table, each once however many slots hold
    it, ordered by the last slot that holds them, last slot first.  It calls
    [finalize] on them in that order, on none twice, stopping at the first
    plan whose [finalize] or [assertFinalized] throws; when it returns, every
    plan in a slot has been called. *)
Theorem finalizePlans_each_live_plan_once {P : Type}
  (finalize assertFinalized : string → Aether * P → Result unit * (Aether * P))
  (st : Aether * P) :
  NoDup (map fst (plans st.1)) →
  (∀ i p, planAt (plans st.1) i = Some p → is_Some (objects st.1 !! p)) →
  let run := finalizePlans finalize assertFinalized st in
  run.2 `prefix_of` livePlansLastFirst st.1
  ∧ (run.1.1 = Ok tt → run.2 = livePlansLastFirst st.1)
  ∧ NoDup run.2
  ∧ ∀ p, p ∈ livePlansLastFirst st.1 ↔ ∃ i, planAt (plans st.1) i = Some p.
Proof.
  intros Hkeys Hobjects run. subst run. unfold finalizePlans.
  rewrite drop_0, collectActivePlans_run; [|intros i Hi|done].
  2:{ apply elem_of_reverse, list_elem_of_fmap in Hi as [[k v] [-> Hin]].
      exists v. by apply lookupKey_NoDup. }
  assert (Horder : fold_left (λ acc x, setAdd x acc)
                     (omap (planAt (plans st.1)) (reverse (map fst (plans st.1)))) []
                   = livePlansLastFirst st.1).
  { unfold livePlansLastFirst. rewrite <- fold_setAdd_reverse.
    rewrite <- (omap_planAt_keys _ Hkeys). f_equal.
    generalize (map fst (plans st.1)) as l. intros l.
    induction l as [|i l IH]; [done|].
    rewrite reverse_cons, omap_app, IH. simpl.
    destruct (planAt (plans st.1) i); simpl.
    - by rewrite reverse_cons.
    - by rewrite app_nil_r. }
  rewrite Horder.
  destruct (finalizeEach_calls finalize assertFinalized (livePlansLastFirst st.1) st)
    as [Hprefix Hall].
  split_and!; [done|done| |].
  - destruct Hprefix as [rest Hrest].
    assert (Hnd : NoDup (livePlansLastFirst st.1))
      by (unfold livePlansLastFirst; rewrite reverse_Permutation;
          apply NoDup_remove_dups).
    rewrite Hrest in Hnd. by apply NoDup_app in Hnd as [? _].
  - intros p. unfold livePlansLastFirst.
    rewrite elem_of_reverse, elem_of_remove_dups, list_elem_of_omap. split.
    + intros ([i v] & Hin & Hv). simpl in Hv. subst v. exists i.
      unfold planAt. by rewrite (lookupKey_NoDup _ _ _ Hkeys Hin).
    + intros [i Hi]. exists (i, Some p). split; [|done].
      apply planAt_is_Some_key in Hi. by apply lookupKey_Some_key in Hi as [_ ?].
Qed.

(** In [aliasedAether] the slots [_1] and [_2] hold one plan: [finalize] is
    called on [_3] and then on [_1], once each. *)
Lemma finalizePlans_each_live_plan_once_witness :
  (finalizePlans recordFinalized checkFinalized (aliasedAether, ∅)).2 = ["_3"; "_1"]
  ∧ livePlansLastFirst aliasedAether = ["_3"; "_1"].
Proof.
  destruct (finalizePlans_each_live_plan_once recordFinalized checkFinalized
              (aliasedAether, ∅)) as (_ & Hall & _ & _).
  - by apply (bool_decide_unpack _).
  - intros i p Hp. unfold planAt in Hp. cbn -[String.eqb] in Hp.
    destruct (String.eqb_spec "_1" i); [injection Hp as <-; vm_compute; eauto|].
    destruct (String.eqb_spec "_2" i); [injection Hp as <-; vm_compute; eauto|].
    destruct (String.eqb_spec "_3" i); [injection Hp as <-; vm_compute; eauto|].
    discriminate Hp.
  - split; [|vm_compute; reflexivity]. rewrite Hall; vm_compute; reflexivity.
Defined.

(** ** The recursive dependencies of a plan *)

Lemma fold_setAdd_elem (xs acc : list string) (y : string) :
  y ∈ fold_left (λ ids x, setAdd x ids) xs acc ↔ y ∈ acc ∨ y ∈ xs.
Proof.
  revert acc. induction xs as [|x xs IH]; intros acc; simpl; [set_solver|].
  rewrite IH, setAdd_elem. set_solver.
Qed.

Lemma fold_setAdd_NoDup (xs acc : list string) :
  NoDup acc → NoDup (fold_left (λ ids x, setAdd x ids) xs acc).
Proof.
  revert acc. induction xs as [|x xs IH]; intros acc Hacc; simpl; [done|].
  by apply IH, setAdd_NoDup.
Qed.

Lemma dependsOn_unfold (s : Aether) (p x : string) :
  dependsOn s p x
  ↔ ∃ q, dependsDirectlyOn s p q ∧ (x = q ∨ dependsOn s q x).
Proof.
  split.
  - destruct 1 as [p q Hq|p q r Hq Hr]; exists q; eauto.
  - intros (q & Hq & [->|Hx]); [by apply dependsOn_direct|].
    by apply (dependsOn_further s p q x).
Qed.

Section Walk.
Context `{Host} (s : Aether) (rank : string → nat).
Hypothesis counted : tableCounted s.
Hypothesis own_slot : inOwnSlot s.
Hypothesis resolve : dependenciesResolve s.
Hypothesis ranked : rankedBelow s rank stack.

Lemma dependenciesOf_run (deps first : list string) :
  (∀ depId, depId ∈ deps → is_Some (planAt (plans s) depId)) →
  ∃ first', dependenciesOf s deps first = Ok first'
    ∧ ∀ q, q ∈ first' ↔ q ∈ first ∨ ∃ depId, depId ∈ deps ∧ planAt (plans s) depId = Some q.
Proof.
  revert first. induction deps as [|depId deps IH]; intros first Hdeps; simpl.
  - exists first. split; [done|]. set_solver.
  - destruct (Hdeps depId ltac:(set_solver)) as [q Hq]. rewrite Hq.
    destruct (IH (setAdd q first) ltac:(set_solver)) as (first' & -> & Hfirst').
    exists first'. split; [done|]. intros x. rewrite Hfirst', setAdd_elem. split.
    + intros [[->|?]|(d & ? & ?)]; [right; exists depId|by left|right; exists d];
        set_solver.
    + intros [?|(d & [->|?]%elem_of_cons & Hd)]; [tauto| |right; by exists d].
      left. left. congruence.
Qed.

Lemma processFirst_walk rec (p : string) (first : list string)
  (st : gset string * gmap string (list string)) :
  livePlan s p → (∀ d, d ∈ first → livePlan s d) →
  (∀ d st, d ∈ first → walked s st →
     ∃ st', rec (Some d) st s = (Ok st', s, [])
            ∧ walked s st' ∧ st.1 ⊆ st'.1 ∧ d ∈ st'.1) →
  walked s st →
  ∃ st', processFirst rec p first st s = (Ok (false, st'), s, [])
         ∧ walked s st' ∧ st.1 ⊆ st'.1 ∧ ∀ d, d ∈ first → d ∈ st'.1.
Proof.
  intros Hp. revert st. induction first as [|d first IH]; intros st Hlive Hrec Hst.
  - exists st. split; [done|]. set_solver.
  - simpl. unfold slot. rewrite bind_gets.
    rewrite (own_slot d) by (apply Hlive; set_solver).
    case_bool_decide as Hd.
    + destruct (IH st) as (st' & -> & Hst' & Hsub & Hall); [set_solver|..|done|].
      { intros d' st0 Hd'. apply Hrec. set_solver. }
      exists st'. split; [done|]. split; [done|]. split; [done|].
      intros d' [->|Hd']%elem_of_cons; [set_solver|by apply Hall].
    + destruct (Hrec d st ltac:(set_solver) Hst) as (st1 & Hrun & Hst1 & Hsub1 & Hd1).
      rewrite (bind_run_silent _ _ s s st1 Hrun), bind_gets, (own_slot p Hp).
      destruct (IH st1) as (st' & -> & Hst' & Hsub & Hall); [set_solver|..|done|].
      { intros d' st0 Hd'. apply Hrec. set_solver. }
      exists st'. split; [done|]. split; [done|]. split; [set_solver|].
      intros d' [->|Hd']%elem_of_cons; [set_solver|by apply Hall].
Qed.


Lemma addRecursiveDependencies_run (p : string) (deps : list string)
  (ids : gmap string (list string)) (own : list string) :
  ids !! p = Some own → NoDup own →
  (∀ depId, depId ∈ deps →
     ∃ d, planAt (plans s) depId = Some d ∧ d ≠ p ∧ is_Some (ids !! d)) →
  ∃ own', addRecursiveDependencies p deps ids s = (Ok (<[p := own']> ids), s, [])
    ∧ NoDup own'
    ∧ ∀ x, x ∈ own' ↔
        x ∈ own ∨ ∃ depId d l, depId ∈ deps ∧ planAt (plans s) depId = Some d
                               ∧ ids !! d = Some l ∧ (x = d ∨ x ∈ l).
Proof.
  revert ids own. induction deps as [|depId deps IH]; intros ids own Hown Hnd Hdeps.
  - exists own. rewrite insert_id by done. split; [done|]. split; [done|]. set_solver.
  - simpl. unfold dangerouslyGetPlan, slot. rewrite bind_gets, Hown.
    destruct (Hdeps depId ltac:(set_solver)) as (d & Hd & Hne & [l Hl]). rewrite Hd.
    rewrite lookup_insert_ne by done. rewrite Hl.
    set (own2 := fold_left _ l (setAdd d own)).
    rewrite insert_insert_eq.
    destruct (IH (<[p := own2]> ids) own2) as (own' & Hrun & Hnd' & Hown').
    { by rewrite lookup_insert_eq. }
    { by apply fold_setAdd_NoDup, setAdd_NoDup. }
    { intros depId' Hin. destruct (Hdeps depId' ltac:(set_solver)) as (d' & Hd' & Hne' & Hl').
      exists d'. split; [done|]. split; [done|]. by rewrite lookup_insert_ne. }
    exists own'. rewrite Hrun, insert_insert_eq. split; [done|]. split; [done|].
    intros x. rewrite Hown'. unfold own2. rewrite fold_setAdd_elem, setAdd_elem. split.
    + intros [[[->|Hx]|Hx]|(depId' & d' & l' & Hin & Hd' & Hl' & Hx)].
      * right. exists depId, d, l. split_and!; [set_solver|done|done|by left].
      * by left.
      * right. exists depId, d, l. split_and!; [set_solver|done|done|by right].
      * right. exists depId', d', l'. split_and!; [set_solver|done| |done].
        destruct (Hdeps depId' ltac:(set_solver)) as (d'' & Hd'' & Hne' & _).
        rewrite Hd' in Hd''. injection Hd'' as <-. by rewrite lookup_insert_ne in Hl'.
    + intros [Hx|(depId' & d' & l' & [->|Hin]%elem_of_cons & Hd' & Hl' & Hx)].
      * left. left. by right.
      * rewrite Hd in Hd'. injection Hd' as <-. rewrite Hl in Hl'. injection Hl' as <-.
        left. destruct Hx as [->|Hx]; [left; by left|by right].
      * right. exists depId', d', l'. split_and!; [done|done| |done].
        destruct (Hdeps depId' ltac:(set_solver)) as (d'' & Hd'' & Hne' & _).
        rewrite Hd' in Hd''. injection Hd'' as <-. by rewrite lookup_insert_ne.
Qed.


Lemma rethrowing_returns {A} (message : string) (m : M A) (a : A) :
  m s = (Ok a, s, []) → rethrowing message m s = (Ok a, s, []).
Proof. intros Hm. unfold rethrowing. by rewrite Hm. Qed.

Lemma walkCallback_run (p : string) (st : gset string * gmap string (list string)) :
  livePlan s p → walked s st → (∀ d, dependsDirectlyOn s p d → d ∈ st.1) →
  ∃ ids', walkCallback p st.2 s = (Ok (p, ids'), s, [])
          ∧ walked s ({[p]} ∪ st.1, ids').
Proof.
  intros Hp Hst Hfirst.
  destruct (resolve p Hp) as (o & Ho & Hdeps).
  destruct (Hst p Hp) as (own & Hown & Hnd & Hsound & _).
  destruct ranked as [Hdown _].
  destruct (addRecursiveDependencies_run p (dependencies o) st.2 own Hown Hnd)
    as (own' & Hrun & Hnd' & Hown').
  { intros depId Hin. destruct (Hdeps depId Hin) as [d Hd]. exists d.
    assert (Hdirect : dependsDirectlyOn s p d) by (by exists o, depId).
    split; [done|]. split.
    - intros ->. specialize (Hdown p p Hp Hdirect). lia.
    - destruct (Hst d) as (l & Hl & _); [by exists depId|by exists l]. }
  exists (<[p := own']> st.2). split.
  { unfold walkCallback. rewrite (bind_run_silent _ _ s s o (object_run _ _ _ Ho)).
    rewrite (bind_run_silent _ _ s s _ Hrun). reflexivity. }
  intros q Hq. simpl. destruct (decide (q = p)) as [->|Hne].
  - exists own'. rewrite lookup_insert_eq. split; [done|]. split; [done|]. split.
    + intros x [Hx|(depId & d & l & Hin & Hd & Hl & Hx)]%Hown'; [by apply Hsound|].
      assert (Hdirect : dependsDirectlyOn s p d) by (by exists o, depId).
      destruct Hx as [->|Hx]; [by apply dependsOn_direct|].
      apply (dependsOn_further s p d x Hdirect).
      destruct (Hst d) as (l' & Hl' & _ & Hsound' & _); [by exists depId|].
      rewrite Hl in Hl'. injection Hl' as <-. by apply Hsound'.
    + intros _ x (d & Hdirect & Hx)%dependsOn_unfold. apply Hown'. right.
      pose proof Hdirect as (o' & depId & Ho' & Hin & Hd).
      rewrite Ho in Ho'. injection Ho' as <-.
      destruct (Hst d) as (l & Hl & _ & _ & Hcomplete); [by exists depId|].
      exists depId, d, l. split_and!; [done..|].
      destruct Hx as [->|Hx]; [by left|]. right. apply Hcomplete; [|done].
      by apply Hfirst.
  - destruct (Hst q Hq) as (l & Hl & Hndl & Hsoundl & Hcompletel).
    exists l. rewrite lookup_insert_ne by done. split; [done|]. split; [done|].
    split; [done|]. intros Hin. apply Hcompletel. set_solver.
Qed.

Lemma process_walk (n : nat) (p : string)
  (st : gset string * gmap string (list string)) :
  livePlan s p → rank p < n → walked s st →
  ∃ st', process DependenciesFirst walkCallback None n (Some p) st s = (Ok st', s, [])
         ∧ walked s st' ∧ st.1 ⊆ st'.1 ∧ p ∈ st'.1.
Proof.
  revert p st. induction n as [|n IH]; intros p st Hp Hrank Hst; [lia|].
  simpl. case_bool_decide as Hseen.
  { exists st. split; [done|]. split; [done|]. split; [done|done]. }
  destruct (resolve p Hp) as (o & Ho & Hdeps).
  destruct (dependenciesOf_run (dependencies o) [] Hdeps) as (first & Hfirst & Hin).
  assert (Hrun1 : firstOf DependenciesFirst p s = (Ok first, s, [])).
  { unfold firstOf. rewrite bind_get.
    rewrite (bind_run_silent _ _ s s o (object_run _ _ _ Ho)).
    unfold liftResult. by rewrite Hfirst. }
  rewrite (bind_run_silent _ _ s s _ Hrun1).
  assert (Hdirect : ∀ d, d ∈ first ↔ dependsDirectlyOn s p d).
  { intros d. rewrite Hin. split.
    - intros [?|(depId & ? & ?)]; [set_solver|]. by exists o, depId.
    - intros (o' & depId & Ho' & ? & ?). rewrite Ho in Ho'. injection Ho' as <-.
      right. by exists depId. }
  destruct ranked as [Hdown _].
  destruct (processFirst_walk (process DependenciesFirst walkCallback None n)
              p first st Hp) as (st1 & Hrun2 & Hst1 & Hsub1 & Hall1); [| |done|].
  { intros d (o' & depId & _ & _ & Hd)%Hdirect. by exists depId. }
  { intros d st0 Hd%Hdirect Hst0. apply IH; [|specialize (Hdown p d Hp Hd); lia|done].
    destruct Hd as (o' & depId & _ & _ & Hd). by exists depId. }
  rewrite (bind_run_silent _ _ s s _ Hrun2). simpl. rewrite bind_gets.
  destruct (walkCallback_run p st1 Hp Hst1) as (ids' & Hrun3 & Hst').
  { intros d Hd%Hdirect. by apply Hall1. }
  rewrite (bind_run_silent _ _ s s _ (rethrowing_returns _ _ _ Hrun3)).
  rewrite (bind_run_silent _ _ s s tt)
    by (by apply reads_finalizeArgumentsSince).
  simpl. rewrite bool_decide_eq_false_2 by (intros Hne; by apply Hne).
  rewrite bind_ret. exists ({[p]} ∪ st1.1, ids'). split; [done|].
  split; [done|]. simpl. split; set_solver.
Qed.

End Walk.

(** X13. On a counted table whose plans sit in their own slots, have
    dependency ids that all resolve, and form a DAG less deep than the stack
    allows, with the field [_recursiveDependencyIds] of every plan empty,
    [walkFinalizedPlans] returns, leaves the aether as it was and logs
    nothing, and afterwards the field of every plan of the table holds,
    without repetition, exactly the plans reached from it along one or more
    dependency edges. *)
Theorem walkFinalizedPlans_collects_recursive_dependencies `{Host} (s : Aether)
  (rank : string → nat) (recursiveDependencyIds : gmap string (list string)) :
  tableCounted s → inOwnSlot s → dependenciesResolve s → rankedBelow s rank stack →
  (∀ p, livePlan s p → recursiveDependencyIds !! p = Some []) →
  ∃ recursiveDependencyIds',
    walkFinalizedPlans recursiveDependencyIds s = (Ok recursiveDependencyIds', s, [])
    ∧ ∀ p, livePlan s p →
        ∃ l, recursiveDependencyIds' !! p = Some l ∧ NoDup l
             ∧ ∀ x, x ∈ l ↔ dependsOn s p x.
Proof.
  intros Hcounted Hown Hresolve Hranked Hempty.
  unfold walkFinalizedPlans, processPlans, getPlanIds. rewrite !bind_gets, drop_0.
  assert (Hloop : ∀ (ids : list string) st,
    walked s st →
    ∃ st', forEach ids (st, 0, planCount s) (λ i acc,
             let* plan := slot i in
             let* st := process DependenciesFirst walkCallback None stack plan acc.1.1 in
             let* count := gets planCount in
             let plansAdded := acc.1.2 + (count - acc.2) in
             if isDev && (100000 <? N.of_nat plansAdded)%N then
               throw (Error ("Whilst processing plans as part of " +:+ "walking"
                             +:+ "Plans, too many new plans have been created"))
             else ret (st, plansAdded, count)) s
           = (Ok (st', 0, planCount s), s, [])
           ∧ walked s st' ∧ st.1 ⊆ st'.1
           ∧ ∀ i p, i ∈ ids → planAt (plans s) i = Some p → p ∈ st'.1).
  { induction ids as [|i ids IH]; intros st Hst.
    - exists st. split; [done|]. split; [done|]. set_solver.
    - assert (∃ st1, process DependenciesFirst walkCallback None stack
                       (planAt (plans s) i) st s = (Ok st1, s, [])
                     ∧ walked s st1 ∧ st.1 ⊆ st1.1
                     ∧ ∀ p, planAt (plans s) i = Some p → p ∈ st1.1)
        as (st1 & Hrun & Hst1 & Hsub & Hi).
      { destruct (planAt (plans s) i) as [p|] eqn:Hp.
        - destruct (process_walk s rank Hcounted Hown Hresolve Hranked stack p st)
            as (st1 & Hrun & Hst1 & Hsub & Hin); [by exists i| |done|].
          { destruct Hranked as [_ Hbound]. apply Hbound. by exists i. }
          exists st1. split_and!; try done. by intros ? [= <-].
        - exists st. split; [by destruct stack|]. split_and!; done. }
      destruct (IH st1 Hst1) as (st' & Hrun' & Hst' & Hsub' & Hall).
      exists st'. split; [|split; [done|]].
      + cbn [forEach]. erewrite bind_run_silent; [exact Hrun'|].
        unfold slot. rewrite bind_gets. cbn [fst snd].
        rewrite (bind_run_silent _ _ s s _ Hrun), bind_gets.
        rewrite Nat.sub_diag. cbn [Nat.add N.of_nat N.ltb N.compare].
        by rewrite andb_false_r.
      + split; [set_solver|].
        intros j p [->|Hj]%elem_of_cons Hp; [|by apply (Hall j)].
        specialize (Hi p Hp). set_solver. }
  destruct (Hloop (map fst (plans s)) (∅, recursiveDependencyIds))
    as (st' & Hrun & Hst' & _ & Hall).
  { intros p Hp. exists []. simpl. split; [by apply Hempty|].
    split; [constructor|]. split; [set_solver|set_solver]. }
  rewrite (bind_run_silent _ _ s s _ Hrun), bind_gets, Nat.ltb_irrefl, bind_ret.
  exists st'.2. split; [done|]. intros p Hp.
  destruct (Hst' p Hp) as (l & Hl & Hnd & Hsound & Hcomplete).
  exists l. split; [done|]. split; [done|]. intros x. split; [apply Hsound|].
  apply Hcomplete. destruct Hp as [i Hi]. apply (Hall i p); [|done].
  apply planAt_is_Some_key in Hi. by apply lookupKey_Some_key in Hi as [? _].
Qed.

Lemma chainAether_slots (i p : string) :
  planAt (plans chainAether) i = Some p →
  i = p ∧ (p = "_1" ∨ p = "_2" ∨ p = "_3").
Proof.
  unfold planAt. cbn -[String.eqb]. intros Hp.
  destruct (String.eqb_spec "_1" i); [subst i; injection Hp as <-; tauto|].
  destruct (String.eqb_spec "_2" i); [subst i; injection Hp as <-; tauto|].
  destruct (String.eqb_spec "_3" i); [subst i; injection Hp as <-; tauto|].
  discriminate Hp.
Qed.

Lemma chainAether_edges (p q : string) :
  dependsDirectlyOn chainAether p q → (p = "_2" ∧ q = "_1") ∨ (p = "_3" ∧ q = "_2").
Proof.
  intros (o & depId & Ho & Hin & Hq). apply chainAether_slots in Hq as [-> Hq].
  destruct (decide (p = "_1")) as [->|?].
  { vm_compute in Ho. injection Ho as <-. simpl in Hin. set_solver. }
  destruct (decide (p = "_2")) as [->|?].
  { vm_compute in Ho. injection Ho as <-. simpl in Hin.
    apply list_elem_of_singleton in Hin as ->. by left. }
  destruct (decide (p = "_3")) as [->|?].
  { vm_compute in Ho. injection Ho as <-. simpl in Hin.
    apply list_elem_of_singleton in Hin as ->. by right. }
  exfalso. unfold chainAether, aetherOf in Ho. simpl in Ho.
  rewrite !lookup_insert_ne in Ho by done. by rewrite lookup_empty in Ho.
Qed.

(** On the chain [_3 → _2 → _1] the walk returns and gives every plan its
    recursive dependencies. *)
Lemma walkFinalizedPlans_collects_recursive_dependencies_witness :
  ∃ recursiveDependencyIds',
    @walkFinalizedPlans (tableHost true [])
      (list_to_map [("_1", []); ("_2", []); ("_3", [])]) chainAether
    = (Ok recursiveDependencyIds', chainAether, [])
    ∧ ∀ p, livePlan chainAether p →
        ∃ l, recursiveDependencyIds' !! p = Some l ∧ NoDup l
             ∧ ∀ x, x ∈ l ↔ dependsOn chainAether p x.
Proof.
  apply (@walkFinalizedPlans_collects_recursive_dependencies (tableHost true [])
           chainAether chainRank).
  - unfold tableCounted. simpl. lia.
  - intros p [i Hi]. apply chainAether_slots in Hi as [_ [->|[->| ->]]]; reflexivity.
  - intros p [i Hi]. apply chainAether_slots in Hi as [_ [->|[->| ->]]];
      (eexists; split; [vm_compute; reflexivity|]); simpl; intros depId Hin.
    + set_solver.
    + apply list_elem_of_singleton in Hin as ->. by eexists.
    + apply list_elem_of_singleton in Hin as ->. by eexists.
  - split.
    + intros p q _ [[-> ->]|[-> ->]]%chainAether_edges; vm_compute; lia.
    + intros p [i Hi]. apply chainAether_slots in Hi as [_ [->|[->| ->]]];
        vm_compute; lia.
  - intros p [i Hi]. apply chainAether_slots in Hi as [_ [->|[->| ->]]]; reflexivity.
Defined.

(** ** What [findPath] finds *)

Section FindPath.
Context (s : Aether) (a : string).

Lemma pathsKnown_insert (cache : PathByDescendent) (d : string)
  (answer : option (list string)) :
  pathsKnown s a cache → answers s a d answer →
  pathsKnown s a (<[d := answer]> cache).
Proof.
  intros Hcache Hanswer d' known. destruct (decide (d = d')) as [->|Hne].
  - rewrite lookup_insert_eq. by intros [= <-].
  - rewrite lookup_insert_ne by done. apply Hcache.
Qed.

(** What the recursive call is known to do inside the loop. *)
Lemma findPathThrough_answers find (d : string) (o : ExecutablePlan)
  (deps : list string) (cache cache' : PathByDescendent)
  (r : option (list string)) :
  (∀ cache r cache', find None cache ≠ (Ok r, cache')) →
  (∀ q cache r cache', pathsKnown s a cache → find (Some q) cache = (Ok r, cache') →
     pathsKnown s a cache' ∧ answers s a q r) →
  objects s !! d = Some o → a ≠ d → constructor_ o ≠ __ValuePlan →
  (∀ depId q, depId ∈ dependencies o → depId ∉ deps →
     planAt (plans s) depId = Some q → ∀ path, ¬ connects s a q path) →
  deps ⊆ dependencies o →
  pathsKnown s a cache →
  findPathThrough find s a d deps cache = (Ok r, cache') →
  pathsKnown s a cache' ∧ answers s a d r ∧ cache' !! d = Some r.
Proof.
  intros Hnull Hfind Ho Hne Hclass. revert cache.
  induction deps as [|depId deps IH]; intros cache Hdone Hsub Hcache Hrun; simpl in Hrun.
  - injection Hrun as <- <-.
    assert (Hnone : answers s a d None).
    { intros path Hpath. inversion Hpath as [|d' o' Ho' Hv|d' q p Hq Hp]; subst.
      - done.
      - rewrite Ho in Ho'. by injection Ho' as <-.
      - destruct Hq as (o' & depId & Ho' & Hin & Hq).
        rewrite Ho in Ho'. injection Ho' as <-.
        apply (Hdone depId q Hin ltac:(set_solver) Hq p Hp). }
    split; [by apply pathsKnown_insert|]. split; [done|]. by rewrite lookup_insert_eq.
  - assert (Hin : depId ∈ dependencies o) by set_solver.
    case_bool_decide as Hdep.
    { injection Hrun as <- <-.
      assert (Hsome : answers s a d (Some [d])).
      { apply (connects_dependency s a d a []); [by exists o, depId|constructor]. }
      split; [by apply pathsKnown_insert|]. split; [done|]. by rewrite lookup_insert_eq. }
    destruct (planAt (plans s) depId) as [q|] eqn:Hq.
    2:{ destruct (find None cache) as [[[p|]|e] cache1] eqn:Hf;
          [by apply Hnull in Hf..|discriminate Hrun]. }
    destruct (find (Some q) cache) as [[[p|]|e] cache1] eqn:Hf; [| |discriminate Hrun].
    + injection Hrun as <- <-.
      destruct (Hfind q cache _ _ Hcache Hf) as [Hcache1 Hp].
      assert (Hsome : answers s a d (Some (p ++ [d]))).
      { apply (connects_dependency s a d q p); [by exists o, depId|done]. }
      split; [by apply pathsKnown_insert|]. split; [done|]. by rewrite lookup_insert_eq.
    + destruct (Hfind q cache _ _ Hcache Hf) as [Hcache1 Hp].
      apply (IH cache1); [|set_solver|done|done].
      intros depId' q' Hin' Hout Hq'.
      destruct (decide (depId' = depId)) as [->|Hne'].
      * rewrite Hq in Hq'. by injection Hq' as <-.
      * apply (Hdone depId' q' Hin'); [set_solver|done].
Qed.

Lemma findPath_null (n : nat) (cache cache' : PathByDescendent)
  (r : option (list string)) :
  findPath n s a None cache ≠ (Ok r, cache').
Proof. destruct n; simpl; by destruct (negb _). Qed.

Lemma findPath_sound (n : nat) (d : string) (cache cache' : PathByDescendent)
  (r : option (list string)) :
  pathsKnown s a cache → findPath n s a (Some d) cache = (Ok r, cache') →
  pathsKnown s a cache' ∧ answers s a d r
  ∧ ∀ m, findPath m s a (Some d) cache' = (Ok r, cache').
Proof.
  revert d cache cache' r.
  induction n as [|n IH]; intros d cache cache' r Hcache Hrun.
  - simpl in Hrun. destruct (cache !! d) as [known|] eqn:Hknown.
    { injection Hrun as <- <-. split; [done|]. split; [by apply (Hcache d)|].
      intros m. destruct m; simpl; by rewrite Hknown. }
    case_bool_decide as Hsame.
    { injection Hrun as <- <-. subst d. split; [done|]. split; [constructor|].
      intros m. destruct m; simpl; rewrite Hknown;
        by rewrite bool_decide_eq_true_2. }
    destruct (objects s !! d) as [o|] eqn:Ho; [|discriminate Hrun].
    case_bool_decide as Hvalue.
    { injection Hrun as <- <-. split; [done|].
      split; [by apply (connects_value s a d o)|].
      intros m. destruct m; simpl; rewrite Hknown;
        rewrite bool_decide_eq_false_2 by done; rewrite Ho;
        by rewrite bool_decide_eq_true_2. }
    by destruct (negb _).
  - simpl in Hrun. destruct (cache !! d) as [known|] eqn:Hknown.
    { injection Hrun as <- <-. split; [done|]. split; [by apply (Hcache d)|].
      intros m. destruct m; simpl; by rewrite Hknown. }
    case_bool_decide as Hsame.
    { injection Hrun as <- <-. subst d. split; [done|]. split; [constructor|].
      intros m. destruct m; simpl; rewrite Hknown;
        by rewrite bool_decide_eq_true_2. }
    destruct (objects s !! d) as [o|] eqn:Ho; [|discriminate Hrun].
    case_bool_decide as Hvalue.
    { injection Hrun as <- <-. split; [done|].
      split; [by apply (connects_value s a d o)|].
      intros m. destruct m; simpl; rewrite Hknown;
        rewrite bool_decide_eq_false_2 by done; rewrite Ho;
        by rewrite bool_decide_eq_true_2. }
    destruct (negb _); [discriminate Hrun|].
    destruct (findPathThrough_answers (findPath n s a) d o (dependencies o)
                cache cache' r) as (Hcache' & Hr & Hd); try done.
    + intros c r' c'. apply findPath_null.
    + intros q c r' c' Hc Hq. destruct (IH q c c' r' Hc Hq) as (? & ? & _). done.
    + split; [done|]. split; [done|].
      intros m. destruct m; simpl; by rewrite Hd.
Qed.


Lemma findPathThrough_total find (d : string) (deps : list string)
  (cache : PathByDescendent) :
  (∀ depId, depId ∈ deps →
     ∃ q, planAt (plans s) depId = Some q
          ∧ ∀ cache, ∃ r cache', find (Some q) cache = (Ok r, cache')) →
  ∃ r cache', findPathThrough find s a d deps cache = (Ok r, cache').
Proof.
  revert cache. induction deps as [|depId deps IH]; intros cache Hdeps; simpl.
  - by eexists _, _.
  - case_bool_decide; [by eexists _, _|].
    destruct (Hdeps depId ltac:(set_solver)) as (q & -> & Hq).
    destruct (Hq cache) as ([p|] & cache1 & ->); [by eexists _, _|].
    apply IH. intros depId' Hin. apply Hdeps. set_solver.
Qed.

Lemma findPath_total (rank : string → nat) (n : nat) (d : string)
  (cache : PathByDescendent) :
  phase s = PhaseReady → dependenciesResolve s →
  (∀ p q, livePlan s p → dependsDirectlyOn s p q → rank q < rank p) →
  livePlan s d → rank d < n →
  ∃ r cache', findPath n s a (Some d) cache = (Ok r, cache').
Proof.
  intros Hready Hresolve Hdown. revert d cache.
  induction n as [|n IH]; intros d cache Hd Hrank; [lia|]. simpl.
  destruct (cache !! d) as [known|]; [by eexists _, _|].
  case_bool_decide; [by eexists _, _|].
  destruct (Hresolve d Hd) as (o & Ho & Hdeps). rewrite Ho.
  case_bool_decide; [by eexists _, _|].
  rewrite bool_decide_eq_true_2 by done. simpl.
  apply findPathThrough_total. intros depId Hin.
  destruct (Hdeps depId Hin) as [q Hq]. exists q. split; [done|].
  intros cache1. apply IH; [by exists depId|].
  assert (rank q < rank d); [|lia]. apply Hdown; [done|]. by exists o, depId.
Qed.

End FindPath.

(** X14. Started with a cache whose entries are true, [findPath] answers
    truly and keeps the cache true: a path it returns leads to the descendant
    from the ancestor or from a [__ValuePlan], each plan on it having a
    dependency id that resolves to the plan before it, and it returns [null]
    only where no such path exists; asked again, it gives the same answer
    without changing the cache.  In the ready phase, for a descendant of a
    table whose dependency ids resolve and whose plans form a DAG less deep
    than the stack allows, it does return. *)
Theorem findPath_finds_dependency_path (s : Aether) (rank : string → nat)
  (stackLeft : nat) (ancestorPlan descendentPlan : string)
  (pathByDescendent : PathByDescendent) :
  pathsKnown s ancestorPlan pathByDescendent →
  (∀ answer pathByDescendent',
     findPath stackLeft s ancestorPlan (Some descendentPlan) pathByDescendent
     = (Ok answer, pathByDescendent') →
     pathsKnown s ancestorPlan pathByDescendent'
     ∧ answers s ancestorPlan descendentPlan answer
     ∧ ∀ stackLeft', findPath stackLeft' s ancestorPlan (Some descendentPlan)
                       pathByDescendent'
                     = (Ok answer, pathByDescendent'))
  ∧ (phase s = PhaseReady → dependenciesResolve s → rankedBelow s rank stackLeft →
     livePlan s descendentPlan →
     ∃ answer pathByDescendent',
       findPath stackLeft s ancestorPlan (Some descendentPlan) pathByDescendent
       = (Ok answer, pathByDescendent')).
Proof.
  intros Hcache. split.
  - intros answer cache' Hrun.
    by apply (findPath_sound s ancestorPlan stackLeft _ pathByDescendent).
  - intros Hready Hresolve [Hdown Hbound] Hlive.
    apply (findPath_total s ancestorPlan rank); try done. by apply Hbound.
Qed.

(** In [chainAether] the path from [_1] to [_3] goes through [_2]. *)
Lemma findPath_finds_dependency_path_witness :
  (findPath 64 chainAether "_1" (Some "_3") ∅).1 = Ok (Some ["_2"; "_3"])
  ∧ connects chainAether "_1" "_3" ["_2"; "_3"].
Proof.
  assert (Hrun : findPath 64 chainAether "_1" (Some "_3") ∅
                 = (Ok (Some ["_2"; "_3"]),
                    (findPath 64 chainAether "_1" (Some "_3") ∅).2))
    by (vm_compute; reflexivity).
  split; [by rewrite Hrun|].
  destruct (findPath_finds_dependency_path chainAether chainRank 64 "_1" "_3" ∅)
    as [Hsound _].
  - intros d known Hd. by rewrite lookup_empty in Hd.
  - destruct (Hsound _ _ Hrun) as (_ & Hanswer & _). exact Hanswer.
Defined.

(** ** A synchronous plan without dependencies is executed once for a bucket *)

Lemma answered_write (r : Run) (a n : nat) (W : nat → Prop)
  (P : nat → Value → Prop) (j : nat) (v : Value) :
  answered r a n W P → j < n → P j v →
  answered (withArrays (alter (assign j v) a) r) a n (λ k, W k ∨ k = j) P.
Proof.
  intros (Ha & l & Hl & Hlen & HW) Hj Hv. split; [done|].
  exists (<[j := v]> l). split_and!.
  - simpl. rewrite lookup_alter_eq, Hl. simpl. unfold assign.
    by rewrite (proj2 (Nat.ltb_lt j (length l))) by lia.
  - by rewrite length_insert.
  - intros k [Hk| ->].
    + destruct (decide (k = j)) as [->|Hne].
      * exists v. split; [|done]. apply list_lookup_insert_eq. lia.
      * rewrite list_lookup_insert_ne by done. by apply HW.
    + exists v. split; [|done]. apply list_lookup_insert_eq. lia.
Qed.

Lemma answered_weaken (r : Run) (a n : nat) (W W' : nat → Prop)
  (P : nat → Value → Prop) :
  (∀ j, W' j → W j) → answered r a n W P → answered r a n W' P.
Proof.
  intros HW (Ha & l & Hl & Hlen & Hall). split; [done|].
  exists l. split_and!; [done..|]. eauto.
Qed.

Section LeafPlan.
Context (o : ExecutablePlan) (plan : string) (result n : nat)
  (P : nat → Value → Prop).

Lemma fill_answered (items : list Item) (v : Value) (W : nat → Prop) (r : Run) :
  (∀ pr j, (pr, j) ∈ items → j < n ∧ P j v) →
  answered r result n W P →
  ∃ r', fill result items v r = (Returns tt, r')
        ∧ buckets r' = buckets r ∧ executeCalls r' = executeCalls r
        ∧ answered r' result n (λ k, W k ∨ ∃ pr, (pr, k) ∈ items) P.
Proof.
  revert W r. induction items as [|[pr j] rest IH]; intros W r Hitems Hr; simpl.
  - exists r. split_and!; [done..|]. eapply answered_weaken; [|exact Hr].
    intros k [?|[? ?%elem_of_nil]]; done.
  - destruct (Hitems pr j ltac:(set_solver)) as [Hj Hv].
    destruct (IH (λ k, W k ∨ k = j) (withArrays (alter (assign j v) result) r))
      as (r' & Hrun & Hb & Hc & Hr').
    { intros pr' j' Hin. apply (Hitems pr'). set_solver. }
    { by apply answered_write. }
    exists r'. split_and!; [done..|]. eapply answered_weaken; [|exact Hr'].
    intros k [?|[pr' [[= -> ->]|?]%elem_of_cons]]; eauto.
Qed.


Lemma groupRows_answered (planResultses rows : list Row) :
  ∀ (i : nat) (byBucket byBucket' : list (nat * list Item)) (W : nat → Prop)
    (r r' : Run),
    (∀ k, rows !! k = planResultses !! (i + k)) → length planResultses = n →
    (∀ j, planResultses !! j = Some RowNull → P j Null) →
    (∀ j e, planResultses !! j = Some (RowError e) → P j (CrystalErrorValue e)) →
    answered r result n W P →
    groupRows (commonAncestorPathIdentity o) result rows i byBucket r
    = (Returns byBucket', r') →
    executeCalls r' = executeCalls r
    ∧ answered r' result n
        (λ k, W k ∨ (i ≤ k ∧ (planResultses !! k = Some RowNull
                              ∨ ∃ e, planResultses !! k = Some (RowError e)))) P.
Proof.
  induction rows as [|row rows IH];
    intros i byBucket byBucket' W r r' Hrows Hn Hnull Herror Hr Hrun.
  - injection Hrun as <- <-. split; [done|].
    eapply answered_weaken; [|exact Hr]. intros j [Hj|[Hij Hj]]; [done|].
    specialize (Hrows (j - i)). replace (i + (j - i)) with j in Hrows by lia.
    rewrite lookup_nil in Hrows. destruct Hj as [Hj|[e Hj]]; congruence.
  - pose proof (Hrows 0) as Hrow. rewrite Nat.add_0_r in Hrow. simpl in Hrow.
    assert (Hi : i < n).
    { rewrite <- Hn. apply lookup_lt_is_Some. by rewrite <- Hrow. }
    assert (Hrest : ∀ k, rows !! k = planResultses !! (S i + k)).
    { intros k. specialize (Hrows (S k)). simpl in Hrows.
      by replace (S i + k) with (i + S k) by lia. }
    destruct row as [|e|pr]; cbn [groupRows] in Hrun.
    + unfold xbind at 1 in Hrun. cbn [writeArray xmodify] in Hrun.
      destruct (IH (S i) byBucket byBucket' (λ k, W k ∨ k = i)
                  (withArrays (alter (assign i Null) result) r) r')
        as [Hcalls Hr']; try done.
      { apply answered_write; [done..|]. by apply Hnull. }
      split; [done|]. eapply answered_weaken; [|exact Hr'].
      intros k [?|[Hk ?]]; [tauto|].
      destruct (decide (k = i)); [tauto|]. right. split; [lia|done].
    + unfold xbind at 1 in Hrun. cbn [writeArray xmodify] in Hrun.
      destruct (IH (S i) byBucket byBucket' (λ k, W k ∨ k = i)
                  (withArrays (alter (assign i (CrystalErrorValue e)) result) r) r')
        as [Hcalls Hr']; try done.
      { apply answered_write; [done..|]. by apply Herror. }
      split; [done|]. eapply answered_weaken; [|exact Hr'].
      intros k [?|[Hk ?]]; [tauto|].
      destruct (decide (k = i)); [tauto|]. right. split; [lia|done].
    + destruct (IH (S i) _ byBucket' W r r' Hrest Hn Hnull Herror Hr Hrun)
        as [Hcalls Hr'].
      split; [done|]. eapply answered_weaken; [|exact Hr'].
      intros k [?|[Hk Hrowk]]; [tauto|].
      destruct (decide (k = i)) as [->|]; [|right; split; [lia|done]].
      rewrite <- Hrow in Hrowk. destruct Hrowk as [?|[? ?]]; discriminate.
Qed.

Lemma collectPending_answered (byBucket : list (nat * list Item)) :
  ∀ (pending pending' : list (list Item)) (W : nat → Prop) (r r' : Run),
    (∀ b items pr j v, (b, items) ∈ byBucket → (pr, j) ∈ items →
       bucketValue r b plan = Some v → j < n ∧ P j v) →
    answered r result n W P →
    collectPending o plan result byBucket pending r = (Returns pending', r') →
    executeCalls r' = executeCalls r
    ∧ answered r' result n
        (λ k, W k ∨ ∃ b items pr, (b, items) ∈ byBucket
                  ∧ is_Some (bucketValue r b plan) ∧ (pr, k) ∈ items) P.
Proof.
  induction byBucket as [|[b items] rest IH];
    intros pending pending' W r r' Hvalues Hr Hrun.
  - injection Hrun as <- <-. split; [done|].
    eapply answered_weaken; [|exact Hr]. intros k [?|(? & ? & ? & ?%elem_of_nil & _)]; done.
  - cbn [collectPending] in Hrun. unfold xbind at 1 in Hrun.
    cbn [xgets] in Hrun. unfold id in Hrun.
    destruct (bucketValue r b plan) as [previous|] eqn:Hvalue.
    + destruct (fill_answered items previous W r) as (r1 & Hfill & Hb1 & Hc1 & Hr1);
        [|done|].
      { intros pr j Hin. apply (Hvalues b items pr j); [set_solver|done|done]. }
      rewrite (xbind_returns _ _ _ _ _ Hfill) in Hrun.
      assert (Hsame : ∀ b', bucketValue r1 b' plan = bucketValue r b' plan)
        by (intros b'; unfold bucketValue; by rewrite Hb1).
      destruct (IH pending pending' (λ k, W k ∨ ∃ pr, (pr, k) ∈ items) r1 r')
        as [Hcalls Hr']; [|exact Hr1|exact Hrun|].
      { intros b' items' pr j v Hin Hpr Hv. rewrite Hsame in Hv.
        apply (Hvalues b' items' pr j); [set_solver|done|done]. }
      split; [congruence|]. eapply answered_weaken; [|exact Hr'].
      intros k [?|(b' & items' & pr & [[= -> ->]|Hin]%elem_of_cons & Hsome & Hpr)].
      * tauto.
      * left. right. by exists pr.
      * right. exists b', items', pr. by rewrite Hsame.
    + destruct (bool_decide (constructor_ o = __ValuePlan)); [discriminate Hrun|].
      destruct (IH (pending ++ [items]) pending' W r r') as [Hcalls Hr'];
        [|exact Hr|exact Hrun|].
      { intros b' items' pr j v Hin. apply (Hvalues b' items' pr j). set_solver. }
      split; [done|]. eapply answered_weaken; [|exact Hr'].
      intros k [?|(b' & items' & pr & [[= -> ->]|Hin]%elem_of_cons & Hsome & Hpr)].
      * tauto.
      * rewrite Hvalue in Hsome. by destruct Hsome.
      * right. by exists b', items', pr.
Qed.

End LeafPlan.

Lemma bucketValue_set (r : Run) (pr : PlanResults) (pathIdentity plan : string)
  (v : Value) (b : nat) (p : string) :
  bucketValue
    (withBuckets (λ bs,
       <[getBucket pr pathIdentity :=
           <[plan := v]> (default ∅ (bs !! getBucket pr pathIdentity))]> bs) r) b p
  = if decide (b = getBucket pr pathIdentity ∧ p = plan) then Some v
    else bucketValue r b p.
Proof.
  unfold bucketValue. simpl. destruct (decide (b = getBucket pr pathIdentity)) as [->|Hb].
  - rewrite lookup_insert_eq. simpl. destruct (decide (p = plan)) as [->|Hp].
    + rewrite lookup_insert_eq. by rewrite decide_True.
    + rewrite lookup_insert_ne by done. rewrite decide_False by tauto.
      by destruct (buckets r !! getBucket pr pathIdentity).
  - rewrite lookup_insert_ne by done. by rewrite decide_False by tauto.
Qed.

Section LeafExecution.
Context `{Executor} (o : ExecutablePlan) (plan : string) (result n : nat)
  (P : nat → Value → Prop).

(** The rows of a group after the first: the bucket holds the value already. *)
Lemma strictlyUnequal_same (v : Value) : v ≠ NaN → strictlyUnequal v v = false.
Proof. intros Hv. destruct v; simpl; try done; by rewrite bool_decide_eq_true_2. Qed.

Lemma storeForBucket_others (check : bool) (v : Value) (b : nat)
  (items : list Item) (W : nat → Prop) (r : Run) :
  check && isDev = false ∨ v ≠ NaN →
  (∀ pr j, (pr, j) ∈ items → bucketOf o pr = b ∧ j < n ∧ P j v) →
  bucketValue r b plan = Some v →
  answered r result n W P →
  ∃ r', storeForBucket o plan result check v items false r = (Returns tt, r')
        ∧ buckets r' = buckets r ∧ executeCalls r' = executeCalls r
        ∧ answered r' result n (λ k, W k ∨ ∃ pr, (pr, k) ∈ items) P.
Proof.
  intros Hcheck. revert W r. induction items as [|[pr j] rest IH]; intros W r Hitems Hb Hr.
  - exists r. split_and!; [done..|]. eapply answered_weaken; [|exact Hr].
    intros k [?|[? ?%elem_of_nil]]; done.
  - destruct (Hitems pr j ltac:(set_solver)) as (Hbucket & Hj & Hv).
    set (r1 := withArrays (alter (assign j v) result) r).
    assert (Hb1 : bucketValue r1 b plan = Some v) by exact Hb.
    destruct (IH (λ k, W k ∨ k = j) r1) as (r' & Hrun & Hb' & Hc' & Hr').
    { intros pr' j' Hin. apply (Hitems pr'). set_solver. }
    { done. }
    { by apply answered_write. }
    exists r'. split_and!; [|done..|].
    + cbn [storeForBucket]. unfold xbind at 1. cbn [writeArray xmodify].
      fold r1. erewrite xbind_returns; [exact Hrun|].
      unfold xbind, xgets, id, planResultsGet. unfold bucketOf in Hbucket.
      rewrite Hbucket, Hb1. simpl.
      destruct Hcheck as [->|Hcheck]; [done|].
      by rewrite (strictlyUnequal_same v Hcheck), andb_false_r.
    + eapply answered_weaken; [|exact Hr'].
      intros k [?|[pr' [[= -> ->]|?]%elem_of_cons]]; eauto.
Qed.

(** A whole group: the first row stores the value in the bucket. *)
Lemma storeForBucket_group (check : bool) (v : Value) (b : nat)
  (items : list Item) (W : nat → Prop) (r : Run) :
  check && isDev = false ∨ v ≠ NaN →
  items ≠ [] →
  (∀ pr j, (pr, j) ∈ items → bucketOf o pr = b ∧ j < n ∧ P j v) →
  answered r result n W P →
  ∃ r', storeForBucket o plan result check v items true r = (Returns tt, r')
        ∧ executeCalls r' = executeCalls r
        ∧ answered r' result n (λ k, W k ∨ ∃ pr, (pr, k) ∈ items) P
        ∧ ∀ b' p, bucketValue r' b' p
                  = if decide (b' = b ∧ p = plan) then Some v else bucketValue r b' p.
Proof.
  intros Hcheck Hne Hitems Hr. destruct items as [|[pr j] rest]; [done|].
  destruct (Hitems pr j ltac:(set_solver)) as (Hbucket & Hj & Hv).
  set (r1 := withArrays (alter (assign j v) result) r).
  set (r2 := withBuckets (λ bs,
               <[getBucket pr (commonAncestorPathIdentity o) :=
                   <[plan := v]>
                     (default ∅ (bs !! getBucket pr (commonAncestorPathIdentity o)))]> bs)
               r1).
  assert (Hvalues : ∀ b' p, bucketValue r2 b' p
                    = if decide (b' = b ∧ p = plan) then Some v else bucketValue r b' p).
  { intros b' p. unfold r2. rewrite bucketValue_set.
    unfold bucketOf in Hbucket. by rewrite Hbucket. }
  destruct (storeForBucket_others check v b rest (λ k, W k ∨ k = j) r2 Hcheck)
    as (r' & Hrun & Hb' & Hc' & Hr').
  { intros pr' j' Hin. apply (Hitems pr'). set_solver. }
  { rewrite Hvalues. by rewrite decide_True. }
  { destruct (answered_write r result n W P j v Hr Hj Hv) as (Ha & l & Hl & Hlen & HW).
    split; [done|]. by exists l. }
  exists r'. split_and!; [|done| |].
  - cbn [storeForBucket]. unfold xbind at 1. cbn [writeArray xmodify].
    fold r1. erewrite xbind_returns; [exact Hrun|]. reflexivity.
  - eapply answered_weaken; [|exact Hr'].
    intros k [?|[pr' [[= -> ->]|?]%elem_of_cons]]; eauto.
  - intros b' p. unfold bucketValue. rewrite Hb'. apply Hvalues.
Qed.


Lemma distribute_spec (crystalError : option Value) (executionResults : list Value)
  (perRow : bool) (toExecute : list (list Item)) :
  let value k :=
    match crystalError with
    | Some error => error
    | None => default Undefined (executionResults !! (if perRow then k else 0))
    end in
  isDev = false ∨ (∀ k, value k ≠ NaN) →
  ∀ (k0 : nat) (bks : list nat) (W : nat → Prop) (r : Run),
    length bks = length toExecute → NoDup bks →
    (∀ idx items b, toExecute !! idx = Some items → bks !! idx = Some b →
       items ≠ []
       ∧ ∀ pr j, (pr, j) ∈ items → bucketOf o pr = b ∧ j < n ∧ P j (value (k0 + idx))) →
    answered r result n W P →
    ∃ r', distribute o plan result crystalError executionResults perRow toExecute k0 r
          = (Returns tt, r')
      ∧ executeCalls r' = executeCalls r
      ∧ answered r' result n
          (λ k, W k ∨ ∃ items pr, items ∈ toExecute ∧ (pr, k) ∈ items) P
      ∧ (∀ idx b, bks !! idx = Some b → bucketValue r' b plan = Some (value (k0 + idx)))
      ∧ (∀ b p, b ∉ bks ∨ p ≠ plan → bucketValue r' b p = bucketValue r b p).
Proof.
  intros value Hcheck. induction toExecute as [|items rest IH];
    intros k0 bks W r Hlen Hnd Hgroups Hr.
  - destruct bks; [|done]. exists r. split_and!; [done..| | |done].
    + eapply answered_weaken; [|exact Hr].
      intros k [?|(? & ? & ?%elem_of_nil & _)]; done.
    + intros idx b Hb. by rewrite lookup_nil in Hb.
  - destruct bks as [|b bks]; [done|]. apply NoDup_cons in Hnd as [Hb Hnd].
    destruct (Hgroups 0 items b eq_refl eq_refl) as [Hne Hitems].
    rewrite Nat.add_0_r in Hitems.
    destruct (storeForBucket_group true (value k0) b items W r
                ltac:(destruct Hcheck as [->|Hcheck]; [by left|by right]) Hne Hitems Hr)
      as (r1 & Hstore & Hc1 & Hr1 & Hb1).
    destruct (IH (S k0) bks (λ k, W k ∨ ∃ pr, (pr, k) ∈ items) r1)
      as (r' & Hrun & Hc' & Hr' & Hset & Hkept); [simpl in Hlen; lia|done| |done|].
    { intros idx items' b' Hi Hb'. replace (S k0 + idx) with (k0 + S idx) by lia.
      by apply (Hgroups (S idx)). }
    exists r'. split_and!.
    + cbn [distribute]. fold value. by rewrite (xbind_returns _ _ _ _ _ Hstore).
    + congruence.
    + eapply answered_weaken; [|exact Hr'].
      intros k [?|(items' & pr & [->|?]%elem_of_cons & ?)].
      * tauto.
      * left. right. by exists pr.
      * right. by exists items', pr.
    + intros [|idx] b' Hb'.
      * injection Hb' as <-. rewrite Hkept by (left; exact Hb).
        rewrite Hb1, decide_True by done. by rewrite Nat.add_0_r.
      * replace (k0 + S idx) with (S k0 + idx) by lia. by apply Hset.
    + intros b' p Hout. rewrite Hkept, Hb1.
      * rewrite decide_False; [done|]. intros [-> ->]. set_solver.
      * set_solver.
Qed.

End LeafExecution.

Section Leaf.
Context `{Executor}.
Variable executePlan' : string → list Row → list string → nat → X Completion.
Context (plan : string) (o : ExecutablePlan) (rows : list Row).
Hypothesis leaf : synchronousLeaf plan o.
Hypothesis passes : equivalenceCheckPasses plan.

Lemma executePlanAlt_leaf_run (visitedPlans : list string) (planCache : nat) (r : Run) :
  plan ∉ visitedPlans →
  ∃ r', executePlanAlt executePlan' plan rows visitedPlans planCache r
        = (Returns (Direct (allocated r)), r')
    ∧ (∃ calls, executeCalls r' = executeCalls r ++ calls ∧ length calls ≤ 1
                ∧ (∀ c, c ∈ calls → c.1 = plan)
                ∧ (allAnswered r o plan rows → calls = []))
    ∧ allAnswered r' o plan rows
    ∧ (∀ b p v, bucketValue r b p = Some v → bucketValue r' b p = Some v)
    ∧ (∀ j, j < length rows →
         arrayAt r' (allocated r) j
         = match rows !! j with
           | Some RowNull => Null
           | Some (RowError e) => CrystalErrorValue e
           | Some (RowResults pr) =>
               default Undefined (bucketValue r' (bucketOf o pr) plan)
           | None => Undefined
           end).
Proof.
  intros Hvisited.
  destruct leaf as (Ho & Hdeps & Hsync & Hitem & Hvalue & Htransform & Hstreams).
  set (a := allocated r). set (n := length rows).
  (* the runs *)
  destruct (newArray_spec (replicate n Undefined) r) as (r1 & Hnew & Harr1 & Hb1 & Hc1).
  destruct (groupRows_spec o a rows rows 0 [] r1)
    as (byBucket & r2 & Hgroup & Hb2 & [Hkeys Hitems] & _ & Hcov); [done| |].
  { split; [constructor|]. intros b items Hin. by apply elem_of_nil in Hin. }
  destruct (collectPending_spec o plan a Hvalue byBucket [] r2) as (r3 & Hcollect & Hb3).
  simpl in Hcollect.
  set (groups := filter (λ g : nat * list Item, bucketValue r2 g.1 plan = None) byBucket)
    in *.
  assert (Hsame : ∀ b p, bucketValue r2 b p = bucketValue r b p).
  { intros b p. unfold bucketValue. by rewrite Hb2, Hb1. }
  assert (Hgroups : ∀ b items, (b, items) ∈ groups ↔
            bucketValue r b plan = None ∧ (b, items) ∈ byBucket).
  { intros b items. unfold groups. rewrite list_elem_of_filter. simpl. by rewrite Hsame. }
  assert (Harrays : ∀ P : nat → Value → Prop,
    (∀ j, rows !! j = Some RowNull → P j Null) →
    (∀ j e, rows !! j = Some (RowError e) → P j (CrystalErrorValue e)) →
    (∀ pr j v, rows !! j = Some (RowResults pr) →
       bucketValue r (bucketOf o pr) plan = Some v → P j v) →
    executeCalls r3 = executeCalls r
    ∧ answered r3 a n
        (λ k, (rows !! k = Some RowNull ∨ ∃ e, rows !! k = Some (RowError e))
              ∨ ∃ b items pr, (b, items) ∈ byBucket
                  ∧ is_Some (bucketValue r b plan) ∧ (pr, k) ∈ items) P).
  { intros P Hnull Herror Hknown.
    assert (Hr1 : answered r1 a n (λ _, False) P).
    { injection Hnew as <-. split; [simpl; lia|].
      exists (replicate n Undefined). rewrite Harr1, lookup_insert_eq.
      split; [done|]. split; [by rewrite length_replicate|done]. }
    destruct (groupRows_answered o a n P rows rows 0 [] byBucket (λ _, False) r1 r2)
      as [Hc2 Hr2]; try done.
    destruct (collectPending_answered o plan a n P byBucket [] groups.*2
                (λ k, False ∨ (0 ≤ k ∧ (rows !! k = Some RowNull
                                        ∨ ∃ e, rows !! k = Some (RowError e))))
                r2 r3)
      as [Hc3 Hr3]; [|exact Hr2|exact Hcollect|].
    { intros b items pr j v Hin Hpr Hv. rewrite Hsame in Hv.
      destruct (Hitems b items Hin) as [_ Hall].
      destruct (Hall pr j Hpr) as [<- Hrow]. split; [|by apply (Hknown pr)].
      apply lookup_lt_is_Some. by rewrite Hrow. }
    split; [congruence|]. eapply answered_weaken; [|exact Hr3].
    intros k [Hk|(b & items & pr & Hin & Hsome & Hpr)].
    - left. right. split; [lia|done].
    - right. exists b, items, pr. by rewrite Hsame. }
  assert (Hbuckets3 : ∀ b p, bucketValue r3 b p = bucketValue r b p).
  { intros b p. unfold bucketValue. by rewrite Hb3, Hb2, Hb1. }
  assert (Hstart : ∀ k : X Completion,
    executePlanAlt executePlan' plan rows visitedPlans planCache r
    = (if Nat.eqb (length groups.*2) 0 then xret (Direct a) r3
       else
         xbind (if Nat.eqb (length (firstPlanResults groups.*2)) n
                then xret planCache else newPlanCache)
           (λ _,
              do* dependencyValuesList :=
                noDependencyValues o (length (firstPlanResults groups.*2)) in
              doNext executePlan' o plan a rows (visitedPlans ++ [plan]) planCache
                dependencyValuesList groups.*2) r3)).
  { intros _. unfold executePlanAlt. rewrite Ho.
    rewrite bool_decide_eq_false_2 by done. rewrite bool_decide_eq_false_2 by done.
    fold n. rewrite (xbind_returns _ _ _ _ _ Hnew). fold a.
    rewrite (xbind_returns _ _ _ _ _ Hgroup).
    rewrite (xbind_returns _ _ _ _ _ Hcollect).
    destruct (Nat.eqb (length groups.*2) 0); [done|].
    rewrite Hdeps. simpl. reflexivity. }
  assert (Hfiled : ∀ j pr, rows !! j = Some (RowResults pr) →
            ∃ items, (bucketOf o pr, items) ∈ byBucket ∧ (pr, j) ∈ items)
    by (intros j pr Hrow; apply (Hcov j pr Hrow)).
  rewrite (Hstart (xret (Direct a))). clear Hstart.
  destruct (Nat.eqb (length groups.*2) 0) eqn:Hnone.
  - (* every bucket holds a value already *)
    apply Nat.eqb_eq, nil_length_inv, fmap_nil_inv in Hnone.
    assert (Hall : allAnswered r o plan rows).
    { intros j pr Hrow. destruct (Hfiled j pr Hrow) as (items & Hin & _).
      destruct (bucketValue r (bucketOf o pr) plan) eqn:Hv; [done|].
      assert (Hg : (bucketOf o pr, items) ∈ groups) by (by apply Hgroups).
      rewrite Hnone in Hg. by apply elem_of_nil in Hg. }
    set (P := λ (j : nat) (v : Value),
           match rows !! j with
           | Some RowNull => v = Null
           | Some (RowError e) => v = CrystalErrorValue e
           | Some (RowResults pr) => bucketValue r (bucketOf o pr) plan = Some v
           | None => False
           end).
    destruct (Harrays P) as [Hc3 (_ & l & Hl & Hlen & Hanswers)].
    { intros j Hj. unfold P. by rewrite Hj. }
    { intros j e Hj. unfold P. by rewrite Hj. }
    { intros pr j v Hj Hv. unfold P. by rewrite Hj. }
    exists r3. split; [done|]. split_and!.
    + exists []. rewrite app_nil_r. split_and!; [done|simpl; lia|set_solver|done].
    + intros j pr Hrow. rewrite Hbuckets3. by apply (Hall j).
    + intros b p v. by rewrite Hbuckets3.
    + intros j Hj. destruct (lookup_lt_is_Some_2 rows j Hj) as [row Hrow].
      destruct (Hanswers j) as (v & Hv & HP).
      { destruct row as [|e|pr]; [left; by left|left; right; by exists e|].
        right. destruct (Hfiled j pr Hrow) as (items & Hin & Hpr).
        exists (bucketOf o pr), items, pr. split_and!; [done| |done]. by apply (Hall j). }
      unfold arrayAt. rewrite Hl. simpl. rewrite Hv. simpl.
      unfold P in HP. rewrite Hrow in HP |- *.
      destruct row as [|e|pr]; [done..|]. by rewrite Hbuckets3, HP.
  - (* some buckets are pending: the plan is executed *)
    apply Nat.eqb_neq in Hnone.
    set (m := length (firstPlanResults groups.*2)).
    assert (∃ pc' r4,
      (if Nat.eqb m n then xret planCache else newPlanCache) r3 = (Returns pc', r4)
      ∧ buckets r4 = buckets r3 ∧ arrays r4 = arrays r3
      ∧ executeCalls r4 = executeCalls r3 ∧ allocated r3 ≤ allocated r4)
      as (pc' & r4 & Hcache & Hb4 & Ha4 & Hc4 & Hal4).
    { destruct (Nat.eqb m n); eexists _, _; (split; [reflexivity|]); simpl;
        split_and!; (done || lia). }
    rewrite (xbind_returns _ _ _ _ _ Hcache).
    set (vals := if hasSideEffects o then replicate m Undefined else [Undefined]).
    destruct (newArray_spec vals r4) as (r5 & Hvals & Ha5 & Hb5 & Hc5).
    assert (Hal5 : allocated r5 = S (allocated r4)) by (by injection Hvals as <-).
    assert (Hnodeps : noDependencyValues o m r4 = (Returns [allocated r4], r5))
      by (unfold noDependencyValues; by rewrite (xbind_returns _ _ _ _ _ Hvals)).
    rewrite (xbind_returns _ _ _ _ _ Hnodeps).
    set (dv := allocated r4) in *.
    set (outcome := execute plan [vals] r5).
    set (ce := match outcome with
               | Returned results => (None, results)
               | ReturnedPromise _ => (Some (CrystalErrorValue (returnedPromise plan)), [])
               | Threw e => (Some (CrystalErrorValue e), [])
               end).
    set (value := λ k : nat,
           match ce.1 with
           | Some error => error
           | None => default Undefined
                       (ce.2 !! (if false || hasSideEffects o then k else 0))
           end).
    set (bks := reverse groups.*1).
    set (P := λ (j : nat) (v : Value),
           match rows !! j with
           | Some RowNull => v = Null
           | Some (RowError e) => v = CrystalErrorValue e
           | Some (RowResults pr) =>
               bucketValue r (bucketOf o pr) plan = Some v
               ∨ ∃ idx, bks !! idx = Some (bucketOf o pr) ∧ v = value idx
           | None => False
           end).
    destruct (Harrays P) as [Hc3 Hr3].
    { intros j Hj. unfold P. by rewrite Hj. }
    { intros j e Hj. unfold P. by rewrite Hj. }
    { intros pr j v Hj Hv. unfold P. rewrite Hj. by left. }
    set (W3 := λ k, (rows !! k = Some RowNull ∨ ∃ e, rows !! k = Some (RowError e))
                    ∨ ∃ b items pr, (b, items) ∈ byBucket
                        ∧ is_Some (bucketValue r b plan) ∧ (pr, k) ∈ items) in *.
    set (r6 := (logExecute plan [vals] r5).2).
    assert (Hr6 : answered r6 a n W3 P).
    { destruct Hr3 as (Hlt & l & Hl & Hlen & HW). split; [simpl; lia|].
      exists l. split; [|done]. simpl. rewrite Ha5, lookup_insert_ne by lia.
      by rewrite Ha4. }
    assert (Hpairs : ∀ idx items b, reverse groups.*2 !! idx = Some items →
              bks !! idx = Some b → (b, items) ∈ groups).
    { intros idx items b Hi Hb. unfold bks in Hb.
      rewrite <- fmap_reverse, list_lookup_fmap in Hi.
      rewrite <- fmap_reverse, list_lookup_fmap in Hb.
      destruct (reverse groups !! idx) as [[b' items']|] eqn:Hg; [|done].
      simpl in Hi, Hb. injection Hi as <-. injection Hb as <-.
      apply list_elem_of_lookup_2 in Hg. rewrite elem_of_reverse in Hg. exact Hg. }
    assert (Hcheck : isDev = false ∨ ∀ k, value k ≠ NaN).
    { destruct passes as [?|Hresults]; [by left|right]. intros k. unfold value, ce.
      destruct outcome as [results| |] eqn:Houtcome; simpl; [|done..].
      destruct (results !! _) as [v|] eqn:Hv; simpl; [|done].
      intros ->. apply (Hresults [vals] r5 results Houtcome).
      by apply list_elem_of_lookup_2 in Hv. }
    destruct (distribute_spec o plan a n P ce.1 ce.2 (false || hasSideEffects o)
                (reverse groups.*2) Hcheck 0 bks W3 r6)
      as (r7 & Hdist & Hc7 & Hr7 & Hset & Hkept); [| | |exact Hr6|].
    { unfold bks. by rewrite !length_reverse, !length_fmap. }
    { unfold bks. rewrite reverse_Permutation.
      eapply sublist_NoDup; [exact Hkeys|]. apply fmap_sublist, sublist_filter. }
    { intros idx items b Hi Hb. pose proof (Hpairs idx items b Hi Hb) as Hg.
      apply Hgroups in Hg as [Hvalue' Hin]. destruct (Hitems b items Hin) as [Hne Hall].
      split; [done|]. intros pr j Hpr. destruct (Hall pr j Hpr) as [Hbucket Hrow].
      split; [done|]. split; [apply lookup_lt_is_Some; by rewrite Hrow|].
      unfold P. rewrite Hrow. right. exists idx. by rewrite Hbucket. }
    assert (Hnext : doNext executePlan' o plan a rows (visitedPlans ++ [plan]) planCache
                      [dv] groups.*2 r5 = (Returns (Direct a), r7)).
    { unfold doNext. rewrite Hdeps. cbn [length Nat.ltb Nat.leb].
      unfold xbind at 1. cbn [xret].
      rewrite (proj2 (Nat.eqb_neq _ _) Hnone).
      rewrite (bool_decide_eq_false_2 (constructor_ o = __ItemPlan)) by done.
      rewrite Hsync, Hstreams.
      rewrite (bool_decide_eq_false_2 (constructor_ o = __ListTransformPlan)) by done.
      cbn [andb negb].
      assert (Hread : readAll [dv] r5 = (Returns [vals], r5)).
      { unfold readAll, readArray, xbind, xgets, xret.
        by rewrite Ha5, lookup_insert_eq. }
      rewrite (xbind_returns _ _ _ _ _ Hread).
      unfold xbind at 1. cbn [xgets]. unfold id.
      erewrite xbind_returns; [|reflexivity]. fold r6.
      change (match execute plan [vals] r5 with
              | Returned results => (None, results)
              | ReturnedPromise _ =>
                  (Some (CrystalErrorValue (returnedPromise plan)), [])
              | Threw e => (Some (CrystalErrorValue e), [])
              end) with ce.
      rewrite (surjective_pairing ce).
      by rewrite (xbind_returns _ _ _ _ _ Hdist). }
    rewrite Hnext. exists r7. split; [done|].
    assert (Hbuckets6 : ∀ b p, bucketValue r6 b p = bucketValue r b p).
    { intros b p. rewrite <- Hbuckets3. unfold bucketValue. simpl.
      by rewrite Hb5, Hb4. }
    assert (Hpending : ∀ b items, (b, items) ∈ groups → ∃ idx, bks !! idx = Some b).
    { intros b items Hin. apply list_elem_of_lookup. unfold bks.
      rewrite elem_of_reverse. apply list_elem_of_fmap. by exists (b, items). }
    assert (Hbks : ∀ b, b ∈ bks → bucketValue r b plan = None).
    { intros b Hb. unfold bks in Hb. rewrite elem_of_reverse in Hb.
      apply list_elem_of_fmap in Hb as ([b' items] & -> & Hin).
      by apply Hgroups in Hin as [? _]. }
    assert (Hkept' : ∀ b p v, bucketValue r b p = Some v → bucketValue r7 b p = Some v).
    { intros b p v Hv. rewrite Hkept, Hbuckets6; [done|].
      destruct (decide (p = plan)) as [->|]; [|by right]. left. intros Hb%Hbks.
      congruence. }
    assert (Hset' : ∀ b idx, bks !! idx = Some b →
              bucketValue r7 b plan = Some (value idx))
      by (intros b idx Hb; by apply (Hset idx)).
    split_and!.
    + exists [(plan, [vals])]. split_and!.
      * rewrite Hc7. simpl. by rewrite Hc5, Hc4, Hc3.
      * simpl. lia.
      * by intros c ->%list_elem_of_singleton.
      * intros Hall. exfalso. destruct groups as [|[b items] rest] eqn:Hg; [done|].
        assert (Hin : (b, items) ∈ groups) by (rewrite Hg; set_solver).
        rewrite <- Hg in *. apply Hgroups in Hin as [Hnone' Hin].
        destruct (Hitems b items Hin) as [Hne Hrows].
        destruct items as [|[pr j] items]; [done|].
        destruct (Hrows pr j ltac:(set_solver)) as [<- Hrow].
        destruct (Hall j pr Hrow) as [v Hv]. congruence.
    + intros j pr Hrow. destruct (Hfiled j pr Hrow) as (items & Hin & _).
      destruct (bucketValue r (bucketOf o pr) plan) as [v|] eqn:Hv.
      * rewrite (Hkept' _ _ v Hv). done.
      * destruct (Hpending (bucketOf o pr) items) as [idx Hidx]; [by apply Hgroups|].
        by rewrite (Hset' _ idx Hidx).
    + exact Hkept'.
    + intros j Hj. destruct (lookup_lt_is_Some_2 rows j Hj) as [row Hrow].
      destruct Hr7 as (_ & l & Hl & Hlen & Hanswers).
      destruct (Hanswers j) as (v & Hv & HP).
      { destruct row as [|e|pr]; [left; left; by left|left; left; right; by exists e|].
        destruct (Hfiled j pr Hrow) as (items & Hin & Hpr).
        destruct (bucketValue r (bucketOf o pr) plan) as [v|] eqn:Hv.
        - left. right. exists (bucketOf o pr), items, pr. by rewrite Hv.
        - right. exists items, pr. split; [|done]. rewrite elem_of_reverse.
          apply list_elem_of_fmap. exists (bucketOf o pr, items). split; [done|].
          by apply Hgroups. }
      unfold arrayAt. rewrite Hl. simpl. rewrite Hv. simpl.
      unfold P in HP. rewrite Hrow in HP |- *.
      destruct row as [|e|pr]; [done..|].
      destruct HP as [HP|(idx & Hidx & ->)].
      * by rewrite (Hkept' _ _ v HP).
      * by rewrite (Hset' _ idx Hidx).
Qed.

End Leaf.

(** X15. For a synchronous plan without dependencies, in production or when
    [plan.execute] never answers with [NaN], [executePlan] with a plan cache
    that does not know the plan returns an array at once and calls
    [plan.execute] at most once, not at all when the bucket of every row
    holds a value for the plan; afterwards the bucket of every row holds
    one, what a bucket held before it still holds, and every row is
    answered with what its bucket holds ([null] and errors with
    themselves).  A later call for rows of the same batch, under any plan
    cache that does not know the plan, calls [execute] no more. *)
Theorem executePlan_leaf_executes_once `{Executor} (stack : nat) (plan : string)
  (o : ExecutablePlan) (planResultses : list Row) (visitedPlans : list string)
  (planCache : nat) (r : Run) :
  synchronousLeaf plan o → equivalenceCheckPasses plan →
  plan ∉ visitedPlans → cached r planCache plan = None →
  ∃ r', executePlan (S stack) plan planResultses visitedPlans planCache r
        = (Returns (Direct (allocated r)), r')
    ∧ (∃ calls, executeCalls r' = executeCalls r ++ calls ∧ length calls ≤ 1
                ∧ (∀ c, c ∈ calls → c.1 = plan)
                ∧ (allAnswered r o plan planResultses → calls = []))
    ∧ allAnswered r' o plan planResultses
    ∧ (∀ b p v, bucketValue r b p = Some v → bucketValue r' b p = Some v)
    ∧ (∀ j, j < length planResultses →
         arrayAt r' (allocated r) j
         = match planResultses !! j with
           | Some RowNull => Null
           | Some (RowError e) => CrystalErrorValue e
           | Some (RowResults pr) =>
               default Undefined (bucketValue r' (bucketOf o pr) plan)
           | None => Undefined
           end)
    ∧ ∀ stack' planResultses' visitedPlans' planCache',
        planResultses' ⊆ planResultses → plan ∉ visitedPlans' →
        cached r' planCache' plan = None →
        executeCalls (executePlan (S stack') plan planResultses' visitedPlans'
                        planCache' r').2
        = executeCalls r'.
Proof.
  intros Hleaf Hpasses Hvisited Hcached.
  assert (Hentry : ∀ stack rows visited pc r0, cached r0 pc plan = None →
    executePlan (S stack) plan rows visited pc r0
    = (do* result := executePlanAlt (executePlan stack) plan rows visited pc in
       cacheStore pc plan result ;;; xret result) r0).
  { intros stack0 rows visited pc r0 Hnone. cbn [executePlan].
    unfold xbind at 1. cbn [xgets]. unfold id. by rewrite Hnone. }
  destruct (executePlanAlt_leaf_run (executePlan stack) plan o planResultses Hleaf
              Hpasses visitedPlans planCache r Hvisited)
    as (r1 & Hrun & Hcalls & Hall & Hkept & Hanswers).
  set (r' := (cacheStore planCache plan (Direct (allocated r)) r1).2).
  exists r'. split_and!.
  - rewrite Hentry by done. by rewrite (xbind_returns _ _ _ _ _ Hrun).
  - exact Hcalls.
  - exact Hall.
  - exact Hkept.
  - exact Hanswers.
  - intros stack' rows' visited' pc' Hrows Hvisited' Hcached'.
    destruct (executePlanAlt_leaf_run (executePlan stack') plan o rows' Hleaf
                Hpasses visited' pc' r' Hvisited')
      as (r2 & Hrun' & (calls & Hcalls' & _ & _ & Hnone) & _).
    rewrite Hentry by done. rewrite (xbind_returns _ _ _ _ _ Hrun'). simpl.
    rewrite Hcalls', Hnone, app_nil_r; [done|].
    intros j pr Hrow.
    assert (Hin : RowResults pr ∈ planResultses)
      by (apply Hrows; by apply list_elem_of_lookup_2 in Hrow).
    apply list_elem_of_lookup in Hin as [j' Hj']. by apply (Hall j').
Qed.

Lemma rowsOf_not_NaN (values : list (list Value)) : NaN ∉ rowsOf values.
Proof.
  unfold rowsOf. intros Hin. apply list_elem_of_lookup in Hin as [i Hi].
  rewrite list_lookup_imap in Hi.
  destruct (hd [] values !! i); simpl in Hi; discriminate Hi.
Qed.

(** In development, three rows, one in a bucket that holds a value for [_1]
    and two in one empty bucket: [execute] is called once, and not again for
    a second batch. *)
Lemma executePlan_leaf_executes_once_witness :
  let run := @executePlan (joiningExecutor true diamond) 1 "_1"
               [rowAt 10; rowAt 20; rowAt 20] [] 0
               (newRun ["_1"] "_1" [(10, Data "a")]) in
  length (executeCalls run.2) ≤ 1
  ∧ executeCalls (@executePlan (joiningExecutor true diamond) 1 "_1"
                    [rowAt 20; rowAt 10] [] 7 run.2).2
    = executeCalls run.2.
Proof.
  intros run.
  destruct (@executePlan_leaf_executes_once (joiningExecutor true diamond) 0 "_1"
              (leafPlan (UserPlan "Load") []) [rowAt 10; rowAt 20; rowAt 20] [] 0
              (newRun ["_1"] "_1" [(10, Data "a")]))
    as (r' & Hrun & (calls & Hcalls & Hlen & _) & _ & _ & _ & Hagain).
  - split_and!; (done || vm_compute; reflexivity).
  - right. intros values r results [= <-]. apply rowsOf_not_NaN.
  - set_solver.
  - vm_compute. reflexivity.
  - subst run. rewrite Hrun. cbn [fst snd]. split.
    + rewrite Hcalls, length_app. simpl. lia.
    + apply (Hagain 0); [set_solver|set_solver|].
      assert (Hr' : r' = (@executePlan (joiningExecutor true diamond) 1 "_1"
                            [rowAt 10; rowAt 20; rowAt 20] [] 0
                            (newRun ["_1"] "_1" [(10, Data "a")])).2)
        by (by rewrite Hrun).
      rewrite Hr'. vm_compute. reflexivity.
Defined.

(** Where [execute] answers with [NaN] and two rows share a bucket,
    development throws [f0af3cb6] when it compares what the second row reads
    with the value, and production returns. *)
Lemma executePlan_leaf_throws_on_NaN_in_development :
  (@executePlan (nanExecutor true) 1 "_1" [rowAt 20; rowAt 20] [] 0
     (newRun ["_1"] "_1" [])).1
  = Throws notEquivalent
  ∧ returned (@executePlan (nanExecutor false) 1 "_1" [rowAt 20; rowAt 20] [] 0
                (newRun ["_1"] "_1" []))
    = Some [NaN; NaN].
Proof. split; vm_compute; reflexivity. Qed.

(** ** A value plan is populated, never executed *)

Lemma fill_frame (result : nat) (items : list Item) (v : Value) (r : Run) :
  ∃ r', fill result items v r = (Returns tt, r')
        ∧ buckets r' = buckets r ∧ executeCalls r' = executeCalls r.
Proof.
  revert r. induction items as [|[pr j] rest IH]; intros r; simpl.
  - by exists r.
  - destruct (IH (withArrays (alter (assign j v) result) r)) as (r' & Hrun & Hb & Hc).
    by exists r'.
Qed.

Section ValuePlan.
Context (o : ExecutablePlan) (plan : string) (result : nat).

Lemma collectPending_all_answered (byBucket : list (nat * list Item)) :
  ∀ (pending : list (list Item)) (r : Run),
    (∀ b items, (b, items) ∈ byBucket → is_Some (bucketValue r b plan)) →
    ∃ r', collectPending o plan result byBucket pending r = (Returns pending, r')
          ∧ buckets r' = buckets r ∧ executeCalls r' = executeCalls r.
Proof.
  induction byBucket as [|[b items] rest IH]; intros pending r Hall.
  - by exists r.
  - cbn [collectPending]. unfold xbind at 1. cbn [xgets]. unfold id.
    destruct (Hall b items ltac:(set_solver)) as [previous ->].
    destruct (fill_frame result items previous r) as (r1 & Hfill & Hb1 & Hc1).
    rewrite (xbind_returns _ _ _ _ _ Hfill).
    destruct (IH pending r1) as (r' & Hrun & Hb' & Hc').
    { intros b' items' Hin. unfold bucketValue. rewrite Hb1. apply (Hall b' items').
      set_solver. }
    exists r'. split; [done|]. split; congruence.
Qed.

Lemma collectPending_value_missing (byBucket : list (nat * list Item)) :
  constructor_ o = __ValuePlan →
  ∀ (pending : list (list Item)) (r : Run),
    (∃ b items, (b, items) ∈ byBucket ∧ bucketValue r b plan = None) →
    ∃ r', collectPending o plan result byBucket pending r = (Throws valuePlanQueued, r')
          ∧ buckets r' = buckets r ∧ executeCalls r' = executeCalls r.
Proof.
  intros Hvalue.
  induction byBucket as [|[b items] rest IH]; intros pending r (b0 & items0 & Hin & Hnone).
  - by apply elem_of_nil in Hin.
  - cbn [collectPending]. unfold xbind at 1. cbn [xgets]. unfold id.
    destruct (bucketValue r b plan) as [previous|] eqn:Hprevious.
    + destruct (fill_frame result items previous r) as (r1 & Hfill & Hb1 & Hc1).
      rewrite (xbind_returns _ _ _ _ _ Hfill).
      destruct (IH pending r1) as (r' & Hrun & Hb' & Hc').
      { exists b0, items0. apply elem_of_cons in Hin as [[= -> ->]|Hin]; [congruence|].
        split; [done|]. unfold bucketValue. by rewrite Hb1. }
      exists r'. split; [done|]. split; congruence.
    + rewrite bool_decide_eq_true_2 by done. by exists r.
Qed.

End ValuePlan.

Section ValuePlanRun.
Context `{Executor}.
Variable executePlan' : string → list Row → list string → nat → X Completion.
Context (plan : string) (o : ExecutablePlan) (rows : list Row).
Hypothesis known : objects aether !! plan = Some o.
Hypothesis value_plan : constructor_ o = __ValuePlan.

Lemma executePlanAlt_value_plan (visitedPlans : list string) (planCache : nat)
  (r : Run) :
  plan ∉ visitedPlans →
  (allAnswered r o plan rows →
   ∃ r', executePlanAlt executePlan' plan rows visitedPlans planCache r
         = (Returns (Direct (allocated r)), r')
     ∧ executeCalls r' = executeCalls r ∧ buckets r' = buckets r
     ∧ ∀ j pr, rows !! j = Some (RowResults pr) →
         arrayAt r' (allocated r) j
         = default Undefined (bucketValue r (bucketOf o pr) plan))
  ∧ ((∃ j pr, rows !! j = Some (RowResults pr)
              ∧ bucketValue r (bucketOf o pr) plan = None) →
     ∃ r', executePlanAlt executePlan' plan rows visitedPlans planCache r
           = (Throws valuePlanQueued, r')
       ∧ executeCalls r' = executeCalls r ∧ buckets r' = buckets r).
Proof.
  intros Hvisited. set (a := allocated r). set (n := length rows).
  destruct (newArray_spec (replicate n Undefined) r) as (r1 & Hnew & Harr1 & Hb1 & Hc1).
  destruct (groupRows_spec o a rows rows 0 [] r1)
    as (byBucket & r2 & Hgroup & Hb2 & [Hkeys Hitems] & _ & Hcov); [done| |].
  { split; [constructor|]. intros b items Hin. by apply elem_of_nil in Hin. }
  assert (Hsame : ∀ b p, bucketValue r2 b p = bucketValue r b p).
  { intros b p. unfold bucketValue. by rewrite Hb2, Hb1. }
  set (P := λ (j : nat) (v : Value),
         ∀ pr, rows !! j = Some (RowResults pr) →
           bucketValue r (bucketOf o pr) plan = Some v).
  assert (Hr1 : answered r1 a n (λ _, False) P).
  { injection Hnew as <-. split; [simpl; lia|].
    exists (replicate n Undefined). rewrite Harr1, lookup_insert_eq.
    split; [done|]. split; [by rewrite length_replicate|done]. }
  destruct (groupRows_answered o a n P rows rows 0 [] byBucket (λ _, False) r1 r2)
    as [Hc2 Hr2]; try done.
  { intros j Hj pr Hpr. congruence. }
  { intros j e Hj pr Hpr. congruence. }
  assert (Hitem : constructor_ o ≠ __ItemPlan) by (rewrite value_plan; discriminate).
  assert (Hstart : executePlanAlt executePlan' plan rows visitedPlans planCache r
                   = xbind (collectPending o plan a byBucket [])
                       (λ pending,
                          if Nat.eqb (length pending) 0 then xret (Direct a)
                          else
                            let pendingPlanResultses := firstPlanResults pending in
                            do* planCacheForPendingPlanResultses :=
                              (if Nat.eqb (length pendingPlanResultses) n
                               then xret planCache else newPlanCache) in
                            if Nat.ltb 0 (length (dependencies o)) then
                              do* completions :=
                                startDependencies executePlan' plan (dependencies o) 0
                                  pendingPlanResultses (visitedPlans ++ [plan])
                                  planCacheForPendingPlanResultses in
                              if existsb isLater completions then
                                async (awaitDependencyPromises executePlan' o plan a rows
                                         (visitedPlans ++ [plan]) planCache completions
                                         pending)
                              else
                                doNext executePlan' o plan a rows (visitedPlans ++ [plan])
                                  planCache (directResults completions) pending
                            else
                              do* dependencyValuesList :=
                                noDependencyValues o (length pendingPlanResultses) in
                              doNext executePlan' o plan a rows (visitedPlans ++ [plan])
                                planCache dependencyValuesList pending) r2).
  { unfold executePlanAlt. rewrite known.
    rewrite bool_decide_eq_false_2 by done. rewrite bool_decide_eq_false_2 by done.
    fold n. rewrite (xbind_returns _ _ _ _ _ Hnew). fold a.
    by rewrite (xbind_returns _ _ _ _ _ Hgroup). }
  rewrite Hstart. clear Hstart. split.
  - intros Hall.
    destruct (collectPending_all_answered o plan a byBucket [] r2)
      as (r3 & Hcollect & Hb3 & Hc3).
    { intros b items Hin. destruct (Hitems b items Hin) as [Hne Hrows].
      destruct items as [|[pr j] items]; [done|].
      destruct (Hrows pr j ltac:(set_solver)) as [<- Hrow].
      rewrite Hsame. by apply (Hall j). }
    destruct (collectPending_answered o plan a n P byBucket [] []
                (λ k, False ∨ (0 ≤ k ∧ (rows !! k = Some RowNull
                                        ∨ ∃ e, rows !! k = Some (RowError e))))
                r2 r3)
      as [_ (_ & l & Hl & Hlen & Hanswers)]; [|exact Hr2|exact Hcollect|].
    { intros b items pr j v Hin Hpr Hv. rewrite Hsame in Hv.
      destruct (Hitems b items Hin) as [_ Hrows].
      destruct (Hrows pr j Hpr) as [<- Hrow]. split.
      - apply lookup_lt_is_Some. by rewrite Hrow.
      - intros pr' Hrow'. rewrite Hrow in Hrow'. by injection Hrow' as <-. }
    exists r3. rewrite (xbind_returns _ _ _ _ _ Hcollect). split; [done|].
    split; [congruence|]. split; [congruence|].
    intros j pr Hrow. destruct (Hcov j pr Hrow) as (items & Hin & Hpr).
    destruct (Hanswers j) as (v & Hv & HP).
    { right. exists (bucketOf o pr), items, pr. split_and!; [done| |done].
      rewrite Hsame. by apply (Hall j). }
    unfold arrayAt. rewrite Hl. simpl. rewrite Hv. simpl.
    by rewrite (HP pr Hrow).
  - intros (j & pr & Hrow & Hnone).
    destruct (Hcov j pr Hrow) as (items & Hin & Hpr).
    destruct (collectPending_value_missing o plan a byBucket value_plan [] r2)
      as (r3 & Hcollect & Hb3 & Hc3).
    { exists (bucketOf o pr), items. by rewrite Hsame. }
    exists r3. unfold xbind. rewrite Hcollect. split; [done|]. split; congruence.
Qed.

End ValuePlanRun.

(** X16. After [populateValuePlan] has been given a value for a value plan
    and a crystal object, [executePlan] for rows that share the bucket of
    that crystal object returns at once an array that holds the value (the
    root value object in place of [null] and [undefined]) for each of them,
    and calls no [execute].  For a row whose bucket holds nothing for the
    value plan, [executePlan] throws the internal error 079b214f instead of
    executing the plan. *)
Theorem populateValuePlan_answers_value_plan `{Executor} (ROOT_VALUE_OBJECT : Value)
  (stack : nat) (valuePlan : string) (o : ExecutablePlan) (crystalObject : PlanResults)
  (object : Value) (planResultses : list Row) (visitedPlans : list string)
  (planCache : nat) (r : Run) :
  objects aether !! valuePlan = Some o → constructor_ o = __ValuePlan →
  valuePlan ∉ visitedPlans → cached r planCache valuePlan = None →
  (∀ j pr, planResultses !! j = Some (RowResults pr) →
           bucketOf o pr = bucketOf o crystalObject) →
  (∃ r0 r',
     populateValuePlan ROOT_VALUE_OBJECT valuePlan crystalObject object r
     = (Returns tt, r0)
     ∧ executePlan (S stack) valuePlan planResultses visitedPlans planCache r0
       = (Returns (Direct (allocated r)), r')
     ∧ executeCalls r' = executeCalls r
     ∧ ∀ j pr, planResultses !! j = Some (RowResults pr) →
         arrayAt r' (allocated r) j = orRootValueObject ROOT_VALUE_OBJECT object)
  ∧ ((∃ j pr, planResultses !! j = Some (RowResults pr)
              ∧ bucketValue r (bucketOf o pr) valuePlan = None) →
     ∃ r', executePlan (S stack) valuePlan planResultses visitedPlans planCache r
           = (Throws valuePlanQueued, r')
       ∧ executeCalls r' = executeCalls r ∧ buckets r' = buckets r).
Proof.
  intros Ho Hvalue Hvisited Hcached Hshared.
  assert (Hentry : ∀ r0, cached r0 planCache valuePlan = None →
    executePlan (S stack) valuePlan planResultses visitedPlans planCache r0
    = (do* result := executePlanAlt (executePlan stack) valuePlan planResultses
                       visitedPlans planCache in
       cacheStore planCache valuePlan result ;;; xret result) r0).
  { intros r0 Hnone. cbn [executePlan].
    unfold xbind at 1. cbn [xgets]. unfold id. by rewrite Hnone. }
  split.
  - set (v := orRootValueObject ROOT_VALUE_OBJECT object).
    set (r0 := withBuckets (λ bs,
                 <[getBucket crystalObject (commonAncestorPathIdentity o) :=
                     <[valuePlan := v]>
                       (default ∅ (bs !! getBucket crystalObject
                                            (commonAncestorPathIdentity o)))]> bs) r).
    assert (Hpopulated : ∀ j pr, planResultses !! j = Some (RowResults pr) →
              bucketValue r0 (bucketOf o pr) valuePlan = Some v).
    { intros j pr Hrow. unfold r0. rewrite bucketValue_set, decide_True; [done|].
      split; [|done]. by apply (Hshared j). }
    destruct (executePlanAlt_value_plan (executePlan stack) valuePlan o planResultses
                Ho Hvalue visitedPlans planCache r0 Hvisited) as [Hanswered _].
    destruct Hanswered as (r1 & Hrun & Hc1 & Hb1 & Hanswers).
    { intros j pr Hrow. by rewrite (Hpopulated j pr Hrow). }
    exists r0, (cacheStore planCache valuePlan (Direct (allocated r)) r1).2.
    split_and!.
    + unfold populateValuePlan. by rewrite Ho.
    + rewrite Hentry by done. by rewrite (xbind_returns _ _ _ _ _ Hrun).
    + exact Hc1.
    + intros j pr Hrow. simpl.
      change (arrayAt r1 (allocated r0) j = v).
      rewrite (Hanswers j pr Hrow). by rewrite (Hpopulated j pr Hrow).
  - intros Hmissing.
    destruct (executePlanAlt_value_plan (executePlan stack) valuePlan o planResultses
                Ho Hvalue visitedPlans planCache r Hvisited) as [_ Hthrows].
    destruct (Hthrows Hmissing) as (r1 & Hrun & Hc1 & Hb1).
    exists r1. rewrite Hentry by done. unfold xbind. by rewrite Hrun.
Qed.

(** The root value of a new context is [null]: the rows of the root bucket
    are answered with the root value object. *)
Lemma populateValuePlan_answers_value_plan_witness :
  ∃ r0 r',
    @populateValuePlan valueExecutor (Data "root") "_1" {| bucketAt := λ _, 10 |} Null
      (newRun ["_1"] "_1" [])
    = (Returns tt, r0)
    ∧ @executePlan valueExecutor 1 "_1" [rowAt 10; rowAt 10] [] 0 r0
      = (Returns (Direct 1), r')
    ∧ executeCalls r' = []
    ∧ ∀ j pr, [rowAt 10; rowAt 10] !! j = Some (RowResults pr) →
        arrayAt r' 1 j = Data "root".
Proof.
  destruct (@populateValuePlan_answers_value_plan valueExecutor (Data "root") 0 "_1"
              (leafPlan __ValuePlan []) {| bucketAt := λ _, 10 |} Null
              [rowAt 10; rowAt 10] [] 0 (newRun ["_1"] "_1" [])) as [Hpopulated _].
  - vm_compute. reflexivity.
  - reflexivity.
  - set_solver.
  - vm_compute. reflexivity.
  - intros [|[|j]] pr Hrow; [| |done]; injection Hrow as <-; reflexivity.
  - exact Hpopulated.
Defined.

(** ** Every entry of a batch is settled *)

Lemma resolveEntries_spec (entries : list (PlanResults * nat)) (results : nat) :
  ∀ (i : nat) (r : Run),
    NoDup entries.*2 →
    ∃ r', resolveEntries entries results i r = (Returns tt, r')
      ∧ buckets r' = buckets r ∧ arrays r' = arrays r
      ∧ executeCalls r' = executeCalls r
      ∧ (∀ k pr d, entries !! k = Some (pr, d) →
           deferreds r' !! d
           = settleOnce (Fulfilled (arrayAt r results (i + k))) <$> deferreds r !! d)
      ∧ (∀ d, d ∉ entries.*2 → deferreds r' !! d = deferreds r !! d).
Proof.
  induction entries as [|[pr d] rest IH]; intros i r Hnd.
  - exists r. split_and!; [done..| |done]. intros k pr d Hk. by rewrite lookup_nil in Hk.
  - rewrite fmap_cons in Hnd. apply NoDup_cons in Hnd as [Hd Hnd]. simpl in Hd.
    set (r1 := withDeferreds
                 (alter (settleOnce (Fulfilled (arrayAt r results i))) d) r).
    destruct (IH (S i) r1 Hnd) as (r' & Hrun & Hb & Ha & Hc & Hset & Hother).
    exists r'. split_and!; [exact Hrun|done..| |].
    + intros [|k] pr' d' Hk.
      * injection Hk as <- <-. rewrite Hother by done. simpl.
        rewrite lookup_alter_eq. by rewrite Nat.add_0_r.
      * simpl in Hk. rewrite (Hset k pr' d' Hk).
        assert (d' ≠ d).
        { intros ->. apply Hd. apply list_elem_of_fmap. exists (pr', d).
          split; [done|]. by apply list_elem_of_lookup_2 in Hk. }
        simpl. rewrite lookup_alter_ne by done.
        by replace (i + S k) with (S i + k) by lia.
    + intros d' Hd'. rewrite Hother by set_solver. simpl.
      rewrite lookup_alter_ne; [done|]. set_solver.
Qed.

Lemma rejectEntries_spec (entries : list (PlanResults * nat)) (e : Exception) :
  ∀ (r : Run),
    ∃ r', rejectEntries entries e r = (Returns tt, r')
      ∧ buckets r' = buckets r ∧ arrays r' = arrays r
      ∧ executeCalls r' = executeCalls r
      ∧ (∀ d, d ∈ entries.*2 →
           deferreds r' !! d = settleOnce (Rejected e) <$> deferreds r !! d)
      ∧ (∀ d, d ∉ entries.*2 → deferreds r' !! d = deferreds r !! d).
Proof.
  induction entries as [|[pr d] rest IH]; intros r.
  - exists r. split_and!; [done..| |done]. set_solver.
  - set (r1 := withDeferreds (alter (settleOnce (Rejected e)) d) r).
    destruct (IH r1) as (r' & Hrun & Hb & Ha & Hc & Hset & Hother).
    exists r'. split_and!; [exact Hrun|done..| |].
    + intros d' Hd'. destruct (decide (d' ∈ rest.*2)) as [Hin|Hout].
      * rewrite (Hset d' Hin). simpl. destruct (decide (d' = d)) as [->|Hne].
        -- rewrite lookup_alter_eq. destruct (deferreds r !! d) as [[| |]|]; done.
        -- by rewrite lookup_alter_ne.
      * rewrite (Hother d' Hout). simpl.
        assert (d' = d) as -> by set_solver. by rewrite lookup_alter_eq.
    + intros d' Hd'. rewrite Hother by set_solver. simpl.
      rewrite lookup_alter_ne; [done|]. set_solver.
Qed.

(** X17. [executeBatch] takes the batch out of [batchByPathIdentity] and
    never rejects, whatever [executeBatchForPlanResultses] does.  When that
    call gives an array, the deferred of every entry is resolved with the
    element of the array at the entry's index; when it throws or rejects,
    the deferred of every entry is rejected with that error; a deferred
    settled before stays as it was, and no other deferred, bucket or array
    is touched. *)
Theorem executeBatch_settles_every_entry
  (resultsForBatch : Batch → list Row → X Completion) (batch : Batch)
  (st : Run * gmap string Batch) :
  NoDup (entries batch).*2 →
  let called := resultsForBatch batch (map (λ entry, RowResults entry.1) (entries batch))
                  st.1 in
  let after := executeBatch resultsForBatch batch st in
  after.2.2 = delete (batchPathIdentity batch) st.2
  ∧ (∀ e, after.1 ≠ Rejected e)
  ∧ buckets after.2.1 = buckets called.2 ∧ arrays after.2.1 = arrays called.2
  ∧ (∀ d, d ∉ (entries batch).*2 → deferreds after.2.1 !! d = deferreds called.2 !! d)
  ∧ ∀ k pr d, entries batch !! k = Some (pr, d) →
      deferreds after.2.1 !! d
      = match batchOutcome called.1 with
        | BatchResults results =>
            settleOnce (Fulfilled (arrayAt called.2 results k)) <$> deferreds called.2 !! d
        | BatchError e => settleOnce (Rejected e) <$> deferreds called.2 !! d
        | BatchWaiting => deferreds called.2 !! d
        end.
Proof.
  intros Hnd called after. subst called after. unfold executeBatch.
  destruct (resultsForBatch batch _ st.1) as [[[results|[|results|e]]|e|] r] eqn:Hcall;
    cbn [fst snd batchOutcome].
  - destruct (resolveEntries_spec (entries batch) results 0 r Hnd)
      as (r' & -> & Hb & Ha & _ & Hset & Hother).
    split_and!; try done.
  - split_and!; done.
  - destruct (resolveEntries_spec (entries batch) results 0 r Hnd)
      as (r' & -> & Hb & Ha & _ & Hset & Hother).
    split_and!; try done.
  - destruct (rejectEntries_spec (entries batch) e r)
      as (r' & -> & Hb & Ha & _ & Hset & Hother).
    split_and!; try done. intros k pr d Hk. apply Hset.
    apply list_elem_of_fmap. exists (pr, d). split; [done|].
    by apply list_elem_of_lookup_2 in Hk.
  - destruct (rejectEntries_spec (entries batch) e r)
      as (r' & -> & Hb & Ha & _ & Hset & Hother).
    split_and!; try done. intros k pr d Hk. apply Hset.
    apply list_elem_of_fmap. exists (pr, d). split; [done|].
    by apply list_elem_of_lookup_2 in Hk.
  - split_and!; done.
Qed.

(** A call that throws rejects both entries of [twoEntries] with the error. *)
Lemma executeBatch_settles_every_entry_witness :
  let after := executeBatch (λ _ _, xthrow (Error "no connection")) twoEntries
                 (waitingRun, {[ "~>f" := twoEntries ]}) in
  after.1 = Fulfilled tt
  ∧ deferreds after.2.1 !! 1 = Some (Rejected (Error "no connection"))
  ∧ deferreds after.2.1 !! 2 = Some (Rejected (Error "no connection")).
Proof.
  intros after.
  destruct (executeBatch_settles_every_entry (λ _ _, xthrow (Error "no connection"))
              twoEntries (waitingRun, {[ "~>f" := twoEntries ]}))
    as (_ & _ & _ & _ & _ & Hentries).
  - by apply (bool_decide_unpack _).
  - split; [reflexivity|]. subst after. split.
    + rewrite (Hentries 0 _ 1 eq_refl). reflexivity.
    + rewrite (Hentries 1 _ 2 eq_refl). reflexivity.
Defined.

(** ** The order in which [processPlans] calls its callback *)

Lemma dependentsOf_run (s : Aether) (plan : string) (values : list (string * option string))
  (first : list string) :
  dependenciesResolve s →
  (∀ i q, (i, Some q) ∈ values → livePlan s q) →
  ∃ first', dependentsOf s plan values first = Ok first'
    ∧ ∀ q, q ∈ first' ↔
        q ∈ first ∨ ∃ i, (i, Some q) ∈ values ∧ dependsDirectlyOn s q plan.
Proof.
  intros resolve. revert first. induction values as [|[i [q|]] values IH]; intros first Hlive; simpl.
  - exists first. split; [done|]. set_solver.
  - destruct (resolve q (Hlive i q ltac:(set_solver))) as (o & Ho & _). rewrite Ho.
    assert (Hdep : existsb (λ depId, bool_decide (planAt (plans s) depId = Some plan))
                     (dependencies o) = true ↔ dependsDirectlyOn s q plan).
    { rewrite existsb_exists. split.
      - intros (depId & Hin & Hd). apply bool_decide_eq_true in Hd.
        exists o, depId. split_and!; [done| |done]. by apply list_elem_of_In.
      - intros (o' & depId & Ho' & Hin & Hd). rewrite Ho in Ho'. injection Ho' as <-.
        exists depId. split; [by apply list_elem_of_In|]. by apply bool_decide_eq_true. }
    destruct (existsb _ _) eqn:Hex.
    + destruct (IH (setAdd q first)) as (first' & -> & Hfirst'); [set_solver|].
      exists first'. split; [done|]. intros x. rewrite Hfirst', setAdd_elem. split.
      * intros [[->|?]|(j & ? & ?)]; [|by left|right; exists j; set_solver].
        right. exists i. split; [set_solver|]. by apply Hdep.
      * intros [?|(j & [[= -> ->]|?]%elem_of_cons & ?)];
          [tauto|left; by left|right; by exists j].
    + destruct (IH first) as (first' & -> & Hfirst'); [set_solver|].
      exists first'. split; [done|]. intros x. rewrite Hfirst'. split.
      * intros [?|(j & ? & ?)]; [by left|right; exists j; set_solver].
      * intros [?|(j & [[= -> ->]|?]%elem_of_cons & Hx)]; [by left| |right; by exists j].
        apply Hdep in Hx. congruence.
  - destruct (IH first) as (first' & -> & Hfirst'); [set_solver|].
    exists first'. split; [done|]. intros x. rewrite Hfirst'. split.
    + intros [?|(j & ? & ?)]; [by left|right; exists j; set_solver].
    + intros [?|(j & [[=]|?]%elem_of_cons & Hx)]; [by left|right; by exists j].
Qed.

Lemma dependenciesOf_first (s : Aether) (deps first : list string) :
  (∀ depId, depId ∈ deps → is_Some (planAt (plans s) depId)) →
  ∃ first', dependenciesOf s deps first = Ok first'
    ∧ ∀ q, q ∈ first' ↔ q ∈ first ∨ ∃ depId, depId ∈ deps ∧ planAt (plans s) depId = Some q.
Proof.
  revert first. induction deps as [|depId deps IH]; intros first Hdeps; simpl.
  - exists first. split; [done|]. set_solver.
  - destruct (Hdeps depId ltac:(set_solver)) as [q Hq]. rewrite Hq.
    destruct (IH (setAdd q first) ltac:(set_solver)) as (first' & -> & Hfirst').
    exists first'. split; [done|]. intros x. rewrite Hfirst', setAdd_elem. split.
    + intros [[->|?]|(d & ? & ?)]; [right; exists depId|by left|right; exists d];
        set_solver.
    + intros [?|(d & [->|?]%elem_of_cons & Hd)]; [tauto| |right; by exists d].
      left. left. congruence.
Qed.

Lemma firstOf_mustPrecede (s : Aether) (order : ProcessOrder) (p : string) :
  NoDup (map fst (plans s)) → dependenciesResolve s → livePlan s p →
  ∃ first, firstOf order p s = (Ok first, s, [])
           ∧ ∀ d, d ∈ first ↔ mustPrecede s order p d.
Proof.
  intros keys resolve Hp. destruct (resolve p Hp) as (o & Ho & Hdeps).
  unfold firstOf, mustPrecede. rewrite bind_get. destruct order.
  - destruct (dependentsOf_run s p (plans s) [] resolve) as (first & Hfirst & Hin).
    { intros i q Hq. exists i. unfold planAt. by rewrite (lookupKey_NoDup _ _ _ keys Hq). }
    exists first. unfold liftResult. rewrite Hfirst. split; [done|].
    intros d. rewrite Hin. split.
    + intros [?|(i & Hi & Hd)]; [set_solver|]. split; [|done].
      exists i. unfold planAt. by rewrite (lookupKey_NoDup _ _ _ keys Hi).
    + intros [[i Hi] Hd]. right. exists i. split; [|done].
      by apply planAt_is_Some_key, lookupKey_Some_key in Hi as [_ ?].
  - destruct (dependenciesOf_first s (dependencies o) [] Hdeps) as (first & Hfirst & Hin).
    exists first. rewrite (bind_run_silent _ _ s s o (object_run _ _ _ Ho)).
    unfold liftResult. rewrite Hfirst. split; [done|].
    intros d. rewrite Hin. split.
    + intros [?|(depId & ? & ?)]; [set_solver|]. split; [by exists depId|].
      by exists o, depId.
    + intros [_ (o' & depId & Ho' & ? & ?)]. rewrite Ho in Ho'. injection Ho' as <-.
      right. by exists depId.
Qed.

Section ProcessingOrder.
Context `{Host} {C : Type} (s : Aether) (order : ProcessOrder) (rank : string → nat).
Context (callback : string → C → M (string * C)) (step : string → C → C).
Context (onPlanReplacement : option (string → string → M unit)) (closure : C).
Hypothesis counted : tableCounted s.
Hypothesis keys : NoDup (map fst (plans s)).
Hypothesis own_slot : inOwnSlot s.
Hypothesis resolve : dependenciesResolve s.
Hypothesis ranked : rankedFor s order rank stack.
Hypothesis observer : observes s callback step.


Lemma processFirst_inOrder rec (p : string) (first : list string) :
  livePlan s p → (∀ d, d ∈ first → livePlan s d) →
  (∀ d visited st, d ∈ first → inOrder s order step closure visited st →
     ∃ more st', rec (Some d) st s = (Ok st', s, [])
                 ∧ inOrder s order step closure (visited ++ more) st' ∧ d ∈ visited ++ more
                 ∧ ∀ q, q ∈ more → rank q ≤ rank d) →
  ∀ visited st, inOrder s order step closure visited st →
  ∃ more st', processFirst rec p first st s = (Ok (false, st'), s, [])
              ∧ inOrder s order step closure (visited ++ more) st' ∧ (∀ d, d ∈ first → d ∈ visited ++ more)
              ∧ ∀ q, q ∈ more → ∃ d, d ∈ first ∧ rank q ≤ rank d.
Proof.
  intros Hp. induction first as [|d first IH]; intros Hlive Hrec visited st Hst.
  - exists [], st. rewrite app_nil_r. split; [done|]. set_solver.
  - simpl. unfold slot. rewrite bind_gets.
    rewrite (own_slot d) by (apply Hlive; set_solver).
    case_bool_decide as Hd.
    + destruct (IH ltac:(set_solver) ltac:(intros d' v' st0 Hd'; apply Hrec; set_solver)
                  visited st Hst) as (more & st' & -> & Hst' & Hall & Hrank).
      exists more, st'. split; [done|]. split; [done|]. split.
      * intros d' [->|Hd']%elem_of_cons; [|by apply Hall].
        destruct Hst as (Hset & _). rewrite Hset in Hd. set_solver.
      * intros q Hq. destruct (Hrank q Hq) as (d' & ? & ?). exists d'. set_solver.
    + destruct (Hrec d visited st ltac:(set_solver) Hst)
        as (more1 & st1 & Hrun & Hst1 & Hd1 & Hrank1).
      rewrite (bind_run_silent _ _ s s st1 Hrun), bind_gets, (own_slot p Hp).
      destruct (IH ltac:(set_solver) ltac:(intros d' v' st0 Hd'; apply Hrec; set_solver)
                  (visited ++ more1) st1 Hst1) as (more & st' & -> & Hst' & Hall & Hrank).
      exists (more1 ++ more), st'. rewrite app_assoc. split; [done|]. split; [done|].
      split.
      * intros d' [->|Hd']%elem_of_cons; [set_solver|by apply Hall].
      * intros q [Hq|Hq]%elem_of_app.
        -- exists d. split; [set_solver|by apply Hrank1].
        -- destruct (Hrank q Hq) as (d' & ? & ?). exists d'. set_solver.
Qed.

Lemma inOrder_snoc (visited : list string) (st : gset string * C) (p : string) :
  inOrder s order step closure visited st → livePlan s p → p ∉ visited →
  (∀ d, mustPrecede s order p d → d ∈ visited) →
  inOrder s order step closure (visited ++ [p]) ({[p]} ∪ st.1, step p st.2).
Proof.
  intros (Hset & Hseen & Hnd & Hlive & Hbefore) Hp Hnew Hfirst.
  split_and!; simpl.
  - rewrite Hset, list_to_set_app_L. set_solver.
  - rewrite Hseen. unfold seenAfter. by rewrite fold_left_app.
  - apply NoDup_app. split_and!; [done|set_solver|apply NoDup_singleton].
  - intros q [?| ->%list_elem_of_singleton]%elem_of_app; [by apply Hlive|done].
  - intros i q d Hi Hd. destruct (decide (i < length visited)) as [Hlt|Hge].
    + rewrite lookup_app_l in Hi by done.
      destruct (Hbefore i q d Hi Hd) as (j & Hj & Hjd). exists j. split; [done|].
      rewrite lookup_app_l; [done|lia].
    + rewrite lookup_app_r in Hi by lia.
      apply list_lookup_singleton_Some in Hi as [Hi ->].
      apply Hfirst, list_elem_of_lookup_1 in Hd as [j Hj]. exists j.
      pose proof (lookup_lt_Some _ _ _ Hj). split; [lia|].
      by rewrite lookup_app_l.
Qed.

Lemma process_inOrder (n : nat) :
  ∀ (p : string) (visited : list string) (st : gset string * C),
    livePlan s p → rank p < n → inOrder s order step closure visited st →
    ∃ more st', process order callback onPlanReplacement n (Some p) st s = (Ok st', s, [])
                ∧ inOrder s order step closure (visited ++ more) st' ∧ p ∈ visited ++ more
                ∧ ∀ q, q ∈ more → rank q ≤ rank p.
Proof.
  induction n as [|n IH]; intros p visited st Hp Hrank Hst; [lia|].
  simpl. case_bool_decide as Hseen.
  { exists [], st. rewrite app_nil_r. split; [done|]. split; [done|].
    destruct Hst as (Hset & _). rewrite Hset in Hseen. set_solver. }
  assert (Hfresh : p ∉ visited).
  { destruct Hst as (Hset & _). rewrite Hset in Hseen. set_solver. }
  destruct (firstOf_mustPrecede s order p keys resolve Hp) as (first & Hrun1 & Hfirst).
  rewrite (bind_run_silent _ _ s s _ Hrun1).
  destruct (processFirst_inOrder (process order callback onPlanReplacement n) p first Hp)
    with (visited := visited) (st := st)
    as (more & st1 & Hrun2 & Hst1 & Hall & Hbelow); [| |done|].
  { intros d Hd%Hfirst. apply Hd. }
  { intros d visited0 st0 Hd%Hfirst Hst0. apply IH; [apply Hd| |done].
    destruct ranked as [Hdown _]. specialize (Hdown p d Hp Hd). lia. }
  rewrite (bind_run_silent _ _ s s _ Hrun2). simpl. rewrite bind_gets.
  rewrite (bind_run_silent _ _ s s _
             (rethrowing_returns s _ _ _ (observer p st1.2 Hp))).
  rewrite (bind_run_silent _ _ s s tt)
    by (by apply reads_finalizeArgumentsSince).
  simpl. rewrite bool_decide_eq_false_2 by (intros Hne; by apply Hne).
  rewrite bind_ret.
  assert (Hlower : ∀ q, q ∈ more → rank q < rank p).
  { intros q (d & Hd%Hfirst & Hq)%Hbelow. destruct ranked as [Hdown _]. specialize (Hdown p d Hp Hd). lia. }
  assert (Hnew : p ∉ visited ++ more).
  { intros [?|Hin%Hlower]%elem_of_app; [done|lia]. }
  exists (more ++ [p]), ({[p]} ∪ st1.1, step p st1.2). rewrite app_assoc.
  split; [done|]. split; [|split; [set_solver|]].
  - apply inOrder_snoc; [done..|]. intros d Hd%Hfirst. by apply Hall.
  - intros q [Hq%Hlower| ->%list_elem_of_singleton]%elem_of_app; lia.
Qed.

End ProcessingOrder.

(** X18. On a counted table with distinct keys whose plans sit in their own
    slots, have dependency ids that all resolve, and form a DAG less deep
    than the stack allows, [processPlans] with a callback that returns the
    plan it is given and leaves the aether alone returns and has called the
    callback exactly once on every plan of the table, in an order in which a
    plan comes after every plan it depends on directly (dependencies first),
    respectively after every plan of the table that depends directly on it
    (dependents first). *)
Theorem processPlans_calls_each_plan_once_in_order `{Host} {C : Type} (s : Aether)
  (order : ProcessOrder) (rank : string → nat) (actionDescription : string)
  (callback : string → C → M (string * C)) (step : string → C → C)
  (onPlanReplacement : option (string → string → M unit)) (closure : C) :
  tableCounted s → NoDup (map fst (plans s)) → inOwnSlot s → dependenciesResolve s →
  rankedFor s order rank stack → observes s callback step →
  ∃ visited,
    processPlans actionDescription order callback onPlanReplacement 0 closure s
    = (Ok (seenAfter step visited closure), s, [])
    ∧ NoDup visited ∧ (∀ p, p ∈ visited ↔ livePlan s p)
    ∧ ∀ i p d, visited !! i = Some p → mustPrecede s order p d →
        ∃ j, j < i ∧ visited !! j = Some d.
Proof.
  intros Hcounted Hkeys Hown Hresolve Hranked Hobserves.
  unfold processPlans, getPlanIds. rewrite !bind_gets, drop_0.
  assert (Hloop : ∀ (ids : list string) visited st,
    inOrder s order step closure visited st →
    ∃ more st', forEach ids (st, 0, planCount s) (λ i acc,
             let* plan := slot i in
             let* st := process order callback onPlanReplacement stack plan acc.1.1 in
             let* count := gets planCount in
             let plansAdded := acc.1.2 + (count - acc.2) in
             if isDev && (100000 <? N.of_nat plansAdded)%N then
               throw (Error ("Whilst processing plans as part of " +:+ actionDescription
                             +:+ "Plans, too many new plans have been created"))
             else ret (st, plansAdded, count)) s
           = (Ok (st', 0, planCount s), s, [])
           ∧ inOrder s order step closure (visited ++ more) st'
           ∧ ∀ i p, i ∈ ids → planAt (plans s) i = Some p → p ∈ visited ++ more).
  { induction ids as [|i ids IH]; intros visited st Hst.
    - exists [], st. rewrite app_nil_r. split; [done|]. split; [done|]. set_solver.
    - assert (∃ more1 st1, process order callback onPlanReplacement stack
                       (planAt (plans s) i) st s = (Ok st1, s, [])
                     ∧ inOrder s order step closure (visited ++ more1) st1
                     ∧ ∀ p, planAt (plans s) i = Some p → p ∈ visited ++ more1)
        as (more1 & st1 & Hrun & Hst1 & Hi).
      { destruct (planAt (plans s) i) as [p|] eqn:Hp.
        - destruct (process_inOrder s order rank callback step onPlanReplacement closure
                      Hcounted Hkeys Hown Hresolve Hranked Hobserves stack p visited st)
            as (more1 & st1 & Hrun & Hst1 & Hin & _); [by exists i| |done|].
          { destruct Hranked as [_ Hbound]. apply Hbound. by exists i. }
          exists more1, st1. split_and!; try done. by intros ? [= <-].
        - exists [], st. rewrite app_nil_r. split; [by destruct stack|]. split_and!; done. }
      destruct (IH (visited ++ more1) st1 Hst1) as (more & st' & Hrun' & Hst' & Hall).
      exists (more1 ++ more), st'. rewrite app_assoc. split; [|split; [done|]].
      + cbn [forEach]. erewrite bind_run_silent; [exact Hrun'|].
        unfold slot. rewrite bind_gets. cbn [fst snd].
        rewrite (bind_run_silent _ _ s s _ Hrun), bind_gets.
        rewrite Nat.sub_diag. cbn [Nat.add N.of_nat N.ltb N.compare].
        by rewrite andb_false_r.
      + intros j p [->|Hj]%elem_of_cons Hp; [|by apply (Hall j)].
        specialize (Hi p Hp). set_solver. }
  destruct (Hloop (map fst (plans s)) [] (∅, closure))
    as (visited & st' & Hrun & (Hset & Hseen & Hnd & Hlive & Hbefore) & Hall).
  { split_and!; try done; try apply NoDup_nil_2; set_solver. }
  simpl in Hrun, Hall, Hnd, Hlive, Hbefore, Hseen.
  rewrite (bind_run_silent _ _ s s _ Hrun), bind_gets, Nat.ltb_irrefl, bind_ret.
  exists visited. cbn [fst snd]. rewrite Hseen. split; [done|]. split; [done|].
  split; [|done]. intros p. split; [apply Hlive|].
  intros [i Hi]. apply (Hall i p); [|done].
  apply planAt_is_Some_key in Hi. by apply lookupKey_Some_key in Hi as [? _].
Qed.

(** On the chain [_3 → _2 → _1], dependents first, a callback that notes
    its plans is called on each of the three once, [_3] before [_2] before
    [_1]. *)
Lemma processPlans_calls_each_plan_once_in_order_witness :
  ∃ visited,
    @processPlans (tableHost true []) _ "optimize" DependentsFirst notePlan None 0 []
      chainAether
    = (Ok (seenAfter (λ p noted, noted ++ [p]) visited []), chainAether, [])
    ∧ NoDup visited ∧ (∀ p, p ∈ visited ↔ livePlan chainAether p)
    ∧ ∀ i p d, visited !! i = Some p → mustPrecede chainAether DependentsFirst p d →
        ∃ j, j < i ∧ visited !! j = Some d.
Proof.
  apply (@processPlans_calls_each_plan_once_in_order (tableHost true []) _ chainAether
           DependentsFirst (λ p, 4 - chainRank p)).
  - unfold tableCounted. simpl. lia.
  - by apply (bool_decide_unpack _).
  - intros p [i Hi]. apply chainAether_slots in Hi as [_ [->|[->| ->]]]; reflexivity.
  - intros p [i Hi]. apply chainAether_slots in Hi as [_ [->|[->| ->]]];
      (eexists; split; [vm_compute; reflexivity|]); simpl; intros depId Hin.
    + set_solver.
    + apply list_elem_of_singleton in Hin as ->. by eexists.
    + apply list_elem_of_singleton in Hin as ->. by eexists.
  - split.
    + intros p d _ [_ [[-> ->]|[-> ->]]%chainAether_edges]; vm_compute; lia.
    + intros p [i Hi]. apply chainAether_slots in Hi as [_ [->|[->| ->]]];
        vm_compute; lia.
  - intros p c _. reflexivity.
Defined.

(** ** The walk of the field tree *)

Lemma dependsOn_snoc (s : Aether) (p x q : string) :
  dependsOn s p x → dependsDirectlyOn s x q → dependsOn s p q.
Proof.
  induction 1 as [p x Hx|p y x Hy Hx IH]; intros Hq.
  - apply (dependsOn_further s p x q Hx). by apply dependsOn_direct.
  - apply (dependsOn_further s p y q Hy). by apply IH.
Qed.

Lemma reaches_step (s : Aether) (p x q : string) :
  reaches s p x → dependsDirectlyOn s x q → reaches s p q.
Proof.
  intros [->|Hx] Hq; right; [by apply dependsOn_direct|by apply (dependsOn_snoc s p x q)].
Qed.

Lemma reaches_closed (s : Aether) (K : gset string) (a x : string) :
  a ∈ K → (∀ y q, y ∈ K → dependsDirectlyOn s y q → q ∈ K) →
  reaches s a x → x ∈ K.
Proof.
  intros Ha Hclosed [->|Hx]; [done|]. revert Ha.
  induction Hx as [a x Hx|a y x Hy Hx IH]; intros Ha.
  - by apply (Hclosed a).
  - apply IH. by apply (Hclosed a).
Qed.

Lemma reaches_trans (s : Aether) (p q r : string) :
  reaches s p q → reaches s q r → reaches s p r.
Proof.
  intros Hpq [->|Hqr]; [done|]. revert p Hpq.
  induction Hqr as [q r Hr|q y r Hy Hr IH]; intros p Hpq.
  - by apply (reaches_step s p q r).
  - apply IH. by apply (reaches_step s p q y).
Qed.

Lemma explored_refl {C} (s : Aether) (step : string → C → C) (I : C → Prop)
  (w : Walking C) :
  I (closedOver w) → explored s step I w w [].
Proof.
  intros HI. split_and!; try done; [set_solver|apply NoDup_nil_2|set_solver].
Qed.

Lemma explored_app {C} (s : Aether) (step : string → C → C) (I : C → Prop)
  (w w1 w2 : Walking C) (L1 L2 : list string) :
  explored s step I w w1 L1 → explored s step I w1 w2 L2 →
  explored s step I w w2 (L1 ++ L2).
Proof.
  intros (HK1 & Hc1 & Hn1 & Hf1 & HI1 & Hnd1 & HL1) (HK2 & Hc2 & Hn2 & Hf2 & HI2 & Hnd2 & HL2).
  split_and!.
  - rewrite HK2, HK1, list_to_set_app_L. set_solver.
  - congruence.
  - congruence.
  - rewrite Hf2, Hf1. by rewrite fold_left_app.
  - done.
  - apply NoDup_app. split_and!; [done| |done].
    intros x Hx1 Hx2. destruct (HL2 x Hx2) as (Hnew & _). rewrite HK1 in Hnew. set_solver.
  - intros x [Hx|Hx]%elem_of_app.
    + destruct (HL1 x Hx) as (Hnew & Hlive & Hclosed). split_and!; [done..|].
      intros q Hq. specialize (Hclosed q Hq). rewrite HK2. set_solver.
    + destruct (HL2 x Hx) as (Hnew & Hlive & Hclosed). split_and!; [|done..].
      rewrite HK1 in Hnew. set_solver.
Qed.

Lemma explored_closed {C} (s : Aether) (step : string → C → C) (I : C → Prop)
  (w w' : Walking C) (L : list string) :
  explored s step I w w' L →
  (∀ y q, y ∈ knownPlans w → dependsDirectlyOn s y q → q ∈ knownPlans w) →
  ∀ y q, y ∈ knownPlans w' → dependsDirectlyOn s y q → q ∈ knownPlans w'.
Proof.
  intros (HK & _ & _ & _ & _ & _ & HL) Hclosed y q Hy Hq.
  rewrite HK in Hy. apply elem_of_union in Hy as [Hy|Hy%elem_of_list_to_set].
  - rewrite HK. specialize (Hclosed y q Hy Hq). set_solver.
  - by apply (HL y Hy).
Qed.

Lemma knownFrom_closed (s : Aether) (above : list string) (K : gset string) :
  knownFrom s above K → ∀ y q, y ∈ K → dependsDirectlyOn s y q → q ∈ K.
Proof.
  intros HK y q (b & Hb & Hy)%HK Hq. apply HK. exists b. split; [done|].
  by apply (reaches_step s b y q).
Qed.

(** After exploring from [a] with the plans reached from [above] known, the
    plans reached from [above] and [a] are known, and the callback was called
    on those reached from [a] and not from [above]. *)
Lemma explored_knownFrom {C} (s : Aether) (step : string → C → C) (I : C → Prop)
  (w w' : Walking C) (L : list string) (above : list string) (a : string) :
  knownFrom s above (knownPlans w) → explored s step I w w' L →
  a ∈ knownPlans w' → (∀ x, x ∈ L → reaches s a x) →
  knownFrom s (above ++ [a]) (knownPlans w')
  ∧ ∀ x, x ∈ L ↔ reaches s a x ∧ ∀ b, b ∈ above → ¬ reaches s b x.
Proof.
  intros HK Hexp Ha Hsound.
  pose proof (explored_closed s step I w w' L Hexp (knownFrom_closed s above _ HK))
    as Hclosed.
  destruct Hexp as (HK' & _ & _ & _ & _ & _ & HL).
  assert (Hchar : ∀ x, x ∈ knownPlans w' ↔ x ∈ knownPlans w ∨ reaches s a x).
  { intros x. split.
    - rewrite HK'. intros [?|Hx%elem_of_list_to_set]%elem_of_union; [by left|].
      right. by apply Hsound.
    - intros [Hx|Hx]; [rewrite HK'; set_solver|].
      by apply (reaches_closed s _ a x). }
  split.
  - intros x. rewrite Hchar, (HK x). split.
    + intros [(b & Hb & Hx)|Hx]; [exists b|exists a]; set_solver.
    + intros (b & [Hb| ->%list_elem_of_singleton]%elem_of_app & Hx);
        [left; by exists b|by right].
  - intros x. split.
    + intros Hx. split; [by apply Hsound|]. intros b Hb Hbx.
      destruct (HL x Hx) as (Hnew & _). apply Hnew, HK. by exists b.
    + intros [Hx Hnone].
      assert (Hin : x ∈ knownPlans w') by (apply Hchar; by right).
      rewrite HK' in Hin. apply elem_of_union in Hin as [Hin|Hin%elem_of_list_to_set];
        [|done].
      apply HK in Hin as (b & Hb & Hbx). by destruct (Hnone b Hb).
Qed.

Lemma height_child (tree child : FieldTree) :
  child ∈ childrenOf tree → height child < height tree.
Proof.
  destruct tree as [n cs]. simpl. intros Hin.
  assert (height child ≤ max_list (map height cs)); [|lia].
  apply max_list_elem_of_le. apply list_elem_of_fmap. by exists child.
Qed.

Lemma nodes_child (tree child : FieldTree) (n : TreeNode) :
  child ∈ childrenOf tree → n ∈ nodes child → n ∈ nodes tree.
Proof.
  destruct tree as [m cs]. simpl. intros Hin Hn. right.
  apply list_elem_of_In, in_concat. exists (nodes child). split.
  - apply in_map. by apply list_elem_of_In.
  - by apply list_elem_of_In.
Qed.

Lemma nodes_self (tree : FieldTree) : treeNodeOf tree ∈ nodes tree.
Proof. destruct tree. simpl. set_solver. Qed.

Lemma firstUsage_node (s : Aether) (above : list string) (tree : FieldTree) (n : TreeNode)
  (p : string) :
  firstUsage s above tree n p → n ∈ nodes tree.
Proof.
  induction 1 as [above tree a p _ _ _|above tree child n p Hchild _ IH].
  - apply nodes_self.
  - by apply (nodes_child tree child).
Qed.

Lemma treePlanned_child (s : Aether) (tree child : FieldTree) :
  treePlanned s tree → child ∈ childrenOf tree → treePlanned s child.
Proof.
  intros [Hnodes Hsub] Hin. split; [|done]. intros n Hn. apply Hnodes.
  by apply (nodes_child tree child).
Qed.


Section TreeWalkRun.
Context `{Host} {C : Type} (s : Aether) (rank : string → nat) (bound : nat).
Context (callback : TreeNode → option string → C → M C).
Context (step : TreeNode → string → C → C) (I : C → Prop) (N : TreeNode → Prop).
Hypothesis resolve : dependenciesResolve s.
Hypothesis ranked : rankedBelow s rank bound.
Hypothesis plain : noListTransforms s.
Hypothesis observer :
  ∀ n p c, N n → livePlan s p → I c →
    callback n (Some p) c s = (Ok (step n p c), s, []) ∧ I (step n p c).

(** The loop over [plan.dependencies], with what the recursive call is
    known to do. *)
Lemma processDependencies_explores rec (n : TreeNode) (p : string) (ds : list string) :
  (∀ d, d ∈ ds → ∃ q, planAt (plans s) d = Some q ∧ dependsDirectlyOn s p q) →
  (∀ q w, dependsDirectlyOn s p q → livePlan s q → I (closedOver w) →
     ∃ L w', rec (Some q) w s = (Ok w', s, []) ∧ explored s (step n) I w w' L
             ∧ q ∈ knownPlans w' ∧ ∀ x, x ∈ L → reaches s q x) →
  ∀ w, I (closedOver w) →
  ∃ L w', forEach ds w (λ depId w', let* dep := slot depId in rec dep w') s
          = (Ok w', s, [])
          ∧ explored s (step n) I w w' L
          ∧ (∀ d q, d ∈ ds → planAt (plans s) d = Some q → q ∈ knownPlans w')
          ∧ ∀ x, x ∈ L → ∃ q, dependsDirectlyOn s p q ∧ reaches s q x.
Proof.
  intros Hds Hrec. induction ds as [|d ds IH]; intros w HI.
  - exists [], w. split; [done|]. split; [by apply explored_refl|]. set_solver.
  - destruct (Hds d ltac:(set_solver)) as (q & Hq & Hpq).
    destruct (Hrec q w Hpq ltac:(by exists d) HI) as (L1 & w1 & Hrun1 & Hexp1 & Hq1 & Hsound1).
    destruct (IH ltac:(set_solver) w1) as (L2 & w2 & Hrun2 & Hexp2 & Hall2 & Hsound2).
    { apply Hexp1. }
    exists (L1 ++ L2), w2. split_and!.
    + cbn [forEach]. erewrite bind_run_silent; [exact Hrun2|].
      unfold slot. rewrite bind_gets, Hq. exact Hrun1.
    + by apply (explored_app s (step n) I w w1 w2).
    + intros d' q' [->|Hd']%elem_of_cons Hq'; [|by apply (Hall2 d')].
      rewrite Hq in Hq'. injection Hq' as <-.
      destruct Hexp2 as (HK2 & _). rewrite HK2. set_solver.
    + intros x [Hx|Hx]%elem_of_app; [|by apply Hsound2]. exists q. split; [done|].
      by apply Hsound1.
Qed.

Lemma processPlan_explores (fuel : nat) :
  ∀ (n : TreeNode) (p : string) (w : Walking C),
    N n → livePlan s p → rank p < fuel → I (closedOver w) →
    ∃ L w', TreeWalk.processPlan callback fuel n (Some p) w s = (Ok w', s, [])
            ∧ explored s (step n) I w w' L
            ∧ p ∈ knownPlans w' ∧ ∀ x, x ∈ L → reaches s p x.
Proof.
  induction fuel as [|fuel IH]; intros n p w Hn Hp Hrank HI; [lia|].
  simpl. case_bool_decide as Hknown.
  { exists [], w. split; [done|]. split; [by apply explored_refl|]. set_solver. }
  destruct (resolve p Hp) as (o & Ho & Hdeps).
  rewrite (bind_run_silent _ _ s s o (object_run _ _ _ Ho)).
  rewrite bool_decide_eq_false_2 by (by apply (plain p o)).
  rewrite bind_ret.
  destruct (observer n p (closedOver w) Hn Hp HI) as [Hcall HI1].
  rewrite (bind_run_silent _ _ s s _ Hcall).
  rewrite (bind_run_silent _ _ s s o (object_run _ _ _ Ho)).
  set (w1 := {| knownPlans := {[p]} ∪ knownPlans w; children := children w;
                nextNodeId := nextNodeId w; closedOver := step n p (closedOver w) |}).
  destruct ranked as [Hdown _].
  destruct (processDependencies_explores (TreeWalk.processPlan callback fuel n) n p
              (dependencies o)) with (w := w1) as (L & w' & Hrun & Hexp & Hall & Hsound).
  { intros d Hd. destruct (Hdeps d Hd) as [q Hq]. exists q. split; [done|].
    by exists o, d. }
  { intros q w0 Hq Hlive HI0. apply IH; [done|done| |done].
    specialize (Hdown p q Hp Hq). lia. }
  { done. }
  exists (p :: L), w'. split; [exact Hrun|].
  destruct Hexp as (HK & Hc & Hnext & Hf & HI' & Hnd & HL).
  assert (Hp' : p ∈ knownPlans w') by (rewrite HK; set_solver).
  split_and!; try done.
  - split_and!; try done.
    + rewrite HK. set_solver.
    + apply NoDup_cons. split; [|done]. intros Hin. destruct (HL p Hin) as [Hnew _].
      set_solver.
    + intros x [->|Hx]%elem_of_cons.
      * split_and!; [done..|]. intros q (o' & d & Ho' & Hd & Hq).
        rewrite Ho in Ho'. injection Ho' as <-. by apply (Hall d).
      * destruct (HL x Hx) as (Hnew & Hlive & Hclosed). split_and!; [|done..].
        set_solver.
  - intros x [->|Hx]%elem_of_cons; [by left|].
    destruct (Hsound x Hx) as (q & Hq & Hqx).
    apply (reaches_trans s p q x); [|done]. right. by apply dependsOn_direct.
Qed.

(** [processPlan] called from [recurse], where the plans reached from
    [above] are known. *)
Lemma processPlan_first_usages (fuel : nat) (n : TreeNode) (a : string)
  (w : Walking C) (above : list string) :
  N n → livePlan s a → bound ≤ fuel → knownFrom s above (knownPlans w) →
  I (closedOver w) →
  ∃ L w', TreeWalk.processPlan callback fuel n (Some a) w s = (Ok w', s, [])
          ∧ children w' = children w ∧ nextNodeId w' = nextNodeId w
          ∧ closedOver w' = fold_left (λ c x, step n x c) L (closedOver w)
          ∧ I (closedOver w') ∧ NoDup L
          ∧ knownFrom s (above ++ [a]) (knownPlans w')
          ∧ ∀ x, x ∈ L ↔ reaches s a x ∧ ∀ b, b ∈ above → ¬ reaches s b x.
Proof.
  intros HN Ha Hfuel HK HI.
  destruct (processPlan_explores fuel n a w HN Ha) as (L & w' & Hrun & Hexp & Ha' & Hsound);
    [|done|].
  { destruct ranked as [_ Hbound]. specialize (Hbound a Ha). lia. }
  destruct (explored_knownFrom s (step n) I w w' L above a HK Hexp Ha' Hsound)
    as [HK' HL].
  exists L, w'. split; [done|].
  destruct Hexp as (_ & Hc & Hn & Hf & HI' & Hnd & _). by split_and!.
Qed.

Lemma processSubscriptionPlan_first_usages (fuel : nat) (n : TreeNode)
  (w : Walking C) (above : list string) :
  (∀ id, subscriptionPlanId s = Some id → id ≠ "" → is_Some (planAt (plans s) id)) →
  N n → bound ≤ fuel → knownFrom s above (knownPlans w) → I (closedOver w) →
  ∃ L w', TreeWalk.processSubscriptionPlan callback fuel n w s = (Ok w', s, [])
          ∧ children w' = children w ∧ nextNodeId w' = nextNodeId w
          ∧ closedOver w' = fold_left (λ c x, step n x c) L (closedOver w)
          ∧ I (closedOver w') ∧ NoDup L
          ∧ knownFrom s (above ++ subscriptionPlanAt s n) (knownPlans w')
          ∧ ∀ x, x ∈ L ↔ (∃ a, a ∈ subscriptionPlanAt s n ∧ reaches s a x)
                         ∧ ∀ b, b ∈ above → ¬ reaches s b x.
Proof.
  intros Hsub HN Hfuel HK HI.
  assert (Hnone : subscriptionPlanAt s n = [] →
    ∃ L w', ret w s = (Ok w', s, [])
          ∧ children w' = children w ∧ nextNodeId w' = nextNodeId w
          ∧ closedOver w' = fold_left (λ c x, step n x c) L (closedOver w)
          ∧ I (closedOver w') ∧ NoDup L
          ∧ knownFrom s (above ++ subscriptionPlanAt s n) (knownPlans w')
          ∧ ∀ x, x ∈ L ↔ (∃ a, a ∈ subscriptionPlanAt s n ∧ reaches s a x)
                         ∧ ∀ b, b ∈ above → ¬ reaches s b x).
  { intros ->. exists [], w. rewrite app_nil_r.
    split_and!; try done; [apply NoDup_nil_2|set_solver]. }
  unfold TreeWalk.processSubscriptionPlan.
  unfold subscriptionPlanAt in *. destruct (parent n); [by apply Hnone|].
  rewrite bind_gets. destruct (subscriptionPlanId s) as [id|] eqn:Hid; [|by apply Hnone].
  destruct (String.eqb_spec id "") as [->|Hne]; [by apply Hnone|].
  destruct (Hsub id eq_refl Hne) as [a Ha].
  unfold slot. rewrite bind_gets, Ha. simpl.
  destruct (processPlan_first_usages fuel n a w above) as
    (L & w' & Hrun & Hc & Hn & Hf & HI' & Hnd & HK' & HL); [done|by exists id|done..|].
  exists L, w'. split_and!; try done. intros x. rewrite HL. split.
  - intros [? ?]. split; [|done]. exists a. set_solver.
  - intros [(a' & ->%list_elem_of_singleton & ?) ?]. done.
Qed.

Lemma seenUsages_at (n : TreeNode) (L : list string) (c : C) :
  seenUsages step (map (pair n) L) c = fold_left (λ c x, step n x c) L c.
Proof. unfold seenUsages. revert c. induction L as [|x L IH]; intros c; simpl; [done|]. apply IH. Qed.

(** The loop over the children, with what the recursive call is known to
    do. *)
Lemma recurseChildren_first_usages rec (w : Walking C) (above : list string) :
  (∀ child next c, child ∈ children w → I c →
     ∃ u, rec child (knownPlans w) (next, c) s
          = (Ok (child, (next, seenUsages step u c)), s, [])
          ∧ I (seenUsages step u c)
          ∧ (NoDup (nodes child) → NoDup u)
          ∧ ∀ n p, (n, p) ∈ u ↔ firstUsage s above child n p) →
  I (closedOver w) →
  ∃ u, TreeWalk.recurseChildren rec w s
       = (Ok (children w, (nextNodeId w, seenUsages step u (closedOver w))), s, [])
       ∧ I (seenUsages step u (closedOver w))
       ∧ (NoDup (concat (map nodes (children w))) → NoDup u)
       ∧ ∀ n p, (n, p) ∈ u ↔ ∃ child, child ∈ children w ∧ firstUsage s above child n p.
Proof.
  intros Hrec HI. unfold TreeWalk.recurseChildren.
  assert (Hloop : ∀ cs before c, (∀ child, child ∈ cs → child ∈ children w) → I c →
    ∃ u, forEach cs (before, (nextNodeId w, c)) (λ child acc,
           let* r := rec child (knownPlans w) acc.2 in
           ret (acc.1 ++ [r.1], r.2)) s
         = (Ok (before ++ cs, (nextNodeId w, seenUsages step u c)), s, [])
         ∧ I (seenUsages step u c)
         ∧ (NoDup (concat (map nodes cs)) → NoDup u)
         ∧ ∀ n p, (n, p) ∈ u ↔ ∃ child, child ∈ cs ∧ firstUsage s above child n p).
  { induction cs as [|child cs IH]; intros before c Hsub Hc.
    - exists []. rewrite app_nil_r. split; [done|]. split; [done|].
      split; [intros _; apply NoDup_nil_2|set_solver].
    - destruct (Hrec child (nextNodeId w) c ltac:(set_solver) Hc)
        as (u1 & Hrun1 & HI1 & Hnd1 & Hu1).
      destruct (IH (before ++ [child]) (seenUsages step u1 c) ltac:(set_solver) HI1)
        as (u2 & Hrun2 & HI2 & Hnd2 & Hu2).
      exists (u1 ++ u2). unfold seenUsages in *. rewrite fold_left_app. split_and!.
      + cbn [forEach]. erewrite bind_run_silent.
        * rewrite Hrun2. by rewrite <- app_assoc.
        * cbn [fst snd]. by rewrite (bind_run_silent _ _ s s _ Hrun1).
      + done.
      + simpl. intros (Hndc & Hdisjoint & Hndcs)%NoDup_app.
        apply NoDup_app. split_and!; [by apply Hnd1| |by apply Hnd2].
        intros [n p] Hin1 Hin2. apply Hu1, firstUsage_node in Hin1.
        apply Hu2 in Hin2 as (child' & Hchild' & Hin2%firstUsage_node).
        apply (Hdisjoint n Hin1). apply list_elem_of_In, in_concat.
        exists (nodes child'). split; [|by apply list_elem_of_In].
        apply in_map. by apply list_elem_of_In.
      + intros n p. rewrite elem_of_app, Hu1, Hu2. split.
        * intros [?|(c' & ? & ?)]; [exists child|exists c']; set_solver.
        * intros (c' & [->|?]%elem_of_cons & ?); [by left|right; by exists c']. }
  destruct (Hloop (children w) [] (closedOver w)) as (u & Hrun & HIu & Hndu & Hu);
    [done..|].
  exists u. by rewrite Hrun.
Qed.

Lemma recurse_first_usages (fuel : nat) :
  ∀ (tree : FieldTree) (K : gset string) (above : list string) (next : nat) (c : C),
    knownFrom s above K → height tree + bound ≤ fuel → treePlanned s tree →
    (∀ n, n ∈ nodes tree → N n) → I c →
    ∃ u, TreeWalk.recurse callback fuel tree K (next, c) s
         = (Ok (tree, (next, seenUsages step u c)), s, [])
         ∧ I (seenUsages step u c)
         ∧ (NoDup (nodes tree) → NoDup u)
         ∧ ∀ n p, (n, p) ∈ u ↔ firstUsage s above tree n p.
Proof.
  induction fuel as [|fuel IH]; intros tree K above next c HK Hfuel Hplanned HN HI.
  { destruct tree. simpl in Hfuel. lia. }
  assert (Hbound : bound ≤ fuel) by (destruct tree; simpl in Hfuel; lia).
  cbn [TreeWalk.recurse].
  set (n := treeNodeOf tree).
  destruct (processSubscriptionPlan_first_usages fuel n
              {| knownPlans := K; children := childrenOf tree; nextNodeId := next;
                 closedOver := c |} above)
    as (L1 & w1 & Hrun1 & Hc1 & Hn1 & Hf1 & HI1 & Hnd1 & HK1 & HL1);
    [apply Hplanned|apply HN, nodes_self|done..|].
  rewrite (bind_run_silent _ _ s s _ Hrun1), bind_gets.
  destruct Hplanned as [Hnodes Hsub].
  destruct (Hnodes n (nodes_self tree)) as (id & Hid & [a Ha]). rewrite Hid.
  unfold slot at 1. rewrite bind_gets, Ha.
  destruct (processPlan_first_usages fuel n a w1 (above ++ subscriptionPlanAt s n))
    as (L2 & w2 & Hrun2 & Hc2 & Hn2 & Hf2 & HI2 & Hnd2 & HK2 & HL2);
    [apply HN, nodes_self|by exists id|done..|].
  rewrite (bind_run_silent _ _ s s _ Hrun2).
  assert (Hplans : plansAt s n = subscriptionPlanAt s n ++ [a]).
  { unfold plansAt, pathPlanAt. by rewrite Hid, Ha. }
  rewrite <- app_assoc, <- Hplans in HK2.
  destruct (recurseChildren_first_usages (TreeWalk.recurse callback fuel) w2
              (above ++ plansAt s n)) as (u & Hrun3 & HI3 & Hndu & Hu); [|done|].
  { intros child next' c' Hchild Hc'. rewrite Hc2, Hc1 in Hchild. simpl in Hchild.
    apply IH; [done| |by apply (treePlanned_child s tree)| |done].
    - pose proof (height_child tree child Hchild). lia.
    - intros n' Hn'. apply HN. by apply (nodes_child tree child). }
  rewrite (bind_run_silent _ _ s s _ Hrun3). cbn [fst snd].
  rewrite Hc2, Hc1, Hn2, Hn1. cbn [children nextNodeId].
  exists (map (pair n) (L1 ++ L2) ++ u).
  assert (Hseen : seenUsages step (map (pair n) (L1 ++ L2) ++ u) c
                  = seenUsages step u (closedOver w2)).
  { unfold seenUsages at 1. rewrite fold_left_app. fold (seenUsages step (map (pair n) (L1 ++ L2)) c).
    rewrite seenUsages_at, fold_left_app, Hf2, Hf1. reflexivity. }
  rewrite Hseen. split_and!.
  - unfold n. by destruct tree.
  - done.
  - intros Hnodes'. rewrite Hc2, Hc1 in Hndu. cbn [children] in Hndu.
    assert (Hsplit : NoDup (n :: concat (map nodes (childrenOf tree))))
      by (unfold n; by destruct tree).
    apply NoDup_cons in Hsplit as [Hfresh Hbelow].
    apply NoDup_app. split_and!; [|..|by apply Hndu].
    + apply NoDup_fmap_2; [by intros ?? [=]|]. apply NoDup_app. split_and!; [done| |done].
      intros x Hx1 Hx2. apply HL1 in Hx1 as [(a' & Ha' & Hreach) _].
      apply HL2 in Hx2 as [_ Hnone]. apply (Hnone a'); [set_solver|done].
    + intros [n' p] (x & [= -> ->] & _)%list_elem_of_fmap Hin.
      apply Hu in Hin as (child & Hchild & Hin%firstUsage_node).
      rewrite Hc2, Hc1 in Hchild. cbn [children] in Hchild.
      apply Hfresh. apply list_elem_of_In, in_concat.
      exists (nodes child). split; [|by apply list_elem_of_In].
      apply in_map. by apply list_elem_of_In.
  - intros n' p. rewrite elem_of_app, Hu. split.
    + intros [Hhere|(child & Hchild & Hbelow)].
      * apply list_elem_of_fmap in Hhere as (x & [= -> ->] & Hx).
        apply elem_of_app in Hx as [Hx|Hx].
        -- apply HL1 in Hx as [(a' & Ha' & Hreach) Hnone].
           apply (firstUsage_here s above tree a' x); [|done..].
           unfold plansAt. set_solver.
        -- apply HL2 in Hx as [Hreach Hnone].
           apply (firstUsage_here s above tree a x); [|done|].
           ++ fold n. rewrite Hplans. set_solver.
           ++ intros b Hb. apply Hnone. set_solver.
      * rewrite Hc2, Hc1 in Hchild. by apply (firstUsage_below s above tree child).
    + intros Hfirst.
      inversion Hfirst as [above' tree' a' p' Ha' Hreach Hnone|above' tree' child n'' p' Hchild Hbelow];
        subst.
      * left. apply list_elem_of_fmap. exists p. split; [done|]. apply elem_of_app.
        destruct (decide (p ∈ L1)) as [?|Hnot]; [by left|]. right. apply HL2.
        fold n in Ha'. rewrite Hplans in Ha'.
        assert (Hsubs : ∀ b, b ∈ subscriptionPlanAt s n → ¬ reaches s b p).
        { intros b Hb Hbp. apply Hnot, HL1. split; [by exists b|done]. }
        apply elem_of_app in Ha' as [Ha'|Ha'%list_elem_of_singleton].
        -- by destruct (Hsubs a' Ha').
        -- subst a'. split; [done|].
           intros b [Hb|Hb]%elem_of_app; [by apply Hnone|by apply Hsubs].
      * right. exists child. rewrite Hc2, Hc1. done.
Qed.

End TreeWalkRun.

(** X19. On a table whose plans have dependency ids that all resolve, form a
    DAG that fits the stack together with the levels of the tree, and hold no
    list transform, for a tree of distinct nodes each with a plan under its
    path, [walkTreeFirstPlanUsages] with a callback that leaves the aether
    alone returns and leaves the tree and the aether as they were; it has
    called the callback exactly once for every node and plan such that the
    plan is reached from a plan of the node along dependency edges and from
    no plan of a node above it, and for nothing else. *)
Theorem walkTreeFirstPlanUsages_calls_at_first_usages `{Host} {C : Type} (s : Aether)
  (rank : string → nat) (bound : nat) (rootTreeNode : FieldTree)
  (callback : TreeNode → option string → C → M C) (step : TreeNode → string → C → C)
  (next : nat) (c : C) :
  dependenciesResolve s → rankedBelow s rank bound →
  height rootTreeNode + bound ≤ stack → noListTransforms s →
  treePlanned s rootTreeNode → NoDup (nodes rootTreeNode) →
  observesUsages s callback step →
  ∃ usages,
    TreeWalk.walkTreeFirstPlanUsages callback rootTreeNode (next, c) s
    = (Ok (rootTreeNode, (next, seenUsages step usages c)), s, [])
    ∧ NoDup usages
    ∧ ∀ n p, (n, p) ∈ usages ↔ firstUsage s [] rootTreeNode n p.
Proof.
  intros Hresolve Hranked Hfuel Hplain Hplanned Hnodes Hobserves.
  destruct (recurse_first_usages s rank bound callback step (λ _, True) (λ _, True)
              Hresolve Hranked Hplain) with (fuel := stack) (tree := rootTreeNode)
              (K := (∅ : gset string)) (above := @nil string) (next := next) (c := c)
    as (usages & Hrun & _ & Hnd & Husages); try done.
  { intros n p c0 _ Hp _. split; [by apply Hobserves|done]. }
  { intros x. set_solver. }
  exists usages. split; [exact Hrun|]. split; [by apply Hnd|done].
Qed.

Lemma fieldAether_resolves : dependenciesResolve fieldAether.
Proof.
  intros p [i Hi]. apply chainAether_slots in Hi as [_ [->|[->| ->]]];
    (eexists; split; [vm_compute; reflexivity|]); simpl; intros depId Hin.
  - set_solver.
  - apply list_elem_of_singleton in Hin as ->. by eexists.
  - apply list_elem_of_singleton in Hin as ->. by eexists.
Qed.

Lemma fieldAether_ranked : rankedBelow fieldAether chainRank 4.
Proof.
  split.
  - intros p q _ Hq. apply chainAether_edges in Hq as [[-> ->]|[-> ->]]; vm_compute; lia.
  - intros p [i Hi]. apply chainAether_slots in Hi as [_ [->|[->| ->]]]; vm_compute; lia.
Qed.

Lemma fieldAether_plain : noListTransforms fieldAether.
Proof.
  intros p o [i Hi] Ho. apply chainAether_slots in Hi as [_ [->|[->| ->]]];
    vm_compute in Ho; injection Ho as <-; done.
Qed.

Lemma fieldTree_nodes : NoDup (nodes fieldTree).
Proof.
  simpl. apply NoDup_cons. split; [|apply NoDup_singleton].
  intros Hin%list_elem_of_singleton. discriminate Hin.
Qed.

Lemma fieldTree_planned : treePlanned fieldAether fieldTree.
Proof.
  split; [|done]. intros n Hn. simpl in Hn.
  apply elem_of_cons in Hn as [->|Hn]; [by exists "_1"|].
  apply list_elem_of_singleton in Hn as ->. by exists "_3".
Qed.

(** On the chain [_3 → _2 → _1] with [_1] at the root and [_3] at the field
    [a], a callback that notes its usages is called once for each first
    usage. *)
Lemma walkTreeFirstPlanUsages_calls_at_first_usages_witness :
  ∃ usages,
    @TreeWalk.walkTreeFirstPlanUsages (tableHost true []) _ noteUsage fieldTree (5, [])
      fieldAether
    = (Ok (fieldTree, (5, seenUsages (λ n p noted, noted ++ [(n, Some p)]) usages [])),
       fieldAether, [])
    ∧ NoDup usages
    ∧ ∀ n p, (n, p) ∈ usages ↔ firstUsage fieldAether [] fieldTree n p.
Proof.
  apply (@walkTreeFirstPlanUsages_calls_at_first_usages (tableHost true []) _ fieldAether
           chainRank 4).
  - apply fieldAether_resolves.
  - apply fieldAether_ranked.
  - simpl. lia.
  - apply fieldAether_plain.
  - apply fieldTree_planned.
  - apply fieldTree_nodes.
  - intros n p c _. reflexivity.
Defined.

(** ** The group ids of the plans *)

Lemma pushGroupIds_run (p : string) (groupIds : list nat) :
  ∀ (planGroupIds : gmap string (list nat)) (own : list nat),
    planGroupIds !! p = Some own →
    ∃ more, TreeWalk.pushGroupIds (Some p) groupIds planGroupIds
            = Ok (<[p := own ++ more]> planGroupIds)
            ∧ (NoDup own → NoDup (own ++ more))
            ∧ ∀ g, g ∈ own ++ more ↔ g ∈ own ∨ g ∈ groupIds.
Proof.
  induction groupIds as [|g groupIds IH]; intros planGroupIds own Hown; simpl.
  - exists []. rewrite app_nil_r, insert_id by done. split; [done|]. split; [done|].
    set_solver.
  - rewrite Hown. case_bool_decide as Hg.
    + destruct (IH planGroupIds own Hown) as (more & -> & Hnd & Hin).
      exists more. split; [done|]. split; [done|]. intros x. rewrite Hin. set_solver.
    + destruct (IH (<[p := own ++ [g]]> planGroupIds) (own ++ [g]))
        as (more & -> & Hnd & Hin); [by rewrite lookup_insert_eq|].
      exists (g :: more). rewrite insert_insert_eq.
      replace (own ++ g :: more) with ((own ++ [g]) ++ more) by (by rewrite <- app_assoc).
      split; [done|]. split.
      * intros Hown'. apply Hnd. apply NoDup_app. split_and!; [done| |apply NoDup_singleton].
        intros x Hx ->%list_elem_of_singleton. done.
      * intros x. rewrite Hin. set_solver.
Qed.

Lemma groupIdsAfter_spec (s : Aether) (groupIdsByPathIdentity : gmap string (list nat))
  (n : TreeNode) (q : string) (planGroupIds : gmap string (list nat)) :
  is_Some (groupIdsByPathIdentity !! fieldPathIdentity n) →
  is_Some (planGroupIds !! q) →
  TreeWalk.assignGroupIdsCallback groupIdsByPathIdentity n (Some q) planGroupIds s
  = (Ok (groupIdsAfter groupIdsByPathIdentity n q planGroupIds), s, [])
  ∧ ∀ p own, planGroupIds !! p = Some own →
      ∃ more, groupIdsAfter groupIdsByPathIdentity n q planGroupIds !! p
              = Some (own ++ more)
              ∧ (NoDup own → NoDup (own ++ more))
              ∧ ∀ g, g ∈ own ++ more ↔
                  g ∈ own ∨ (p = q ∧ ∃ groupIds,
                               groupIdsByPathIdentity !! fieldPathIdentity n = Some groupIds
                               ∧ g ∈ groupIds).
Proof.
  intros [groupIds Hn] [mine Hq].
  destruct (pushGroupIds_run q groupIds planGroupIds mine Hq) as (more & Hrun & Hnd & Hin).
  unfold TreeWalk.assignGroupIdsCallback, groupIdsAfter. rewrite Hn, Hrun.
  split; [done|]. intros p own Hp. destruct (decide (p = q)) as [->|Hne].
  - rewrite Hq in Hp. injection Hp as <-. exists more. rewrite lookup_insert_eq.
    split; [done|]. split; [done|]. intros g. rewrite Hin. split.
    + intros [?|?]; [by left|right]. split; [done|]. by exists groupIds.
    + intros [?|[_ (groupIds' & [= <-] & ?)]]; [by left|by right].
  - exists []. rewrite app_nil_r, lookup_insert_ne by done. split; [done|]. split; [done|].
    intros g. split; [by left|]. intros [?|[? _]]; done.
Qed.

Lemma seenUsages_groupIds (s : Aether) (groupIdsByPathIdentity : gmap string (list nat))
  (usages : list (TreeNode * string)) :
  ∀ (planGroupIds : gmap string (list nat)),
    (∀ n q, (n, q) ∈ usages →
       is_Some (groupIdsByPathIdentity !! fieldPathIdentity n)
       ∧ is_Some (planGroupIds !! q)) →
    ∀ p own, planGroupIds !! p = Some own →
      ∃ more, seenUsages (groupIdsAfter groupIdsByPathIdentity) usages planGroupIds !! p
              = Some (own ++ more)
              ∧ (NoDup own → NoDup (own ++ more))
              ∧ ∀ g, g ∈ own ++ more ↔
                  g ∈ own ∨ ∃ n groupIds,
                    (n, p) ∈ usages
                    ∧ groupIdsByPathIdentity !! fieldPathIdentity n = Some groupIds
                    ∧ g ∈ groupIds.
Proof.
  induction usages as [|[n q] usages IH]; intros planGroupIds Hall p own Hp.
  - exists []. rewrite app_nil_r. split; [done|]. split; [done|]. set_solver.
  - destruct (Hall n q ltac:(set_solver)) as [Hn Hq].
    destruct (groupIdsAfter_spec s groupIdsByPathIdentity n q planGroupIds Hn Hq)
      as [_ Hstep].
    destruct (Hstep p own Hp) as (more1 & Hp1 & Hnd1 & Hin1).
    destruct (IH (groupIdsAfter groupIdsByPathIdentity n q planGroupIds)) with (p := p)
      (own := own ++ more1) as (more2 & Hp' & Hnd' & Hin'); [|done|].
    { intros n' q' Hin. destruct (Hall n' q' ltac:(set_solver)) as [Hn' [mine Hq']].
      split; [done|]. destruct (Hstep q' mine Hq') as (mine' & -> & _). done. }
    exists (more1 ++ more2). rewrite app_assoc. split; [exact Hp'|]. split; [tauto|].
    intros g. rewrite Hin', Hin1. split.
    + intros [[?|[-> (groupIds & ? & ?)]]|(n' & groupIds & ? & ? & ?)].
      * by left.
      * right. exists n, groupIds. set_solver.
      * right. exists n', groupIds. set_solver.
    + intros [?|(n' & groupIds & [[= -> ->]|?]%elem_of_cons & ? & ?)].
      * left. by left.
      * left. right. split; [done|]. by exists groupIds.
      * right. by exists n', groupIds.
Qed.

Lemma reaches_live (s : Aether) (a p : string) :
  livePlan s a → reaches s a p → livePlan s p.
Proof.
  intros Ha [<-|Hp]; [done|].
  assert (Hdirect : ∀ x y, dependsDirectlyOn s x y → livePlan s y).
  { intros x y (o & d & _ & _ & Hy). by exists d. }
  induction Hp as [a p Hp|a q p Hq Hp IH]; [by apply (Hdirect a)|].
  apply IH. by apply (Hdirect a).
Qed.

Lemma plansAt_live (s : Aether) (n : TreeNode) (a : string) :
  a ∈ plansAt s n → livePlan s a.
Proof.
  unfold plansAt, subscriptionPlanAt, pathPlanAt. intros [Ha|Ha]%elem_of_app.
  - destruct (parent n); [set_solver|]. destruct (subscriptionPlanId s) as [id|]; [|set_solver].
    destruct (String.eqb id ""); [set_solver|].
    destruct (planAt (plans s) id) as [x|] eqn:Hx; [|set_solver].
    apply list_elem_of_singleton in Ha as ->. by exists id.
  - destruct (lookupKey _ _) as [id|]; [|set_solver].
    destruct (planAt (plans s) id) as [x|] eqn:Hx; [|set_solver].
    apply list_elem_of_singleton in Ha as ->. by exists id.
Qed.

Lemma firstUsage_live (s : Aether) (above : list string) (tree : FieldTree)
  (n : TreeNode) (p : string) :
  firstUsage s above tree n p → livePlan s p.
Proof.
  induction 1 as [above tree a p Ha Hp _|]; [|done].
  apply (reaches_live s a p); [|done]. by apply (plansAt_live s (treeNodeOf tree)).
Qed.

(** X20. On such a table and tree, with group ids recorded for the field
    path of every node and a field [groupIds] on every plan of the table,
    [assignGroupIds] returns and leaves the tree and the aether as they were;
    afterwards the field [groupIds] of a plan holds what it held before
    followed by the group ids of the field paths of the nodes at which the
    plan is first used, and nothing else, and it has no repetition if it had
    none before. *)
Theorem assignGroupIds_collects_group_ids_of_first_usages `{Host} (s : Aether)
  (rank : string → nat) (bound : nat) (rootTreeNode : FieldTree)
  (groupIdsByPathIdentity : gmap string (list nat)) (next : nat)
  (planGroupIds : gmap string (list nat)) :
  dependenciesResolve s → rankedBelow s rank bound →
  height rootTreeNode + bound ≤ stack → noListTransforms s →
  treePlanned s rootTreeNode →
  (∀ n, n ∈ nodes rootTreeNode →
     is_Some (groupIdsByPathIdentity !! fieldPathIdentity n)) →
  (∀ p, livePlan s p → is_Some (planGroupIds !! p)) →
  ∃ planGroupIds',
    TreeWalk.assignGroupIds groupIdsByPathIdentity rootTreeNode (next, planGroupIds) s
    = (Ok (rootTreeNode, (next, planGroupIds')), s, [])
    ∧ ∀ p own, planGroupIds !! p = Some own →
        ∃ more, planGroupIds' !! p = Some (own ++ more)
                ∧ (NoDup own → NoDup (own ++ more))
                ∧ ∀ g, g ∈ own ++ more ↔
                    g ∈ own ∨ ∃ n groupIds,
                      firstUsage s [] rootTreeNode n p
                      ∧ groupIdsByPathIdentity !! fieldPathIdentity n = Some groupIds
                      ∧ g ∈ groupIds.
Proof.
  intros Hresolve Hranked Hfuel Hplain Hplanned Hgroups Hfields.
  destruct (recurse_first_usages s rank bound
              (TreeWalk.assignGroupIdsCallback groupIdsByPathIdentity)
              (groupIdsAfter groupIdsByPathIdentity)
              (λ c, ∀ p, livePlan s p → is_Some (c !! p))
              (λ n, is_Some (groupIdsByPathIdentity !! fieldPathIdentity n))
              Hresolve Hranked Hplain) with (fuel := stack) (tree := rootTreeNode)
              (K := (∅ : gset string)) (above := @nil string) (next := next)
              (c := planGroupIds)
    as (usages & Hrun & _ & _ & Husages); try done.
  { intros n q c0 Hn Hq Hc0.
    destruct (groupIdsAfter_spec s groupIdsByPathIdentity n q c0 Hn (Hc0 q Hq))
      as [Hcall Hstep].
    split; [done|]. intros p Hp. destruct (Hc0 p Hp) as [own Hown].
    destruct (Hstep p own Hown) as (more & -> & _). done. }
  { intros x. set_solver. }
  exists (seenUsages (groupIdsAfter groupIdsByPathIdentity) usages planGroupIds).
  split; [exact Hrun|]. intros p own Hp.
  destruct (seenUsages_groupIds s groupIdsByPathIdentity usages planGroupIds) with
    (p := p) (own := own) as (more & Hp' & Hnd & Hin); [|done|].
  { intros n q Hnq%Husages. split.
    - apply Hgroups. by apply (firstUsage_node s [] rootTreeNode n q).
    - apply Hfields. by apply (firstUsage_live s [] rootTreeNode n q). }
  exists more. split; [done|]. split; [done|]. intros g. rewrite Hin.
  split; (intros [?|(n & groupIds & Hnp & ? & ?)]; [by left|]);
    right; exists n, groupIds; (split; [by apply Husages|done]).
Qed.

(** On the chain [_3 → _2 → _1] with [_1] at the root and [_3] at the field
    [a]: the plans get the group ids of the field at which they are first
    used. *)
Lemma assignGroupIds_collects_group_ids_of_first_usages_witness :
  ∃ planGroupIds',
    @TreeWalk.assignGroupIds (tableHost true []) {[ "~" := [0]; "~>a" := [0; 1] ]}
      fieldTree (5, {[ "_1" := []; "_2" := []; "_3" := [] ]}) fieldAether
    = (Ok (fieldTree, (5, planGroupIds')), fieldAether, [])
    ∧ ∀ p own, ({[ "_1" := []; "_2" := []; "_3" := [] ]} : gmap string (list nat)) !! p
               = Some own →
        ∃ more, planGroupIds' !! p = Some (own ++ more)
                ∧ (NoDup own → NoDup (own ++ more))
                ∧ ∀ g, g ∈ own ++ more ↔
                    g ∈ own ∨ ∃ n groupIds,
                      firstUsage fieldAether [] fieldTree n p
                      ∧ ({[ "~" := [0]; "~>a" := [0; 1] ]} : gmap string (list nat))
                          !! fieldPathIdentity n = Some groupIds
                      ∧ g ∈ groupIds.
Proof.
  apply (@assignGroupIds_collects_group_ids_of_first_usages (tableHost true [])
           fieldAether chainRank 4).
  - apply fieldAether_resolves.
  - apply fieldAether_ranked.
  - simpl. lia.
  - apply fieldAether_plain.
  - apply fieldTree_planned.
  - intros n Hn. simpl in Hn. apply elem_of_cons in Hn as [->|Hn]; [by eexists|].
    apply list_elem_of_singleton in Hn as ->. by eexists.
  - intros p [i Hi]. apply chainAether_slots in Hi as [_ [->|[->| ->]]]; by eexists.
Defined.

(** ** What [assignCommonAncestorPathIdentity] assigns *)








(** What the callback keeps true of the variables it closes over and of the
    aether, the walk keeps true, as long as it does not depend on
    [planIdByPathIdentity]. *)
Section WalkKeeps.
Context `{Host} {C : Type} (callback : TreeNode → option string → C → M C).
Context (I : C → Aether → Prop).
Hypothesis kept :
  ∀ n p c s c' s' w,
    callback n (Some p) c s = (Ok c', s', w) → is_Some (objects s !! p) →
    I c s → I c' s'.
Hypothesis stable :
  ∀ c s v, I c s → I c (setPlanIdByPathIdentity v s).1.2.




End WalkKeeps.





















(** On the fork the plans end with the path identities [~], [~], [~>a] and
    [~>b] as their common ancestors. *)
Lemma assignCommonAncestorPathIdentity_on_fork :
  let result :=
    @TreeWalk.assignCommonAncestorPathIdentity (tableHost true []) forkTree 5 forkAether in
  result.1.1 = Ok (forkTree, 5)
  ∧ map (λ p, commonAncestorPathIdentity <$> objects result.1.2 !! p)
      ["_1"; "_2"; "_3"; "_4"]
    = [Some "~"; Some "~"; Some "~>a"; Some "~>d"].
Proof. vm_compute. split; reflexivity. Qed.

(** Below a list: [_6] is first used at [b] and [c] below the items of [a].
    Created at the root, it is stored at [~>a], the last node before the
    items, as are the plans of the item node and of [b] and [c]; created
    under [~>a[]], it is stored at the item node, the deepest node the paths
    to [b] and [c] share; created under [~>a[]>], where the paths to [b] and
    [c] share no node, the method throws [aac23403]; created under [~>x],
    where [b] does not lie, the method throws the error of [treeNodePath]. *)
Lemma assignCommonAncestorPathIdentity_below_list :
  let assigned parentOfShared :=
    @TreeWalk.assignCommonAncestorPathIdentity (tableHost true []) listTree 5
      (listAether parentOfShared) in
  (assigned "").1.1 = Ok (listTree, 5)
  ∧ map (λ p, commonAncestorPathIdentity <$> objects (assigned "").1.2 !! p)
      ["_1"; "_2"; "_3"; "_4"; "_5"; "_6"]
    = [Some "~"; Some "~>a"; Some "~>a"; Some "~>a"; Some "~>a"; Some "~>a"]
  ∧ (assigned "~>a[]").1.1 = Ok (listTree, 5)
  ∧ commonAncestorPathIdentity <$> objects (assigned "~>a[]").1.2 !! "_6" = Some "~>a[]"
  ∧ (assigned "~>a[]>").1.1 = Throw noCommonRoot
  ∧ (assigned "~>x").1.1 = Throw (outsideStart bNode "~>x").
Proof. vm_compute. repeat split; reflexivity. Qed.


(** ** Every plan that stays in the table is optimized *)

Lemma rethrowing_Ok {A} (message : string) (m : M A) (s s' : Aether) (a : A)
  (w : list Event) :
  rethrowing message m s = (Ok a, s', w) → m s = (Ok a, s', w).
Proof. unfold rethrowing. by destruct (m s) as [[[?|?] ?] ?]. Qed.

Lemma planAt_assignKey (t : list (string * option string)) (i j : string)
  (v : option string) :
  planAt (assignKey i v t) j = if decide (i = j) then v else planAt t j.
Proof. unfold planAt. rewrite lookupKey_assignKey. case_decide; [by destruct v|done]. Qed.

Lemma planAt_key (t : list (string * option string)) (i p : string) :
  planAt t i = Some p → i ∈ map fst t.
Proof. intros Hp%planAt_is_Some_key. by apply lookupKey_Some_key in Hp as [? _]. Qed.

(** The slots after [replacePlan]. *)
Lemma replacePlan_slots (p r : string) (s : Aether) :
  ∃ s', replacePlan p r s = (Ok tt, s', [])
        ∧ onlySlotsChanged s s'
        ∧ ∀ j, planAt (plans s') j
               = if bool_decide (planAt (plans s) j = Some p) then Some r
                 else planAt (plans s) j.
Proof.
  unfold replacePlan, getPlanIds. rewrite bind_gets.
  assert (Hloop : ∀ ids s,
            ∃ s', forEach ids tt (λ j _,
                    let* pj := slot j in
                    if bool_decide (pj = Some p) then
                      let* table := gets plans in setPlans (assignKey j (Some r) table)
                    else ret tt) s = (Ok tt, s', [])
                  ∧ onlySlotsChanged s s'
                  ∧ ∀ j, planAt (plans s') j
                         = if bool_decide (j ∈ ids ∧ planAt (plans s) j = Some p)
                           then Some r else planAt (plans s) j).
  { clear s. induction ids as [|j0 ids IH]; intros s.
    - exists s. split; [reflexivity|]. split; [apply onlySlotsChanged_refl|].
      intros j. rewrite bool_decide_eq_false_2; [done|]. set_solver.
    - cbn [forEach].
      set (s1 := if bool_decide (planAt (plans s) j0 = Some p)
                 then withPlans (λ _, assignKey j0 (Some r) (plans s)) s else s).
      assert (Hbody : (let* pj := slot j0 in
                       if bool_decide (pj = Some p) then
                         let* table := gets plans in setPlans (assignKey j0 (Some r) table)
                       else ret tt) s = (Ok tt, s1, [])).
      { unfold slot. rewrite bind_gets. unfold s1.
        case_bool_decide; [by rewrite bind_gets|reflexivity]. }
      rewrite (bind_run_silent _ _ _ _ _ Hbody).
      destruct (IH s1) as (s' & Hrun & HR & Hslots). exists s'.
      assert (H1 : ∀ j, planAt (plans s1) j
                        = if bool_decide (j = j0 ∧ planAt (plans s) j = Some p)
                          then Some r else planAt (plans s) j).
      { intros j. unfold s1. case_bool_decide as Hj0; simpl.
        - rewrite planAt_assignKey. case_decide; case_bool_decide; naive_solver.
        - rewrite bool_decide_eq_false_2; [done|]. naive_solver. }
      split; [exact Hrun|]. split.
      + eapply onlySlotsChanged_trans; [|exact HR]. unfold s1.
        case_bool_decide as Hj; [|apply onlySlotsChanged_refl].
        split; [done|]. simpl. apply length_assignKey_present.
        apply planAt_is_Some_key in Hj. eauto.
      + intros j. rewrite Hslots, H1.
        repeat case_bool_decide; set_solver. }
  destruct (Hloop (map fst (plans s)) s) as (s' & Hrun & HR & Hslots).
  exists s'. split; [exact Hrun|]. split; [exact HR|].
  intros j. rewrite Hslots.
  destruct (decide (planAt (plans s) j = Some p)) as [Hj|Hj].
  - rewrite !bool_decide_eq_true_2; [done..|]. split; [|done]. by apply (planAt_key _ _ p).
  - rewrite !bool_decide_eq_false_2; [done..|]. naive_solver.
Qed.

Lemma passCovers_weaken (s0 s : Aether) (processed pending pending' : gset string) :
  passCovers s0 s processed pending → pending ⊆ pending' →
  passCovers s0 s processed pending'.
Proof.
  intros (Hduring & Hdone & Hlive) Hsub. split; [done|]. split; [done|].
  intros q Hq. destruct (Hlive q Hq); [by left|right; set_solver].
Qed.

Lemma firstOf_Ok (order : ProcessOrder) (p : string) (s s' : Aether)
  (first : list string) (w : list Event) :
  firstOf order p s = (Ok first, s', w) → s' = s.
Proof.
  unfold firstOf. rewrite bind_get. destruct order.
  - unfold liftResult. by intros [= _ <- _].
  - intros (o & s1 & w1 & w2 & Hobject & Hlift & _)%bind_Ok.
    unfold object in Hobject. destruct (objects s !! p); [|discriminate].
    injection Hobject as _ <- _.
    unfold liftResult in Hlift. by injection Hlift as _ <- _.
Qed.

Lemma optimizePlan_Ok `{Host} (p r : string) (s s' : Aether) (w : list Event) :
  hostOptimizesWithinTable →
  optimizePlan p s = (Ok r, s', w) →
  (p ∉ optimizedPlans s) ∧ plans s' = plans s ∧ planCount s' = planCount s
  ∧ optimizedPlans s' = {[p]} ∪ optimizedPlans s
  ∧ (r = p ∨ livePlan s r).
Proof.
  intros Hwithin. unfold optimizePlan. rewrite bind_gets.
  case_bool_decide as Hin; [discriminate|]. rewrite bind_gets.
  unfold bind, emit, call, addOptimized, ret.
  destruct (Hwithin p (match planOptionsByPlan s !! p with
                       | Some o => stream o | None => None end) s) as [Hsame Hr].
  destruct (optimize p _ s) as [[r'|e] s1]; [|discriminate]. simpl in *. subst s1.
  intros [= <- <- _]. simpl. split_and!; try done. by apply Hr.
Qed.

(** After a replacement by a plan of the table and after tree shaking the
    table holds no plan it did not hold before. *)
Lemma duringPass_replacePlan (s0 s s' : Aether) (p r : string) (w : list Event) :
  duringPass s0 s → p ≠ r → livePlan s r →
  replacePlan p r s = (Ok tt, s', w) →
  duringPass s0 s' ∧ ∀ q, livePlan s' q → livePlan s q.
Proof.
  intros (Hown & Hcounted & Hcount & Hopt & Hwas) Hne Hr Hrun.
  destruct (replacePlan_slots p r s) as (s'' & Hrun' & HR & Hslots).
  rewrite Hrun' in Hrun. injection Hrun as <- _.
  assert (Hlive : ∀ q, livePlan s'' q → livePlan s q).
  { intros q [j Hj]. rewrite Hslots in Hj. case_bool_decide.
    - by injection Hj as <-.
    - by exists j. }
  split; [|done]. split_and!.
  - intros q Hq. rewrite Hslots. pose proof (Hown q (Hlive q Hq)) as Hq'.
    destruct Hq as [j Hj]. rewrite Hslots in Hj. case_bool_decide as Hjp.
    + injection Hj as <-. rewrite (Hown r Hr). rewrite bool_decide_eq_false_2; [done|].
      naive_solver.
    + rewrite Hq'. rewrite bool_decide_eq_false_2; [done|]. intros [= ->]. by rewrite Hj in Hjp.
  - by apply (onlySlotsChanged_counted s).
  - by rewrite (onlySlotsChanged_planCount s s'').
  - destruct HR as [-> _]. done.
  - auto.
Qed.

Lemma duringPass_treeShakePlans `{Host} (s0 s s' : Aether) (w : list Event) :
  duringPass s0 s → treeShakePlans s = (Ok tt, s', w) →
  duringPass s0 s' ∧ ∀ q, livePlan s' q → livePlan s q.
Proof.
  intros (Hown & Hcounted & Hcount & Hopt & Hwas). rewrite treeShakePlans_run.
  destruct (activeAfterSeeds s) as [A|e]; [|discriminate]. intros [= <- _].
  assert (Hlive : ∀ q, livePlan (withPlans (λ _, sweep A (map fst (plans s)) (plans s)) s) q
                       → livePlan s q).
  { intros q [j Hj]. simpl in Hj. apply planAt_sweep in Hj as [Hj _]. by exists j. }
  split; [|done]. split_and!; try done.
  - intros q Hq. pose proof (Hown q (Hlive q Hq)) as Hq'.
    destruct Hq as [j Hj]. simpl in *. apply planAt_sweep in Hj as [_ HA].
    by apply planAt_sweep.
  - unfold tableCounted in *. simpl.
    by rewrite <- (length_map fst), sweep_keys, length_map.
  - auto.
Qed.

Section PassCovers.
Context `{Host} (s0 : Aether).
Hypothesis within : hostOptimizesWithinTable.

(** The loop over [first], with what the recursive call is known to do. *)
Lemma processFirst_covers
  (rec : option string → gset string * unit → M (gset string * unit))
  (p : string) (pending : gset string) :
  (∀ d st s st' s' w,
     rec (Some d) st s = (Ok st', s', w) →
     passCovers s0 s st.1 (pending ∪ {[p]} ∪ {[d]}) →
     passCovers s0 s' st'.1 (pending ∪ {[p]})) →
  ∀ first st s aborted st' s' w,
    processFirst rec p first st s = (Ok (aborted, st'), s', w) →
    passCovers s0 s st.1 (pending ∪ {[p]}) →
    passCovers s0 s' st'.1 (pending ∪ {[p]})
    ∧ (aborted = true → planAt (plans s') p = None).
Proof.
  intros Hrec. induction first as [|depId first IH]; intros st s aborted st' s' w; simpl.
  - intros [= <- <- <- _] Hcovers. done.
  - unfold slot at 1. rewrite bind_gets.
    destruct (planAt (plans s) depId) as [d|]; [|apply IH].
    case_bool_decide; [apply IH|].
    intros (st1 & s1 & w1 & w2 & Hcall & Hrest & _)%bind_Ok Hcovers.
    apply Hrec in Hcall; [|apply (passCovers_weaken _ _ _ _ _ Hcovers); set_solver].
    unfold slot in Hrest. rewrite bind_gets in Hrest.
    destruct (planAt (plans s1) p) eqn:Hp; [by apply (IH _ _ _ _ _ _ Hrest)|].
    injection Hrest as <- <- <- _. done.
Qed.

Lemma process_covers (n : nat) :
  ∀ (p : string) (processed pending : gset string) (s s' : Aether)
    (st' : gset string * unit) (w : list Event),
    process DependentsFirst (λ plan (_ : unit), let* r := optimizePlan plan in ret (r, tt))
      (Some (λ _ _, treeShakePlans)) n (Some p) (processed, tt) s = (Ok st', s', w) →
    passCovers s0 s processed (pending ∪ {[p]}) →
    passCovers s0 s' st'.1 pending.
Proof.
  induction n as [|n IH]; intros p processed pending s s' st' w; cbn [process fst].
  - case_bool_decide as Hp; [|discriminate].
    intros [= <- <- _] (Hduring & Hdone & Hlive). split; [done|]. split; [done|].
    intros q Hq. destruct (Hlive q Hq) as [?|Hin]; [by left|].
    apply elem_of_union in Hin as [?| ->%elem_of_singleton]; [by right|]. left. exact Hp.
  - case_bool_decide as Hp.
    { intros [= <- <- _] (Hduring & Hdone & Hlive). split; [done|]. split; [done|].
      intros q Hq. destruct (Hlive q Hq) as [?|Hin]; [by left|].
      apply elem_of_union in Hin as [?| ->%elem_of_singleton]; [by right|]. left. exact Hp. }
    intros (first & s1 & w1 & w2 & Hfirst & Hrest & _)%bind_Ok Hcovers.
    apply firstOf_Ok in Hfirst as ->.
    apply bind_Ok in Hrest as ([aborted [processed1 []]] & s2 & w3 & w4 & Hloop & Hrest & _).
    apply (processFirst_covers _ p pending) in Hloop as [Hcovers2 Haborted]; [| |exact Hcovers].
    2: { intros d [P []] t st1 t1 l Hcall Hpre. apply (IH _ _ _ _ _ _ _ Hcall).
         exact Hpre. }
    cbn [fst snd] in *. destruct aborted.
    { injection Hrest as <- <- _. destruct Hcovers2 as (Hduring & Hdone & Hlive).
      split; [done|]. split; [done|]. intros q Hq.
      destruct (Hlive q Hq) as [?|Hin]; [by left|].
      apply elem_of_union in Hin as [?| ->%elem_of_singleton]; [by right|].
      destruct Hduring as [Hown _]. rewrite (Hown p Hq) in Haborted. by discriminate Haborted. }
    clear Haborted. rewrite bind_gets in Hrest.
    apply bind_Ok in Hrest as ([r []] & s3 & w5 & w6 & Hcall & Hrest & _).
    apply rethrowing_Ok in Hcall.
    apply bind_Ok in Hcall as (r' & s3' & ? & ? & Hopt & Hret & _).
    injection Hret as -> -> _.
    apply (optimizePlan_Ok _ _ _ _ _ within) in Hopt
      as (Hnew & Hplans & Hcount & Hoptimized & Hr).
    destruct Hcovers2 as ((Hown & Hcounted & Hcount2 & Hsub & Hwas) & Hdone & Hlive).
    assert (Hsame : ∀ q, livePlan s3 q ↔ livePlan s2 q)
      by (intros q; unfold livePlan; by rewrite Hplans).
    assert (Hduring3 : duringPass s0 s3).
    { split_and!.
      - intros q Hq. rewrite Hplans. apply Hown. by apply Hsame.
      - unfold tableCounted. by rewrite Hplans, Hcount.
      - by rewrite Hcount.
      - rewrite Hoptimized. set_solver.
      - intros q Hq%Hsame. auto. }
    rewrite (bind_run_silent _ _ s3 s3 tt) in Hrest.
    2: { apply reads_finalizeArgumentsSince. rewrite <- Hcount. apply Hduring3. }
    cbn [fst snd] in Hrest.
    assert (Hend : ∀ s4, duringPass s0 s4 → (∀ q, livePlan s4 q → livePlan s3 q) →
              optimizedPlans s4 = optimizedPlans s3 →
              passCovers s0 s4 ({[p]} ∪ processed1) pending).
    { intros s4 Hduring4 Hshrinks Hopt4. split; [done|]. split.
      - intros q [->%elem_of_singleton|Hq]%elem_of_union.
        + rewrite Hopt4, Hoptimized. split; [set_solver|]. intros Hin. apply Hnew. set_solver.
        + destruct (Hdone q Hq). rewrite Hopt4, Hoptimized. split; [set_solver|done].
      - intros q Hq%Hshrinks%Hsame. destruct (Hlive q Hq); set_solver. }
    apply bind_Ok in Hrest as ([] & s4 & w7 & w8 & Hreplace & Hret & _).
    injection Hret as <- <- _. cbn [fst].
    case_bool_decide as Hne.
    + apply bind_Ok in Hreplace as ([] & s5 & ? & ? & Hrep & Hshake & _).
      destruct Hr as [->|Hr]; [done|].
      pose proof (replacePlan_slots p r s3) as (s5' & Hrep' & [Hs5 _] & _).
      rewrite Hrep' in Hrep. injection Hrep as <- _.
      destruct (duringPass_replacePlan s0 s3 s5' p r [] Hduring3 ltac:(congruence)
                  ltac:(by apply Hsame) Hrep') as [Hduring5 Hlive5].
      destruct (duringPass_treeShakePlans s0 s5' s4 _ Hduring5 Hshake) as [Hduring4 Hlive4].
      apply Hend; [done|auto|].
      rewrite treeShakePlans_run in Hshake. destruct (activeAfterSeeds s5'); [|discriminate].
      injection Hshake as <- _. simpl. rewrite Hs5. reflexivity.
    + injection Hreplace as <- _. by apply Hend.
Qed.

(** The loop of [processPlans] over the ids of the table. *)
Lemma optimizePlans_loop_covers (ids : list string) :
  ∀ (acc acc' : gset string * unit * nat * nat) (t t' : Aether) (w : list Event),
    forEach ids acc (λ i acc,
      let* plan := slot i in
      let* st := process DependentsFirst
                   (λ plan (_ : unit), let* r := optimizePlan plan in ret (r, tt))
                   (Some (λ _ _, treeShakePlans)) stack plan acc.1.1 in
      let* count := gets planCount in
      let plansAdded := acc.1.2 + (count - acc.2) in
      if isDev && (100000 <? N.of_nat plansAdded)%N then
        throw (Error ("Whilst processing plans as part of " +:+ "optimize"
                      +:+ "Plans, too many new plans have been created"))
      else ret (st, plansAdded, count)) t = (Ok acc', t', w) →
    passCovers s0 t acc.1.1.1 (list_to_set ids) →
    passCovers s0 t' acc'.1.1.1 ∅.
Proof.
  induction ids as [|i ids IH]; intros [[[processed []] added] l] acc' t t' w;
    cbn [forEach fst snd].
  - intros [= <- <- _]. done.
  - intros (acc1 & t1 & w1 & w2 & Hbody & Hrest & _)%bind_Ok Hcovers.
    apply (IH _ _ _ _ _ Hrest). clear Hrest IH.
    unfold slot in Hbody. rewrite bind_gets in Hbody.
    apply bind_Ok in Hbody as (st & t2 & w3 & w4 & Hprocess & Hrest & _).
    rewrite bind_gets in Hrest.
    assert (acc1.1.1 = st ∧ t1 = t2) as [-> ->].
    { destruct (isDev && _); [discriminate|]. by injection Hrest as <- <- _. }
    clear Hrest.
    assert (Hown : inOwnSlot t) by apply Hcovers.
    destruct (planAt (plans t) i) as [p|] eqn:Hi.
    + apply (process_covers _ _ _ _ _ _ _ _ Hprocess).
      destruct Hcovers as (Hduring & Hdone & Hlive). split; [done|]. split; [done|].
      intros q Hq. destruct (Hlive q Hq) as [?|Hin]; [by left|right].
      rewrite list_to_set_cons in Hin.
      apply elem_of_union in Hin as [->%elem_of_singleton|?]; [|set_solver].
      rewrite (Hown i Hq) in Hi. injection Hi as <-. set_solver.
    + destruct stack; simpl in Hprocess; injection Hprocess as <- <- _;
        (destruct Hcovers as (Hduring & Hdone & Hlive); split; [done|]; split; [done|];
         intros q Hq; destruct (Hlive q Hq) as [?|Hin]; [by left|right];
         rewrite list_to_set_cons in Hin;
         apply elem_of_union in Hin as [->%elem_of_singleton|?]; [|done];
         rewrite (Hown i Hq) in Hi; discriminate Hi).
Qed.

(** When the pass returns, every plan of the table is one the pass has
    optimized, and it was in the table at the start. *)
Lemma optimizePlans_covers (s' : Aether) (w : list Event) :
  inOwnSlot s0 → tableCounted s0 →
  optimizePlans s0 = (Ok tt, s', w) →
  ∀ q, livePlan s' q →
    q ∈ optimizedPlans s' ∧ (q ∉ optimizedPlans s0) ∧ livePlan s0 q.
Proof.
  intros Hown Hcounted. unfold optimizePlans, processPlans, getPlanIds.
  rewrite !bind_gets. rewrite drop_0.
  intros (acc & t & w1 & w2 & Hloop & Hrest & _)%bind_Ok.
  apply optimizePlans_loop_covers in Hloop.
  2: { split; [by split_and!|]. split; [simpl; set_solver|]. intros q Hq. right.
       apply elem_of_list_to_set. apply (planAt_key _ _ q). by apply Hown. }
  destruct Hloop as ((_ & _ & Hcount & _ & Hwas) & Hdone & Hlive).
  rewrite bind_gets, Hcount, Nat.ltb_irrefl, bind_ret in Hrest.
  injection Hrest as _ <- _. intros q Hq.
  destruct (Hlive q Hq) as [Hin|Hin]; [|set_solver].
  destruct (Hdone q Hin). auto.
Qed.

End PassCovers.

(** C8 as the code has it.  In a run of the optimize pass no plan's
    [optimize] method is called more than once, it is called only on plans
    not optimized before, and when the pass returns the plans in
    [optimizedPlans] are those that were there before and those whose
    [optimize] was called.  When the [optimize] methods leave the aether as
    it is and answer with the plan itself or with a plan of the table, and
    the pass starts on a table with no more keys than [planCount] counts and
    every plan of which sits in the slot of its own id, a pass that returns
    has called the [optimize] method of every plan that is in the table
    afterwards exactly once; a plan whose [optimize] method it has not
    called is no longer in the table, and no plan has entered the table.
    [optimizePlan] on a plan that is in [optimizedPlans] throws at once,
    making no call.  Plug-in code is taken not to write [optimizedPlans]. *)
Theorem optimizePlans_once_unless_dropped `{Host} (s : Aether) :
  hostKeepsOptimized →
  let result := optimizePlans s in
  (∀ plan, optimizeCalls result.2 plan ≤ 1)
  ∧ (∀ plan, 0 < optimizeCalls result.2 plan → plan ∉ optimizedPlans s)
  ∧ (result.1.1 = Ok tt →
       ∀ plan, plan ∈ optimizedPlans result.1.2 ↔
               plan ∈ optimizedPlans s ∨ optimizeCalls result.2 plan = 1)
  ∧ (hostOptimizesWithinTable → inOwnSlot s → tableCounted s →
     result.1.1 = Ok tt →
       (∀ plan, livePlan result.1.2 plan → optimizeCalls result.2 plan = 1)
       ∧ (∀ plan, optimizeCalls result.2 plan = 0 → ¬ livePlan result.1.2 plan)
       ∧ ∀ plan, livePlan result.1.2 plan → livePlan s plan)
  ∧ (∀ plan s0, plan ∈ optimizedPlans s0 →
       optimizePlan plan s0 = (Throw (Error "Must not optimize plan twice"), s0, [])).
Proof.
  intros Hkeeps result.
  destruct (optimizesOnce_optimizePlans Hkeeps s) as (Hnd & Hnew & Hset).
  fold result in Hnd, Hnew, Hset.
  assert (Hin : result.1.1 = Ok tt →
            ∀ plan, plan ∈ optimizedPlans result.1.2 ↔
                    plan ∈ optimizedPlans s ∨ optimizeCalls result.2 plan = 1).
  { intros Hok plan. rewrite (Hset tt Hok), elem_of_union, elem_of_list_to_set.
    rewrite <- optimizeCalls_pos.
    pose proof (optimizeCalls_NoDup _ plan Hnd). split; intros [?|?]; auto; right; lia. }
  split_and!.
  - intros plan. by apply optimizeCalls_NoDup.
  - intros plan Hcalls. by apply Hnew, optimizeCalls_pos.
  - exact Hin.
  - intros Hwithin Hown Hcounted Hok.
    assert (Hcovers : ∀ q, livePlan result.1.2 q →
              q ∈ optimizedPlans result.1.2 ∧ (q ∉ optimizedPlans s) ∧ livePlan s q).
    { apply (optimizePlans_covers s Hwithin result.1.2 result.2 Hown Hcounted).
      clear -Hok. unfold result in *. destruct (optimizePlans s) as [[r t] w].
      simpl in *. by rewrite Hok. }
    assert (Hone : ∀ plan, livePlan result.1.2 plan → optimizeCalls result.2 plan = 1).
    { intros plan Hplan. destruct (Hcovers plan Hplan) as (Hopt & Hfresh & _).
      apply (Hin Hok) in Hopt as [?|?]; done. }
    split_and!; [done| |].
    + intros plan Hnone Hplan. rewrite (Hone plan Hplan) in Hnone. discriminate Hnone.
    + intros plan Hplan. by apply Hcovers.
  - intros plan s0 Hplan. unfold optimizePlan. rewrite bind_gets.
    by rewrite bool_decide_eq_true_2.
Qed.

Lemma inliningHost_keeps_optimized : @hostKeepsOptimized inliningHost.
Proof. repeat split. Qed.

Lemma inliningHost_within_table : @hostOptimizesWithinTable inliningHost.
Proof.
  intros plan options s. split; [done|]. simpl. intros r [= <-].
  destruct (objects s !! plan) as [o|]; [|by left].
  destruct (last (dependencies o)) as [depId|]; [|by left].
  destruct (planAt (plans s) depId) as [q|] eqn:Hq; [|by left].
  right. by exists depId.
Qed.

Lemma optimizeAether_inOwnSlot : inOwnSlot optimizeAether.
Proof.
  intros p [i Hi]. revert Hi. unfold planAt. cbn -[String.eqb].
  destruct (String.eqb_spec "_1" i); [by intros [= <-]|].
  destruct (String.eqb_spec "_2" i); [by intros [= <-]|].
  destruct (String.eqb_spec "_3" i); [by intros [= <-]|]. done.
Qed.

(** On [optimizeAether] with [_3] inlined into [_2]: the pass returns, and
    every plan left in the table was optimized exactly once; [_1], whose
    [optimize] was not called, is no longer in the table; a second
    [optimizePlan] on [_3] is refused. *)
Lemma optimizePlans_once_unless_dropped_witness :
  let result := @optimizePlans inliningHost optimizeAether in
  result.1.1 = Ok tt
  ∧ (∀ plan, livePlan result.1.2 plan → optimizeCalls result.2 plan = 1)
  ∧ optimizeCalls result.2 "_1" = 0
  ∧ ¬ livePlan result.1.2 "_1"
  ∧ @optimizePlan inliningHost "_3" result.1.2
    = (Throw (Error "Must not optimize plan twice"), result.1.2, []).
Proof.
  intros result.
  destruct (@optimizePlans_once_unless_dropped inliningHost optimizeAether
              inliningHost_keeps_optimized) as (Hle & _ & Hset & Hkept & Htwice).
  assert (Hok : result.1.1 = Ok tt) by (vm_compute; reflexivity).
  destruct (Hkept inliningHost_within_table optimizeAether_inOwnSlot
              ltac:(vm_compute; lia) Hok) as (Hone & Hdropped & _).
  split_and!; [done|done|vm_compute; reflexivity| |].
  - apply Hdropped. vm_compute. reflexivity.
  - apply Htwice. apply (Hset Hok). right. vm_compute. reflexivity.
Defined.
